(** * bipy.core.tree: the TreeNode class, embedded over an object store

    The Python class [TreeNode] keeps a mutable graph of objects: every node
    holds a reference to its parent and a list of references to its children,
    plus attributes that some methods attach on the fly ([black],
    [MaxDistTips], [__start], [__stop]).  The embedding keeps that shape:
    objects live in a store indexed by handles, attributes are record fields
    (an attribute that may be missing is an [option]), methods are functions
    in a state-and-exception monad, and every [while] loop takes fuel.

    Branch lengths are whole numbers here.  The accumulators of
    [_accumulate_to_ancestor] and [distance] are floats, with the rounding
    of every addition; the float arrays of [tip_tip_distances] and the
    distances of the diameter memo are written as whole numbers, which is
    what they hold as long as no sum in them exceeds 2^53. *)

From stdpp Require Import gmap strings list pretty.
From Stdlib Require Import ZArith Lia Ascii.

Set Warnings "-register-all".

Open Scope Z_scope.
Open Scope nat_scope.

(** ** Exceptions and results *)

Inductive exn :=
  | DuplicateNodeError   (* bipy.core.exception *)
  | MissingNodeError
  | NoParentError
  | NoLengthError
  | ValueError
  | AttributeError       (* attribute read on None, or of a missing attribute *)
  | IndexError           (* list index out of range *)
  | OverflowError        (* an int too large to convert to float *)
  | OutOfFuel            (* model only: a loop ran longer than its fuel *)
  | Dangling.            (* model only: a handle that is not in the store *)

Inductive res (A : Type) :=
  | Ok (a : A)
  | Raise (e : exn).
Arguments Ok {A} a.
Arguments Raise {A} e.

Definition rbind {A B} (m : res A) (k : A → res B) : res B :=
  match m with
  | Ok a => k a
  | Raise e => Raise e
  end.

Notation "'let?' x ':=' m 'in' k" := (rbind m (λ x, k))
  (at level 10, x name, m at level 100, k at level 200, only parsing).
Notation "'let?' ' p ':=' m 'in' k" := (rbind m (λ x, match x with p => k end))
  (at level 10, p pattern, m at level 100, k at level 200, only parsing).

Definition or_raise {A} (e : exn) (o : option A) : res A :=
  match o with
  | Some a => Ok a
  | None => Raise e
  end.

(** A generator is modelled by the list of what it yields. *)
Definition yield {A} (x : A) (rest : res (list A)) : res (list A) :=
  let? l := rest in Ok (x :: l).

Definition yield_if {A} (b : bool) (x : A) (rest : res (list A)) : res (list A) :=
  if b then yield x rest else rest.

(** ** Python lists *)

(** [l.pop()] and [l[-1]]: the top of a stack is the last element. *)
Fixpoint py_pop_last {A} (l : list A) : option (list A * A) :=
  match l with
  | [] => None
  | x :: l' =>
      match py_pop_last l' with
      | None => Some ([], x)
      | Some (r, y) => Some (x :: r, y)
      end
  end.

(** [l[-1] = f(l[-1])] *)
Definition py_update_last {A} (f : A → A) (l : list A) : option (list A) :=
  match py_pop_last l with
  | None => None
  | Some (r, y) => Some (r ++ [f y])
  end.

(** Index normalisation of [l[i]] and [l.pop(i)]: a negative index counts
    from the end; anything outside the list is an IndexError. *)
Definition py_index (len : nat) (i : Z) : option nat :=
  let j := (if i <? 0 then i + Z.of_nat len else i)%Z in
  if ((0 <=? j) && (j <? Z.of_nat len))%Z then Some (Z.to_nat j) else None.

Definition py_get {A} (l : list A) (i : Z) : res A :=
  or_raise IndexError (j ← py_index (length l) i; l !! j).

Definition py_pop {A} (l : list A) (i : Z) : res (list A * A) :=
  or_raise IndexError (j ← py_index (length l) i; x ← l !! j; Some (delete j l, x)).

(** [nonempty l] is the truth value of a list. *)
Definition nonempty {A} (l : list A) : bool :=
  match l with
  | [] => false
  | _ => true
  end.

(** ** Objects and the store *)

Abbreviation handle := nat.

Record TreeNode := mkTreeNode {
  Name : option string;
  Length : option Z;
  Parent : option handle;
  Children : list handle;
  _node_cache : gmap string handle;
  black : option (list handle);       (* set and deleted by lowest_common_ancestor *)
  MaxDistTips : option (nat * nat);   (* two references to [dist, tip] lists *)
  __start : option nat;               (* set by tip_tip_distances *)
  __stop : option nat
}.

(** [TreeNode(Name, Length, Parent)] *)
Definition __init__ (name : option string) (len : option Z) (parent : option handle)
  : TreeNode :=
  mkTreeNode name len parent [] ∅ None None None None.

Definition set_Parent (p : option handle) (n : TreeNode) : TreeNode :=
  mkTreeNode (Name n) (Length n) p (Children n) (_node_cache n) (black n)
             (MaxDistTips n) (__start n) (__stop n).
Definition set_Children (cs : list handle) (n : TreeNode) : TreeNode :=
  mkTreeNode (Name n) (Length n) (Parent n) cs (_node_cache n) (black n)
             (MaxDistTips n) (__start n) (__stop n).
Definition set_node_cache (c : gmap string handle) (n : TreeNode) : TreeNode :=
  mkTreeNode (Name n) (Length n) (Parent n) (Children n) c (black n)
             (MaxDistTips n) (__start n) (__stop n).
Definition set_black (b : option (list handle)) (n : TreeNode) : TreeNode :=
  mkTreeNode (Name n) (Length n) (Parent n) (Children n) (_node_cache n) b
             (MaxDistTips n) (__start n) (__stop n).
Definition set_MaxDistTips (m : option (nat * nat)) (n : TreeNode) : TreeNode :=
  mkTreeNode (Name n) (Length n) (Parent n) (Children n) (_node_cache n) (black n)
             m (__start n) (__stop n).
Definition set_start_stop (a b : nat) (n : TreeNode) : TreeNode :=
  mkTreeNode (Name n) (Length n) (Parent n) (Children n) (_node_cache n) (black n)
             (MaxDistTips n) (Some a) (Some b).

(** The store: the node objects, and the two-element lists [[dist, tip]]
    that [_set_max_distance] creates, shares between nodes and updates in
    place. *)
Record store := mkStore {
  nodes : gmap handle TreeNode;
  cells : list (Z * handle)
}.

Definition node (s : store) (n : handle) : res TreeNode :=
  or_raise Dangling (nodes s !! n).

(** [bool(node)]: the class defines [__len__] as the number of children and
    no [__nonzero__], so a node without children is false. *)
Definition truthy (nd : TreeNode) : bool := nonempty (Children nd).

(** ** The state-and-exception monad

    A raised exception keeps the store as it was when the exception left
    the method: Python does not roll anything back. *)

Definition M (A : Type) : Type := store → res A * store.

Definition ret {A} (a : A) : M A := λ s, (Ok a, s).
Definition raise {A} (e : exn) : M A := λ s, (Raise e, s).
Definition bind {A B} (m : M A) (k : A → M B) : M B :=
  λ s, match m s with
       | (Ok a, s') => k a s'
       | (Raise e, s') => (Raise e, s')
       end.
Definition lift {A} (f : store → res A) : M A := λ s, (f s, s).
Definition pure_res {A} (r : res A) : M A := λ s, (r, s).

Notation "'let*' x ':=' m 'in' k" := (bind m (λ x, k))
  (at level 10, x name, m at level 100, k at level 200, only parsing).
Notation "'let*' ' p ':=' m 'in' k" := (bind m (λ x, match x with p => k end))
  (at level 10, p pattern, m at level 100, k at level 200, only parsing).

Definition get (n : handle) : M TreeNode := lift (λ s, node s n).

Definition modify (n : handle) (f : TreeNode → TreeNode) : M unit :=
  λ s, match nodes s !! n with
       | Some nd => (Ok tt, mkStore (<[n := f nd]> (nodes s)) (cells s))
       | None => (Raise Dangling, s)
       end.

(** [for x in l: body(x)] *)
Fixpoint for_each {A} (l : list A) (body : A → M unit) : M unit :=
  match l with
  | [] => ret tt
  | x :: l' => let* _ := body x in for_each l' body
  end.

(** [[f(x) for x in l]], also Python 2's eager [map(f, l)] *)
Fixpoint map_M {A B} (f : A → M B) (l : list A) : M (list B) :=
  match l with
  | [] => ret []
  | x :: l' => let* y := f x in let* ys := map_M f l' in ret (y :: ys)
  end.

Fixpoint map_res {A B} (f : A → res B) (l : list A) : res (list B) :=
  match l with
  | [] => Ok []
  | x :: l' => let? y := f x in let? ys := map_res f l' in Ok (y :: ys)
  end.

(** ** Topology updates *)

Definition invalidate_node_cache (self : handle) : M unit :=
  modify self (set_node_cache ∅).

Definition _remove_node (self : handle) (idx : Z) : M handle :=
  let* _ := invalidate_node_cache self in
  let* nd := get self in
  let* '(cs, n) := pure_res (py_pop (Children nd) idx) in
  let* _ := modify self (set_Children cs) in
  let* _ := modify n (set_Parent None) in
  ret n.

(** The index at which [enumerate(self.Children)] first meets [node]. *)
Fixpoint remove_scan (n : handle) (i : nat) (cs : list handle) : option nat :=
  match cs with
  | [] => None
  | curr_node :: cs' =>
      if decide (curr_node = n) then Some i else remove_scan n (S i) cs'
  end.

Definition remove (self n : handle) : M bool :=
  let* nd := get self in
  match remove_scan n 0 (Children nd) with
  | Some i => let* _ := _remove_node self (Z.of_nat i) in ret true
  | None => let* _ := invalidate_node_cache self in ret false
  end.

Definition _adopt (self n : handle) : M handle :=
  let* nd := get n in
  let* _ := match Parent nd with
              | Some p => let* _ := remove p n in ret tt
              | None => ret tt
              end in
  let* _ := modify n (set_Parent (Some self)) in
  let* _ := invalidate_node_cache self in
  ret n.

Definition append (self n : handle) : M unit :=
  let* a := _adopt self n in
  let* _ := modify self (λ nd, set_Children (Children nd ++ [a]) nd) in
  invalidate_node_cache self.

(** What [extend] is given.  [map] walks the list while the adoptions
    run, and an adoption takes the node out of the [Children] list of its
    old parent in place.  So it matters whether the list is one that no
    node holds, or the [Children] list of a node itself, as in
    [new.extend(old.Children)]. *)
Inductive node_list :=
  | Listed (ns : list handle)
  | ChildrenOf (owner : handle).

(** [map(self._adopt, owner.Children)]: the list iterator reads position
    [i] of the list as it is at that moment and stops when there is none.
    No adoption makes a list longer, so one step more than the list is
    long at the start is fuel enough. *)
Fixpoint adopt_live (fuel : nat) (self owner : handle) (i : nat) : M (list handle) :=
  match fuel with
  | 0 => raise OutOfFuel
  | S fuel =>
      let* od := get owner in
      match Children od !! i with
      | None => ret []
      | Some n =>
          let* a := _adopt self n in
          let* rest := adopt_live fuel self owner (S i) in
          ret (a :: rest)
      end
  end.

Definition adopt_nodes (self : handle) (ns : node_list) : M (list handle) :=
  match ns with
  | Listed ns => map_M (_adopt self) ns
  | ChildrenOf owner =>
      let* od := get owner in
      adopt_live (S (length (Children od))) self owner 0
  end.

Definition extend (self : handle) (ns : node_list) : M unit :=
  let* adopted := adopt_nodes self ns in
  let* _ := modify self (λ nd, set_Children (Children nd ++ adopted) nd) in
  invalidate_node_cache self.

Definition pop (self : handle) (index : Z) : M handle :=
  let* _ := invalidate_node_cache self in
  _remove_node self index.

(** ** Traversals

    A traversal reads [Children] and [Parent] only.  Its consumers in this
    file never change those two attributes while they iterate, so the
    generator is run to its end on the store in which it was started. *)

Definition children_of (s : store) (n : handle) : res (list handle) :=
  let? nd := node s n in Ok (Children nd).

Fixpoint preorder_loop (fuel : nat) (s : store) (self : handle) (include_self : bool)
    (stack : list handle) : res (list handle) :=
  match fuel with
  | 0 => Raise OutOfFuel
  | S fuel =>
      match py_pop_last stack with
      | None => Ok []
      | Some (stack, curr) =>
          let? cs := children_of s curr in
          yield_if (include_self || negb (curr =? self)) curr
            (preorder_loop fuel s self include_self
               (if nonempty cs then stack ++ rev cs else stack))
      end
  end.

Definition preorder (fuel : nat) (s : store) (self : handle) (include_self : bool)
  : res (list handle) :=
  preorder_loop fuel s self include_self [self].

Fixpoint postorder_loop (fuel : nat) (s : store) (self : handle) (include_self : bool)
    (child_index_stack : list nat) (curr : handle) (curr_children : list handle)
  : res (list handle) :=
  match fuel with
  | 0 => Raise OutOfFuel
  | S fuel =>
      let? '(below, curr_index) := or_raise IndexError (py_pop_last child_index_stack) in
      if curr_index <? length curr_children then
        let? curr_child := or_raise IndexError (curr_children !! curr_index) in
        let? cc := children_of s curr_child in
        if nonempty cc then
          postorder_loop fuel s self include_self (child_index_stack ++ [0])
                         curr_child cc
        else
          yield curr_child
            (postorder_loop fuel s self include_self (below ++ [S curr_index])
                            curr curr_children)
      else
        yield_if (include_self || negb (curr =? self)) curr
          (if curr =? self then Ok []
           else
             let? nd := node s curr in
             let? p := or_raise AttributeError (Parent nd) in
             let? pc := children_of s p in
             let? stack := or_raise IndexError (py_update_last S below) in
             postorder_loop fuel s self include_self stack p pc)
  end.

Definition postorder (fuel : nat) (s : store) (self : handle) (include_self : bool)
  : res (list handle) :=
  let? cs := children_of s self in
  postorder_loop fuel s self include_self [0] self cs.

Fixpoint pre_and_postorder_loop (fuel : nat) (s : store) (self : handle)
    (include_self : bool) (child_index_stack : list nat) (curr : handle)
    (curr_children : list handle) : res (list handle) :=
  match fuel with
  | 0 => Raise OutOfFuel
  | S fuel =>
      let? '(below, curr_index) := or_raise IndexError (py_pop_last child_index_stack) in
      yield_if ((curr_index =? 0) && (include_self || negb (curr =? self))) curr
        (if curr_index <? length curr_children then
           let? curr_child := or_raise IndexError (curr_children !! curr_index) in
           let? cc := children_of s curr_child in
           if nonempty cc then
             pre_and_postorder_loop fuel s self include_self
               (child_index_stack ++ [0]) curr_child cc
           else
             yield curr_child
               (pre_and_postorder_loop fuel s self include_self
                  (below ++ [S curr_index]) curr curr_children)
         else
           yield_if (include_self || negb (curr =? self)) curr
             (if curr =? self then Ok []
              else
                let? nd := node s curr in
                let? p := or_raise AttributeError (Parent nd) in
                let? pc := children_of s p in
                let? stack := or_raise IndexError (py_update_last S below) in
                pre_and_postorder_loop fuel s self include_self stack p pc))
  end.

Definition pre_and_postorder (fuel : nat) (s : store) (self : handle)
    (include_self : bool) : res (list handle) :=
  let? cs := children_of s self in
  if nonempty cs then pre_and_postorder_loop fuel s self include_self [0] self cs
  else yield_if include_self self (Ok []).

Fixpoint levelorder_loop (fuel : nat) (s : store) (self : handle) (include_self : bool)
    (queue : list handle) : res (list handle) :=
  match fuel with
  | 0 => Raise OutOfFuel
  | S fuel =>
      match queue with
      | [] => Ok []
      | curr :: queue =>
          let? cs := children_of s curr in
          yield_if (include_self || negb (curr =? self)) curr
            (levelorder_loop fuel s self include_self
               (if nonempty cs then queue ++ cs else queue))
      end
  end.

Definition levelorder (fuel : nat) (s : store) (self : handle) (include_self : bool)
  : res (list handle) :=
  levelorder_loop fuel s self include_self [self].

Fixpoint tips_loop (fuel : nat) (s : store) (stack : list handle) : res (list handle) :=
  match fuel with
  | 0 => Raise OutOfFuel
  | S fuel =>
      match py_pop_last stack with
      | None => Ok []
      | Some (stack, curr) =>
          let? cs := children_of s curr in
          if nonempty cs then tips_loop fuel s (stack ++ rev cs)
          else yield curr (tips_loop fuel s stack)
      end
  end.

Definition tips (fuel : nat) (s : store) (self : handle) (include_self : bool)
  : res (list handle) :=
  let? cs := children_of s self in
  if nonempty cs then tips_loop fuel s [self]
  else yield_if include_self self (Ok []).

Definition traverse (fuel : nat) (s : store) (self : handle)
    (self_before self_after include_self : bool) : res (list handle) :=
  if self_before then
    if self_after then pre_and_postorder fuel s self include_self
    else preorder fuel s self include_self
  else
    if self_after then postorder fuel s self include_self
    else tips fuel s self include_self.

(** [for n in ...: if n.Children: yield n] *)
Fixpoint keep_internal (s : store) (l : list handle) : res (list handle) :=
  match l with
  | [] => Ok []
  | n :: l' =>
      let? cs := children_of s n in
      yield_if (nonempty cs) n (keep_internal s l')
  end.

Definition non_tips (fuel : nat) (s : store) (self : handle) (include_self : bool)
  : res (list handle) :=
  let? l := traverse fuel s self true false include_self in
  keep_internal s l.

(** [acc = init; for x in l: acc = body(acc, x)] *)
Fixpoint fold_M {A B} (body : B → A → M B) (l : list A) (acc : B) : M B :=
  match l with
  | [] => ret acc
  | x :: l' => let* acc := body acc x in fold_M body l' acc
  end.

(** ** prune *)

Definition prune (fuel : nat) (self : handle) : M unit :=
  let* visited := lift (λ s, traverse fuel s self true false false) in
  let* nodes_to_remove :=
    lift (λ s, map_res (λ n, let? nd := node s n in Ok (n, length (Children nd))) visited) in
  let nodes_to_remove := (filter (λ x, x.2 = 1) nodes_to_remove).*1 in
  let* _ := for_each nodes_to_remove (λ n,
    let* nd := get n in
    let* p := pure_res (or_raise AttributeError (Parent nd)) in
    let* c := pure_res (py_get (Children nd) 0) in
    let* _ := append p c in
    let* _ := remove p n in
    ret tt) in
  invalidate_node_cache self.

(** ** Name cache *)

(** What [find] is given: a name, or a node ([isinstance(name, TreeNode)]). *)
Inductive key :=
  | ByName (name : string)
  | ByNode (n : handle).

Definition cache_add (self : handle) (n : handle) : M unit :=
  let* nd := get n in
  match Name nd with
  | None => ret tt
  | Some name =>
      let* me := get self in
      match _node_cache me !! name with
      | Some _ => raise DuplicateNodeError
      | None => modify self (λ me, set_node_cache (<[name := n]> (_node_cache me)) me)
      end
  end.

Definition create_node_cache (fuel : nat) (self : handle) : M unit :=
  let* me := get self in
  if bool_decide (_node_cache me = ∅) then
    let* visited := lift (λ s, traverse fuel s self true false true) in
    for_each visited (cache_add self)
  else ret tt.

Definition find (fuel : nat) (self : handle) (name : key) : M handle :=
  match name with
  | ByNode n => ret n
  | ByName name =>
      let* _ := create_node_cache fuel self in
      let* me := get self in
      match _node_cache me !! name with
      | None => raise MissingNodeError
      | Some n => ret n
      end
  end.

(** ** lowest_common_ancestor *)

(** [while curr and not hasattr(curr, 'black'): ...]; returns [prev], [curr]
    and [nodes_to_scrub] as they are when the loop is left. *)
Fixpoint mark_path (fuel : nat) (prev : handle) (curr : option handle)
    (nodes_to_scrub : list handle) : M (handle * option handle * list handle) :=
  match fuel with
  | 0 => raise OutOfFuel
  | S fuel =>
      match curr with
      | None => ret (prev, None, nodes_to_scrub)
      | Some c =>
          let* nd := get c in
          if truthy nd && negb (bool_decide (is_Some (black nd))) then
            let* _ := modify c (set_black (Some [prev])) in
            mark_path fuel c (Parent nd) (nodes_to_scrub ++ [c])
          else ret (prev, Some c, nodes_to_scrub)
      end
  end.

(** [if curr: curr.black.append(prev)] *)
Definition count_hit (prev : handle) (curr : option handle) : M unit :=
  match curr with
  | None => ret tt
  | Some c =>
      let* nd := get c in
      if truthy nd then
        match black nd with
        | Some b => modify c (set_black (Some (b ++ [prev])))
        | None => raise AttributeError
        end
      else ret tt
  end.

Definition mark_tip (fuel : nat) (nodes_to_scrub : list handle) (t : handle)
  : M (list handle) :=
  let* nd := get t in
  let* '(prev, curr, nodes_to_scrub) := mark_path fuel t (Parent nd) nodes_to_scrub in
  let* _ := count_hit prev curr in
  ret nodes_to_scrub.

(** [while len(curr.black) == 1: curr = curr.black[0]] *)
Fixpoint descend (fuel : nat) (curr : handle) : M handle :=
  match fuel with
  | 0 => raise OutOfFuel
  | S fuel =>
      let* nd := get curr in
      match black nd with
      | None => raise AttributeError
      | Some b =>
          if length b =? 1 then
            let* next := pure_res (py_get b 0) in descend fuel next
          else ret curr
      end
  end.

(** [delattr(n, 'black')] *)
Definition delattr_black (n : handle) : M unit :=
  let* nd := get n in
  match black nd with
  | None => raise AttributeError
  | Some _ => modify n (set_black None)
  end.

Definition lowest_common_ancestor (fuel : nat) (self : handle) (tipnames : list key)
  : M (option handle) :=
  if length tipnames =? 1 then
    let* name := pure_res (py_get tipnames 0) in
    let* n := find fuel self name in
    ret (Some n)
  else
    let* tips := map_M (find fuel self) tipnames in
    if length tips =? 0 then ret None
    else
      let* nodes_to_scrub := fold_M (mark_tip fuel) tips [] in
      let* curr := descend fuel self in
      let* _ := for_each nodes_to_scrub delattr_black in
      ret (Some curr).

(** ** Distances *)

(** *** Floats

    [accum = 0.0; accum += curr.Length]: the accumulator is a Python float,
    an IEEE 754 double, and every addition rounds to 53 significant bits.
    A branch length of this model is a whole number, and a sum of whole
    numbers is a whole number; so the floats met here are the whole numbers
    that a double holds, the two infinities and NaN. *)

(** The nearest number with 53 significant bits, a tie going to the one
    whose last bit is 0 *)
Definition round_53 (z : Z) : Z :=
  let a := Z.abs z in
  let e := (Z.log2 a - 52)%Z in
  if (e <=? 0)%Z then z
  else
    let q := (a / 2 ^ e)%Z in
    let r := (a mod 2 ^ e)%Z in
    let half := (2 ^ (e - 1))%Z in
    let q' := if (r <? half)%Z then q
              else if (half <? r)%Z then (q + 1)%Z
              else if Z.even q then q else (q + 1)%Z in
    (Z.sgn z * (q' * 2 ^ e))%Z.

Inductive float :=
  | Finite (z : Z)
  | Infinity (negative : bool)
  | NaN.

(** The double nearest to a whole number; what rounds to 2^1024 or beyond
    is an infinity *)
Definition to_float (z : Z) : float :=
  let r := round_53 z in
  if (Z.abs r <? 2 ^ 1024)%Z then Finite r else Infinity (z <? 0)%Z.

(** [x + y] on floats *)
Definition float_add (x y : float) : float :=
  match x, y with
  | Finite a, Finite b => to_float (a + b)
  | NaN, _ | _, NaN => NaN
  | Infinity n, Infinity n' => if Bool.eqb n n' then Infinity n else NaN
  | Infinity n, Finite _ | Finite _, Infinity n => Infinity n
  end.

(** The int operand of [float + int] is converted to a float first;
    Python raises OverflowError if it is too large for one. *)
Definition float_of_int (l : Z) : res float :=
  match to_float l with
  | Finite r => Ok (Finite r)
  | _ => Raise OverflowError
  end.

Fixpoint _accumulate_loop (fuel : nat) (s : store) (ancestor : handle) (accum : float)
    (curr : handle) : res float :=
  match fuel with
  | 0 => Raise OutOfFuel
  | S fuel =>
      if curr =? ancestor then Ok accum
      else
        let? nd := node s curr in
        match Parent nd with
        | None => Raise NoParentError
        | Some p =>
            match Length nd with
            | None => Raise NoLengthError
            | Some l =>
                let? x := float_of_int l in
                _accumulate_loop fuel s ancestor (float_add accum x) p
            end
        end
  end.

Definition _accumulate_to_ancestor (fuel : nat) (s : store) (self ancestor : handle)
  : res float :=
  _accumulate_loop fuel s ancestor (Finite 0) self.

(** *** The diameter: _set_max_distance and get_max_distance

    [MaxDistTips] is a list of two lists [[dist, tip]].  The inner lists are
    created once per tip and then handed upwards: a parent stores the very
    list objects of its children and adds to their first element in place.
    They are the [cells] of the store.

    Two things the source leaves to its libraries are parameters here:
    numpy's [argsort], and the order Python 2 puts on two different node
    objects, which [max] falls back on when two distances are equal. *)

Section MaxDistance.

Variable argsort : list Z → list nat.
Variable node_gt : handle → handle → bool.

Definition new_cell (dist : Z) (tip : handle) : M nat :=
  λ s, (Ok (length (cells s)), mkStore (nodes s) (cells s ++ [(dist, tip)])).

Definition cell (c : nat) : M (Z * handle) :=
  lift (λ s, or_raise Dangling (cells s !! c)).

(** [c[0] += x] *)
Definition cell_add (c : nat) (x : Z) : M unit :=
  λ s, match cells s !! c with
       | Some (d, tip) => (Ok tt, mkStore (nodes s) (<[c := ((d + x)%Z, tip)]> (cells s)))
       | None => (Raise Dangling, s)
       end.

(** [b > a] on two lists [[dist, tip]]: the first elements that differ
    decide. *)
Definition pair_gt (b a : Z * handle) : bool :=
  if (b.1 =? a.1)%Z then
    if b.2 =? a.2 then false else node_gt b.2 a.2
  else (a.1 <? b.1)%Z.

(** [max(c.MaxDistTips)]: the first of the two unless the second is greater *)
Definition max_tip (m : nat * nat) : M nat :=
  let* a := cell m.1 in
  let* b := cell m.2 in
  ret (if pair_gt b a then m.2 else m.1).

Definition max_dist_tips (n : handle) : M (nat * nat) :=
  let* nd := get n in
  pure_res (or_raise AttributeError (MaxDistTips nd)).

(** [x or 0.0] for a branch length *)
Definition or_zero (l : option Z) : Z :=
  match l with
  | Some x => x
  | None => 0%Z
  end.

(** [l[-2:]] *)
Definition last_two {A} (l : list A) : list A := drop (length l - 2) l.

Definition set_max_distance_at (n : handle) : M unit :=
  let* nd := get n in
  if negb (nonempty (Children nd)) then
    let* a := new_cell 0 n in
    let* b := new_cell 0 n in
    modify n (set_MaxDistTips (Some (a, b)))
  else
    let* '(tip_a, tip_b) :=
      if length (Children nd) =? 1 then
        let* c := pure_res (py_get (Children nd) 0) in
        let* '(tip_a, tip_b) := max_dist_tips c in
        let* cd := get c in
        let* _ := cell_add tip_a (or_zero (Length cd)) in
        let* _ := cell_add tip_b (or_zero (Length cd)) in
        ret (tip_a, tip_b)
      else
        let* tip_info :=
          map_M (λ c, let* m := max_dist_tips c in
                      let* best := max_tip m in
                      ret (best, c)) (Children nd) in
        let* dists := map_M (λ i, let* d := cell i.1 in ret d.1) tip_info in
        let best_idx := last_two (argsort dists) in
        let* i0 := pure_res (py_get best_idx 0) in
        let* i1 := pure_res (py_get best_idx 1) in
        let* '(tip_a, child_a) := pure_res (or_raise IndexError (tip_info !! i0)) in
        let* '(tip_b, child_b) := pure_res (or_raise IndexError (tip_info !! i1)) in
        let* a := get child_a in
        let* _ := cell_add tip_a (or_zero (Length a)) in
        let* b := get child_b in
        let* _ := cell_add tip_b (or_zero (Length b)) in
        ret (tip_a, tip_b) in
    modify n (set_MaxDistTips (Some (tip_a, tip_b))).

Definition _set_max_distance (fuel : nat) (self : handle) : M unit :=
  let* visited := lift (λ s, postorder fuel s self true) in
  for_each visited set_max_distance_at.

(** The loop of [get_max_distance] over [self.non_tips(include_self=True)] *)
Definition longest_of (fuel : nat) (self : handle)
  : M (Z * (option handle * option handle)) :=
  let* internal := lift (λ s, non_tips fuel s self true) in
  fold_M (λ '(longest, tips) n,
            let* '(tip_a, tip_b) := max_dist_tips n in
            let* a := cell tip_a in
            let* b := cell tip_b in
            let dist := (a.1 + b.1)%Z in
            ret (if (longest <? dist)%Z then (dist, (Some a.2, Some b.2))
                 else (longest, tips)))
         internal (0%Z, (None, None)).

Definition get_max_distance (fuel : nat) (self : handle)
  : M (Z * (option handle * option handle)) :=
  let* me := get self in
  let* _ := if bool_decide (is_Some (MaxDistTips me)) then ret tt
            else _set_max_distance fuel self in
  longest_of fuel self.

End MaxDistance.

(** A stable [argsort], which is what numpy's default sort does on the
    short arrays of the examples below. *)
Fixpoint insert_index (key : nat → Z) (i : nat) (sorted : list nat) : list nat :=
  match sorted with
  | [] => [i]
  | j :: rest =>
      if (key i <? key j)%Z then i :: j :: rest else j :: insert_index key i rest
  end.

Definition stable_argsort (l : list Z) : list nat :=
  foldl (λ sorted i, insert_index (λ k, default 0%Z (l !! k)) i sorted) []
        (seq 0 (length l)).

(** *** tip_tip_distances *)

(** [zeros(n)] and [zeros((n, m))] *)
Definition zeros (n : nat) : list Z := replicate n 0%Z.
Definition zeros2 (n m : nat) : list (list Z) := replicate n (zeros m).

(** [v[a:b] += x]; a slice is cut to the array, it never fails *)
Definition slice_add (a b : nat) (x : Z) (v : list Z) : list Z :=
  imap (λ i y, if (a <=? i) && (i <? b) then (y + x)%Z else y) v.

(** [m[i, j]] and [m[i, j] = x], with numpy's bounds check *)
Definition mat_get (m : list (list Z)) (i j : nat) : option Z :=
  row ← m !! i; row !! j.

Definition mat_set (m : list (list Z)) (i j : nat) (x : Z) : res (list (list Z)) :=
  match m !! i with
  | Some row =>
      if j <? length row then Ok (<[i := <[j := x]> row]> m) else Raise IndexError
  | None => Raise IndexError
  end.

(** [m + m.T] for a square [m] *)
Definition plus_transpose (m : list (list Z)) : list (list Z) :=
  imap (λ i row, imap (λ j x, (x + default 0%Z (mat_get m j i))%Z) row) m.

(** [combinations(l, 2)] *)
Fixpoint combinations2 {A} (l : list A) : list (A * A) :=
  match l with
  | [] => []
  | x :: l' => map (pair x) l' ++ combinations2 l'
  end.

(** [n.__start] *)
Definition start_of (n : handle) : M nat :=
  let* nd := get n in
  pure_res (or_raise AttributeError (__start nd)).

(** [(n.__start, n.__stop)] *)
Definition start_stop (n : handle) : M (nat * nat) :=
  let* nd := get n in
  let* a := pure_res (or_raise AttributeError (__start nd)) in
  let* b := pure_res (or_raise AttributeError (__stop nd)) in
  ret (a, b).

(** The closure [update_result], for the node the sweep is at *)
Definition update_result (result_map : gmap nat nat) (distances : list Z)
    (children : list handle) (result : list (list Z)) : M (list (list Z)) :=
  fold_M (λ result '(child1, child2),
    let* '(start1, stop1) := start_stop child1 in
    fold_M (λ result tip1,
      match result_map !! tip1 with
      | None => ret result
      | Some t1idx =>
          let* '(start2, stop2) := start_stop child2 in
          fold_M (λ result tip2,
            match result_map !! tip2 with
            | None => ret result
            | Some t2idx =>
                let* d1 := pure_res (or_raise IndexError (distances !! tip1)) in
                let* d2 := pure_res (or_raise IndexError (distances !! tip2)) in
                pure_res (mat_set result t1idx t2idx (d1 + d2)%Z)
            end) (seq start2 (stop2 - start2)) result
      end) (seq start1 (stop1 - start1)) result)
    (combinations2 children) result.

(** [min(l)] and [max(l)]; both raise ValueError on an empty list *)
Definition py_min (l : list nat) : res nat :=
  match l with
  | [] => Raise ValueError
  | x :: l' => Ok (foldl Nat.min x l')
  end.

Definition py_max (l : list nat) : res nat :=
  match l with
  | [] => Raise ValueError
  | x :: l' => Ok (foldl Nat.max x l')
  end.

(** The body of [for node in self.postorder()] *)
Definition sweep_node (default_length : Z) (result_map : gmap nat nat)
    (acc : list (list Z) * list Z) (n : handle) : M (list (list Z) * list Z) :=
  let '(result, distances) := acc in
  let* nd := get n in
  if negb (nonempty (Children nd)) then ret (result, distances)
  else
    let* '(distances, starts, stops) :=
      fold_M (λ '(distances, starts, stops) child,
        let* cd := get child in
        let child_len := match Length cd with
                         | Some l => l
                         | None => default_length
                         end in
        let* '(a, b) := start_stop child in
        ret (slice_add a b child_len distances, starts ++ [a], stops ++ [b]))
        (Children nd) (distances, [], []) in
    let* lo := pure_res (py_min starts) in
    let* hi := pure_res (py_max stops) in
    let* _ := modify n (set_start_stop lo hi) in
    if 1 <? length (Children nd) then
      let* result := update_result result_map distances (Children nd) result in
      ret (result, distances)
    else ret (result, distances).

(** [enumerate(l)] *)
Definition enumerate {A} (l : list A) : list (nat * A) := imap pair l.

Definition tip_tip_distances (fuel : nat) (self : handle)
    (endpoints : option (list key)) (default_length : Z)
  : M (list (list Z) * list handle) :=
  let* all_tips := lift (λ s, tips fuel s self false) in
  let* tip_order :=
    match endpoints with
    | None => ret all_tips
    | Some names => map_M (find fuel self) names
    end in
  let* _ := for_each (enumerate all_tips) (λ '(i, n), modify n (set_start_stop i (i + 1))) in
  let* result_map :=
    fold_M (λ (m : gmap nat nat) '(i, n),
              let* a := start_of n in ret (<[a := i]> m))
           (enumerate tip_order) ∅ in
  let num_all_tips := length all_tips in
  let num_tips := length tip_order in
  let result := zeros2 num_tips num_tips in
  let distances := zeros num_all_tips in
  let* visited := lift (λ s, postorder fuel s self true) in
  let* '(result, _) := fold_M (sweep_node default_length result_map) visited
                              (result, distances) in
  ret (plus_transpose result, tip_order).

(** ** Newick output *)

Section Newick.

(** ["%s" % length]: how a branch length prints *)
Variable str_of_length : Z → string.

Definition quote : ascii := "'"%char.
Definition double_quote : ascii := Ascii.ascii_of_nat 34.

(** The characters of the class that [re.search] is given: the two square
    brackets, the single and the double quote, the two parentheses, comma,
    colon, semicolon and underscore *)
Definition special : list ascii :=
  ["]"; "["; quote; double_quote; "("; ")"; ","; ":"; ";"; "_"]%char.

Definition startswith (c : ascii) (s : string) : bool :=
  match s with
  | String c' _ => bool_decide (c' = c)
  | EmptyString => false
  end.

Fixpoint endswith (c : ascii) (s : string) : bool :=
  match s with
  | EmptyString => false
  | String c' EmptyString => bool_decide (c' = c)
  | String _ s' => endswith c s'
  end.

(** [re.search(cls, s)] for a character class *)
Fixpoint search (cls : list ascii) (s : string) : bool :=
  match s with
  | EmptyString => false
  | String c s' => bool_decide (c ∈ cls) || search cls s'
  end.

(** [s.replace(c, by)] for a one-character pattern *)
Fixpoint replace (c : ascii) (by_ : string) (s : string) : string :=
  match s with
  | EmptyString => EmptyString
  | String c' s' =>
      if bool_decide (c' = c) then by_ +:+ replace c by_ s'
      else String c' (replace c by_ s')
  end.

(** What the post-visit appends for a node's name *)
Definition name_token (escape_name : bool) (name : option string) : string :=
  match name with
  | None => ""
  | Some name =>
      if escape_name && negb (startswith quote name && endswith quote name) then
        if search special name then "'" +:+ replace quote "''" name +:+ "'"
        else replace " "%char "_" name
      else name
  end.

Fixpoint to_newick_loop (fuel : nat) (s : store) (with_distances escape_name : bool)
    (result : list string) (nodes_stack : list (handle * nat)) : res (list string) :=
  match fuel with
  | 0 => Raise OutOfFuel
  | S fuel =>
      match py_pop_last nodes_stack with
      | None => Ok result
      | Some (below, (top_node, num_unvisited_children)) =>
          let? top := node s top_node in
          if negb (num_unvisited_children =? 0) then
            let? next_child :=
              py_get (Children top) (- Z.of_nat num_unvisited_children) in
            let? child := node s next_child in
            let result := if nonempty (Children child) then result ++ ["("]
                          else result in
            to_newick_loop fuel s with_distances escape_name result
              (below ++ [(top_node, num_unvisited_children - 1);
                         (next_child, length (Children child))])
          else
            let? result :=
              if nonempty (Children top)
              then or_raise IndexError (py_update_last (λ _, ")") result)
              else Ok result in
            let result := result ++ [name_token escape_name (Name top)] in
            let? result :=
              match Length top with
              | Some l =>
                  if with_distances
                  then or_raise IndexError
                         (py_update_last (λ r, r +:+ ":" +:+ str_of_length l) result)
                  else Ok result
              | None => Ok result
              end in
            to_newick_loop fuel s with_distances escape_name (result ++ [","]) below
      end
  end.

(** [''.join(l)] *)
Definition join (l : list string) : string := foldr String.append "" l.

Definition to_newick (fuel : nat) (s : store) (self : handle)
    (with_distances semicolon escape_name : bool) : res string :=
  let? me := node s self in
  let? result := to_newick_loop fuel s with_distances escape_name ["("]
                   [(self, length (Children me))] in
  let len_result := length result in
  if len_result =? 2 then
    if semicolon then Ok ";" else Ok ""
  else if len_result =? 3 then
    let? r1 := py_get result 1 in
    if semicolon then Ok (r1 +:+ ";") else Ok r1
  else
    let? result :=
      if semicolon then or_raise IndexError (py_update_last (λ _, ";") result)
      else let? '(rest, _) := py_pop result (-1) in Ok rest in
    Ok (join result).

End Newick.

(** ** Trees, as the store holds them

    [tree] is the shape of a subtree seen from outside the store: the handle
    of a node and the subtrees of its children, in order.  [shape s p t]
    says that the store holds [t] below a node whose [Parent] is [p]: every
    node's [Children] list is the list of its subtrees' roots, and every
    child's [Parent] is the node above it. *)

Inductive tree := Node (id : handle) (kids : list tree).

Definition root_id (t : tree) : handle :=
  match t with Node i _ => i end.

Definition kids_of (t : tree) : list tree :=
  match t with Node _ ks => ks end.

Fixpoint ids (t : tree) : list handle :=
  match t with Node i ks => i :: flat_map ids ks end.

Fixpoint post (t : tree) : list handle :=
  match t with Node i ks => flat_map post ks ++ [i] end.

Fixpoint size (t : tree) : nat :=
  match t with Node _ ks => S (list_sum (map size ks)) end.

Fixpoint height (t : tree) : nat :=
  match t with Node _ ks => S (foldr Nat.max 0 (map height ks)) end.

Fixpoint tip_ids (t : tree) : list handle :=
  match t with
  | Node i [] => [i]
  | Node i ks => flat_map tip_ids ks
  end.

Inductive shape (s : store) : option handle → tree → Prop :=
  | shape_Node p i ks nd :
      nodes s !! i = Some nd →
      Parent nd = p →
      Children nd = map root_id ks →
      Forall (shape s (Some i)) ks →
      shape s p (Node i ks).

(** [holds s self t]: in [s], the subtree at [self] is [t], and no node
    occurs in it twice. *)
Definition holds (s : store) (self : handle) (t : tree) : Prop :=
  root_id t = self ∧ (∃ p, shape s p t) ∧ NoDup (ids t).

(** ** The recursive postorder

    The definition the iterative generator is measured against: for each
    node, the postorder of its children in child order, then the node. *)

Fixpoint postorder_recursive (depth : nat) (s : store) (n : handle) : res (list handle) :=
  match depth with
  | 0 => Raise OutOfFuel
  | S depth =>
      let? cs := children_of s n in
      let? below := map_res (postorder_recursive depth s) cs in
      Ok (concat below ++ [n])
  end.

Definition postorder_naive (depth : nat) (s : store) (self : handle)
    (include_self : bool) : res (list handle) :=
  let? cs := children_of s self in
  let? below := map_res (postorder_recursive depth s) cs in
  Ok (concat below ++ (if include_self then [self] else [])).

(** ** Auxiliary definitions for the proofs *)

Definition forest_size (ts : list tree) : nat := list_sum (map size ts).

Definition rooted (s : store) (t : tree) : Prop := ∃ p, shape s p t.

Definition keep (self : handle) (include_self : bool) (l : list handle) : list handle :=
  List.filter (λ x, include_self || negb (x =? self)) l.

Definition prepend {A} (l : list A) (r : res (list A)) : res (list A) :=
  let? x := r in Ok (l ++ x).

(** The number of loop iterations spent on a child subtree: one for a tip;
    for an internal node, one to enter it, one to leave it, and those of
    its children. *)
Fixpoint walk (t : tree) : nat :=
  match t with
  | Node _ ks =>
      match ks with
      | [] => 1
      | _ => 2 + list_sum (map walk ks)
      end
  end.

Definition forest_walk (ts : list tree) : nat := list_sum (map walk ts).

(** Checking [shape] by computation *)
Fixpoint shapeb (s : store) (p : option handle) (t : tree) : bool :=
  match t with
  | Node i ks =>
      match nodes s !! i with
      | Some nd =>
          bool_decide (Parent nd = p) && bool_decide (Children nd = map root_id ks)
          && forallb (shapeb s (Some i)) ks
      | None => false
      end
  end.

Definition holdsb (s : store) (self : handle) (t : tree) : bool :=
  bool_decide (root_id t = self)
  && match nodes s !! self with
     | Some nd => shapeb s (Parent nd) t
     | None => false
     end
  && bool_decide (NoDup (ids t)).

Definition visits_once (r : res (list handle)) (expected : list handle) : Prop :=
  ∃ l, r = Ok l ∧ NoDup l ∧ l ≡ₚ expected.

Definition obj (name : option string) (len : option Z) (parent : option handle)
    (children : list handle) : TreeNode :=
  set_Children children (__init__ name len parent).

Definition store_of (l : list (handle * TreeNode)) : store :=
  mkStore (list_to_map l) [].

(** [(A:1,(B:1,C:1):1):0;] with the root at handle 0 *)
Definition abc_store : store :=
  store_of [ (0, obj None (Some 0%Z) None [1; 2]);
             (1, obj (Some "A") (Some 1%Z) (Some 0) []);
             (2, obj None (Some 1%Z) (Some 0) [3; 4]);
             (3, obj (Some "B") (Some 1%Z) (Some 2) []);
             (4, obj (Some "C") (Some 1%Z) (Some 2) []) ].

Definition abc_tree : tree :=
  Node 0 [Node 1 []; Node 2 [Node 3 []; Node 4 []]].


(** Walking [k] parent links up from [n]: the nodes left behind, in the
    order they are left, and the node arrived at. *)
Fixpoint walk_up (s : store) (n : handle) (k : nat) : option (list handle * handle) :=
  match k with
  | 0 => Some ([], n)
  | S k =>
      nd ← nodes s !! n;
      p ← Parent nd;
      '(path, top) ← walk_up s p k;
      Some (n :: path, top)
  end.

Definition branch_length (s : store) (n : handle) : option Z :=
  nd ← nodes s !! n; Length nd.

Definition is_root (s : store) (n : handle) : Prop :=
  ∃ nd, nodes s !! n = Some nd ∧ Parent nd = None.

Definition sumZ (l : list Z) : Z := foldr Z.add 0%Z l.

(** The lengths [ls] added to the float [acc] one after the other *)
Fixpoint float_sum (acc : float) (ls : list Z) : res float :=
  match ls with
  | [] => Ok acc
  | l :: ls => let? x := float_of_int l in float_sum (float_add acc x) ls
  end.

(** Every length in [ls], and every sum met when they are added to [acc]
    one after the other, is at most 2^53 in absolute value: a double holds
    all of them exactly. *)
Fixpoint exact_sum (acc : Z) (ls : list Z) : bool :=
  match ls with
  | [] => true
  | l :: ls =>
      (Z.abs l <=? 2 ^ 53)%Z && (Z.abs (acc + l) <=? 2 ^ 53)%Z
      && exact_sum (acc + l) ls
  end.


(** A tip [A] below a root, with the call made on the tip itself *)
Definition tip_below_root : store :=
  store_of [ (0, obj None None None [1]);
             (1, obj (Some "A") (Some 1%Z) (Some 0) []) ].

Definition attr {X} (f : TreeNode → X) (s : store) (n : handle) : option X :=
  f <$> nodes s !! n.


(** ** What a method leaves alone

    [same proj s s'] says that no node's [proj] attribute differs between
    [s] and [s'] (and that the two stores hold the same objects);
    [preserves R m] says that [m] relates the store it starts in to the
    store it leaves, whether it returns or raises. *)

Definition same {X} (proj : TreeNode → X) (s s' : store) : Prop :=
  ∀ n, attr proj s n = attr proj s' n.

Definition preserves {A} (R : store → store → Prop) (m : M A) : Prop :=
  ∀ s, R s (m s).2.

(** The structure of the tree: what [lowest_common_ancestor] must not change *)
Definition same_tree (s s' : store) : Prop :=
  same Name s s' ∧ same Length s s' ∧ same Parent s s' ∧ same Children s s'.

(** The diameter memo: the [MaxDistTips] attributes and the lists they
    refer to *)
Definition same_memo (s s' : store) : Prop :=
  same MaxDistTips s s' ∧ cells s = cells s'.

(** ** The edits of the tree and the name cache *)

Inductive edit :=
  | Append (n : handle)
  | Extend (ns : node_list)
  | Pop (index : Z)
  | Remove (n : handle)
  | Prune.

Definition apply_edit (fuel : nat) (self : handle) (e : edit) : M unit :=
  match e with
  | Append n => append self n
  | Extend ns => extend self ns
  | Pop index => let* _ := pop self index in ret tt
  | Remove n => let* _ := remove self n in ret tt
  | Prune => prune fuel self
  end.

(** The store with the cache of [self] replaced *)
Definition with_cache (s : store) (self : handle) (c : gmap string handle) : store :=
  mkStore (alter (set_node_cache c) self (nodes s)) (cells s).

(** The names a traversal meets, with the nodes that carry them *)
Definition named (s : store) (l : list handle) : list (string * handle) :=
  omap (λ n, match attr Name s n with
             | Some (Some name) => Some (name, n)
             | _ => None
             end) l.

(** [for (k, v) in l: c[k] = v] *)
Definition cache_fill (c : gmap string handle) (l : list (string * handle))
  : gmap string handle :=
  foldl (λ c kv, <[kv.1 := kv.2]> c) c l.

(** Two children with the same name *)
Definition twins_store : store :=
  store_of [ (0, obj (Some "root") None None [1; 2]);
             (1, obj (Some "X") (Some 1%Z) (Some 0) []);
             (2, obj (Some "X") (Some 1%Z) (Some 0) []) ].

Definition twins_tree : tree := Node 0 [Node 1 []; Node 2 []].

(** [abc_store] with one more node, [D], not yet attached *)
Definition abc_and_d : store :=
  mkStore (<[5 := obj (Some "D") (Some 1%Z) None []]> (nodes abc_store)) [].

(** [(A:1,B:1);] with the root at handle 0, and a third tip [C:10], not yet
    attached *)
Definition ab_and_c : store :=
  store_of [ (0, obj None None None [1; 2]);
             (1, obj (Some "A") (Some 1%Z) (Some 0) []);
             (2, obj (Some "B") (Some 1%Z) (Some 0) []);
             (3, obj (Some "C") (Some 10%Z) None []) ].

(** [ab_and_c] with two tips [D:1] and [E:1] below [C], which is not yet
    attached *)
Definition ab_and_subtree : store :=
  store_of [ (0, obj None None None [1; 2]);
             (1, obj (Some "A") (Some 1%Z) (Some 0) []);
             (2, obj (Some "B") (Some 1%Z) (Some 0) []);
             (3, obj (Some "C") (Some 10%Z) None [4; 5]);
             (4, obj (Some "D") (Some 1%Z) (Some 3) []);
             (5, obj (Some "E") (Some 1%Z) (Some 3) []) ].

(** [((C:1)B:1,D:1)A;] with the root at handle 0, and a tip [E:1], not yet
    attached *)
Definition chain_and_e : store :=
  store_of [ (0, obj (Some "A") None None [1; 3]);
             (1, obj (Some "B") (Some 1%Z) (Some 0) [2]);
             (2, obj (Some "C") (Some 1%Z) (Some 1) []);
             (3, obj (Some "D") (Some 1%Z) (Some 0) []);
             (4, obj (Some "E") (Some 1%Z) None []) ].

(** ** What to_newick writes, by recursion on the tree

    [tokens] lists the entries a child subtree adds to [result]: an opening
    parenthesis and the entries of its children if it has any, with the
    last comma turned into the closing parenthesis, then its label and a
    comma. *)

Section NewickTokens.

Variable str_of_length : Z → string.
Variable s : store.
Variables with_distances escape_name : bool.

Definition label (n : handle) : string :=
  match nodes s !! n with
  | Some nd =>
      let name := name_token escape_name (Name nd) in
      match Length nd with
      | Some l => if with_distances then name +:+ ":" +:+ str_of_length l else name
      | None => name
      end
  | None => ""
  end.

Definition close (l : list string) : list string :=
  match py_update_last (λ _, ")") l with
  | Some l' => l'
  | None => l
  end.

Fixpoint tokens (t : tree) : list string :=
  match t with
  | Node i ks =>
      match ks with
      | [] => [label i; ","]
      | _ => "(" :: close (flat_map tokens ks) ++ [label i; ","]
      end
  end.

Definition newick (t : tree) (semicolon : bool) : string :=
  match t with
  | Node i ks =>
      match ks with
      | [] => if semicolon then label i +:+ ";" else label i
      | _ => join ("(" :: close (flat_map tokens ks) ++ label i
                     :: (if semicolon then [";"] else []))
      end
  end.

End NewickTokens.

(** A lone node whose name is already quoted and holds an underscore *)
Definition quoted_store : store :=
  store_of [ (0, obj (Some "'a_b'") None None []) ].

(** ** Paths between tips

    [below w t a d]: [a] is a node of [t], and the branches on the way from
    [a] up to the root of [t] weigh [d] in all, a branch weighing what [w]
    gives for the node under it.  [joined w t a b d]: the path from [a] to
    [b] inside [t] weighs [d]; it climbs from [a] to the node where the
    two ways up meet and descends to [b].  With every weight 1, these count
    edges. *)

Inductive below (w : handle → Z) : tree → handle → Z → Prop :=
  | below_root i ks : below w (Node i ks) i 0
  | below_kid i ks k a d :
      k ∈ ks → below w k a d → below w (Node i ks) a (w (root_id k) + d).

Inductive joined (w : handle → Z) : tree → handle → handle → Z → Prop :=
  | joined_same t a d : below w t a d → joined w t a a 0
  | joined_split i ks j1 j2 k1 k2 a b d1 d2 :
      ks !! j1 = Some k1 → ks !! j2 = Some k2 → j1 ≠ j2 →
      below w k1 a d1 → below w k2 b d2 →
      joined w (Node i ks) a b ((w (root_id k1) + d1) + (w (root_id k2) + d2))
  | joined_kid i ks k a b d :
      k ∈ ks → joined w k a b d → joined w (Node i ks) a b d.

Definition edges_between (t : tree) (a b : handle) (n : nat) : Prop :=
  joined (λ _, 1%Z) t a b (Z.of_nat n).

(** What [tips()] yields: the tips under the node, none for a node that is
    a tip itself *)
Definition tips_below (t : tree) : list handle :=
  match t with
  | Node _ [] => []
  | _ => tip_ids t
  end.

(** The branch length that [tip_tip_distances] uses for the branch above
    [n] *)
Definition length_or (s : store) (default_length : Z) (n : handle) : Z :=
  match attr Length s n with
  | Some (Some l) => l
  | _ => default_length
  end.

Definition square (n : nat) (m : list (list Z)) : Prop :=
  length m = n ∧ Forall (λ row, length row = n) m.

(** ** The sweep of tip_tip_distances, in the terms of the proofs *)

(** The tips of a list of numbered ones carry their numbers, counted from
    [o], as their [__start], and nothing else differs between the stores *)
Definition stamped (s s' : store) (o : nat) (l : list handle) : Prop :=
  same_tree s s' ∧ cells s = cells s'
  ∧ (∀ x a, l !! x = Some a →
       attr __start s' a = Some (Some (o + x)) ∧ attr __stop s' a = Some (Some (o + x + 1)))
  ∧ (∀ n, n ∉ l → nodes s' !! n = nodes s !! n).

Definition in_range (r : nat * nat) (y : nat) : Prop := r.1 ≤ y < r.2.

#[export] Instance in_range_dec r y : Decision (in_range r y).
Proof. unfold in_range. apply _. Defined.

(** [for (x, y) in ps: m[x, y] = d[x] + d[y]] *)
Fixpoint fill_pairs (d : list Z) (m : list (list Z)) (ps : list (nat * nat))
  : res (list (list Z)) :=
  match ps with
  | [] => Ok m
  | (x, y) :: ps =>
      let? d1 := or_raise IndexError (d !! x) in
      let? d2 := or_raise IndexError (d !! y) in
      let? m := mat_set m x y (d1 + d2)%Z in
      fill_pairs d m ps
  end.

Definition pair_sum (d : list Z) (x y : nat) : option Z :=
  d1 ← d !! x; d2 ← d !! y; Some (d1 + d2)%Z.

Definition cross_pairs (rs : list (nat * nat)) : list (nat * nat) :=
  flat_map (λ p, list_prod (seq p.1.1 (p.1.2 - p.1.1)) (seq p.2.1 (p.2.2 - p.2.1)))
           (combinations2 rs).

Definition has_range (s : store) (n : handle) (r : nat * nat) : Prop :=
  attr __start s n = Some (Some r.1) ∧ attr __stop s n = Some (Some r.2).

(** The number of tips of a subtree, the tips of a list of subtrees, and
    the ranges of tip indices that the subtrees of the list take when the
    first tip of the first has index [o] *)
Definition ntips (t : tree) : nat := length (tip_ids t).

Definition forest_tips (ks : list tree) : list handle := flat_map tip_ids ks.

Fixpoint ranges (o : nat) (ks : list tree) : list (nat * nat) :=
  match ks with
  | [] => []
  | k :: ks => (o, o + ntips k) :: ranges (o + ntips k) ks
  end.

Section Sweeping.

Variable default_length : Z.
Variable rm : gmap nat nat.
Variable N : nat.
Variable w : handle → Z.

(** One turn of the loop over the children: [distances[a:b] += child_len] *)
Definition add_child (d : list Z) (cr : handle * (nat * nat)) : list Z :=
  slice_add cr.2.1 cr.2.2 (w cr.1) d.

(** What the sweep needs before it enters a subtree whose tips start at
    index [o], and what it has done when it leaves it *)

Definition ready (s : store) (R : list (list Z)) (d : list Z) (o : nat) (t : tree)
  : Prop :=
  rooted s t ∧ NoDup (ids t)
  ∧ (∀ c, length_or s default_length c = w c)
  ∧ (∀ x a, tip_ids t !! x = Some a → has_range s a (o + x, o + x + 1))
  ∧ (∀ y, o ≤ y < o + ntips t → rm !! y = Some y)
  ∧ o + ntips t ≤ N ∧ length d = N ∧ square N R
  ∧ (∀ y, o ≤ y < o + ntips t → d !! y = Some 0%Z).

Definition swept (s s' : store) (R R' : list (list Z)) (d d' : list Z) (o : nat)
    (t : tree) : Prop :=
  same_tree s s'
  ∧ (∀ x, x ∉ ids t → nodes s' !! x = nodes s !! x)
  ∧ has_range s' (root_id t) (o, o + ntips t)
  ∧ length d' = length d
  ∧ (∀ y, ¬ (o ≤ y < o + ntips t) → d' !! y = d !! y)
  ∧ (∀ x a dd, tip_ids t !! x = Some a → below w t a dd → d' !! (o + x) = Some dd)
  ∧ square N R'
  ∧ (∀ x y, ¬ (o ≤ x ∧ x < y ∧ y < o + ntips t) → mat_get R' x y = mat_get R x y)
  ∧ (∀ x y a b n, x < y → tip_ids t !! x = Some a → tip_ids t !! y = Some b →
       joined w t a b n → mat_get R' (o + x) (o + y) = Some n).

Definition ready_forest (s : store) (R : list (list Z)) (d : list Z) (o : nat)
    (ks : list tree) : Prop :=
  Forall (rooted s) ks ∧ NoDup (flat_map ids ks)
  ∧ (∀ c, length_or s default_length c = w c)
  ∧ (∀ x a, forest_tips ks !! x = Some a → has_range s a (o + x, o + x + 1))
  ∧ (∀ y, o ≤ y < o + length (forest_tips ks) → rm !! y = Some y)
  ∧ o + length (forest_tips ks) ≤ N ∧ length d = N ∧ square N R
  ∧ (∀ y, o ≤ y < o + length (forest_tips ks) → d !! y = Some 0%Z).

Definition swept_forest (s s' : store) (R R' : list (list Z)) (d d' : list Z)
    (o : nat) (ks : list tree) : Prop :=
  same_tree s s'
  ∧ (∀ x, x ∉ flat_map ids ks → nodes s' !! x = nodes s !! x)
  ∧ (∀ j k r, ks !! j = Some k → ranges o ks !! j = Some r → has_range s' (root_id k) r)
  ∧ length d' = length d
  ∧ (∀ y, ¬ (o ≤ y < o + length (forest_tips ks)) → d' !! y = d !! y)
  ∧ (∀ j k r x a dd, ks !! j = Some k → ranges o ks !! j = Some r →
       tip_ids k !! x = Some a → below w k a dd → d' !! (r.1 + x) = Some dd)
  ∧ square N R'
  ∧ (∀ x y, ¬ (∃ r, r ∈ ranges o ks ∧ r.1 ≤ x ∧ x < y ∧ y < r.2) →
       mat_get R' x y = mat_get R x y)
  ∧ (∀ j k r x y a b n, ks !! j = Some k → ranges o ks !! j = Some r → x < y →
       tip_ids k !! x = Some a → tip_ids k !! y = Some b → joined w k a b n →
       mat_get R' (r.1 + x) (r.1 + y) = Some n).


(** The sweep over the postorder of [t] does what [swept] says *)
Definition sweeps (t : tree) : Prop :=
  ∀ s R d o, ready s R d o t →
    ∃ R' d' s', fold_M (sweep_node default_length rm) (post t) (R, d) s
                = (Ok (R', d'), s')
                ∧ swept s s' R R' d d' o t.

End Sweeping.

(** ** The marks of lowest_common_ancestor *)

(** No node carries a [black] attribute; every node that carries one is in
    [l] *)
Definition unmarked (s : store) : Prop :=
  ∀ n nd, nodes s !! n = Some nd → black nd = None.

Definition marked_within (l : list handle) (s : store) : Prop :=
  ∀ n nd, nodes s !! n = Some nd → black nd ≠ None → n ∈ l.

(** ** Traversal orders, by recursion on the tree *)

(** Every node before and after its children; a tip once *)
Fixpoint prepost (t : tree) : list handle :=
  match t with
  | Node i ks =>
      match ks with
      | [] => [i]
      | _ => i :: flat_map prepost ks ++ [i]
      end
  end.

(** The nodes that have children, each before its children *)
Fixpoint internal_ids (t : tree) : list handle :=
  match t with
  | Node i ks =>
      match ks with
      | [] => []
      | _ => i :: flat_map internal_ids ks
      end
  end.

(** The nodes [d] links below the root of [t], from left to right; the
    first [h] levels of a list of trees, level after level *)
Fixpoint level (d : nat) (t : tree) : list handle :=
  match d with
  | 0 => [root_id t]
  | S d => flat_map (level d) (kids_of t)
  end.

Definition levels (h : nat) (ts : list tree) : list handle :=
  flat_map (λ d, flat_map (level d) ts) (seq 0 h).

Definition by_level (t : tree) : list handle := levels (height t) [t].

Definition forest_height (ts : list tree) : nat := foldr Nat.max 0 (map height ts).

(** [((C:3,D:4)B:2,E:5)A;] with the root at handle 0: the first child has
    children, the second has none *)
Definition left_store : store :=
  store_of [ (0, obj (Some "A") None None [1; 4]);
             (1, obj (Some "B") (Some 2%Z) (Some 0) [2; 3]);
             (2, obj (Some "C") (Some 3%Z) (Some 1) []);
             (3, obj (Some "D") (Some 4%Z) (Some 1) []);
             (4, obj (Some "E") (Some 5%Z) (Some 0) []) ].

Definition left_tree : tree :=
  Node 0 [Node 1 [Node 2 []; Node 3 []]; Node 4 []].

(** ** The methods that the sections above leave out *)

(** *** Node checks *)

Definition is_tip (nd : TreeNode) : bool := negb (nonempty (Children nd)).

(** *** __repr__

    [sum] of a list of booleans counts the true ones; ["%d"] prints a
    number in decimal, as [pretty] does.  The class name is that of
    [TreeNode] itself. *)

Definition __repr__ (fuel : nat) (s : store) (self : handle) : res string :=
  let? nodes := traverse fuel s self true false true in
  let? flags := map_res (λ n, let? nd := node s n in Ok (is_tip nd)) nodes in
  let n_tips := list_sum (map (λ b : bool, if b then 1 else 0) flags) in
  let n_nontips := length nodes - n_tips in
  Ok ("<TreeNode, Number of internal nodes: " +:+ pretty n_tips
      +:+ ", Number of tips: " +:+ pretty n_nontips +:+ ">").

(** *** Path methods: ancestors, root, siblings *)

(** [while not curr.is_root(): result.append(curr); curr = curr.Parent],
    followed by [result.append(curr)] *)
Fixpoint ancestors_loop (fuel : nat) (s : store) (result : list handle) (curr : handle)
  : res (list handle) :=
  match fuel with
  | 0 => Raise OutOfFuel
  | S fuel =>
      let? nd := node s curr in
      match Parent nd with
      | None => Ok (result ++ [curr])
      | Some p => ancestors_loop fuel s (result ++ [curr]) p
      end
  end.

Definition ancestors (fuel : nat) (s : store) (self : handle) : res (list handle) :=
  let? me := node s self in
  match Parent me with
  | None => Ok []
  | Some p => ancestors_loop fuel s [] p
  end.

(** [while not curr.is_root(): curr = curr.Parent] *)
Fixpoint root_loop (fuel : nat) (s : store) (curr : handle) : res handle :=
  match fuel with
  | 0 => Raise OutOfFuel
  | S fuel =>
      let? nd := node s curr in
      match Parent nd with
      | None => Ok curr
      | Some p => root_loop fuel s p
      end
  end.

Definition root (fuel : nat) (s : store) (self : handle) : res handle :=
  let? me := node s self in
  match Parent me with
  | None => Ok self
  | Some _ => root_loop fuel s self
  end.

(** [l.remove(x)]: the list without its first element equal to [x];
    ValueError if there is none *)
Fixpoint py_remove (x : handle) (l : list handle) : res (list handle) :=
  match l with
  | [] => Raise ValueError
  | y :: l' =>
      if decide (y = x) then Ok l'
      else let? r := py_remove x l' in Ok (y :: r)
  end.

Definition siblings (s : store) (self : handle) : res (list handle) :=
  let? me := node s self in
  match Parent me with
  | None => Ok []
  | Some p =>
      let? pd := node s p in
      py_remove self (Children pd)
  end.

(** *** subset and subsets

    A name may be None, so a set of names is a set of optional strings.
    [subsets] keeps the set of each node in an attribute of its own,
    [__leaf_set], which nothing else reads: it is a table beside the store,
    threaded through the call. *)

Definition subset (fuel : nat) (s : store) (self : handle) : res (gset (option string)) :=
  let? ts := tips fuel s self false in
  let? names := map_res (λ i, let? nd := node s i in Ok (Name nd)) ts in
  Ok (list_to_set names).

Abbreviation leaf_sets := (gmap handle (gset (option string))).

(** [i.__leaf_set] *)
Definition leaf_set_of (tbl : leaf_sets) (i : handle) : res (gset (option string)) :=
  or_raise AttributeError (tbl !! i).

Fixpoint subsets_loop (s : store) (l : list handle) (sets : list (gset (option string)))
    (tbl : leaf_sets) : res (list (gset (option string))) * leaf_sets :=
  match l with
  | [] => (Ok sets, tbl)
  | i :: l' =>
      match node s i with
      | Raise e => (Raise e, tbl)
      | Ok nd =>
          match Children nd with
          | [] => subsets_loop s l' sets (<[i := {[ Name nd ]}]> tbl)
          | c :: cs =>
              (* reduce(or_, [c.__leaf_set for c in i.Children]) *)
              match (let? x := leaf_set_of tbl c in
                     let? xs := map_res (leaf_set_of tbl) cs in
                     Ok (foldl (∪) x xs)) with
              | Raise e => (Raise e, tbl)
              | Ok leaf_set =>
                  subsets_loop s l'
                    (if 1 <? base.size leaf_set then sets ++ [leaf_set] else sets)
                    (<[i := leaf_set]> tbl)
              end
          end
      end
  end.

Definition subsets (fuel : nat) (s : store) (self : handle) (tbl : leaf_sets)
  : res (gset (gset (option string))) * leaf_sets :=
  match postorder fuel s self false with
  | Raise e => (Raise e, tbl)
  | Ok l =>
      match subsets_loop s l [] tbl with
      | (Ok sets, tbl') => (Ok (list_to_set sets), tbl')
      | (Raise e, tbl') => (Raise e, tbl')
      end
  end.

(** *** remove_deleted

    The loop removes nodes while the preorder generator is suspended, so
    here the generator and the body of the loop run in turns, as in the
    source: a node is tested (and maybe removed from its parent) before the
    generator reads its [Children].  The test [f] may read the store; it is
    taken not to change it. *)

Fixpoint remove_deleted_loop (fuel : nat) (self : handle) (f : store → handle → bool)
    (stack : list handle) : M unit :=
  match fuel with
  | 0 => raise OutOfFuel
  | S fuel =>
      match py_pop_last stack with
      | None => ret tt
      | Some (stack, curr) =>
          let* _ :=
            if negb (curr =? self) then
              let* del := lift (λ s, Ok (f s curr)) in
              if del : bool then
                let* nd := get curr in
                let* p := pure_res (or_raise AttributeError (Parent nd)) in
                let* _ := remove p curr in
                ret tt
              else ret tt
            else ret tt in
          let* cs := lift (λ s, children_of s curr) in
          remove_deleted_loop fuel self f (if nonempty cs then stack ++ rev cs else stack)
      end
  end.

Definition remove_deleted (fuel : nat) (self : handle) (f : store → handle → bool)
  : M unit :=
  remove_deleted_loop fuel self f [self].

(** *** distance *)

(** [_accumulate_to_ancestor(None)]: no node is None, so the walk ends at
    the root, with an exception *)
Fixpoint _accumulate_to_nothing (fuel : nat) (s : store) (accum : float) (curr : handle)
  : res float :=
  match fuel with
  | 0 => Raise OutOfFuel
  | S fuel =>
      let? nd := node s curr in
      match Parent nd with
      | None => Raise NoParentError
      | Some p =>
          match Length nd with
          | None => Raise NoLengthError
          | Some l =>
              let? x := float_of_int l in
              _accumulate_to_nothing fuel s (float_add accum x) p
          end
      end
  end.

Definition accumulate_to (fuel : nat) (s : store) (n : handle) (ancestor : option handle)
  : res float :=
  match ancestor with
  | Some a => _accumulate_to_ancestor fuel s n a
  | None => _accumulate_to_nothing fuel s (Finite 0) n
  end.

Definition distance (fuel : nat) (self other : handle) : M float :=
  if self =? other then ret (Finite 0)
  else
    let* r := lift (λ s, root fuel s self) in
    let* lca := lowest_common_ancestor fuel r [ByNode self; ByNode other] in
    let* accum := lift (λ s, accumulate_to fuel s self lca) in
    let* accum' := lift (λ s, accumulate_to fuel s other lca) in
    ret (float_add accum accum').

(** ** More of the trees, for the statements below *)

(** The subtrees of [t], [t] itself first *)
Fixpoint subtrees (t : tree) : list tree :=
  match t with
  | Node i ks => Node i ks :: flat_map subtrees ks
  end.

(** The name of a node, and the set of the names of the tips of a subtree *)
Definition name_of (s : store) (n : handle) : option string :=
  default None (attr Name s n).

Definition leaf_names (s : store) (t : tree) : gset (option string) :=
  list_to_set (map (name_of s) (tip_ids t)).

(** The sets that [subsets] collects below a node: for every node with
    children, after those of its children, the names of its tips if they are
    more than one *)
Fixpoint clades (s : store) (t : tree) : list (gset (option string)) :=
  match t with
  | Node i ks =>
      match ks with
      | [] => []
      | _ => flat_map (clades s) ks
             ++ (if 1 <? base.size (leaf_names s (Node i ks))
                 then [leaf_names s (Node i ks)] else [])
      end
  end.

(** ** Parent and Children, seen together

    [linked s]: every child in a [Children] list has that node as its
    [Parent], every node with a [Parent] is in the [Children] list of that
    parent, and no [Children] list holds a node twice. *)
Definition linked (s : store) : Prop :=
  (∀ p cs c, attr Children s p = Some cs → c ∈ cs → attr Parent s c = Some (Some p))
  ∧ (∀ c p, attr Parent s c = Some (Some p) →
       ∃ cs, attr Children s p = Some cs ∧ c ∈ cs)
  ∧ (∀ p cs, attr Children s p = Some cs → NoDup cs).

(** [runs m s a P K]: run in [s], [m] returns [a] and leaves a store in
    which the [Parent] and [Children] attributes are [P] and [K] *)
Definition runs {A} (m : M A) (s : store) (a : A)
    (P : handle → option (option handle)) (K : handle → option (list handle)) : Prop :=
  ∃ s', m s = (Ok a, s')
        ∧ (∀ x, attr Parent s' x = P x) ∧ (∀ x, attr Children s' x = K x).

(** A list without the node [n] *)
Definition without (n : handle) (cs : list handle) : list handle :=
  filter (λ c, c ≠ n) cs.

(** Checking [linked] by computation *)
Definition linkedb (s : store) : bool :=
  forallb (λ '(p, pd),
     bool_decide (NoDup (Children pd))
     && forallb (λ c, bool_decide (attr Parent s c = Some (Some p))) (Children pd)
     && match Parent pd with
        | None => true
        | Some q =>
            match nodes s !! q with
            | Some qd => bool_decide (p ∈ Children qd)
            | None => false
            end
        end) (map_to_list (nodes s)).

(** A list without the nodes of [ns] *)
Definition without_all (ns : list handle) (cs : list handle) : list handle :=
  filter (λ c, c ∉ ns) cs.

(** *** remove_deleted, in the terms of the proofs *)

(** The nodes of [l] that [remove_deleted] takes out when it is called on
    [self] in the store [s] *)
Definition deleted (f : store → handle → bool) (s : store) (self : handle)
    (l : list handle) : list handle :=
  filter (λ x, x ≠ self ∧ f s x = true) l.

(** The store [si] after the nodes of [V] have been visited: those that
    were to be deleted have lost their parent and are gone from its list of
    children, and the objects of the nodes not yet visited are as in [s] *)
Definition visited (f : store → handle → bool) (s : store) (self : handle)
    (V : list handle) (si : store) : Prop :=
  (∀ x, attr Parent si x
        = if decide (x ∈ deleted f s self V) then Some None else attr Parent s x)
  ∧ (∀ x, attr Children si x = without_all (deleted f s self V) <$> attr Children s x)
  ∧ (∀ x, x ∉ V → nodes si !! x = nodes s !! x).

(** ** The marks of lowest_common_ancestor

    A tree seen from one of its subtrees: the nodes on the way up to the
    root, nearest first, each with its children to the left and to the
    right of the way. *)
Inductive frame := Frame (i : handle) (l r : list tree).

Fixpoint plug (f : tree) (ctx : list frame) : tree :=
  match ctx with
  | [] => f
  | Frame i l r :: ctx => plug (Node i (l ++ f :: r)) ctx
  end.

Definition ctx_parent (ctx : list frame) : option handle :=
  match ctx with
  | [] => None
  | Frame i _ _ :: _ => Some i
  end.

Fixpoint ctx_ids (ctx : list frame) : list handle :=
  match ctx with
  | [] => []
  | Frame i l r :: ctx => i :: flat_map ids l ++ flat_map ids r ++ ctx_ids ctx
  end.

(** One of the nodes [T] lies in the subtree [k] *)
Definition hit (T : list handle) (k : tree) : Prop := ∃ y, y ∈ T ∧ y ∈ ids k.

(** The [black] list of node [i] with children [ks], once the tips [T] have
    been walked up from: none if no child holds one of them, and otherwise
    the children that hold one, each once. *)
Definition counted (s : store) (T : list handle) (i : handle) (ks : list tree) : Prop :=
  match attr black s i with
  | Some None => ∀ k, k ∈ ks → ¬ hit T k
  | Some (Some L) =>
      L ≠ [] ∧ NoDup L ∧ ∀ c, c ∈ L ↔ ∃ k, k ∈ ks ∧ root_id k = c ∧ hit T k
  | None => False
  end.

Definition counted_tree (s : store) (T : list handle) (t : tree) : Prop :=
  ∀ i ks, Node i ks ∈ subtrees t → counted s T i ks.

Fixpoint counted_ctx (s : store) (T : list handle) (f : tree) (ctx : list frame) : Prop :=
  match ctx with
  | [] => True
  | Frame i l r :: ctx =>
      counted s T i (l ++ f :: r)
      ∧ (∀ k, k ∈ l ++ r → counted_tree s T k)
      ∧ counted_ctx s T (Node i (l ++ f :: r)) ctx
  end.

(** [nodes_to_scrub]: marked nodes, each once *)
Definition scrub_ok (s : store) (scrub : list handle) : Prop :=
  NoDup scrub ∧ ∀ n, n ∈ scrub → ∃ b, attr black s n = Some (Some b).

(** [r] is the lowest node of [t] that has all of [T] below it: they lie in
    its subtree, and in the subtree of none of its children. *)
Definition lowest (t : tree) (T : list handle) (r : handle) : Prop :=
  ∃ sub, sub ∈ subtrees t ∧ root_id sub = r
         ∧ (∀ y, y ∈ T → y ∈ ids sub)
         ∧ ∀ k, k ∈ kids_of sub → ¬ ∀ y, y ∈ T → y ∈ ids k.

(** ** extend with a live list of children *)

(** Every other element of a list: those at the positions 0, 2, 4, ...
    and those at the positions 1, 3, 5, ... *)
Fixpoint evens {A} (l : list A) : list A :=
  match l with
  | [] => []
  | x :: l => x :: match l with [] => [] | _ :: l' => evens l' end
  end.

Definition odds {A} (l : list A) : list A := evens (drop 1 l).

(* ===================================================================== *)
(** * Properties *)
(* ===================================================================== *)

(** ** Python lists *)

Lemma py_pop_last_snoc {A} (l : list A) (x : A) : py_pop_last (l ++ [x]) = Some (l, x).
Proof.
  induction l as [|y l IH]; simpl; [done|]. by rewrite IH.
Qed.

Lemma py_update_last_snoc {A} (f : A → A) (l : list A) (x : A) :
  py_update_last f (l ++ [x]) = Some (l ++ [f x]).
Proof. unfold py_update_last. by rewrite py_pop_last_snoc. Qed.

(** ** Induction on trees *)

Lemma tree_ind' (P : tree → Prop) :
  (∀ i ks, Forall P ks → P (Node i ks)) → ∀ t, P t.
Proof.
  intros H. fix IH 1. intros [i ks]. apply H.
  induction ks as [|k ks IHks]; constructor; [apply IH | apply IHks].
Qed.

Lemma size_pos t : 0 < size t.
Proof. destruct t; simpl; lia. Qed.

Lemma forest_size_app ts us : forest_size (ts ++ us) = forest_size ts + forest_size us.
Proof. unfold forest_size. by rewrite map_app, list_sum_app. Qed.

Lemma shape_inv s p i ks :
  shape s p (Node i ks) →
  ∃ nd, nodes s !! i = Some nd ∧ Parent nd = p ∧ Children nd = map root_id ks
        ∧ Forall (shape s (Some i)) ks.
Proof. inversion 1; subst; eauto 10. Qed.

Lemma shape_children s p i ks :
  shape s p (Node i ks) → children_of s i = Ok (map root_id ks).
Proof.
  intros (nd & Hnd & _ & Hc & _)%shape_inv.
  unfold children_of, node. rewrite Hnd. simpl. by rewrite Hc.
Qed.

Lemma nonempty_map {A B} (f : A → B) l : nonempty (map f l) = nonempty l.
Proof. by destruct l. Qed.

Lemma rooted_kids s i ks : rooted s (Node i ks) → Forall (rooted s) ks.
Proof.
  intros [p (nd & _ & _ & _ & Hks)%shape_inv].
  eapply Forall_impl; [exact Hks|]. intros t Ht. by exists (Some i).
Qed.

(** ** preorder *)

(** With the roots of a list of subtrees on the stack, the first on top, the
    loop yields their nodes in preorder. *)
Lemma preorder_loop_forest s self incl n :
  ∀ ts fuel, forest_size ts ≤ n → Forall (rooted s) ts → forest_size ts < fuel →
    preorder_loop fuel s self incl (rev (map root_id ts))
    = Ok (keep self incl (flat_map ids ts)).
Proof.
  induction n as [|n IH]; intros ts fuel Hn Hts Hfuel.
  - destruct ts as [|t ts]; [|pose proof (size_pos t); unfold forest_size in Hn; simpl in Hn; lia].
    destruct fuel; [lia|]. done.
  - destruct ts as [|[i ks] ts].
    { destruct fuel; [lia|]. done. }
    destruct fuel as [|fuel]; [lia|].
    simpl. rewrite py_pop_last_snoc.
    apply Forall_cons in Hts as [Ht Hts].
    destruct Ht as [p Ht]. rewrite (shape_children _ _ _ _ Ht). simpl.
    assert (Hstack : (if nonempty (map root_id ks)
                      then rev (map root_id ts) ++ rev (map root_id ks)
                      else rev (map root_id ts)) = rev (map root_id (ks ++ ts))).
    { rewrite map_app, rev_app_distr. destruct ks; simpl; [by rewrite app_nil_r|done]. }
    rewrite Hstack.
    unfold forest_size in *. simpl in Hn, Hfuel.
    rewrite IH.
    + unfold keep. simpl. rewrite flat_map_app.
      destruct (incl || negb (i =? self)); simpl; by rewrite List.filter_app.
    + rewrite map_app, list_sum_app. lia.
    + apply Forall_app. split; [|done]. eapply rooted_kids. by exists p.
    + rewrite map_app, list_sum_app. lia.
Qed.

Lemma keep_true self l : keep self true l = l.
Proof. unfold keep. simpl. induction l; simpl; congruence. Qed.

Lemma keep_false_notin self l : self ∉ l → keep self false l = l.
Proof.
  unfold keep. induction l as [|x l IH]; intros Hl; simpl in *; [done|].
  apply not_elem_of_cons in Hl as [Hx Hl].
  destruct (Nat.eqb_spec x self); [congruence|]. simpl. by rewrite IH.
Qed.

Lemma keep_false_root self l : self ∉ l → keep self false (self :: l) = l.
Proof.
  intros Hl. unfold keep. simpl. rewrite Nat.eqb_refl. simpl.
  by apply keep_false_notin.
Qed.

Lemma keep_perm self incl l l' : l ≡ₚ l' → keep self incl l ≡ₚ keep self incl l'.
Proof.
  unfold keep. induction 1; simpl; try done.
  - destruct (_ || _); [by constructor|done].
  - do 2 destruct (_ || _); try done. constructor.
  - etrans; done.
Qed.

(** ** levelorder *)

(** With the roots of a list of subtrees in the queue, the loop yields every
    node of theirs once. *)
Lemma levelorder_loop_forest s self incl n :
  ∀ ts fuel, forest_size ts ≤ n → Forall (rooted s) ts → forest_size ts < fuel →
    ∃ l, levelorder_loop fuel s self incl (map root_id ts) = Ok (keep self incl l)
         ∧ l ≡ₚ flat_map ids ts.
Proof.
  induction n as [|n IH]; intros ts fuel Hn Hts Hfuel.
  - destruct ts as [|t ts]; [|pose proof (size_pos t); unfold forest_size in Hn; simpl in Hn; lia].
    destruct fuel; [lia|]. by exists [].
  - destruct ts as [|[i ks] ts].
    { destruct fuel; [lia|]. by exists []. }
    destruct fuel as [|fuel]; [lia|].
    simpl.
    apply Forall_cons in Hts as [Ht Hts].
    destruct Ht as [p Ht]. rewrite (shape_children _ _ _ _ Ht). simpl.
    assert (Hq : (if nonempty (map root_id ks)
                  then map root_id ts ++ map root_id ks
                  else map root_id ts) = map root_id (ts ++ ks)).
    { rewrite map_app. destruct ks; simpl; [by rewrite app_nil_r|done]. }
    rewrite Hq.
    unfold forest_size in *. simpl in Hn, Hfuel.
    destruct (IH (ts ++ ks) fuel) as (l & Hl & Hperm).
    + rewrite map_app, list_sum_app. lia.
    + apply Forall_app. split; [done|]. eapply rooted_kids. by exists p.
    + rewrite map_app, list_sum_app. lia.
    + exists (i :: l). split.
      * rewrite Hl. unfold keep, yield_if. simpl.
        by destruct (incl || negb (i =? self)).
      * simpl. constructor. rewrite Hperm, flat_map_app. apply Permutation_app_comm.
Qed.

(** ** postorder *)

Lemma prepend_nil {A} (r : res (list A)) : prepend [] r = r.
Proof. by destruct r. Qed.

Lemma prepend_app {A} (l1 l2 : list A) r :
  prepend (l1 ++ l2) r = prepend l1 (prepend l2 r).
Proof. destruct r; simpl; [|done]. by rewrite app_assoc. Qed.

Lemma yield_prepend {A} (x : A) r : yield x r = prepend [x] r.
Proof. done. Qed.

Lemma walk_le t : walk t ≤ 2 * size t.
Proof.
  induction t as [i ks IH] using tree_ind'. simpl.
  assert (list_sum (map walk ks) ≤ 2 * list_sum (map size ks)).
  { induction IH; simpl; lia. }
  destruct ks; simpl in *; lia.
Qed.

Lemma forest_walk_le ts : forest_walk ts ≤ 2 * forest_size ts.
Proof.
  unfold forest_walk, forest_size.
  induction ts as [|t ts IH]; simpl; [lia|]. pose proof (walk_le t). lia.
Qed.

Lemma lookup_map_middle {A B} (f : A → B) (pre : list A) c suf :
  map f (pre ++ c :: suf) !! length pre = Some (f c).
Proof.
  rewrite map_app. rewrite lookup_app_r by (rewrite length_map; lia).
  rewrite length_map, Nat.sub_diag. done.
Qed.

Lemma postorder_loop_S fuel s self include_self child_index_stack curr curr_children :
  postorder_loop (S fuel) s self include_self child_index_stack curr curr_children =
    let? '(below, curr_index) := or_raise IndexError (py_pop_last child_index_stack) in
    (if curr_index <? length curr_children then
      let? curr_child := or_raise IndexError (curr_children !! curr_index) in
      let? cc := children_of s curr_child in
      if nonempty cc then
        postorder_loop fuel s self include_self (child_index_stack ++ [0]) curr_child cc
      else
        yield curr_child
          (postorder_loop fuel s self include_self (below ++ [S curr_index])
                          curr curr_children)
    else
      yield_if (include_self || negb (curr =? self)) curr
        (if curr =? self then Ok []
         else
           let? nd := node s curr in
           let? p := or_raise AttributeError (Parent nd) in
           let? pc := children_of s p in
           let? stack := or_raise IndexError (py_update_last S below) in
           postorder_loop fuel s self include_self stack p pc)).
Proof. done. Qed.

Lemma postorder_loop_fuel_S n s self include_self child_index_stack curr curr_children :
  0 < n →
  postorder_loop n s self include_self child_index_stack curr curr_children
  = postorder_loop (S (Nat.pred n)) s self include_self child_index_stack curr
      curr_children.
Proof. intros. by replace (S (Nat.pred n)) with n by lia. Qed.

(** Started at the child of index [length pre], the loop yields the postorder
    of the children that are left and comes to the turn in which the node
    itself is left. *)
Lemma postorder_loop_kids s self incl t :
  ∀ par, shape s par t → self ∉ flat_map ids (kids_of t) →
  ∀ suf pre st fuel, kids_of t = pre ++ suf →
    postorder_loop (forest_walk suf + fuel) s self incl (st ++ [length pre])
                   (root_id t) (map root_id (kids_of t))
    = prepend (flat_map post suf)
        (postorder_loop fuel s self incl (st ++ [length (kids_of t)])
                        (root_id t) (map root_id (kids_of t))).
Proof.
  induction t as [i ks IHt] using tree_ind'. simpl.
  intros par Hshape Hself suf.
  induction suf as [|c suf IHsuf]; intros pre st fuel Hks.
  - simpl. rewrite app_nil_r in Hks. subst pre. by rewrite prepend_nil.
  - pose proof Hshape as (nd & Hnd & Hpar & Hch & Hkids)%shape_inv.
    assert (Hc : shape s (Some i) c).
    { rewrite Forall_forall in Hkids. apply Hkids. rewrite Hks. set_solver. }
    assert (HPc : ∀ par, shape s par c → self ∉ flat_map ids (kids_of c) →
      ∀ suf pre st fuel, kids_of c = pre ++ suf →
      postorder_loop (forest_walk suf + fuel) s self incl (st ++ [length pre])
        (root_id c) (map root_id (kids_of c))
      = prepend (flat_map post suf)
          (postorder_loop fuel s self incl (st ++ [length (kids_of c)])
             (root_id c) (map root_id (kids_of c)))).
    { rewrite Forall_forall in IHt. apply IHt. rewrite Hks. set_solver. }
    assert (Hcself : self ∉ ids c).
    { intros Hin. apply Hself. rewrite Hks, flat_map_app. simpl. set_solver. }
    assert (Hlt : (length pre <? length (map root_id ks)) = true).
    { apply Nat.ltb_lt. rewrite length_map, Hks, length_app. simpl. lia. }
    assert (Hlook : map root_id ks !! length pre = Some (root_id c)).
    { rewrite Hks. apply lookup_map_middle. }
    assert (Hrest : postorder_loop (forest_walk suf + fuel) s self incl
                      (st ++ [S (length pre)]) i (map root_id ks)
                    = prepend (flat_map post suf)
                        (postorder_loop fuel s self incl (st ++ [length ks]) i
                           (map root_id ks))).
    { specialize (IHsuf (pre ++ [c]) st fuel).
      rewrite length_app, Nat.add_1_r in IHsuf. apply IHsuf.
      by rewrite <- app_assoc. }
    change (forest_walk (c :: suf)) with (walk c + forest_walk suf).
    change (flat_map post (c :: suf)) with (post c ++ flat_map post suf).
    rewrite prepend_app, <- Hrest.
    clear IHsuf Hrest IHt Hks Hkids Hself.
    destruct c as [ci cks].
    assert (Hw : walk (Node ci cks)
                 = if nonempty cks then 2 + forest_walk cks else 1)
      by by destruct cks.
    rewrite Hw. clear Hw.
    assert (Hstep : ∀ n, postorder_loop (S n) s self incl (st ++ [length pre]) i
                           (map root_id ks)
        = if nonempty cks
          then postorder_loop n s self incl ((st ++ [length pre]) ++ [0]) ci
                 (map root_id cks)
          else yield ci (postorder_loop n s self incl (st ++ [S (length pre)]) i
                           (map root_id ks))).
    { intros n. rewrite postorder_loop_S, py_pop_last_snoc.
      cbn [or_raise rbind]. rewrite Hlt, Hlook. cbn [or_raise rbind].
      cbn [root_id]. rewrite (shape_children _ _ _ _ Hc). cbn [rbind].
      by rewrite nonempty_map. }
    destruct (nonempty cks) eqn:Hne.
    + (* an internal node: enter, walk its children, leave *)
      replace (2 + forest_walk cks + forest_walk suf + fuel)
        with (S (forest_walk cks + S (forest_walk suf + fuel))) by lia.
      rewrite Hstep.
      assert (Hbelow : self ∉ flat_map ids cks) by set_solver.
      pose proof (HPc (Some i) Hc Hbelow cks [] (st ++ [length pre])
                    (S (forest_walk suf + fuel)) eq_refl) as Hin.
      cbn [length root_id kids_of] in Hin. rewrite Hin.
      change (post (Node ci cks)) with (flat_map post cks ++ [ci]).
      rewrite prepend_app. f_equal.
      rewrite postorder_loop_S, py_pop_last_snoc. cbn [or_raise rbind].
      rewrite length_map, Nat.ltb_irrefl.
      assert (Hci : (ci =? self) = false) by (apply Nat.eqb_neq; set_solver).
      rewrite Hci, orb_true_r. cbn [yield_if negb].
      apply shape_inv in Hc as (ndc & Hndc & Hparc & _).
      unfold node. rewrite Hndc. cbn [or_raise rbind]. rewrite Hparc.
      cbn [or_raise rbind].
      rewrite (shape_children _ _ _ _ Hshape). cbn [rbind].
      rewrite py_update_last_snoc. done.
    + (* a tip: yielded on the spot *)
      destruct cks; [|done].
      replace (1 + forest_walk suf + fuel) with (S (forest_walk suf + fuel)) by lia.
      by rewrite Hstep.
Qed.

(** The generator as a whole: the children's postorders, then the node it
    was started on if [include_self] asks for it. *)
Lemma postorder_from_shape s self incl par ks fuel :
  shape s par (Node self ks) → self ∉ flat_map ids ks →
  forest_walk ks < fuel →
  postorder fuel s self incl = Ok (flat_map post ks ++ (if incl then [self] else [])).
Proof.
  intros Hshape Hself Hfuel. unfold postorder.
  rewrite (shape_children _ _ _ _ Hshape). simpl.
  replace fuel with (forest_walk ks + S (fuel - forest_walk ks - 1)) by lia.
  rewrite (postorder_loop_kids s self incl (Node self ks) par Hshape Hself ks [] []
             _ eq_refl).
  simpl. rewrite length_map, Nat.ltb_irrefl, Nat.eqb_refl.
  destruct incl; simpl; [done|]. by rewrite app_nil_r.
Qed.

Lemma shapeb_shape s t : ∀ p, shapeb s p t = true → shape s p t.
Proof.
  induction t as [i ks IH] using tree_ind'. intros p. simpl.
  destruct (nodes s !! i) as [nd|] eqn:Hnd; [|done].
  rewrite !andb_true_iff, !bool_decide_eq_true, forallb_forall.
  intros [[Hp Hc] Hks]. econstructor; [done..|].
  rewrite Forall_forall in IH |- *. intros k Hk. apply IH; [done|].
  apply Hks. by apply list_elem_of_In.
Qed.

Lemma holdsb_holds s self t : holdsb s self t = true → holds s self t.
Proof.
  unfold holdsb, holds. rewrite !andb_true_iff, !bool_decide_eq_true.
  intros [[Hr Hs] Hd]. split_and!; [done| |done].
  destruct (nodes s !! self); [|done]. eexists. by apply shapeb_shape.
Qed.

Lemma holds_inv s self t :
  holds s self t →
  ∃ p ks, t = Node self ks ∧ shape s p (Node self ks) ∧ (self ∉ flat_map ids ks)
          ∧ NoDup (flat_map ids ks).
Proof.
  intros (Hr & [p Hs] & Hd). destruct t as [i ks]. simpl in *. subst i.
  apply NoDup_cons in Hd as [Hself Hd]. eauto 10.
Qed.

Lemma forest_size_lt_size i ks : forest_size ks < size (Node i ks).
Proof. unfold forest_size. simpl. lia. Qed.

Lemma post_perm t : post t ≡ₚ ids t.
Proof.
  induction t as [i ks IH] using tree_ind'. simpl.
  rewrite <- Permutation_cons_append. constructor.
  induction IH as [|k ks Hk _ IHks]; simpl; [done|]. by rewrite Hk, IHks.
Qed.

Lemma flat_map_post_perm ks : flat_map post ks ≡ₚ flat_map ids ks.
Proof. induction ks as [|k ks IH]; simpl; [done|]. by rewrite post_perm, IH. Qed.

Lemma preorder_holds s self t incl fuel :
  holds s self t → size t < fuel →
  preorder fuel s self incl = Ok (if incl then ids t else flat_map ids (kids_of t)).
Proof.
  intros (p & ks & -> & Hs & Hself & Hd)%holds_inv Hfuel.
  unfold preorder.
  rewrite (preorder_loop_forest s self incl (forest_size [Node self ks]) [Node self ks]);
    [|done|by repeat constructor; exists p|unfold forest_size; simpl in *; lia].
  simpl flat_map. rewrite app_nil_r. cbn [ids kids_of]. destruct incl.
  - by rewrite keep_true.
  - by rewrite keep_false_root.
Qed.

Lemma postorder_holds s self t incl fuel :
  holds s self t → 2 * size t ≤ fuel →
  postorder fuel s self incl
  = Ok (flat_map post (kids_of t) ++ (if incl then [self] else [])).
Proof.
  intros (p & ks & -> & Hs & Hself & Hd)%holds_inv Hfuel.
  apply (postorder_from_shape s self incl p ks fuel Hs Hself).
  pose proof (forest_walk_le ks). pose proof (forest_size_lt_size self ks). lia.
Qed.

Lemma levelorder_holds s self t incl fuel :
  holds s self t → size t < fuel →
  ∃ l, levelorder fuel s self incl = Ok l
       ∧ l ≡ₚ (if incl then ids t else flat_map ids (kids_of t)).
Proof.
  intros (p & ks & -> & Hs & Hself & Hd)%holds_inv Hfuel.
  unfold levelorder.
  destruct (levelorder_loop_forest s self incl (forest_size [Node self ks])
              [Node self ks] fuel) as (l & Hl & Hperm);
    [done|by repeat constructor; exists p|unfold forest_size; simpl in *; lia|].
  simpl in Hperm. rewrite app_nil_r in Hperm.
  exists (keep self incl l). split; [done|].
  rewrite (keep_perm _ _ _ _ Hperm). cbn [ids kids_of]. destruct incl.
  - by rewrite keep_true.
  - by rewrite keep_false_root.
Qed.

Lemma map_res_map_ok {A B C} (f : B → res C) (h : A → B) (g : A → C) l :
  Forall (λ x, f (h x) = Ok (g x)) l → map_res f (map h l) = Ok (map g l).
Proof. induction 1 as [|x l Hx _ IH]; simpl; [done|]. by rewrite Hx, IH. Qed.

Lemma height_kid k ks : k ∈ ks → height k ≤ foldr Nat.max 0 (map height ks).
Proof.
  induction ks as [|k' ks IH]; [by intros ?%elem_of_nil|].
  intros [->|Hk]%elem_of_cons; simpl; [lia|]. specialize (IH Hk). lia.
Qed.

Lemma postorder_recursive_shape s t :
  ∀ p depth, shape s p t → height t ≤ depth →
    postorder_recursive depth s (root_id t) = Ok (post t).
Proof.
  induction t as [i ks IH] using tree_ind'. intros p depth Hs Hd.
  destruct depth as [|depth]; [simpl in Hd; lia|].
  simpl. rewrite (shape_children _ _ _ _ Hs). simpl.
  apply shape_inv in Hs as (nd & _ & _ & _ & Hks).
  simpl in Hd. apply Nat.succ_le_mono in Hd.
  rewrite (map_res_map_ok _ _ post).
  - simpl. by rewrite flat_map_concat_map.
  - rewrite Forall_forall in IH, Hks |- *. intros k Hk.
    apply (IH k Hk (Some i)); [by apply Hks|].
    pose proof (height_kid k ks Hk). lia.
Qed.

Lemma postorder_naive_holds s self t incl depth :
  holds s self t → height t ≤ S depth →
  postorder_naive depth s self incl
  = Ok (flat_map post (kids_of t) ++ (if incl then [self] else [])).
Proof.
  intros (p & ks & -> & Hs & Hself & Hd)%holds_inv Hdepth.
  unfold postorder_naive. rewrite (shape_children _ _ _ _ Hs). simpl.
  apply shape_inv in Hs as (nd & _ & _ & _ & Hks). simpl in Hdepth.
  apply Nat.succ_le_mono in Hdepth.
  rewrite (map_res_map_ok _ _ post).
  - simpl. by rewrite flat_map_concat_map.
  - rewrite Forall_forall in Hks |- *. intros k Hk.
    apply (postorder_recursive_shape s k (Some self)); [by apply Hks|].
    pose proof (height_kid k ks Hk). lia.
Qed.

(** C5.  On every tree that the store holds, the iterative index-stack
    [postorder] returns, given fuel for two loop turns per node, and yields
    exactly the sequence of the recursive definition [postorder_naive]: for
    each node the postorder of its children, in child order, then the node;
    the starting node comes last when [include_self] is true and is left
    out when it is false. *)
Theorem postorder_matches_recursive s self t include_self fuel depth :
  holds s self t → 2 * size t ≤ fuel → height t ≤ S depth →
  postorder fuel s self include_self
    = Ok (flat_map post (kids_of t) ++ (if include_self then [self] else []))
  ∧ postorder_naive depth s self include_self = postorder fuel s self include_self.
Proof.
  intros Ht Hfuel Hdepth.
  rewrite (postorder_holds s self t include_self fuel Ht Hfuel).
  split; [done|]. by apply postorder_naive_holds.
Qed.

Lemma postorder_matches_recursive_witness :
  postorder 10 abc_store 0 true = Ok [1; 3; 4; 2; 0]
  ∧ postorder_naive 2 abc_store 0 true = postorder 10 abc_store 0 true.
Proof.
  apply (postorder_matches_recursive abc_store 0 abc_tree true 10 2).
  - apply holdsb_holds. vm_compute. reflexivity.
  - simpl. lia.
  - simpl. lia.
Defined.

(** C4 (amended).  On every tree that the store holds, each of [preorder],
    [postorder] and [levelorder] returns and yields every node exactly
    once: with [include_self] true, every node of the tree; with
    [include_self] false, every node but the one the traversal was started
    on. *)
Theorem traversals_visit_each_node_once s self t fuel :
  holds s self t → 2 * size t ≤ fuel →
  ∀ include_self : bool,
    let expected := if include_self then ids t else flat_map ids (kids_of t) in
    visits_once (preorder fuel s self include_self) expected
    ∧ visits_once (postorder fuel s self include_self) expected
    ∧ visits_once (levelorder fuel s self include_self) expected.
Proof.
  intros Ht Hfuel incl expected.
  pose proof (size_pos t) as Hpos.
  assert (Hnd : NoDup expected).
  { destruct Ht as (_ & _ & Hd). subst expected. destruct incl; [done|].
    destruct t. simpl in *. by apply NoDup_cons in Hd as [_ Hd]. }
  split_and!.
  - eexists. split; [apply (preorder_holds _ _ _ _ _ Ht); lia|]. done.
  - eexists. split; [apply (postorder_holds _ _ _ _ _ Ht Hfuel)|].
    assert (Hp : flat_map post (kids_of t) ++ (if incl then [self] else [])
                 ≡ₚ expected).
    { subst expected. destruct Ht as (Hr & _ & _). destruct t as [i ks].
      simpl in *. subst i. destruct incl.
      - rewrite <- Permutation_cons_append. constructor. apply flat_map_post_perm.
      - rewrite app_nil_r. apply flat_map_post_perm. }
    split; [by rewrite Hp|done].
  - destruct (levelorder_holds s self t incl fuel Ht) as (l & Hl & Hp); [lia|].
    exists l. split; [done|]. split; [by rewrite Hp|done].
Qed.

Lemma traversals_visit_each_node_once_witness :
  visits_once (preorder 10 abc_store 0 false) [1; 2; 3; 4]
  ∧ visits_once (postorder 10 abc_store 0 false) [1; 2; 3; 4]
  ∧ visits_once (levelorder 10 abc_store 0 false) [1; 2; 3; 4].
Proof.
  apply (traversals_visit_each_node_once abc_store 0 abc_tree 10).
  - apply holdsb_holds. vm_compute. reflexivity.
  - simpl. lia.
Defined.

(** C4 as stated fails: with [include_self] false the three traversals of
    a five-node tree yield four nodes; the starting node, which is
    reachable from itself, is not among them. *)
Lemma traversals_without_include_self_omit_start :
  holds abc_store 0 abc_tree
  ∧ preorder 10 abc_store 0 false = Ok [1; 2; 3; 4]
  ∧ postorder 10 abc_store 0 false = Ok [1; 3; 4; 2]
  ∧ levelorder 10 abc_store 0 false = Ok [1; 2; 3; 4]
  ∧ 0 ∈ ids abc_tree
  ∧ ¬ visits_once (preorder 10 abc_store 0 false) (ids abc_tree)
  ∧ ¬ visits_once (postorder 10 abc_store 0 false) (ids abc_tree)
  ∧ ¬ visits_once (levelorder 10 abc_store 0 false) (ids abc_tree).
Proof.
  split_and!; try (vm_compute; reflexivity).
  - apply holdsb_holds. vm_compute. reflexivity.
  - set_solver.
  - intros (l & Hl & _ & Hp). vm_compute in Hl. injection Hl as <-.
    apply Permutation_length in Hp. done.
  - intros (l & Hl & _ & Hp). vm_compute in Hl. injection Hl as <-.
    apply Permutation_length in Hp. done.
  - intros (l & Hl & _ & Hp). vm_compute in Hl. injection Hl as <-.
    apply Permutation_length in Hp. done.
Qed.

(** ** _accumulate_to_ancestor *)

Lemma round_53_exact z : (Z.abs z <= 2 ^ 53)%Z → round_53 z = z.
Proof.
  intros Hz. unfold round_53.
  destruct (Z.eq_dec (Z.abs z) (2 ^ 53)) as [Heq|Hne].
  - rewrite Heq. destruct (Z.abs_eq_or_opp z) as [H|H]; rewrite H in Heq.
    + by rewrite Heq.
    + assert (z = (- 2 ^ 53)%Z) as -> by lia. done.
  - destruct (Z.eq_dec (Z.abs z) 0) as [H0|H0]; [by rewrite H0|].
    assert (Hlog : (Z.log2 (Z.abs z) < 53)%Z) by (apply Z.log2_lt_pow2; lia).
    by rewrite (proj2 (Z.leb_le _ _)) by lia.
Qed.

Lemma to_float_exact z : (Z.abs z <= 2 ^ 53)%Z → to_float z = Finite z.
Proof.
  intros Hz. unfold to_float. rewrite (round_53_exact z Hz).
  assert (H : (2 ^ 53 < 2 ^ 1024)%Z) by (by apply Z.pow_lt_mono_r).
  by rewrite (proj2 (Z.ltb_lt _ _)) by lia.
Qed.

Lemma float_sum_exact ls :
  ∀ acc, exact_sum acc ls = true →
         float_sum (Finite acc) ls = Ok (Finite (acc + sumZ ls)).
Proof.
  induction ls as [|l ls IH]; intros acc Hex; simpl.
  - by rewrite Z.add_0_r.
  - simpl in Hex. apply andb_prop in Hex as [[Hl Hacc]%andb_prop Hex].
    apply Z.leb_le in Hl, Hacc.
    unfold float_of_int. rewrite (to_float_exact l Hl). simpl.
    rewrite (to_float_exact _ Hacc), (IH _ Hex). do 2 f_equal. lia.
Qed.

Lemma accumulate_loop_walk s a :
  ∀ k n path top ls accum fuel,
    walk_up s n k = Some (path, top) → a ∉ path →
    mapM (branch_length s) path = Some ls →
    _accumulate_loop (k + fuel) s a accum n
    = let? accum' := float_sum accum ls in _accumulate_loop fuel s a accum' top.
Proof.
  induction k as [|k IH]; intros n path top ls accum fuel Hw Ha Hls.
  - simpl in Hw. injection Hw as <- <-. simpl in Hls. by injection Hls as <-.
  - simpl in Hw.
    destruct (nodes s !! n) as [nd|] eqn:Hnd; [|done]. simpl in Hw.
    destruct (Parent nd) as [p|] eqn:Hp; [|done]. simpl in Hw.
    destruct (walk_up s p k) as [[path' top']|] eqn:Hwp; [|done].
    simpl in Hw. injection Hw as <- <-.
    apply not_elem_of_cons in Ha as [Hna Ha].
    rewrite mapM_Some in Hls. apply Forall2_cons_inv_l in Hls as (l & ls' & Hl & Hls' & ->).
    rewrite <- mapM_Some in Hls'.
    unfold branch_length in Hl. rewrite Hnd in Hl. simpl in Hl.
    simpl. destruct (Nat.eqb_spec n a) as [->|_]; [done|].
    unfold node. rewrite Hnd. simpl. rewrite Hp, Hl.
    destruct (float_of_int l) as [x|e]; [|done]. simpl.
    by rewrite (IH p path' top' ls').
Qed.




(** ** lowest_common_ancestor *)

(** C10.  With an empty list of names, [lowest_common_ancestor] returns
    None, raises nothing, and leaves the store as it found it. *)
Theorem lowest_common_ancestor_of_no_names fuel self s :
  lowest_common_ancestor fuel self [] s = (Ok None, s).
Proof. reflexivity. Qed.

(** C9 fails on this call: [A] is a tip with a parent, and the method is
    called on [A] with its own name given twice.  Both walks mark the
    parent; the descent then starts at [A], which carries no [black]
    attribute, so AttributeError is raised before the clean-up loop, and
    the parent keeps its [black] list. *)
Theorem lowest_common_ancestor_leaves_marks :
  ∃ s', lowest_common_ancestor 10 1 [ByName "A"; ByName "A"] tip_below_root
        = (Raise AttributeError, s')
        ∧ attr black tip_below_root 0 = Some None
        ∧ attr black s' 0 = Some (Some [1; 1]).
Proof. eexists. split_and!; vm_compute; reflexivity. Qed.

(** ** What a method leaves alone *)

Section Preserves.

Context (R : store → store → Prop) `{!PreOrder R}.

Lemma preserves_ret {A} (a : A) : preserves R (ret a).
Proof. intros s. simpl. reflexivity. Qed.

Lemma preserves_raise {A} e : preserves R (@raise A e).
Proof. intros s. simpl. reflexivity. Qed.

Lemma preserves_lift {A} (f : store → res A) : preserves R (lift f).
Proof. intros s. simpl. reflexivity. Qed.

Lemma preserves_pure_res {A} (r : res A) : preserves R (pure_res r).
Proof. intros s. simpl. reflexivity. Qed.

Lemma preserves_get n : preserves R (get n).
Proof. apply preserves_lift. Qed.

Lemma preserves_bind {A B} (m : M A) (k : A → M B) :
  preserves R m → (∀ a, preserves R (k a)) → preserves R (bind m k).
Proof.
  intros Hm Hk s. unfold bind. specialize (Hm s).
  destruct (m s) as [[a|e] s1]; simpl in *; [|done].
  etrans; [exact Hm|apply Hk].
Qed.

Lemma preserves_for_each {A} (l : list A) (body : A → M unit) :
  (∀ x, preserves R (body x)) → preserves R (for_each l body).
Proof.
  intros Hb. induction l as [|x l IH]; simpl.
  - apply preserves_ret.
  - apply preserves_bind; [apply Hb|done].
Qed.

Lemma preserves_map_M {A B} (f : A → M B) (l : list A) :
  (∀ x, preserves R (f x)) → preserves R (map_M f l).
Proof.
  intros Hf. induction l as [|x l IH]; simpl.
  - apply preserves_ret.
  - apply preserves_bind; [apply Hf|]. intros y.
    apply preserves_bind; [done|]. intros ys. apply preserves_ret.
Qed.

Lemma preserves_fold_M {A B} (body : B → A → M B) (l : list A) :
  (∀ acc x, preserves R (body acc x)) → ∀ acc, preserves R (fold_M body l acc).
Proof.
  intros Hb. induction l as [|x l IH]; intros acc; simpl.
  - apply preserves_ret.
  - apply preserves_bind; [apply Hb|done].
Qed.

Lemma preserves_modify n f :
  (∀ s nd, nodes s !! n = Some nd → R s (mkStore (<[n := f nd]> (nodes s)) (cells s))) →
  preserves R (modify n f).
Proof.
  intros Hf s. unfold modify. destruct (nodes s !! n) as [nd|] eqn:Hnd; simpl.
  - by apply Hf.
  - reflexivity.
Qed.

End Preserves.

Lemma same_refl {X} (proj : TreeNode → X) s : same proj s s.
Proof. done. Qed.

Lemma same_trans {X} (proj : TreeNode → X) s1 s2 s3 :
  same proj s1 s2 → same proj s2 s3 → same proj s1 s3.
Proof. intros H1 H2 n. by rewrite H1. Qed.

#[export] Instance same_preorder {X} (proj : TreeNode → X) : PreOrder (same proj).
Proof. split; [intros s; apply same_refl|intros ???; apply same_trans]. Qed.

#[export] Instance same_tree_preorder : PreOrder same_tree.
Proof.
  split.
  - intros s. by repeat split.
  - intros s1 s2 s3 (?&?&?&?) (?&?&?&?).
    repeat split; eapply same_trans; done.
Qed.

#[export] Instance same_memo_preorder : PreOrder same_memo.
Proof.
  split.
  - intros s. by split.
  - intros s1 s2 s3 [? ?] [? ?]. split; [by eapply same_trans|congruence].
Qed.

Lemma same_insert {X} (proj : TreeNode → X) s n nd f c :
  nodes s !! n = Some nd → proj (f nd) = proj nd →
  same proj s (mkStore (<[n := f nd]> (nodes s)) c).
Proof.
  intros Hnd Hf m. unfold attr. simpl.
  destruct (decide (n = m)) as [<-|Hne].
  - rewrite lookup_insert_eq, Hnd. simpl. by rewrite Hf.
  - by rewrite lookup_insert_ne.
Qed.

(** A tactic for the routine cases: walk through the binds of a method and
    close each [modify] by the fact that its setter keeps the attributes
    in question. *)
Ltac preserves_step :=
  first
    [ apply preserves_ret
    | apply preserves_raise
    | apply preserves_get
    | apply preserves_lift
    | apply preserves_pure_res
    | match goal with |- PreOrder _ => apply _ end
    | apply preserves_bind
    | apply preserves_for_each
    | apply preserves_map_M
    | apply preserves_fold_M
    | progress intros
    | match goal with
      | |- preserves _ (match ?x with _ => _ end) => destruct x
      | |- preserves _ (let '(_, _) := ?x in _) => destruct x
      end ].

Ltac preserves_modify_tree :=
  apply preserves_modify; [|intros; repeat split; by apply same_insert];
  try apply _.

Ltac preserves_modify_memo :=
  apply preserves_modify; [|intros; split; [by apply same_insert|done]];
  try apply _.

(** *** The structural edits leave the diameter memo alone *)

Lemma invalidate_node_cache_memo self : preserves same_memo (invalidate_node_cache self).
Proof. unfold invalidate_node_cache. preserves_modify_memo. Qed.

Lemma _remove_node_memo self idx : preserves same_memo (_remove_node self idx).
Proof.
  unfold _remove_node.
  repeat first [apply invalidate_node_cache_memo | preserves_modify_memo | preserves_step].
Qed.

Lemma remove_memo self n : preserves same_memo (remove self n).
Proof.
  unfold remove.
  repeat first [apply invalidate_node_cache_memo | apply _remove_node_memo
               | preserves_modify_memo | preserves_step].
Qed.

Lemma _adopt_memo self n : preserves same_memo (_adopt self n).
Proof.
  unfold _adopt.
  repeat first [apply invalidate_node_cache_memo | apply remove_memo
               | preserves_modify_memo | preserves_step].
Qed.

Lemma append_memo self n : preserves same_memo (append self n).
Proof.
  unfold append.
  repeat first [apply invalidate_node_cache_memo | apply _adopt_memo
               | preserves_modify_memo | preserves_step].
Qed.

Lemma adopt_live_memo fuel self owner :
  ∀ i, preserves same_memo (adopt_live fuel self owner i).
Proof.
  induction fuel as [|fuel IH]; intros i; simpl.
  - apply preserves_raise. apply _.
  - repeat first [apply IH | apply _adopt_memo | preserves_step].
Qed.

Lemma extend_memo self ns : preserves same_memo (extend self ns).
Proof.
  unfold extend, adopt_nodes.
  repeat first [apply invalidate_node_cache_memo | apply _adopt_memo
               | apply adopt_live_memo | preserves_modify_memo | preserves_step].
Qed.

Lemma pop_memo self i : preserves same_memo (pop self i).
Proof.
  unfold pop.
  repeat first [apply invalidate_node_cache_memo | apply _remove_node_memo
               | preserves_modify_memo | preserves_step].
Qed.

Lemma prune_memo fuel self : preserves same_memo (prune fuel self).
Proof.
  unfold prune.
  repeat first [apply invalidate_node_cache_memo | apply append_memo | apply remove_memo
               | preserves_modify_memo | preserves_step].
Qed.

(** ** The name cache *)

Lemma bind_Ok_inv {A B} (m : M A) (k : A → M B) s b s' :
  bind m k s = (Ok b, s') → ∃ a s1, m s = (Ok a, s1) ∧ k a s1 = (Ok b, s').
Proof.
  unfold bind. destruct (m s) as [[a|e] s1]; [eauto|done].
Qed.

Lemma preserves_run {A} R (m : M A) s r s' : preserves R m → m s = (r, s') → R s s'.
Proof. intros Hm Hs. specialize (Hm s). by rewrite Hs in Hm. Qed.

Lemma with_cache_lookup_self s self c nd :
  nodes s !! self = Some nd →
  nodes (with_cache s self c) !! self = Some (set_node_cache c nd).
Proof. intros H. unfold with_cache. simpl. by rewrite lookup_alter_eq, H. Qed.

Lemma with_cache_lookup_ne s self c n :
  n ≠ self → nodes (with_cache s self c) !! n = nodes s !! n.
Proof. intros H. unfold with_cache. simpl. by rewrite lookup_alter_ne. Qed.

Lemma with_cache_Name s self c n :
  attr Name (with_cache s self c) n = attr Name s n.
Proof.
  unfold attr. destruct (decide (n = self)) as [->|Hne].
  - unfold with_cache. simpl. rewrite lookup_alter_eq. by destruct (nodes s !! self).
  - by rewrite with_cache_lookup_ne.
Qed.

Lemma with_cache_with_cache s self c c' :
  with_cache (with_cache s self c) self c' = with_cache s self c'.
Proof.
  unfold with_cache. simpl. f_equal. apply map_eq. intros n.
  destruct (decide (n = self)) as [->|Hne].
  - rewrite !lookup_alter_eq. by destruct (nodes s !! self).
  - by rewrite !lookup_alter_ne.
Qed.

Lemma with_cache_id s self nd :
  nodes s !! self = Some nd → with_cache s self (_node_cache nd) = s.
Proof.
  intros H. destruct s as [m cs]. unfold with_cache. simpl in *. f_equal.
  apply map_eq. intros n. destruct (decide (n = self)) as [->|Hne].
  - rewrite lookup_alter_eq, H. simpl. by destruct nd.
  - by rewrite lookup_alter_ne.
Qed.

Lemma modify_with_cache s self c nd c' :
  nodes s !! self = Some nd →
  modify self (λ me, set_node_cache (c' (_node_cache me)) me) (with_cache s self c)
  = (Ok tt, with_cache s self (c' c)).
Proof.
  intros H. unfold modify. rewrite (with_cache_lookup_self _ _ _ _ H).
  f_equal. unfold with_cache. simpl. f_equal. apply map_eq. intros n.
  destruct (decide (n = self)) as [->|Hne].
  - by rewrite lookup_insert_eq, lookup_alter_eq, H.
  - by rewrite lookup_insert_ne, !lookup_alter_ne.
Qed.

Lemma invalidate_with_cache s self nd :
  nodes s !! self = Some nd →
  invalidate_node_cache self s = (Ok tt, with_cache s self ∅).
Proof.
  intros H. unfold invalidate_node_cache.
  rewrite <- (with_cache_id s self nd H) at 1.
  by rewrite (modify_with_cache s self _ nd (λ _, ∅) H).
Qed.

(** One turn of the loop of [create_node_cache] *)
Lemma cache_add_with_cache s self c n me :
  nodes s !! self = Some me →
  cache_add self n (with_cache s self c)
  = match attr Name s n with
    | None => (Raise Dangling, with_cache s self c)
    | Some None => (Ok tt, with_cache s self c)
    | Some (Some name) =>
        match c !! name with
        | Some _ => (Raise DuplicateNodeError, with_cache s self c)
        | None => (Ok tt, with_cache s self (<[name := n]> c))
        end
    end.
Proof.
  intros Hme. unfold cache_add, bind, get, lift, node.
  pose proof (with_cache_Name s self c n) as HN. unfold attr in HN |- *.
  destruct (nodes (with_cache s self c) !! n) as [nd'|];
    destruct (nodes s !! n) as [nd|]; simpl in HN |- *; try done.
  injection HN as HN. rewrite HN.
  destruct (Name nd) as [name|]; [|done].
  rewrite (with_cache_lookup_self _ _ _ _ Hme). simpl.
  destruct (c !! name); [done|].
  apply (modify_with_cache s self c me (λ c, <[name := n]> c) Hme).
Qed.

Lemma named_app s l1 l2 : named s (l1 ++ l2) = named s l1 ++ named s l2.
Proof. unfold named. apply omap_app. Qed.

Lemma cache_fill_lookup_notin c l k :
  k ∉ l.*1 → cache_fill c l !! k = c !! k.
Proof.
  revert c. induction l as [|[k' v] l IH]; intros c Hk; simpl; [done|].
  simpl in Hk. apply not_elem_of_cons in Hk as [Hne Hk].
  rewrite IH by done. by rewrite lookup_insert_ne.
Qed.

Lemma cache_fill_list_to_map l :
  NoDup l.*1 → cache_fill ∅ l = list_to_map l.
Proof.
  assert (H : ∀ c, NoDup l.*1 → cache_fill c l = list_to_map l ∪ c).
  { induction l as [|[k v] l IH]; intros c Hd; simpl.
    - by rewrite (left_id_L ∅ (∪)).
    - simpl in Hd. apply NoDup_cons in Hd as [Hk Hd]. rewrite IH by done.
      rewrite <- insert_union_l. rewrite <- insert_union_r; [done|].
      by apply not_elem_of_list_to_map_1. }
  intros Hd. rewrite H by done. by rewrite (right_id_L ∅ (∪)).
Qed.

(** The loop of [create_node_cache], as long as no name repeats *)
Lemma fill_cache_fresh s self me :
  nodes s !! self = Some me →
  ∀ l c, Forall (λ n, is_Some (nodes s !! n)) l →
         NoDup (named s l).*1 →
         (∀ k, k ∈ (named s l).*1 → c !! k = None) →
    for_each l (cache_add self) (with_cache s self c)
    = (Ok tt, with_cache s self (cache_fill c (named s l))).
Proof.
  intros Hme l. induction l as [|n l IH]; intros c Hl Hd Hc; [done|].
  apply Forall_cons in Hl as [[nd Hn] Hl].
  simpl. unfold bind at 1. rewrite (cache_add_with_cache _ _ _ _ _ Hme).
  unfold named in *. simpl in *. unfold attr in *. rewrite Hn in *. simpl in *.
  destruct (Name nd) as [name|]; simpl in *.
  - apply NoDup_cons in Hd as [Hname Hd].
    rewrite (Hc name) by set_solver.
    apply IH; [done|done|]. intros k Hk.
    rewrite lookup_insert_ne; [apply Hc; set_solver|]. intros ->. done.
  - by apply IH.
Qed.

(** ... and when the walk comes to a name it has met before *)
Lemma fill_cache_duplicate s self me l1 n l2 x c :
  nodes s !! self = Some me →
  Forall (λ n, is_Some (nodes s !! n)) l1 →
  NoDup (named s l1).*1 →
  (∀ k, k ∈ (named s l1).*1 → c !! k = None) →
  attr Name s n = Some (Some x) →
  is_Some (cache_fill c (named s l1) !! x) →
  for_each (l1 ++ n :: l2) (cache_add self) (with_cache s self c)
  = (Raise DuplicateNodeError, with_cache s self (cache_fill c (named s l1))).
Proof.
  intros Hme Hl1 Hd Hc Hn Hx.
  assert (Happ : ∀ (l l' : list handle) body st,
    for_each (l ++ l') body st
    = match for_each l body st with
      | (Ok _, st') => for_each l' body st'
      | (Raise e, st') => (Raise e, st')
      end).
  { clear. induction l as [|y l IH]; intros l' body st; simpl; [done|].
    unfold bind. destruct (body y st) as [[[]|e] st']; [apply IH|done]. }
  rewrite Happ, (fill_cache_fresh _ _ _ Hme) by done.
  simpl. unfold bind. rewrite (cache_add_with_cache _ _ _ _ _ Hme), Hn.
  destruct Hx as [v Hx]. by rewrite Hx.
Qed.

Lemma shape_in_store s t : ∀ p, shape s p t → Forall (λ n, is_Some (nodes s !! n)) (ids t).
Proof.
  induction t as [i ks IH] using tree_ind'. intros p (nd & Hnd & _ & _ & Hks)%shape_inv.
  simpl. constructor; [by exists nd|].
  rewrite Forall_forall in IH, Hks. rewrite Forall_forall. intros n Hn.
  apply list_elem_of_In, in_flat_map in Hn as (k & Hk & Hn).
  apply list_elem_of_In in Hk, Hn.
  specialize (IH k Hk (Some i) (Hks k Hk)). rewrite Forall_forall in IH. by apply IH.
Qed.

Lemma holds_in_store s self t :
  holds s self t → Forall (λ n, is_Some (nodes s !! n)) (ids t).
Proof. intros (_ & [p Hs] & _). by eapply shape_in_store. Qed.

Lemma holds_self s self t : holds s self t → is_Some (nodes s !! self).
Proof.
  intros H. pose proof (holds_in_store _ _ _ H) as Hall. destruct H as (Hr & _).
  destruct t as [i ks]. simpl in *. subst i. by apply Forall_cons in Hall as [? _].
Qed.

Lemma create_node_cache_empty s self t fuel me :
  holds s self t → size t < fuel →
  nodes s !! self = Some me → _node_cache me = ∅ →
  create_node_cache fuel self s = for_each (ids t) (cache_add self) (with_cache s self ∅).
Proof.
  intros Ht Hfuel Hme Hc.
  unfold create_node_cache, bind, get, lift, node. rewrite Hme. simpl.
  rewrite Hc, bool_decide_eq_true_2 by done.
  unfold traverse. rewrite (preorder_holds s self t true fuel Ht Hfuel).
  f_equal. symmetry. rewrite <- Hc. by apply with_cache_id.
Qed.

Lemma create_node_cache_unique s self t fuel :
  holds s self t → size t < fuel →
  attr _node_cache s self = Some ∅ →
  NoDup (named s (ids t)).*1 →
  create_node_cache fuel self s
  = (Ok tt, with_cache s self (list_to_map (named s (ids t)))).
Proof.
  intros Ht Hfuel Hc Hd. unfold attr in Hc.
  destruct (nodes s !! self) as [me|] eqn:Hme; [|done]. injection Hc as Hc.
  rewrite (create_node_cache_empty s self t fuel me) by done.
  rewrite (fill_cache_fresh s self me Hme);
    [|by apply (holds_in_store s self)|done|done].
  by rewrite cache_fill_list_to_map.
Qed.

(** C1 (amended).  When the preorder walk of [create_node_cache], started
    with an empty cache, comes to a node whose name [x] it has already
    entered, it raises DuplicateNodeError.  The cache is not emptied: it
    keeps the names entered before ([before], which holds [x]), and a
    second [create_node_cache] finds it non-empty and returns at once,
    without raising and without rebuilding. *)
Theorem create_node_cache_duplicate s self t fuel before x n after :
  holds s self t → size t < fuel →
  attr _node_cache s self = Some ∅ →
  named s (ids t) = before ++ (x, n) :: after →
  NoDup before.*1 → x ∈ before.*1 →
  ∃ s', create_node_cache fuel self s = (Raise DuplicateNodeError, s')
        ∧ attr _node_cache s' self = Some (list_to_map before)
        ∧ is_Some ((list_to_map before : gmap string handle) !! x)
        ∧ create_node_cache fuel self s' = (Ok tt, s').
Proof.
  intros Ht Hfuel Hc Hnamed Hd Hx. unfold attr in Hc.
  destruct (nodes s !! self) as [me|] eqn:Hme; [|done]. injection Hc as Hc.
  (* split the walk where the name comes back *)
  assert (Hsplit : ∃ l1 l2, ids t = l1 ++ n :: l2 ∧ named s l1 = before
                            ∧ attr Name s n = Some (Some x)).
  { clear -Hnamed. revert before Hnamed. generalize (ids t). intros l.
    induction l as [|m l IH]; intros before Hnamed.
    - unfold named in Hnamed. simpl in Hnamed. by destruct before.
    - unfold named in Hnamed. simpl in Hnamed.
      destruct (attr Name s m) as [[name|]|] eqn:Hm.
      + destruct before as [|[k v] before]; simpl in Hnamed.
        * injection Hnamed as -> -> _. exists [], l. by rewrite Hm.
        * injection Hnamed as -> -> Hnamed.
          destruct (IH before Hnamed) as (l1 & l2 & -> & <- & Hn).
          exists (v :: l1), l2. split; [done|]. split; [|done].
          unfold named. simpl. by rewrite Hm.
      + destruct (IH before Hnamed) as (l1 & l2 & -> & <- & Hn).
        exists (m :: l1), l2. split; [done|]. split; [|done].
        unfold named. simpl. by rewrite Hm.
      + destruct (IH before Hnamed) as (l1 & l2 & -> & <- & Hn).
        exists (m :: l1), l2. split; [done|]. split; [|done].
        unfold named. simpl. by rewrite Hm. }
  destruct Hsplit as (l1 & l2 & Hids & Hbefore & Hn).
  assert (Hin : is_Some ((list_to_map before : gmap string handle) !! x)).
  { apply list_elem_of_fmap in Hx as ([k v] & -> & Hkv). simpl.
    exists v. by apply elem_of_list_to_map_1. }
  exists (with_cache s self (list_to_map before)).
  assert (Hall : Forall (λ n, is_Some (nodes s !! n)) l1).
  { pose proof (holds_in_store _ _ _ Ht) as Hall. rewrite Hids in Hall.
    by apply Forall_app in Hall as [? _]. }
  split_and!.
  - rewrite (create_node_cache_empty s self t fuel me) by done.
    rewrite Hids, (fill_cache_duplicate s self me l1 n l2 x ∅ Hme Hall);
      rewrite ?Hbefore; try done.
    + by rewrite cache_fill_list_to_map.
    + by rewrite cache_fill_list_to_map.
  - unfold attr. by rewrite (with_cache_lookup_self _ _ _ _ Hme).
  - done.
  - unfold create_node_cache, bind, get, lift, node.
    rewrite (with_cache_lookup_self _ _ _ _ Hme). simpl.
    rewrite bool_decide_eq_false_2; [done|].
    intros Hempty. rewrite Hempty in Hin. by destruct Hin.
Qed.

Lemma create_node_cache_duplicate_witness :
  ∃ s', create_node_cache 5 0 twins_store = (Raise DuplicateNodeError, s')
        ∧ attr _node_cache s' 0 = Some (list_to_map [("root", 0); ("X", 1)])
        ∧ is_Some ((list_to_map [("root", 0); ("X", 1)] : gmap string handle) !! "X")
        ∧ create_node_cache 5 0 s' = (Ok tt, s').
Proof.
  apply (create_node_cache_duplicate twins_store 0 twins_tree 5
           [("root", 0); ("X", 1)] "X" 2 []).
  - apply holdsb_holds. vm_compute. reflexivity.
  - simpl. lia.
  - reflexivity.
  - reflexivity.
  - apply (bool_decide_unpack _). vm_compute. exact I.
  - set_solver.
Defined.

(** C1 as stated fails: after the duplicate-name error the cache is not
    empty, the next [create_node_cache] is a no-op, and [find] answers from
    the partly filled cache. *)
Lemma duplicate_leaves_cache_filled :
  ∃ s', create_node_cache 5 0 twins_store = (Raise DuplicateNodeError, s')
        ∧ attr _node_cache twins_store 0 = Some ∅
        ∧ attr _node_cache s' 0 ≠ Some ∅
        ∧ create_node_cache 5 0 s' = (Ok tt, s')
        ∧ (find 5 0 (ByName "X") s').1 = Ok 1.
Proof.
  eexists. split_and!; [vm_compute; reflexivity|reflexivity| |vm_compute; reflexivity..].
  intros H. vm_compute in H. discriminate H.
Qed.

(** ** Edits and the cache of the node they are called on *)

Ltac preserves_modify_cache :=
  apply preserves_modify; [|intros; by apply same_insert]; try apply _.

Lemma invalidate_node_cache_empties self s r s' :
  invalidate_node_cache self s = (Ok r, s') → attr _node_cache s' self = Some ∅.
Proof.
  unfold invalidate_node_cache, modify, attr.
  destruct (nodes s !! self) as [nd|]; [|done].
  intros [= _ <-]. simpl. by rewrite lookup_insert_eq.
Qed.

Lemma ends_empty {A} self (m : M A) r s' s1 :
  attr _node_cache s1 self = Some ∅ →
  preserves (same _node_cache) m → m s1 = (r, s') →
  attr _node_cache s' self = Some ∅.
Proof. intros H1 Hm Hrun. by rewrite <- (preserves_run _ _ _ _ _ Hm Hrun self). Qed.

Lemma _remove_node_empties self idx s r s' :
  _remove_node self idx s = (Ok r, s') → attr _node_cache s' self = Some ∅.
Proof.
  unfold _remove_node. intros (? & s1 & H1 & H)%bind_Ok_inv.
  apply invalidate_node_cache_empties in H1.
  eapply (ends_empty self _ _ _ s1 H1); [|exact H].
  repeat first [preserves_modify_cache | preserves_step].
Qed.

Lemma remove_empties self n s r s' :
  remove self n s = (Ok r, s') → attr _node_cache s' self = Some ∅.
Proof.
  unfold remove. intros (nd & s1 & H1 & H)%bind_Ok_inv.
  destruct (remove_scan n 0 (Children nd)).
  - apply bind_Ok_inv in H as (? & s2 & H2 & H). injection H as _ <-.
    by eapply _remove_node_empties.
  - apply bind_Ok_inv in H as (? & s2 & H2 & H). injection H as _ <-.
    by eapply invalidate_node_cache_empties.
Qed.

Lemma pop_empties self i s r s' :
  pop self i s = (Ok r, s') → attr _node_cache s' self = Some ∅.
Proof.
  unfold pop. intros (? & s1 & H1 & H)%bind_Ok_inv. by eapply _remove_node_empties.
Qed.

Lemma append_empties self n s r s' :
  append self n s = (Ok r, s') → attr _node_cache s' self = Some ∅.
Proof.
  unfold append. intros (? & s1 & H1 & (? & s2 & H2 & H)%bind_Ok_inv)%bind_Ok_inv.
  by eapply invalidate_node_cache_empties.
Qed.

Lemma extend_empties self ns s r s' :
  extend self ns s = (Ok r, s') → attr _node_cache s' self = Some ∅.
Proof.
  unfold extend. intros (? & s1 & H1 & (? & s2 & H2 & H)%bind_Ok_inv)%bind_Ok_inv.
  by eapply invalidate_node_cache_empties.
Qed.

Lemma prune_empties fuel self s r s' :
  prune fuel self s = (Ok r, s') → attr _node_cache s' self = Some ∅.
Proof.
  unfold prune.
  intros (? & s1 & H1 & (? & s2 & H2 & (? & s3 & H3 & H)%bind_Ok_inv)%bind_Ok_inv)%bind_Ok_inv.
  by eapply invalidate_node_cache_empties.
Qed.

Lemma apply_edit_empties fuel self e s r s' :
  apply_edit fuel self e s = (Ok r, s') → attr _node_cache s' self = Some ∅.
Proof.
  destruct e; simpl.
  - apply append_empties.
  - apply extend_empties.
  - intros (? & s1 & H1 & [= _ <-])%bind_Ok_inv. by eapply pop_empties.
  - intros (? & s1 & H1 & [= _ <-])%bind_Ok_inv. by eapply remove_empties.
  - apply prune_empties.
Qed.

Lemma find_after_rebuild s self t fuel name :
  holds s self t → size t < fuel →
  attr _node_cache s self = Some ∅ →
  NoDup (named s (ids t)).*1 →
  (find fuel self (ByName name) s).1
  = or_raise MissingNodeError
      ((list_to_map (named s (ids t)) : gmap string handle) !! name).
Proof.
  intros Ht Hfuel Hc Hd. unfold find, bind.
  rewrite (create_node_cache_unique s self t fuel Ht Hfuel Hc Hd).
  destruct (holds_self _ _ _ Ht) as [me Hme].
  unfold get, lift, node. rewrite (with_cache_lookup_self _ _ _ _ Hme). simpl.
  by destruct (_ !! name).
Qed.

(** C2 (amended).  Every edit ([append], [extend], [pop], [remove],
    [prune]) that is called on a node [x] and returns leaves the cache of
    [x] empty, so the next [find] on [x] rebuilds it: on the tree that [x]
    holds after the edit, with no name repeated, [find] returns the node
    of that tree which carries the name, and raises MissingNodeError if
    there is none. *)
Theorem edit_invalidates_own_cache fuel x e s s' :
  apply_edit fuel x e s = (Ok tt, s') →
  attr _node_cache s' x = Some ∅
  ∧ ∀ t' fuel' name,
      holds s' x t' → size t' < fuel' → NoDup (named s' (ids t')).*1 →
      (find fuel' x (ByName name) s').1
      = or_raise MissingNodeError
          ((list_to_map (named s' (ids t')) : gmap string handle) !! name).
Proof.
  intros He. pose proof (apply_edit_empties _ _ _ _ _ _ He) as Hc.
  split; [done|]. intros t' fuel' name Ht Hfuel Hd.
  by apply find_after_rebuild.
Qed.

(** Every edit in turn, [prune] among them, on a node whose cache has been
    built by a [find] *)
Lemma edit_invalidates_own_cache_witness :
  ∃ s1, find 10 0 (ByName "C") chain_and_e = (Ok 2, s1)
    ∧ attr _node_cache s1 0 ≠ Some ∅
    ∧ Forall (λ e,
        ∃ s', apply_edit 10 0 e s1 = (Ok tt, s')
          ∧ attr _node_cache s' 0 = Some ∅
          ∧ ∀ t' fuel' name,
              holds s' 0 t' → size t' < fuel' → NoDup (named s' (ids t')).*1 →
              (find fuel' 0 (ByName name) s').1
              = or_raise MissingNodeError
                  ((list_to_map (named s' (ids t')) : gmap string handle) !! name))
        [Append 4; Extend (Listed [4]); Extend (ChildrenOf 1); Pop (-1); Remove 3; Prune].
Proof.
  set (s1 := (find 10 0 (ByName "C") chain_and_e).2).
  exists s1. split; [vm_compute; reflexivity|]. split.
  { intros H. vm_compute in H. discriminate H. }
  repeat apply Forall_cons_2; [..|apply Forall_nil_2].
  - eexists. split; [vm_compute; reflexivity|].
    apply (edit_invalidates_own_cache 10 0 (Append 4) s1). vm_compute. reflexivity.
  - eexists. split; [vm_compute; reflexivity|].
    apply (edit_invalidates_own_cache 10 0 (Extend (Listed [4])) s1).
    vm_compute. reflexivity.
  - eexists. split; [vm_compute; reflexivity|].
    apply (edit_invalidates_own_cache 10 0 (Extend (ChildrenOf 1)) s1).
    vm_compute. reflexivity.
  - eexists. split; [vm_compute; reflexivity|].
    apply (edit_invalidates_own_cache 10 0 (Pop (-1)) s1). vm_compute. reflexivity.
  - eexists. split; [vm_compute; reflexivity|].
    apply (edit_invalidates_own_cache 10 0 (Remove 3) s1). vm_compute. reflexivity.
  - eexists. split; [vm_compute; reflexivity|].
    apply (edit_invalidates_own_cache 10 0 Prune s1). vm_compute. reflexivity.
Defined.

(** C2 as stated fails: an edit made through a descendant leaves the cache
    of the node above untouched, and the next [find] there answers from the
    tree as it was. *)
Lemma edit_below_keeps_stale_cache :
  ∃ s1 s2,
    find 10 0 (ByName "A") abc_and_d = (Ok 1, s1)
    ∧ apply_edit 10 2 (Append 5) s1 = (Ok tt, s2)
    ∧ holds s2 0 (Node 0 [Node 1 []; Node 2 [Node 3 []; Node 4 []; Node 5 []]])
    ∧ attr Name s2 5 = Some (Some "D")
    ∧ attr _node_cache s2 0 ≠ Some ∅
    ∧ (find 10 0 (ByName "D") s2).1 = Raise MissingNodeError.
Proof.
  do 2 eexists. split_and!; [vm_compute; reflexivity..| | | |].
  - apply holdsb_holds. vm_compute. reflexivity.
  - vm_compute. reflexivity.
  - intros H. vm_compute in H. discriminate H.
  - vm_compute. reflexivity.
Qed.

(** ** Edits and the diameter memo *)

Lemma apply_edit_memo fuel self e : preserves same_memo (apply_edit fuel self e).
Proof.
  destruct e; simpl.
  - apply append_memo.
  - apply extend_memo.
  - repeat first [apply pop_memo | preserves_step].
  - repeat first [apply remove_memo | preserves_step].
  - apply prune_memo.
Qed.

Lemma get_max_distance_memoized argsort node_gt fuel self s m :
  attr MaxDistTips s self = Some (Some m) →
  get_max_distance argsort node_gt fuel self s = longest_of fuel self s.
Proof.
  unfold attr. intros H. destruct (nodes s !! self) as [me|] eqn:Hme; [|done].
  injection H as H. unfold get_max_distance, bind, get, lift, node.
  rewrite Hme. simpl. rewrite H. by rewrite bool_decide_eq_true_2.
Qed.

(** C3.  The diameter memo is not invalidated by an edit, and
    [get_max_distance], whose docstring promises the max tip tip distance
    between any pair of tips, answers from it.  On [(A:1,B:1);] the method
    answers 2 and memoizes; after [C:10] is appended to the root it still
    answers 2, between [A] and [B], while [A] and [C] are 11 apart, and 11
    is what the method answers on the same tree when nothing is memoized.
    After a subtree that was never memoized is appended instead, the scan
    meets its root, which has no [MaxDistTips], and AttributeError is
    raised. *)
Theorem get_max_distance_is_stale_after_append :
  (∃ s1 s2 s3,
     get_max_distance stable_argsort Nat.ltb 10 0 ab_and_c = (Ok (2%Z, (Some 1, Some 2)), s1)
     ∧ apply_edit 10 0 (Append 3) s1 = (Ok tt, s2)
     ∧ holds s2 0 (Node 0 [Node 1 []; Node 2 []; Node 3 []])
     ∧ same_memo s1 s2
     ∧ get_max_distance stable_argsort Nat.ltb 10 0 s2 = (Ok (2%Z, (Some 1, Some 2)), s2)
     ∧ tip_tip_distances 10 0 None 1 s2
       = (Ok ([[0; 2; 11]; [2; 0; 11]; [11; 11; 0]]%Z, [1; 2; 3]), s3)
     ∧ (get_max_distance stable_argsort Nat.ltb 10 0
          (apply_edit 10 0 (Append 3) ab_and_c).2).1
       = Ok (11%Z, (Some 2, Some 3)))
  ∧ (∃ s1 s2,
       get_max_distance stable_argsort Nat.ltb 10 0 ab_and_subtree
       = (Ok (2%Z, (Some 1, Some 2)), s1)
       ∧ apply_edit 10 0 (Append 3) s1 = (Ok tt, s2)
       ∧ holds s2 0 (Node 0 [Node 1 []; Node 2 []; Node 3 [Node 4 []; Node 5 []]])
       ∧ get_max_distance stable_argsort Nat.ltb 10 0 s2 = (Raise AttributeError, s2)).
Proof.
  split.
  - do 3 eexists. split; [vm_compute; reflexivity|].
    split; [vm_compute; reflexivity|]. split_and!.
    + apply holdsb_holds. vm_compute. reflexivity.
    + apply (preserves_run same_memo (apply_edit 10 0 (Append 3)) _ (Ok tt) _
               (apply_edit_memo 10 0 (Append 3))).
      vm_compute. reflexivity.
    + vm_compute. reflexivity.
    + vm_compute. reflexivity.
    + vm_compute. reflexivity.
  - do 2 eexists. split; [vm_compute; reflexivity|].
    split; [vm_compute; reflexivity|]. split.
    + apply holdsb_holds. vm_compute. reflexivity.
    + vm_compute. reflexivity.
Qed.

(** ** to_newick *)

Section NewickProofs.

Variable str_of_length : Z → string.
Variable s : store.
Variables wd esc : bool.

Notation toks := (tokens str_of_length s wd esc).
Notation lab := (label str_of_length s wd esc).
Notation loop := (to_newick_loop str_of_length).

Lemma tokens_end t : ∃ l, toks t = l ++ [","].
Proof.
  destruct t as [i [|k ks]]; simpl.
  - by exists [lab i].
  - eexists ("(" :: close (toks k ++ flat_map toks ks) ++ [lab i]).
    simpl. by rewrite <- app_assoc.
Qed.

Lemma forest_tokens_end ks : ks ≠ [] → ∃ l, flat_map toks ks = l ++ [","].
Proof.
  induction ks as [|k ks IH] using rev_ind; [done|]. intros _.
  rewrite flat_map_app. simpl. rewrite app_nil_r.
  destruct (tokens_end k) as [l ->]. eexists. by rewrite app_assoc.
Qed.

Lemma close_snoc l x : close (l ++ [x]) = l ++ [")"].
Proof. unfold close. by rewrite py_update_last_snoc. Qed.

Lemma py_index_from_end len k :
  0 < k ≤ len → py_index len (- Z.of_nat k) = Some (len - k).
Proof.
  intros Hk. unfold py_index.
  replace (- Z.of_nat k <? 0)%Z with true by (symmetry; apply Z.ltb_lt; lia).
  replace ((0 <=? - Z.of_nat k + Z.of_nat len)
           && (- Z.of_nat k + Z.of_nat len <? Z.of_nat len))%Z with true.
  - f_equal. lia.
  - symmetry. apply andb_true_intro. split; [apply Z.leb_le|apply Z.ltb_lt]; lia.
Qed.

Lemma py_get_from_end {A} (pre : list A) c suf :
  py_get (pre ++ c :: suf) (- Z.of_nat (S (length suf))) = Ok c.
Proof.
  unfold py_get. rewrite py_index_from_end by (rewrite length_app; simpl; lia).
  simpl. rewrite length_app. simpl.
  replace (length pre + S (length suf) - S (length suf)) with (length pre) by lia.
  by rewrite list_lookup_middle.
Qed.

Lemma py_pop_minus_one {A} (l : list A) x : py_pop (l ++ [x]) (-1) = Ok (l, x).
Proof.
  unfold py_pop. rewrite (py_index_from_end _ 1) by (rewrite length_app; simpl; lia).
  simpl. rewrite length_app. simpl.
  replace (length l + 1 - 1) with (length l) by lia.
  rewrite list_lookup_middle by done. simpl.
  rewrite delete_middle. by rewrite app_nil_r.
Qed.

Lemma to_newick_loop_S fuel result nodes_stack :
  loop (S fuel) s wd esc result nodes_stack =
    match py_pop_last nodes_stack with
    | None => Ok result
    | Some (below, (top_node, num_unvisited_children)) =>
        let? top := node s top_node in
        if negb (num_unvisited_children =? 0) then
          let? next_child :=
            py_get (Children top) (- Z.of_nat num_unvisited_children) in
          let? child := node s next_child in
          let result := if nonempty (Children child) then result ++ ["("]
                        else result in
          loop fuel s wd esc result
            (below ++ [(top_node, num_unvisited_children - 1);
                       (next_child, length (Children child))])
        else
          let? result :=
            if nonempty (Children top)
            then or_raise IndexError (py_update_last (λ _, ")") result)
            else Ok result in
          let result := result ++ [name_token esc (Name top)] in
          let? result :=
            match Length top with
            | Some l =>
                if wd
                then or_raise IndexError
                       (py_update_last (λ r, r +:+ ":" +:+ str_of_length l) result)
                else Ok result
            | None => Ok result
            end in
          loop fuel s wd esc (result ++ [","]) below
    end.
Proof. done. Qed.

(** The post-visit of a node whose children have all been written *)
Lemma to_newick_post_visit fuel result below p i ks :
  shape s p (Node i ks) →
  loop (S fuel) s wd esc (result ++ flat_map toks ks) (below ++ [(i, 0)])
  = loop fuel s wd esc
      (result ++ (if nonempty ks then close (flat_map toks ks) else [])
         ++ [lab i; ","]) below.
Proof.
  intros (nd & Hnd & _ & Hc & _)%shape_inv.
  rewrite to_newick_loop_S, py_pop_last_snoc. unfold node. rewrite Hnd.
  cbn [or_raise rbind Nat.eqb negb]. rewrite Hc, nonempty_map.
  unfold label. rewrite Hnd.
  assert (Hlab : ∀ r : list string,
    (let? result := match Length nd with
                    | Some l =>
                        if wd
                        then or_raise IndexError
                               (py_update_last (λ r, r +:+ ":" +:+ str_of_length l)
                                  (r ++ [name_token esc (Name nd)]))
                        else Ok (r ++ [name_token esc (Name nd)])
                    | None => Ok (r ++ [name_token esc (Name nd)])
                    end in
     loop fuel s wd esc (result ++ [","]) below)
    = loop fuel s wd esc
        (r ++ [match Length nd with
               | Some l => if wd then name_token esc (Name nd) +:+ ":" +:+ str_of_length l
                           else name_token esc (Name nd)
               | None => name_token esc (Name nd)
               end; ","]) below).
  { intros r. destruct (Length nd) as [l|]; [destruct wd|]; simpl;
      rewrite ?py_update_last_snoc; simpl; by rewrite <- app_assoc. }
  destruct (nonempty ks) eqn:Hne.
  - destruct (forest_tokens_end ks) as [l Hl]; [by destruct ks|].
    rewrite Hl, close_snoc, app_assoc, py_update_last_snoc.
    cbn [or_raise rbind]. rewrite Hlab. by rewrite <- !app_assoc.
  - destruct ks; [|done]. simpl. rewrite app_nil_r. cbn [rbind].
    by rewrite Hlab.
Qed.

(** With [length suf] children of a node still unvisited, the loop appends
    the entries of those children and comes to the post-visit of the node. *)
Lemma to_newick_loop_kids t :
  ∀ p, shape s p t →
  ∀ suf pre below result fuel, kids_of t = pre ++ suf →
    loop (2 * forest_size suf + fuel) s wd esc result
         (below ++ [(root_id t, length suf)])
    = loop fuel s wd esc (result ++ flat_map toks suf) (below ++ [(root_id t, 0)]).
Proof.
  induction t as [i ks IHt] using tree_ind'. cbn [kids_of root_id].
  intros p Hshape suf.
  induction suf as [|c suf IHsuf]; intros pre below result fuel Hks.
  - simpl. by rewrite app_nil_r.
  - pose proof Hshape as (nd & Hnd & Hpar & Hch & Hkids)%shape_inv.
    assert (Hc : shape s (Some i) c).
    { rewrite Forall_forall in Hkids. apply Hkids. rewrite Hks. set_solver. }
    assert (HPc : ∀ p, shape s p c →
      ∀ suf pre below result fuel, kids_of c = pre ++ suf →
        loop (2 * forest_size suf + fuel) s wd esc result
             (below ++ [(root_id c, length suf)])
        = loop fuel s wd esc (result ++ flat_map toks suf)
               (below ++ [(root_id c, 0)])).
    { rewrite Forall_forall in IHt. apply IHt. rewrite Hks. set_solver. }
    clear IHt.
    destruct c as [ci cks]. cbn [root_id kids_of] in HPc.
    pose proof Hc as (ndc & Hndc & _ & Hcc & _)%shape_inv.
    change (forest_size (Node ci cks :: suf))
      with (S (forest_size cks) + forest_size suf).
    replace (2 * (S (forest_size cks) + forest_size suf) + fuel)
      with (S (2 * forest_size cks + S (2 * forest_size suf + fuel))) by lia.
    rewrite to_newick_loop_S, py_pop_last_snoc. unfold node at 1. rewrite Hnd.
    cbn [or_raise rbind length Nat.eqb negb].
    rewrite Hch, Hks, map_app. cbn [map].
    rewrite <- (length_map root_id suf) at 1. rewrite py_get_from_end.
    cbn [rbind root_id]. unfold node at 1. rewrite Hndc. cbn [or_raise rbind].
    rewrite Hcc, nonempty_map, length_map.
    replace (S (length suf) - 1) with (length suf) by lia.
    replace (below ++ [(i, length suf); (ci, length cks)])
      with ((below ++ [(i, length suf)]) ++ [(ci, length cks)])
      by by rewrite <- app_assoc.
    rewrite (HPc (Some i) Hc cks [] _ _ _ eq_refl).
    assert (Hpost := to_newick_post_visit (2 * forest_size suf + fuel)
                       (if nonempty cks then result ++ ["("] else result)
                       (below ++ [(i, length suf)]) (Some i) ci cks Hc).
    rewrite Hpost.
    rewrite (IHsuf (pre ++ [Node ci cks])) by by rewrite <- app_assoc.
    f_equal. change (flat_map toks (Node ci cks :: suf))
      with (toks (Node ci cks) ++ flat_map toks suf).
    rewrite (app_assoc result). f_equal.
    destruct cks as [|ck cks]; cbn [nonempty tokens]; [by rewrite app_nil_l|].
    by rewrite <- !app_assoc.
Qed.

Lemma tokens_length_internal k ks : 2 ≤ length (close (flat_map toks (k :: ks))).
Proof.
  destruct (forest_tokens_end (k :: ks)) as [l Hl]; [done|].
  rewrite Hl, close_snoc.
  assert (2 ≤ length (l ++ [","])); [|rewrite length_app in *; simpl in *; lia].
  rewrite <- Hl. cbn [flat_map]. rewrite length_app.
  destruct k as [i [|k' ks']]; simpl; [lia|]. rewrite length_app. simpl. lia.
Qed.

(** [to_newick] writes the tree as [newick] lays it out. *)
Lemma to_newick_tokens self t semicolon fuel :
  holds s self t → 2 * size t < fuel →
  to_newick str_of_length fuel s self wd semicolon esc
  = Ok (newick str_of_length s wd esc t semicolon).
Proof.
  intros (p & ks & -> & Hs & Hself & Hd)%holds_inv Hfuel.
  pose proof Hs as (nd & Hnd & _ & Hc & _)%shape_inv.
  unfold to_newick, node. rewrite Hnd. cbn [or_raise rbind].
  rewrite Hc, length_map.
  assert (Hsize : size (Node self ks) = S (forest_size ks)) by done.
  replace fuel with (2 * forest_size ks + S (S (fuel - 2 * forest_size ks - 2))) by lia.
  rewrite (to_newick_loop_kids (Node self ks) p Hs ks [] [] ["("] _ eq_refl).
  cbn [root_id app].
  rewrite (to_newick_post_visit _ ["("] [] p self ks Hs).
  rewrite to_newick_loop_S. cbn [py_pop_last rbind].
  destruct ks as [|k ks].
  - simpl. by destruct semicolon.
  - cbn [nonempty].
    pose proof (tokens_length_internal k ks) as Hlen.
    set (body := close (flat_map toks (k :: ks))) in *.
    assert (H2 : (length (["("] ++ body ++ [lab self; ","]) =? 2) = false).
    { apply Nat.eqb_neq. rewrite !length_app. simpl. lia. }
    assert (H3 : (length (["("] ++ body ++ [lab self; ","]) =? 3) = false).
    { apply Nat.eqb_neq. rewrite !length_app. simpl. lia. }
    rewrite H2, H3.
    replace (["("] ++ body ++ [lab self; ","])
      with (("(" :: body ++ [lab self]) ++ [","])
      by (simpl; by rewrite <- app_assoc).
    destruct semicolon.
    + rewrite py_update_last_snoc. cbn [or_raise rbind]. unfold newick.
      do 2 f_equal. simpl. by rewrite <- app_assoc.
    + rewrite py_pop_minus_one. cbn [rbind]. unfold newick. do 2 f_equal.
Qed.

End NewickProofs.

Lemma name_token_cases name :
  let tok := name_token true (Some name) in
  (startswith quote name && endswith quote name = true → tok = name)
  ∧ (startswith quote name && endswith quote name = false →
     search special name = true → tok = "'" +:+ replace quote "''" name +:+ "'")
  ∧ (startswith quote name && endswith quote name = false →
     search special name = false → tok = replace " "%char "_" name).
Proof.
  simpl. split_and!.
  - by intros ->.
  - by intros -> ->.
  - by intros -> ->.
Qed.

(** C8 (amended).  With [escape_name] requested, [to_newick] writes, for
    every node of the tree, the token of its name in the place the
    recursive layout [newick] gives it.  That token is: the name itself
    when the name starts and ends with a single quote; otherwise the name
    in single quotes, with every single quote in it doubled, when it holds
    one of the special characters; otherwise the name with every space
    turned into an underscore. *)
Theorem to_newick_escapes_names str_of_length s self t with_distances semicolon fuel :
  holds s self t → 2 * size t < fuel →
  to_newick str_of_length fuel s self with_distances semicolon true
    = Ok (newick str_of_length s with_distances true t semicolon)
  ∧ ∀ name,
      let tok := name_token true (Some name) in
      (startswith quote name && endswith quote name = true → tok = name)
      ∧ (startswith quote name && endswith quote name = false →
         search special name = true →
         tok = "'" +:+ replace quote "''" name +:+ "'")
      ∧ (startswith quote name && endswith quote name = false →
         search special name = false →
         tok = replace " "%char "_" name).
Proof.
  intros Ht Hfuel. split; [by apply to_newick_tokens|]. apply name_token_cases.
Qed.

Lemma to_newick_escapes_names_witness :
  to_newick pretty 20 abc_store 0 true true true = Ok "(A:1,(B:1,C:1):1):0;"
  ∧ name_token true (Some "'a_b'") = "'a_b'"
  ∧ name_token true (Some "it's") = "'it''s'"
  ∧ name_token true (Some "a b") = "a_b".
Proof.
  destruct (to_newick_escapes_names pretty abc_store 0 abc_tree true true 20)
    as [Hout Htok].
  - apply holdsb_holds. vm_compute. reflexivity.
  - simpl. lia.
  - split_and!.
    + rewrite Hout. vm_compute. reflexivity.
    + apply (proj1 (Htok "'a_b'")). reflexivity.
    + apply (proj1 (proj2 (Htok "it's"))); reflexivity.
    + apply (proj2 (proj2 (Htok "a b"))); reflexivity.
Defined.

(** C8 as stated fails: a name that already starts and ends with a single
    quote is written as it is, whatever it contains. *)
Lemma quoted_name_is_not_escaped :
  holds quoted_store 0 (Node 0 [])
  ∧ attr Name quoted_store 0 = Some (Some "'a_b'")
  ∧ search special "'a_b'" = true
  ∧ to_newick pretty 5 quoted_store 0 true true true = Ok "'a_b';"
  ∧ "'a_b';" ≠ ("'" +:+ replace quote "''" "'a_b'" +:+ "'") +:+ ";".
Proof.
  split_and!; try (vm_compute; reflexivity).
  - apply holdsb_holds. vm_compute. reflexivity.
  - vm_compute. discriminate.
Qed.

(** ** tip_tip_distances *)

(** *** The tips, in order *)

Lemma tip_ids_nonempty t : tip_ids t ≠ [].
Proof.
  induction t as [i ks IH] using tree_ind'. destruct ks as [|k ks]; [done|].
  apply Forall_cons in IH as [IHk _]. simpl. by destruct (tip_ids k).
Qed.

Lemma tip_ids_internal i k ks :
  tip_ids (Node i (k :: ks)) = flat_map tip_ids (k :: ks).
Proof. done. Qed.

Lemma tips_loop_forest s n :
  ∀ ts fuel, forest_size ts ≤ n → Forall (rooted s) ts → forest_size ts < fuel →
    tips_loop fuel s (rev (map root_id ts)) = Ok (flat_map tip_ids ts).
Proof.
  induction n as [|n IH]; intros ts fuel Hn Hts Hfuel.
  - destruct ts as [|t ts]; [|pose proof (size_pos t); unfold forest_size in Hn; simpl in Hn; lia].
    destruct fuel; [lia|]. done.
  - destruct ts as [|[i ks] ts].
    { destruct fuel; [lia|]. done. }
    destruct fuel as [|fuel]; [lia|].
    simpl tips_loop. rewrite py_pop_last_snoc.
    apply Forall_cons in Hts as [Ht Hts].
    destruct Ht as [p Ht]. rewrite (shape_children _ _ _ _ Ht). cbn [rbind].
    rewrite nonempty_map.
    unfold forest_size in *. simpl in Hn, Hfuel.
    destruct ks as [|k ks]; cbn [nonempty].
    + rewrite IH; [done|lia|done|lia].
    + rewrite <- rev_app_distr, <- map_app.
      rewrite IH.
      * by rewrite flat_map_app.
      * rewrite map_app, list_sum_app. simpl in *. lia.
      * apply Forall_app. split; [|done]. eapply rooted_kids. by exists p.
      * rewrite map_app, list_sum_app. simpl in *. lia.
Qed.

Lemma tips_holds s self t fuel :
  holds s self t → size t < fuel →
  tips fuel s self false = Ok (tips_below t).
Proof.
  intros (p & ks & -> & Hs & Hself & Hd)%holds_inv Hfuel.
  unfold tips. rewrite (shape_children _ _ _ _ Hs). cbn [rbind].
  rewrite nonempty_map. destruct ks as [|k ks]; [done|]. cbn [nonempty].
  rewrite (tips_loop_forest s (forest_size [Node self (k :: ks)]) [Node self (k :: ks)]);
    [|done|by repeat constructor; exists p|unfold forest_size; simpl in *; lia].
  simpl. by rewrite app_nil_r.
Qed.

Lemma tip_ids_subseteq t : tip_ids t ⊆ ids t.
Proof.
  induction t as [i ks IH] using tree_ind'. destruct ks as [|k ks].
  - simpl. set_solver.
  - rewrite tip_ids_internal. cbn [ids]. intros a Ha. apply elem_of_cons. right.
    apply list_elem_of_In, in_flat_map in Ha as (c & Hc & Ha).
    apply list_elem_of_In, in_flat_map. exists c. split; [done|].
    apply list_elem_of_In. rewrite Forall_forall in IH.
    apply (IH c); by apply list_elem_of_In.
Qed.

Lemma flat_map_NoDup {A B} (f : A → list B) (g : A → list B) l :
  (∀ x, x ∈ l → NoDup (f x)) → (∀ x, x ∈ l → f x ⊆ g x) →
  NoDup (flat_map g l) → NoDup (flat_map f l).
Proof.
  intros Hf Hsub. induction l as [|x l IH]; simpl; [constructor|].
  intros [Hx [Hdisj Hl]]%NoDup_app. apply NoDup_app. split_and!.
  - apply Hf. set_solver.
  - intros b Hb Hb'. apply (Hdisj b); [apply (Hsub x); set_solver|].
    apply list_elem_of_In, in_flat_map in Hb' as (c & Hc & Hb').
    apply list_elem_of_In, in_flat_map. exists c. split; [done|].
    apply list_elem_of_In, (Hsub c); [by apply list_elem_of_In; right|].
    by apply list_elem_of_In.
  - apply IH; [|set_solver|done]. intros; apply Hf; set_solver.
Qed.

Lemma tip_ids_NoDup t : NoDup (ids t) → NoDup (tip_ids t).
Proof.
  induction t as [i ks IH] using tree_ind'. destruct ks as [|k ks].
  - intros _. apply NoDup_singleton.
  - rewrite tip_ids_internal. cbn [ids]. intros [_ Hd]%NoDup_cons.
    apply (flat_map_NoDup tip_ids ids); [|intros; apply tip_ids_subseteq|done].
    intros c Hc. rewrite Forall_forall in IH. apply IH; [done|].
    clear -Hd Hc. induction (k :: ks) as [|c' l IHl]; [by apply elem_of_nil in Hc|].
    simpl in Hd. apply NoDup_app in Hd as (? & ? & ?).
    apply elem_of_cons in Hc as [->|Hc]; [done|by apply IHl].
Qed.

(** *** Numbering the tips *)

Lemma same_tree_insert s n nd f c :
  nodes s !! n = Some nd →
  Name (f nd) = Name nd → Length (f nd) = Length nd →
  Parent (f nd) = Parent nd → Children (f nd) = Children nd →
  same_tree s (mkStore (<[n := f nd]> (nodes s)) c).
Proof. intros. repeat split; by apply same_insert. Qed.

Lemma stamp_tips s :
  ∀ l o, NoDup l → Forall (λ n, is_Some (nodes s !! n)) l →
    ∃ s', for_each (imap (λ i, pair (o + i)) l)
            (λ '(i, n), modify n (set_start_stop i (i + 1))) s = (Ok tt, s')
          ∧ stamped s s' o l.
Proof.
  intros l. revert s. induction l as [|a l IH]; intros s o Hd Hl.
  - exists s. split; [done|]. by split_and!.
  - apply NoDup_cons in Hd as [Ha Hd]. apply Forall_cons in Hl as [[nd Hnd] Hl].
    cbn [imap for_each]. unfold bind at 1, modify at 1. rewrite Hnd.
    set (s1 := mkStore (<[a := set_start_stop (o + 0) (o + 0 + 1) nd]> (nodes s)) (cells s)).
    destruct (IH s1 (S o) Hd) as (s' & Hrun & Hsame & Hcells & Hst & Hout).
    { eapply Forall_impl; [exact Hl|]. intros n [ndn Hn]. simpl.
      destruct (decide (a = n)) as [->|Hne].
      - rewrite lookup_insert_eq. eauto.
      - rewrite lookup_insert_ne by done. eauto. }
    exists s'. split.
    { rewrite <- Hrun. f_equal. apply imap_ext. intros i x _. simpl. f_equal. lia. }
    split_and!.
    + etrans; [|exact Hsame]. by apply same_tree_insert.
    + done.
    + intros [|x] b Hx; simpl in Hx.
      * injection Hx as <-. unfold attr. rewrite (Hout a Ha). simpl.
        rewrite lookup_insert_eq. simpl. split; do 2 f_equal; lia.
      * destruct (Hst x b Hx) as [H1 H2]. rewrite H1, H2. split; do 2 f_equal; lia.
    + intros n Hn. apply not_elem_of_cons in Hn as [Hne Hn].
      rewrite (Hout n Hn). simpl. by rewrite lookup_insert_ne.
Qed.

(** *** The result map, when no endpoints are given *)

Lemma result_map_identity s l :
  ∀ o (m : gmap nat nat),
    (∀ x a, l !! x = Some a → attr __start s a = Some (Some (o + x))
                              ∧ attr __stop s a = Some (Some (o + x + 1))) →
    (∀ y, y < o → m !! y = Some y) →
    ∃ rm, fold_M (λ (m : gmap nat nat) '(i, n),
                    let* a := start_of n in ret (<[a := i]> m))
                 (imap (λ i, pair (o + i)) l) m s = (Ok rm, s)
          ∧ ∀ y, y < o + length l → rm !! y = Some y.
Proof.
  induction l as [|a l IH]; intros o m Hst Hm.
  - exists m. split; [done|]. intros y Hy. apply Hm. simpl in Hy. lia.
  - destruct (Hst 0 a eq_refl) as [Hs1 Hs2].
    cbn [imap fold_M]. unfold bind at 1.
    assert (Hss : start_of a s = (Ok (o + 0), s)).
    { unfold start_of, bind, get, lift, node. unfold attr in Hs1.
      destruct (nodes s !! a) as [nd|]; [|done]. simpl in *.
      injection Hs1 as ->. done. }
    unfold bind at 1. rewrite Hss. cbn [ret].
    destruct (IH (S o) (<[o + 0 := o + 0]> m)) as (rm & Hrun & Hrm).
    + intros x b Hx. destruct (Hst (S x) b Hx) as [H1 H2].
      rewrite H1, H2. split; do 2 f_equal; lia.
    + intros y Hy. destruct (decide (y = o + 0)) as [->|Hne].
      * by rewrite lookup_insert_eq.
      * rewrite lookup_insert_ne by done. apply Hm. lia.
    + exists rm. split.
      * rewrite <- Hrun. f_equal. apply imap_ext. intros i x _. simpl. f_equal. lia.
      * intros y Hy. apply Hrm. simpl in Hy. lia.
Qed.

(** *** Arrays *)

Lemma slice_add_length a b x v : length (slice_add a b x v) = length v.
Proof. unfold slice_add. apply length_imap. Qed.

Lemma slice_add_lookup a b x v y :
  slice_add a b x v !! y
  = if decide (in_range (a, b) y) then (λ z, (z + x)%Z) <$> v !! y else v !! y.
Proof.
  unfold slice_add. rewrite list_lookup_imap. unfold in_range. simpl.
  destruct (decide (a ≤ y < b)) as [[H1 H2]|Hn].
  - apply Nat.leb_le in H1. apply Nat.ltb_lt in H2. by rewrite H1, H2.
  - destruct (v !! y) as [z|]; [|done]. simpl.
    destruct (Nat.leb_spec a y), (Nat.ltb_spec y b); simpl; try done. lia.
Qed.

Lemma mat_set_spec N m i j x :
  square N m → i < N → j < N →
  ∃ m', mat_set m i j x = Ok m' ∧ square N m'
        ∧ ∀ a b, mat_get m' a b
                 = if decide (a = i ∧ b = j) then Some x else mat_get m a b.
Proof.
  intros [Hlen Hrows] Hi Hj. unfold mat_set.
  destruct (m !! i) as [row|] eqn:Hrow; [|apply lookup_ge_None in Hrow; lia].
  assert (Hr : length row = N).
  { rewrite Forall_forall in Hrows. apply Hrows. by eapply list_elem_of_lookup_2. }
  replace (j <? length row) with true by (symmetry; apply Nat.ltb_lt; lia).
  eexists. split; [done|]. split.
  - split; [by rewrite length_insert|].
    apply Forall_insert; [done|]. by rewrite length_insert.
  - intros a b. unfold mat_get.
    destruct (decide (a = i)) as [->|Hai].
    + rewrite list_lookup_insert_eq by lia. simpl. rewrite Hrow. simpl.
      destruct (decide (b = j)) as [->|Hbj].
      * rewrite list_lookup_insert_eq by lia. by rewrite decide_True.
      * rewrite list_lookup_insert_ne by done. rewrite decide_False; [done|]. tauto.
    + rewrite list_lookup_insert_ne by done. rewrite decide_False; [done|]. tauto.
Qed.

Lemma mat_get_square N m a b : square N m → a < N → b < N → is_Some (mat_get m a b).
Proof.
  intros [Hlen Hrows] Ha Hb. unfold mat_get.
  destruct (m !! a) as [row|] eqn:Hrow; [|apply lookup_ge_None in Hrow; lia].
  simpl. apply lookup_lt_is_Some. rewrite Forall_forall in Hrows.
  rewrite (Hrows row); [done|]. by eapply list_elem_of_lookup_2.
Qed.

Lemma fill_pairs_spec N d ps :
  length d = N → Forall (λ p, p.1 < N ∧ p.2 < N) ps →
  ∀ m, square N m →
    ∃ m', fill_pairs d m ps = Ok m' ∧ square N m'
          ∧ ∀ a b, mat_get m' a b
                   = if decide ((a, b) ∈ ps) then pair_sum d a b else mat_get m a b.
Proof.
  intros Hd. induction ps as [|[x y] ps IH]; intros Hps m Hm.
  - exists m. split; [done|]. split; [done|]. intros a b.
    rewrite decide_False; [done|]. apply not_elem_of_nil.
  - apply Forall_cons in Hps as [[Hx Hy] Hps]. simpl in Hx, Hy.
    simpl. destruct (d !! x) as [d1|] eqn:Hd1; [|apply lookup_ge_None in Hd1; lia].
    destruct (d !! y) as [d2|] eqn:Hd2; [|apply lookup_ge_None in Hd2; lia].
    simpl.
    destruct (mat_set_spec N m x y (d1 + d2)%Z Hm Hx Hy) as (m1 & -> & Hm1 & Hget1).
    simpl. destruct (IH Hps m1 Hm1) as (m' & -> & Hm' & Hget).
    exists m'. split; [done|]. split; [done|]. intros a b. rewrite Hget.
    destruct (decide ((a, b) ∈ ps)) as [Hin|Hnin].
    + rewrite decide_True; [done|]. by right.
    + rewrite Hget1. destruct (decide (a = x ∧ b = y)) as [[-> ->]|Hne].
      * rewrite decide_True by left. unfold pair_sum. by rewrite Hd1, Hd2.
      * rewrite decide_False; [done|]. intros [[= -> ->]|?]%elem_of_cons; tauto.
Qed.

(** *** The monad *)

Lemma fold_M_app {A B} (body : B → A → M B) l1 l2 acc s :
  fold_M body (l1 ++ l2) acc s
  = match fold_M body l1 acc s with
    | (Ok acc', s') => fold_M body l2 acc' s'
    | (Raise e, s') => (Raise e, s')
    end.
Proof.
  revert acc s. induction l1 as [|x l1 IH]; intros acc s; simpl; [done|].
  unfold bind. destruct (body acc x s) as [[acc'|e] s']; [apply IH|done].
Qed.

Lemma bind_Ok {A B} (m : M A) (k : A → M B) s a s' :
  m s = (Ok a, s') → bind m k s = k a s'.
Proof. intros H. unfold bind. by rewrite H. Qed.

Lemma bind_Raise {A B} (m : M A) (k : A → M B) s e s' :
  m s = (Raise e, s') → bind m k s = (Raise e, s').
Proof. intros H. unfold bind. by rewrite H. Qed.

Lemma get_Ok s n nd : nodes s !! n = Some nd → get n s = (Ok nd, s).
Proof. intros H. unfold get, lift, node. by rewrite H. Qed.

Lemma modify_Ok s n nd f :
  nodes s !! n = Some nd →
  modify n f s = (Ok tt, mkStore (<[n := f nd]> (nodes s)) (cells s)).
Proof. intros H. unfold modify. by rewrite H. Qed.

Lemma start_stop_attr s n a b :
  attr __start s n = Some (Some a) → attr __stop s n = Some (Some b) →
  start_stop n s = (Ok (a, b), s).
Proof.
  unfold start_stop, bind, get, lift, node, attr.
  destruct (nodes s !! n) as [nd|]; [|done]. simpl.
  by intros [= ->] [= ->].
Qed.

(** *** update_result *)

Lemma update_result_inner (rm : gmap nat nat) d s c2 r2 t1 :
  has_range s c2 r2 → rm !! t1 = Some t1 →
  (∀ y, in_range r2 y → rm !! y = Some y) →
  ∀ l result, Forall (in_range r2) l →
    fold_M (λ result tip2,
              match rm !! tip2 with
              | None => ret result
              | Some t2idx =>
                  let* d1 := pure_res (or_raise IndexError (d !! t1)) in
                  let* d2 := pure_res (or_raise IndexError (d !! tip2)) in
                  pure_res (mat_set result t1 t2idx (d1 + d2)%Z)
              end) l result s
    = (fill_pairs d result (map (pair t1) l), s).
Proof.
  intros Hr2 Ht1 Hrm l. induction l as [|y l IH]; intros result Hl; [done|].
  apply Forall_cons in Hl as [Hy Hl]. simpl. unfold bind at 1.
  rewrite (Hrm y Hy). unfold bind, pure_res.
  destruct (d !! t1) as [d1|]; [|done]. simpl.
  destruct (d !! y) as [d2|]; [|done]. simpl.
  destruct (mat_set result t1 y (d1 + d2)%Z) as [m|]; [|done]. simpl.
  by apply IH.
Qed.

Lemma fill_pairs_app d m ps1 ps2 :
  fill_pairs d m (ps1 ++ ps2)
  = let? m := fill_pairs d m ps1 in fill_pairs d m ps2.
Proof.
  revert m. induction ps1 as [|[x y] ps1 IH]; intros m; simpl; [done|].
  destruct (d !! x) as [d1|]; [|done]. simpl.
  destruct (d !! y) as [d2|]; [|done]. simpl.
  destruct (mat_set m x y (d1 + d2)%Z) as [m1|]; [|done]. simpl. apply IH.
Qed.

Lemma seq_in_range a b : Forall (in_range (a, b)) (seq a (b - a)).
Proof.
  apply Forall_forall. intros y Hy%list_elem_of_In%in_seq.
  unfold in_range. simpl. lia.
Qed.

Lemma update_result_middle (rm : gmap nat nat) d s c2 r1 r2 :
  has_range s c2 r2 →
  (∀ y, in_range r1 y → rm !! y = Some y) →
  (∀ y, in_range r2 y → rm !! y = Some y) →
  ∀ l result, Forall (in_range r1) l →
    fold_M (λ result tip1,
      match rm !! tip1 with
      | None => ret result
      | Some t1idx =>
          let* '(start2, stop2) := start_stop c2 in
          fold_M (λ result tip2,
            match rm !! tip2 with
            | None => ret result
            | Some t2idx =>
                let* d1 := pure_res (or_raise IndexError (d !! tip1)) in
                let* d2 := pure_res (or_raise IndexError (d !! tip2)) in
                pure_res (mat_set result t1idx t2idx (d1 + d2)%Z)
            end) (seq start2 (stop2 - start2)) result
      end) l result s
    = (fill_pairs d result (list_prod l (seq r2.1 (r2.2 - r2.1))), s).
Proof.
  destruct r2 as [a2 b2].
  intros Hr2 Hrm1 Hrm2 l. induction l as [|x l IH]; intros result Hl; [done|].
  apply Forall_cons in Hl as [Hx Hl]. cbn [fold_M list_prod]. unfold bind at 1.
  rewrite (Hrm1 x Hx). unfold bind at 1.
  rewrite (start_stop_attr _ _ _ _ (proj1 Hr2) (proj2 Hr2)).
  rewrite (update_result_inner rm d s c2 (a2, b2) x Hr2 (Hrm1 x Hx) Hrm2 _ _
             (seq_in_range a2 b2)).
  rewrite fill_pairs_app. cbn [fst snd].
  destruct (fill_pairs d result (map (pair x) (seq a2 (b2 - a2)))) as [m|]; [|done].
  simpl. by apply IH.
Qed.

Lemma combinations2_map {A B} (f : A → B) l :
  combinations2 (map f l) = map (prod_map f f) (combinations2 l).
Proof.
  induction l as [|x l IH]; simpl; [done|].
  rewrite map_app, IH. f_equal. rewrite !map_map. done.
Qed.

Lemma combinations2_elem {A} (l : list A) p :
  p ∈ combinations2 l ↔ ∃ j1 j2, j1 < j2 ∧ l !! j1 = Some p.1 ∧ l !! j2 = Some p.2.
Proof.
  revert p. induction l as [|x l IH]; intros [a b]; simpl.
  - split; [by intros ?%elem_of_nil|]. intros (j1 & j2 & _ & H & _).
    by rewrite lookup_nil in H.
  - rewrite elem_of_app, list_elem_of_fmap, IH. simpl. split.
    + intros [(y & [= -> ->] & Hy)|(j1 & j2 & Hlt & H1 & H2)].
      * apply list_elem_of_lookup in Hy as [j Hj]. exists 0, (S j).
        split; [lia|]. done.
      * exists (S j1), (S j2). split; [lia|]. done.
    + intros (j1 & j2 & Hlt & H1 & H2). destruct j1 as [|j1].
      * left. simpl in H1. injection H1 as ->. destruct j2 as [|j2]; [lia|].
        simpl in H2. exists b. split; [done|]. by eapply list_elem_of_lookup_2.
      * right. destruct j2 as [|j2]; [lia|]. exists j1, j2. split; [lia|]. done.
Qed.

Lemma update_result_pure (rm : gmap nat nat) d s :
  ∀ (crs : list (handle * (nat * nat))) result,
    Forall (λ cr, has_range s cr.1 cr.2) crs →
    Forall (λ cr, ∀ y, in_range cr.2 y → rm !! y = Some y) crs →
    update_result rm d crs.*1 result s
    = (fill_pairs d result (cross_pairs crs.*2), s).
Proof.
  intros crs result Hrs Hrm. unfold update_result, cross_pairs.
  rewrite !combinations2_map.
  assert (Hall : Forall (λ p, has_range s p.1.1 p.1.2 ∧ has_range s p.2.1 p.2.2
                   ∧ (∀ y, in_range p.1.2 y → rm !! y = Some y)
                   ∧ (∀ y, in_range p.2.2 y → rm !! y = Some y))
                   (combinations2 crs)).
  { apply Forall_forall. intros p (j1 & j2 & _ & H1 & H2)%combinations2_elem.
    rewrite Forall_forall in Hrs, Hrm.
    apply list_elem_of_lookup_2 in H1, H2.
    split_and!; [apply (Hrs p.1 H1)|apply (Hrs p.2 H2)|apply (Hrm p.1 H1)
                |apply (Hrm p.2 H2)]. }
  clear Hrs Hrm. revert result.
  induction (combinations2 crs) as [|[[c1 [a1 b1]] [c2 r2]] ps IH]; intros result;
    [done|].
  apply Forall_cons in Hall as [(H1 & H2 & Hm1 & Hm2) Hall]. simpl in *.
  unfold bind at 1. destruct H1 as [Hs1 He1].
  unfold bind at 1. rewrite (start_stop_attr _ _ _ _ Hs1 He1).
  rewrite (update_result_middle rm d s c2 (a1, b1) r2 H2 Hm1 Hm2 _ _
             (seq_in_range a1 b1)).
  rewrite fill_pairs_app.
  destruct (fill_pairs d result _) as [m|]; [|done].
  simpl. by apply IH.
Qed.

Lemma cross_pairs_elem rs x y :
  (x, y) ∈ cross_pairs rs
  ↔ ∃ j1 j2 r1 r2, j1 < j2 ∧ rs !! j1 = Some r1 ∧ rs !! j2 = Some r2
                   ∧ in_range r1 x ∧ in_range r2 y.
Proof.
  unfold cross_pairs. rewrite list_elem_of_In, in_flat_map. split.
  - intros ([r1 r2] & Hp & Hxy). apply list_elem_of_In, combinations2_elem in Hp
      as (j1 & j2 & Hlt & H1 & H2).
    apply in_prod_iff in Hxy as [Hx Hy]. apply in_seq in Hx, Hy. simpl in *.
    exists j1, j2, r1, r2. unfold in_range. split_and!; try done; lia.
  - intros (j1 & j2 & r1 & r2 & Hlt & H1 & H2 & [Hx1 Hx2] & [Hy1 Hy2]).
    exists (r1, r2). split.
    + apply list_elem_of_In, combinations2_elem. by exists j1, j2.
    + apply in_prod_iff. simpl. split; apply in_seq; lia.
Qed.

(** *** Tips and the index ranges of subtrees *)

Lemma ntips_pos t : 0 < ntips t.
Proof.
  unfold ntips. pose proof (tip_ids_nonempty t). destruct (tip_ids t); [done|].
  simpl. lia.
Qed.

Lemma forest_tips_cons k ks : forest_tips (k :: ks) = tip_ids k ++ forest_tips ks.
Proof. done. Qed.

Lemma length_forest_tips_cons k ks :
  length (forest_tips (k :: ks)) = ntips k + length (forest_tips ks).
Proof. by rewrite forest_tips_cons, length_app. Qed.

Lemma ranges_length o ks : length (ranges o ks) = length ks.
Proof. revert o. induction ks as [|k ks IH]; intros o; simpl; [done|]. by rewrite IH. Qed.

Lemma ranges_lookup o ks j r :
  ranges o ks !! j = Some r →
  ∃ k, ks !! j = Some k ∧ r.2 = r.1 + ntips k ∧ o ≤ r.1
       ∧ r.2 ≤ o + length (forest_tips ks).
Proof.
  revert o j. induction ks as [|k ks IH]; intros o j Hr; [done|].
  rewrite length_forest_tips_cons. destruct j as [|j]; simpl in Hr.
  - injection Hr as <-. exists k. simpl. split_and!; try done; lia.
  - destruct (IH _ _ Hr) as (k' & Hk' & H1 & H2 & H3).
    exists k'. split_and!; try done; lia.
Qed.

Lemma ranges_lookup_kid o ks j k :
  ks !! j = Some k → ∃ r, ranges o ks !! j = Some r.
Proof.
  intros Hk. apply lookup_lt_is_Some. rewrite ranges_length.
  by eapply lookup_lt_Some.
Qed.

Lemma ranges_ordered o ks j1 j2 r1 r2 :
  j1 < j2 → ranges o ks !! j1 = Some r1 → ranges o ks !! j2 = Some r2 → r1.2 ≤ r2.1.
Proof.
  revert o j1 j2. induction ks as [|k ks IH]; intros o j1 j2 Hlt H1 H2; [done|].
  destruct j2 as [|j2]; [lia|]. simpl in H2. destruct j1 as [|j1]; simpl in H1.
  - injection H1 as <-. simpl. destruct (ranges_lookup _ _ _ _ H2) as (_ & _ & _ & ? & _).
    done.
  - eapply IH; [|done..]. lia.
Qed.

Lemma ranges_same_block o ks j1 j2 r1 r2 y :
  ranges o ks !! j1 = Some r1 → ranges o ks !! j2 = Some r2 →
  in_range r1 y → in_range r2 y → j1 = j2.
Proof.
  intros H1 H2 [Ha Hb] [Hc Hd].
  destruct (Nat.lt_trichotomy j1 j2) as [Hlt|[->|Hlt]]; [|done|].
  - pose proof (ranges_ordered _ _ _ _ _ _ Hlt H1 H2). lia.
  - pose proof (ranges_ordered _ _ _ _ _ _ Hlt H2 H1). lia.
Qed.

(** The [x]-th tip of a forest is a tip of one of its trees *)
Lemma forest_tips_lookup o ks x a :
  forest_tips ks !! x = Some a →
  ∃ j k r x', ks !! j = Some k ∧ ranges o ks !! j = Some r
              ∧ tip_ids k !! x' = Some a ∧ o + x = r.1 + x'.
Proof.
  revert o x. induction ks as [|k ks IH]; intros o x Hx; [done|].
  rewrite forest_tips_cons in Hx. apply lookup_app_Some in Hx as [Hx|[Hge Hx]].
  - exists 0, k, (o, o + ntips k), x. by split_and!.
  - destruct (IH (o + ntips k) _ Hx) as (j & k' & r & x' & Hk & Hr & Hx' & Heq).
    exists (S j), k', r, x'. split_and!; try done. unfold ntips in *. lia.
Qed.

Lemma forest_tips_lookup_kid o ks j k r x a :
  ks !! j = Some k → ranges o ks !! j = Some r → tip_ids k !! x = Some a →
  forest_tips ks !! (r.1 + x - o) = Some a.
Proof.
  revert o j. induction ks as [|k' ks IH]; intros o j Hk Hr Hx; [done|].
  rewrite forest_tips_cons. destruct j as [|j]; simpl in Hk, Hr.
  - injection Hk as ->. injection Hr as <-. simpl.
    replace (o + x - o) with x by lia. by apply lookup_app_l_Some.
  - destruct (ranges_lookup _ _ _ _ Hr) as (_ & _ & _ & Hge & _).
    rewrite lookup_app_r by (unfold ntips in *; lia).
    specialize (IH _ _ Hk Hr Hx).
    replace (r.1 + x - o - length (tip_ids k')) with (r.1 + x - (o + ntips k'))
      by (unfold ntips; lia).
    done.
Qed.

(** In a forest without repeated nodes, a node lies in one tree only *)
Lemma forest_position ks j1 j2 k1 k2 a :
  NoDup (flat_map ids ks) → ks !! j1 = Some k1 → ks !! j2 = Some k2 →
  a ∈ ids k1 → a ∈ ids k2 → j1 = j2.
Proof.
  revert j1 j2. induction ks as [|k ks IH]; intros j1 j2 Hd H1 H2 Ha1 Ha2; [done|].
  simpl in Hd. apply NoDup_app in Hd as (_ & Hdisj & Hd).
  assert (Hin : ∀ j k', ks !! j = Some k' → a ∈ ids k' → a ∈ flat_map ids ks).
  { intros j k' Hk' Ha. apply list_elem_of_In, in_flat_map. exists k'.
    split; apply list_elem_of_In; [by eapply list_elem_of_lookup_2|done]. }
  destruct j1 as [|j1], j2 as [|j2]; simpl in H1, H2; try done.
  - injection H1 as ->. destruct (Hdisj a Ha1). by eapply Hin.
  - injection H2 as ->. destruct (Hdisj a Ha2). by eapply Hin.
  - f_equal. by eapply IH.
Qed.

Lemma forest_member_position ks j k k' a :
  NoDup (flat_map ids ks) → ks !! j = Some k → k' ∈ ks →
  a ∈ ids k → a ∈ ids k' → k' = k.
Proof.
  intros Hd Hk [j' Hk']%list_elem_of_lookup Ha Ha'.
  assert (j' = j) as -> by by eapply forest_position.
  congruence.
Qed.

Lemma below_in w t a d : below w t a d → a ∈ ids t.
Proof.
  induction 1 as [i ks|i ks k a d Hk _ IH]; simpl; [by left|].
  right. apply list_elem_of_In, in_flat_map. exists k. by split; apply list_elem_of_In.
Qed.

Lemma joined_in w t a b d : joined w t a b d → a ∈ ids t ∧ b ∈ ids t.
Proof.
  induction 1 as [t a d H|i ks j1 j2 k1 k2 a b d1 d2 H1 H2 _ Ha Hb
                 |i ks k a b d Hk _ [IHa IHb]].
  - apply below_in in H. done.
  - apply below_in in Ha, Hb. apply list_elem_of_lookup_2 in H1, H2.
    split; simpl; right; apply list_elem_of_In, in_flat_map;
      [exists k1|exists k2]; by split; apply list_elem_of_In.
  - split; simpl; right; apply list_elem_of_In, in_flat_map; exists k;
      by split; apply list_elem_of_In.
Qed.

Lemma kid_ids_in_forest ks k a : k ∈ ks → a ∈ ids k → a ∈ flat_map ids ks.
Proof.
  intros Hk Ha. apply list_elem_of_In, in_flat_map. exists k.
  by split; apply list_elem_of_In.
Qed.

Lemma NoDup_kid ks k : NoDup (flat_map ids ks) → k ∈ ks → NoDup (ids k).
Proof.
  induction ks as [|k' ks IH]; intros Hd Hk; [by apply elem_of_nil in Hk|].
  simpl in Hd. apply NoDup_app in Hd as (? & _ & ?).
  apply elem_of_cons in Hk as [->|Hk]; [done|by apply IH].
Qed.

(** *** Stores that hold the same tree *)

Lemma same_lookup {X} (proj : TreeNode → X) s s' n nd :
  same proj s s' → nodes s !! n = Some nd →
  ∃ nd', nodes s' !! n = Some nd' ∧ proj nd' = proj nd.
Proof.
  intros Hsame Hnd. specialize (Hsame n). unfold attr in Hsame. rewrite Hnd in Hsame.
  destruct (nodes s' !! n) as [nd'|]; [|done]. injection Hsame as Heq. eauto.
Qed.

Lemma shape_same_tree s s' t : same_tree s s' → ∀ p, shape s p t → shape s' p t.
Proof.
  intros (_ & _ & HP & HC). induction t as [i ks IH] using tree_ind'.
  intros p (nd & Hnd & Hp & Hc & Hks)%shape_inv.
  destruct (same_lookup Parent _ _ _ _ HP Hnd) as (nd1 & Hnd1 & Hp1).
  destruct (same_lookup Children _ _ _ _ HC Hnd) as (nd2 & Hnd2 & Hc2).
  assert (nd2 = nd1) as -> by congruence.
  econstructor; [done|congruence|congruence|].
  rewrite Forall_forall in IH, Hks |- *. intros k Hk. apply IH; [done|by apply Hks].
Qed.

Lemma length_or_same s s' default c :
  same_tree s s' → length_or s' default c = length_or s default c.
Proof. intros (_ & HL & _). unfold length_or. by rewrite (HL c). Qed.

(** *** The sweep *)

Section Sweep.

Variable default_length : Z.
Variable rm : gmap nat nat.
Variable N : nat.
Variable w : handle → Z.

Lemma children_loop s :
  ∀ (crs : list (handle * (nat * nat))) d starts stops,
    Forall (λ cr, has_range s cr.1 cr.2 ∧ length_or s default_length cr.1 = w cr.1) crs →
    fold_M (λ '(distances, starts, stops) child,
              let* cd := get child in
              let child_len := match Length cd with
                               | Some l => l
                               | None => default_length
                               end in
              let* '(a, b) := start_stop child in
              ret (slice_add a b child_len distances, starts ++ [a], stops ++ [b]))
           crs.*1 (d, starts, stops) s
    = (Ok (foldl (add_child w) d crs, starts ++ crs.*2.*1, stops ++ crs.*2.*2), s).
Proof.
  induction crs as [|[c [a b]] crs IH]; intros d starts stops Hcrs.
  - simpl. by rewrite !app_nil_r.
  - apply Forall_cons in Hcrs as [[Hr Hw] Hcrs]. simpl in Hr, Hw.
    cbn [fmap list_fmap fold_M foldl fst snd].
    pose proof Hr as [Hs He]. simpl in Hs, He. unfold attr in Hs.
    destruct (nodes s !! c) as [cd|] eqn:Hcd; [|done].
    assert (Hlen : match Length cd with Some l => l | None => default_length end = w c).
    { rewrite <- Hw. unfold length_or, attr. rewrite Hcd. simpl. by destruct (Length cd). }
    erewrite bind_Ok; [|erewrite bind_Ok; [|by apply get_Ok];
                        erewrite bind_Ok;
                          [|apply (start_stop_attr _ _ _ _ (proj1 Hr) (proj2 Hr))];
                        reflexivity].
    rewrite Hlen, IH by done. unfold add_child at 2. simpl.
    by rewrite <- !app_assoc.
Qed.

Lemma foldl_add_child_length crs d : length (foldl (add_child w) d crs) = length d.
Proof.
  revert d. induction crs as [|cr crs IH]; intros d; simpl; [done|].
  rewrite IH. apply slice_add_length.
Qed.

Lemma foldl_add_child_outside crs d y :
  Forall (λ cr, ¬ in_range cr.2 y) crs → foldl (add_child w) d crs !! y = d !! y.
Proof.
  revert d. induction crs as [|[c [a b]] crs IH]; intros d Hout; simpl; [done|].
  apply Forall_cons in Hout as [Hy Hout]. rewrite IH by done.
  unfold add_child. simpl. rewrite slice_add_lookup.
  simpl in Hy. by rewrite decide_False.
Qed.

(** The distances after the loop over the children, for a tip index that
    lies in the range of the [j]-th child: the weight of that child's
    branch has been added, once. *)
Lemma foldl_add_child_inside o ks d j k r y :
  ks !! j = Some k → ranges o ks !! j = Some r → in_range r y →
  foldl (add_child w) d (zip (map root_id ks) (ranges o ks)) !! y
  = (λ z, (z + w (root_id k))%Z) <$> d !! y.
Proof.
  revert o d j. induction ks as [|k' ks IH]; intros o d j Hk Hr Hy; [done|].
  destruct j as [|j]; simpl in Hk, Hr.
  - injection Hk as ->. injection Hr as <-. simpl.
    rewrite foldl_add_child_outside.
    + unfold add_child. simpl. rewrite slice_add_lookup. by rewrite decide_True.
    + apply Forall_forall. intros [c r'] Hc. simpl.
      apply list_elem_of_lookup in Hc as [j' Hj'].
      apply lookup_zip_with_Some in Hj' as (c' & r'' & [= <- <-] & _ & Hr').
      destruct (ranges_lookup _ _ _ _ Hr') as (_ & _ & _ & Hge & _).
      unfold in_range in *. simpl in *. lia.
  - simpl. rewrite (IH _ _ j) by done.
    unfold add_child. simpl. rewrite slice_add_lookup.
    destruct (ranges_lookup _ _ _ _ Hr) as (_ & _ & _ & Hge & _).
    rewrite decide_False; [done|].
    unfold in_range in *. simpl in *. lia.
Qed.

Lemma zip_roots_ranges_fst o ks : (zip (map root_id ks) (ranges o ks)).*1 = map root_id ks.
Proof. apply fst_zip. rewrite length_map, ranges_length. lia. Qed.

Lemma zip_roots_ranges_snd o ks : (zip (map root_id ks) (ranges o ks)).*2 = ranges o ks.
Proof. apply snd_zip. rewrite length_map, ranges_length. lia. Qed.

Lemma foldl_min_lower x l : Forall (λ y, x ≤ y) l → foldl Nat.min x l = x.
Proof.
  revert x. induction l as [|y l IH]; intros x Hl; simpl; [done|].
  apply Forall_cons in Hl as [Hy Hl]. rewrite Nat.min_l by done. by apply IH.
Qed.

Lemma ranges_min o k ks : py_min (ranges o (k :: ks)).*1 = Ok o.
Proof.
  simpl. f_equal. apply foldl_min_lower, Forall_forall.
  intros y ([a b] & -> & Hy)%list_elem_of_fmap. simpl.
  apply list_elem_of_lookup in Hy as [j Hj].
  destruct (ranges_lookup _ _ _ _ Hj) as (_ & _ & _ & Hge & _). simpl in Hge. lia.
Qed.

Lemma ranges_max_from x o ks :
  x ≤ o → foldl Nat.max x (ranges o ks).*2
          = if decide (ks = []) then x else o + length (forest_tips ks).
Proof.
  revert x o. induction ks as [|k ks IH]; intros x o Hx; [done|].
  rewrite length_forest_tips_cons. simpl. rewrite IH by lia.
  rewrite Nat.max_r by lia. destruct ks as [|k' ks']; simpl; lia.
Qed.

Lemma ranges_max o k ks :
  py_max (ranges o (k :: ks)).*2 = Ok (o + length (forest_tips (k :: ks))).
Proof.
  simpl. f_equal. rewrite length_app. rewrite ranges_max_from by lia.
  destruct ks as [|k' ks']; [simpl; unfold ntips; lia|].
  rewrite decide_False by done. unfold ntips. lia.
Qed.

Lemma cross_pairs_bounds o ks :
  o + length (forest_tips ks) ≤ N →
  Forall (λ p, p.1 < N ∧ p.2 < N) (cross_pairs (ranges o ks)).
Proof.
  intros HN. apply Forall_forall. intros [x y] Hxy.
  apply cross_pairs_elem in Hxy as (j1 & j2 & r1 & r2 & _ & H1 & H2 & [_ Hx] & [_ Hy]).
  destruct (ranges_lookup _ _ _ _ H1) as (_ & _ & _ & _ & ?).
  destruct (ranges_lookup _ _ _ _ H2) as (_ & _ & _ & _ & ?).
  simpl. lia.
Qed.

Lemma sweep_node_tip s R d i nd :
  nodes s !! i = Some nd → Children nd = [] →
  sweep_node default_length rm (R, d) i s = (Ok (R, d), s).
Proof.
  intros Hnd Hc. unfold sweep_node. erewrite bind_Ok by by apply get_Ok.
  by rewrite Hc.
Qed.

(** One turn of the sweep at an internal node, its children done *)
Lemma sweep_node_run s1 R1 d1 o i ks nd :
  ks ≠ [] → nodes s1 !! i = Some nd → Children nd = map root_id ks →
  i ∉ map root_id ks →
  (∀ j k r, ks !! j = Some k → ranges o ks !! j = Some r → has_range s1 (root_id k) r) →
  (∀ c, length_or s1 default_length c = w c) →
  (∀ y, o ≤ y < o + length (forest_tips ks) → rm !! y = Some y) →
  o + length (forest_tips ks) ≤ N → length d1 = N → square N R1 →
  let d2 := foldl (add_child w) d1 (zip (map root_id ks) (ranges o ks)) in
  let s2 := mkStore (<[i := set_start_stop o (o + length (forest_tips ks)) nd]> (nodes s1))
                    (cells s1) in
  ∃ R2, sweep_node default_length rm (R1, d1) i s1 = (Ok (R2, d2), s2)
        ∧ square N R2
        ∧ ∀ x y, mat_get R2 x y
                 = if decide ((x, y) ∈ cross_pairs (ranges o ks))
                   then pair_sum d2 x y else mat_get R1 x y.
Proof.
  intros Hne Hnd Hc Hi Hranges Hw Hrm HN Hd1 HR1 d2 s2.
  set (crs := zip (map root_id ks) (ranges o ks)).
  assert (Hcrs1 : crs.*1 = map root_id ks) by apply zip_roots_ranges_fst.
  assert (Hcrs2 : crs.*2 = ranges o ks) by apply zip_roots_ranges_snd.
  assert (Hcr : ∀ cr, cr ∈ crs →
            ∃ j k, ks !! j = Some k ∧ ranges o ks !! j = Some cr.2 ∧ cr.1 = root_id k).
  { intros [c r] [j Hj]%list_elem_of_lookup.
    apply lookup_zip_with_Some in Hj as (c' & r' & [= <- <-] & Hc' & Hr').
    rewrite list_lookup_fmap in Hc'. destruct (ks !! j) as [k|] eqn:Hk; [|done].
    injection Hc' as <-. by exists j, k. }
  unfold sweep_node. erewrite bind_Ok by by apply get_Ok.
  rewrite Hc, nonempty_map. replace (nonempty ks) with true by by destruct ks.
  cbn [negb].
  erewrite bind_Ok; cycle 1.
  { rewrite <- Hcrs1. apply children_loop. apply Forall_forall.
    intros cr (j & k & Hk & Hr & ->)%Hcr. split; [by eapply Hranges|apply Hw]. }
  cbn [app]. rewrite Hcrs2.
  destruct ks as [|k0 ks']; [done|].
  rewrite ranges_min, ranges_max.
  unfold pure_res at 1. erewrite bind_Ok by reflexivity.
  unfold pure_res at 1. erewrite bind_Ok by reflexivity.
  erewrite bind_Ok by by apply modify_Ok.
  fold s2. fold crs. fold d2.
  destruct (1 <? length (map root_id (k0 :: ks'))) eqn:Hlen.
  - destruct (fill_pairs_spec N d2 (cross_pairs (ranges o (k0 :: ks')))) with (m := R1)
      as (R2 & Hfill & HR2 & Hget); [|by apply cross_pairs_bounds|done|].
    { unfold d2. by rewrite foldl_add_child_length. }
    exists R2. split; [|done].
    assert (Hup : update_result rm d2 crs.*1 R1 s2
                  = (fill_pairs d2 R1 (cross_pairs crs.*2), s2)).
    { apply update_result_pure.
      - apply Forall_forall. intros cr Hin.
        destruct (Hcr cr Hin) as (j & k & Hk & Hr & Heq).
        pose proof (Hranges j k cr.2 Hk Hr) as [Hs He].
        assert (Hne' : i ≠ cr.1).
        { intros ->. apply Hi. rewrite Heq. apply list_elem_of_fmap. exists k.
          split; [done|]. by eapply list_elem_of_lookup_2. }
        unfold has_range, attr, s2. simpl. rewrite lookup_insert_ne by done.
        rewrite <- Heq in Hs, He. done.
      - apply Forall_forall. intros cr Hin y [Hy1 Hy2].
        destruct (Hcr cr Hin) as (j & k & Hk & Hr & Heq).
        destruct (ranges_lookup _ _ _ _ Hr) as (_ & _ & _ & ? & ?).
        apply Hrm. lia. }
    rewrite Hcrs1, Hcrs2, Hfill in Hup.
    erewrite bind_Ok; [reflexivity|]. exact Hup.
  - exists R1. split; [done|]. split; [done|]. intros x y.
    rewrite decide_False; [done|].
    intros (j1 & j2 & r1 & r2 & Hlt & H1 & H2 & _)%cross_pairs_elem.
    apply lookup_lt_Some in H2. rewrite ranges_length in H2.
    apply Nat.ltb_ge in Hlen. rewrite length_map in Hlen. lia.
Qed.

Lemma has_range_frame s s' n r :
  nodes s' !! n = nodes s !! n → has_range s n r → has_range s' n r.
Proof. unfold has_range, attr. by intros ->. Qed.

Lemma tip_in_kid k x a : tip_ids k !! x = Some a → a ∈ ids k ∧ x < ntips k.
Proof.
  intros Hx. split.
  - apply tip_ids_subseteq. by eapply list_elem_of_lookup_2.
  - by eapply lookup_lt_Some.
Qed.

Lemma root_in_ids t : root_id t ∈ ids t.
Proof. destruct t. simpl. by left. Qed.

(** ... and what it leaves behind *)
Lemma sweep_node_internal s s1 R R1 d d1 o i ks :
  ks ≠ [] → ready default_length rm N w s R d o (Node i ks) →
  swept_forest N w s s1 R R1 d d1 o ks →
  ∃ R2 d2 s2, sweep_node default_length rm (R1, d1) i s1 = (Ok (R2, d2), s2)
              ∧ swept N w s s2 R R2 d d2 o (Node i ks).
Proof.
  intros Hne ([p Hshape] & Hnodup & Hw & Hstamp & Hrm & HN & Hd & HR & Hzero)
         (Hsame & Hframe & Hranges & Hd1len & Hd1out & Hd1in & HR1 & HR1out & HR1in).
  assert (Htips : tip_ids (Node i ks) = forest_tips ks) by by destruct ks.
  assert (Hnt : ntips (Node i ks) = length (forest_tips ks))
    by (unfold ntips; by rewrite Htips).
  rewrite Hnt in *. rewrite Htips in *.
  pose proof Hshape as (nd & Hnd & _ & Hc & _)%shape_inv.
  cbn [ids] in Hnodup. apply NoDup_cons in Hnodup as [Hi Hks].
  assert (Hnd1 : nodes s1 !! i = Some nd) by by rewrite Hframe.
  assert (Hi' : i ∉ map root_id ks).
  { intros (k & -> & Hk)%list_elem_of_fmap. apply Hi.
    eapply kid_ids_in_forest; [done|apply root_in_ids]. }
  assert (Hw1 : ∀ c, length_or s1 default_length c = w c).
  { intros c. by rewrite (length_or_same s s1). }
  destruct (sweep_node_run s1 R1 d1 o i ks nd Hne Hnd1 Hc Hi' Hranges Hw1 Hrm HN)
    as (R2 & Hrun & HR2 & HR2get); [congruence|done|].
  set (d2 := foldl (add_child w) d1 (zip (map root_id ks) (ranges o ks))) in *.
  set (s2 := mkStore _ _) in *.
  assert (Hd2len : length d2 = length d).
  { unfold d2. by rewrite foldl_add_child_length. }
  (* the distances of the tips *)
  assert (Hd2in : ∀ x a dd, forest_tips ks !! x = Some a → below w (Node i ks) a dd →
                            d2 !! (o + x) = Some dd).
  { intros x a dd Hx Hbelow.
    destruct (forest_tips_lookup o ks x a Hx) as (j & k & r & x' & Hk & Hr & Hx' & Heq).
    destruct (tip_in_kid _ _ _ Hx') as [Hak Hlt].
    destruct (ranges_lookup _ _ _ _ Hr) as (k' & Hk' & Hr2 & _).
    assert (k' = k) as -> by congruence.
    inversion Hbelow as [|i' ks' kb a' db Hkb Hdb]; subst.
    - destruct Hi. eapply kid_ids_in_forest; [|done]. by eapply list_elem_of_lookup_2.
    - assert (kb = k) as ->.
      { eapply forest_member_position; [done..|]. by eapply below_in. }
      rewrite Heq. unfold d2.
      rewrite (foldl_add_child_inside o ks d1 j k r) by (try done; split; lia).
      rewrite (Hd1in j k r x' a db) by done. simpl. f_equal. lia. }
  exists R2, d2, s2. split; [done|]. split_and!.
  - etrans; [exact Hsame|]. by apply same_tree_insert.
  - intros x Hx. cbn [ids] in Hx. apply not_elem_of_cons in Hx as [Hxi Hx].
    unfold s2. simpl. rewrite lookup_insert_ne by done. by apply Hframe.
  - unfold has_range, attr, s2. simpl. rewrite lookup_insert_eq. by rewrite Hnt.
  - done.
  - intros y Hy. rewrite Hnt in Hy. unfold d2. rewrite foldl_add_child_outside.
    + by apply Hd1out.
    + apply Forall_forall. intros [c r] [j Hj]%list_elem_of_lookup.
      apply lookup_zip_with_Some in Hj as (c' & r' & [= <- <-] & _ & Hr').
      destruct (ranges_lookup _ _ _ _ Hr') as (_ & _ & _ & ? & ?).
      unfold in_range. simpl. lia.
  - intros x a dd Hx. rewrite Htips in Hx. by apply Hd2in.
  - done.
  - intros x y Hxy. rewrite Hnt in Hxy. rewrite HR2get.
    rewrite decide_False.
    + apply HR1out. intros (r & [j Hr]%list_elem_of_lookup & ? & ? & ?).
      destruct (ranges_lookup _ _ _ _ Hr) as (_ & _ & _ & ? & ?). lia.
    + intros (j1 & j2 & r1 & r2 & Hlt & H1 & H2 & [? ?] & [? ?])%cross_pairs_elem.
      pose proof (ranges_ordered _ _ _ _ _ _ Hlt H1 H2).
      destruct (ranges_lookup _ _ _ _ H1) as (_ & _ & _ & ? & ?).
      destruct (ranges_lookup _ _ _ _ H2) as (_ & _ & _ & ? & ?). lia.
  - intros x y a b n Hlt Hx Hy Hj. rewrite Htips in Hx, Hy.
    destruct (forest_tips_lookup o ks x a Hx) as (ja & ka & ra & xa & Hka & Hra & Hxa & Hxeq).
    destruct (forest_tips_lookup o ks y b Hy) as (jb & kb & rb & xb & Hkb & Hrb & Hxb & Hyeq).
    destruct (tip_in_kid _ _ _ Hxa) as [Haka Hxalt].
    destruct (tip_in_kid _ _ _ Hxb) as [Hbkb Hxblt].
    destruct (ranges_lookup _ _ _ _ Hra) as (ka' & Hka' & Hra2 & _).
    destruct (ranges_lookup _ _ _ _ Hrb) as (kb' & Hkb' & Hrb2 & _).
    assert (ka' = ka) as -> by congruence. assert (kb' = kb) as -> by congruence.
    rewrite HR2get.
    inversion Hj as [t' a' dd Hb|i' ks' j1 j2 k1 k2 a' b' da db H1 H2 Hne12 Hba Hbb
                    |i' ks' k a' b' n' Hk Hjk]; subst.
    + (* the same tip twice: not at two indices *)
      pose proof (tip_ids_NoDup (Node i ks)) as Hnd'. rewrite Htips in Hnd'.
      assert (x = y); [|lia].
      eapply NoDup_lookup; [apply Hnd'|done..]. cbn [ids]. by apply NoDup_cons.
    + (* the two tips hang under different children *)
      assert (ja = j1) as -> by (eapply forest_position; [done..|by eapply below_in]).
      assert (jb = j2) as -> by (eapply forest_position; [done..|by eapply below_in]).
      assert (j1 < j2).
      { destruct (Nat.lt_trichotomy j1 j2) as [?|[?|Hgt]]; [done|done|].
        pose proof (ranges_ordered _ _ _ _ _ _ Hgt Hrb Hra). lia. }
      rewrite decide_True.
      * unfold pair_sum.
        rewrite (Hd2in x a (w (root_id k1) + da)%Z Hx)
          by (constructor; [by eapply list_elem_of_lookup_2|done]).
        rewrite (Hd2in y b (w (root_id k2) + db)%Z Hy)
          by (constructor; [by eapply list_elem_of_lookup_2|done]).
        done.
      * apply cross_pairs_elem. exists j1, j2, ra, rb.
        unfold in_range. split_and!; try done; lia.
    + (* both under the same child *)
      destruct (joined_in _ _ _ _ _ Hjk) as [Hak Hbk].
      apply list_elem_of_lookup in Hk as [j Hk].
      assert (ja = j) as -> by by eapply forest_position.
      assert (jb = j) as -> by by eapply forest_position.
      assert (ka = k) as -> by congruence. assert (kb = k) as -> by congruence.
      assert (rb = ra) as -> by congruence.
      rewrite decide_False.
      * rewrite Hxeq, Hyeq. apply (HR1in j k ra xa xb a b n); try done; lia.
      * intros (j1 & j2 & r1 & r2 & Hlt' & H1 & H2 & Hx1 & Hy2)%cross_pairs_elem.
        assert (j1 = j)
          by (apply (ranges_same_block o ks j1 j r1 ra (o + x) H1 Hra Hx1); split; lia).
        assert (j2 = j)
          by (apply (ranges_same_block o ks j2 j r2 ra (o + y) H2 Hra Hy2); split; lia).
        lia.
Qed.

End Sweep.

Section SweepTree.

Variable default_length : Z.
Variable rm : gmap nat nat.
Variable N : nat.
Variable w : handle → Z.

Notation Ready := (ready default_length rm N w).
Notation Swept := (swept N w).
Notation ReadyForest := (ready_forest default_length rm N w).
Notation SweptForest := (swept_forest N w).
Notation sweep := (sweep_node default_length rm).
Notation sweeps := (sweeps default_length rm N w).

Lemma ranges_lower o ks r : r ∈ ranges o ks → o ≤ r.1.
Proof.
  intros [j Hj]%list_elem_of_lookup.
  by destruct (ranges_lookup _ _ _ _ Hj) as (_ & _ & _ & ? & _).
Qed.

Lemma forest_tips_in_forest ks a : a ∈ forest_tips ks → a ∈ flat_map ids ks.
Proof.
  intros (k & Hk & Ha)%list_elem_of_In%in_flat_map.
  apply list_elem_of_In in Hk, Ha.
  eapply kid_ids_in_forest; [done|]. by apply tip_ids_subseteq.
Qed.

(** The sweep over the subtrees of a list, one after the other *)
Lemma sweep_forest ks :
  Forall sweeps ks →
  ∀ s R d o, ReadyForest s R d o ks →
    ∃ R' d' s', fold_M sweep (flat_map post ks) (R, d) s = (Ok (R', d'), s')
                ∧ SweptForest s s' R R' d d' o ks.
Proof.
  induction 1 as [|k ks Hk _ IH]; intros s R d o Hready.
  - exists R, d, s. split; [done|].
    destruct Hready as (_ & _ & _ & _ & _ & _ & _ & HR & _).
    split_and!; try done.
  - destruct Hready as (Hrooted & Hnodup & Hw & Hstamp & Hrm & HN & Hd & HR & Hzero).
    apply Forall_cons in Hrooted as [Hrk Hrks].
    cbn [flat_map] in Hnodup. apply NoDup_app in Hnodup as (Hndk & Hdisj & Hndks).
    rewrite length_forest_tips_cons in *.
    (* the first tree *)
    destruct (Hk s R d o) as (R1 & d1 & s1 & Hrun1 & Hs1).
    { split_and!; try done.
      - intros x a Hx. apply Hstamp. rewrite forest_tips_cons.
        by apply lookup_app_l_Some.
      - intros y Hy. apply Hrm. lia.
      - lia.
      - intros y Hy. apply Hzero. lia. }
    destruct Hs1 as (Hsame1 & Hframe1 & Hrange1 & Hd1len & Hd1out & Hd1in & HR1
                     & HR1out & HR1in).
    (* the others *)
    destruct (IH s1 R1 d1 (o + ntips k)) as (R2 & d2 & s2 & Hrun2 & Hs2).
    { split_and!; try done.
      - eapply Forall_impl; [exact Hrks|]. intros t [p Ht]. exists p.
        by eapply shape_same_tree.
      - intros c. by rewrite (length_or_same s s1).
      - intros x a Hx.
        assert (Ha : a ∈ flat_map ids ks).
        { apply forest_tips_in_forest. by eapply list_elem_of_lookup_2. }
        apply (has_range_frame s).
        + apply Hframe1. intros Hin. by apply (Hdisj a).
        + replace (o + ntips k + x) with (o + (ntips k + x)) by lia.
          apply Hstamp. rewrite forest_tips_cons.
          rewrite lookup_app_r by (unfold ntips; lia).
          by replace (ntips k + x - length (tip_ids k)) with x by (unfold ntips; lia).
      - intros y Hy. apply Hrm. lia.
      - lia.
      - congruence.
      - intros y Hy. rewrite Hd1out by lia. apply Hzero. lia. }
    destruct Hs2 as (Hsame2 & Hframe2 & Hrange2 & Hd2len & Hd2out & Hd2in & HR2
                     & HR2out & HR2in).
    exists R2, d2, s2. split.
    { cbn [flat_map]. by rewrite fold_M_app, Hrun1. }
    assert (Hroot : root_id k ∉ flat_map ids ks).
    { intros Hin. apply (Hdisj (root_id k)); [apply root_in_ids|done]. }
    split_and!.
    + by etrans.
    + intros x Hx. cbn [flat_map] in Hx. apply not_elem_of_app in Hx as [Hxk Hxks].
      rewrite Hframe2 by done. by apply Hframe1.
    + intros [|j] k' r Hk' Hr; simpl in Hk', Hr.
      * injection Hk' as <-. injection Hr as <-.
        by apply (has_range_frame s1); [apply Hframe2|].
      * by eapply Hrange2.
    + congruence.
    + intros y Hy. rewrite length_forest_tips_cons in Hy.
      rewrite Hd2out by lia. apply Hd1out. lia.
    + intros [|j] k' r x a dd Hk' Hr Hx Hb; simpl in Hk', Hr.
      * injection Hk' as <-. injection Hr as <-. simpl.
        destruct (tip_in_kid _ _ _ Hx) as [_ Hlt].
        rewrite Hd2out by lia. by eapply Hd1in.
      * by eapply Hd2in.
    + done.
    + intros x y Hxy. rewrite HR2out.
      * apply HR1out. intros (? & ? & ?). apply Hxy. exists (o, o + ntips k).
        split; [by left|]. simpl. lia.
      * intros (r & Hr & ?). apply Hxy. exists r. split; [by right|done].
    + intros [|j] k' r x y a b n Hk' Hr Hlt Hx Hy Hj; simpl in Hk', Hr.
      * injection Hk' as <-. injection Hr as <-. simpl.
        destruct (tip_in_kid _ _ _ Hx) as [_ Hxlt].
        rewrite HR2out; [by eapply HR1in|].
        intros (r & Hr%ranges_lower & ?). lia.
      * by eapply HR2in.
Qed.

Lemma fold_M_singleton {A B} (body : B → A → M B) x acc s :
  fold_M body [x] acc s
  = match body acc x s with
    | (Ok acc', s') => (Ok acc', s')
    | (Raise e, s') => (Raise e, s')
    end.
Proof. done. Qed.

(** The sweep over a subtree *)
Lemma sweep_tree t : sweeps t.
Proof.
  induction t as [i ks IH] using tree_ind'. intros s R d o Hready.
  destruct ks as [|k0 ks'].
  - (* a tip *)
    destruct Hready as ([p Hshape] & Hnodup & Hw & Hstamp & Hrm & HN & Hd & HR & Hzero).
    pose proof Hshape as (nd & Hnd & _ & Hc & _)%shape_inv.
    exists R, d, s. split.
    { cbn [post flat_map app]. rewrite fold_M_singleton.
      by rewrite (sweep_node_tip _ _ _ _ _ _ nd). }
    split_and!; try done.
    + specialize (Hstamp 0 i eq_refl). by rewrite !Nat.add_0_r in Hstamp.
    + intros [|x] a dd Hx Hb; [|done]. injection Hx as <-.
      inversion Hb as [|? ? k ? ? Hk]; subst.
      * rewrite Nat.add_0_r. apply Hzero. unfold ntips. simpl. lia.
      * by apply elem_of_nil in Hk.
    + intros x [|y] a b n Hlt Hx Hy; [lia|done].
  - (* an internal node *)
    set (ks := k0 :: ks') in *.
    assert (Htips : tip_ids (Node i ks) = forest_tips ks) by done.
    assert (Hnt : ntips (Node i ks) = length (forest_tips ks)) by done.
    pose proof Hready as ([p Hshape] & Hnodup & Hw & Hstamp & Hrm & HN & Hd & HR & Hzero).
    rewrite Hnt in *. rewrite Htips in *.
    destruct (sweep_forest ks IH s R d o) as (R1 & d1 & s1 & Hrun1 & Hs1).
    { split_and!; try done.
      - eapply rooted_kids. by exists p.
      - cbn [ids] in Hnodup. by apply NoDup_cons in Hnodup as [_ ?]. }
    destruct (sweep_node_internal default_length rm N w s s1 R R1 d d1 o i ks)
      as (R2 & d2 & s2 & Hrun2 & Hs2); [done..|].
    exists R2, d2, s2. split; [|done].
    cbn [post]. rewrite fold_M_app, Hrun1, fold_M_singleton. by rewrite Hrun2.
Qed.

End SweepTree.

(** *** Paths *)

Lemma below_ext w w' t a d :
  (∀ c, c ∈ flat_map ids (kids_of t) → w c = w' c) → below w t a d → below w' t a d.
Proof.
  intros Hw Hb. induction Hb as [i ks|i ks k a d Hk Hb IH]; [constructor|].
  simpl in Hw. rewrite (Hw (root_id k)).
  - constructor; [done|]. apply IH. intros c Hc. apply Hw.
    eapply kid_ids_in_forest; [done|]. destruct k as [ik kks]. simpl in *. by right.
  - eapply kid_ids_in_forest; [done|apply root_in_ids].
Qed.

Lemma joined_ext w w' t a b d :
  (∀ c, c ∈ flat_map ids (kids_of t) → w c = w' c) → joined w t a b d → joined w' t a b d.
Proof.
  intros Hw Hj.
  induction Hj as [t a d H|i ks j1 j2 k1 k2 a b d1 d2 H1 H2 Hne Ha Hb
                  |i ks k a b d Hk Hj IH].
  - econstructor. by eapply below_ext.
  - simpl in Hw.
    assert (Hin : ∀ j k, ks !! j = Some k → ∀ c, c ∈ ids k → w c = w' c).
    { intros j k Hk c Hc. apply Hw. eapply kid_ids_in_forest; [|done].
      by eapply list_elem_of_lookup_2. }
    rewrite (Hin j1 k1 H1 (root_id k1) (root_in_ids _)).
    rewrite (Hin j2 k2 H2 (root_id k2) (root_in_ids _)).
    econstructor; try done.
    + eapply below_ext; [|done]. intros c Hc. apply (Hin j1 k1 H1).
      destruct k1. simpl in *. by right.
    + eapply below_ext; [|done]. intros c Hc. apply (Hin j2 k2 H2).
      destruct k2. simpl in *. by right.
  - apply joined_kid with k; [done|]. apply IH. intros c Hc. apply Hw. simpl.
    eapply kid_ids_in_forest; [done|]. destruct k. simpl in *. by right.
Qed.

Lemma joined_sym w t a b d : joined w t a b d → joined w t b a d.
Proof.
  induction 1 as [t a d H|i ks j1 j2 k1 k2 a b d1 d2 H1 H2 Hne Ha Hb
                 |i ks k a b d Hk Hj IH].
  - by econstructor.
  - rewrite Z.add_comm. by econstructor.
  - by apply joined_kid with k.
Qed.

Lemma joined_self w t a d : NoDup (ids t) → joined w t a a d → d = 0%Z.
Proof.
  intros Hd Hj. remember a as b eqn:Heq in Hj at 2.
  induction Hj as [t a d H|i ks j1 j2 k1 k2 a b d1 d2 H1 H2 Hne Ha Hb
                  |i ks k a b d Hk Hj IH]; [done| |].
  - subst b. cbn [ids] in Hd. apply NoDup_cons in Hd as [_ Hd].
    destruct Hne. eapply forest_position; [done..| |]; by eapply below_in.
  - apply IH; [|done]. cbn [ids] in Hd. apply NoDup_cons in Hd as [_ Hd].
    by eapply NoDup_kid.
Qed.

(** *** The matrix that is returned *)

Lemma mat_get_zeros2 n x y : x < n → y < n → mat_get (zeros2 n n) x y = Some 0%Z.
Proof.
  intros Hx Hy. unfold mat_get, zeros2, zeros.
  rewrite lookup_replicate_2 by done. simpl. by rewrite lookup_replicate_2.
Qed.

Lemma square_zeros2 n : square n (zeros2 n n).
Proof.
  split; [apply length_replicate|]. apply Forall_replicate, length_replicate.
Qed.

Lemma plus_transpose_get m i j :
  mat_get (plus_transpose m) i j
  = (x ← mat_get m i j; Some (x + default 0%Z (mat_get m j i))%Z).
Proof.
  assert (Hget : mat_get m i j = row ← m !! i; row !! j) by done.
  rewrite Hget. clear Hget.
  unfold plus_transpose, mat_get at 1. rewrite list_lookup_imap.
  destruct (m !! i) as [row|]; [|done]. simpl.
  rewrite list_lookup_imap. by destruct (row !! j).
Qed.

Lemma plus_transpose_square n m : square n m → square n (plus_transpose m).
Proof.
  intros [Hlen Hrows]. unfold plus_transpose. split; [by rewrite length_imap|].
  apply Forall_forall. intros row [i Hi]%list_elem_of_lookup.
  rewrite list_lookup_imap in Hi. destruct (m !! i) as [r|] eqn:Hr; [|done].
  injection Hi as <-. rewrite length_imap. rewrite Forall_forall in Hrows.
  apply Hrows. by eapply list_elem_of_lookup_2.
Qed.

Lemma mat_get_None n m i j : square n m → ¬ (i < n ∧ j < n) → mat_get m i j = None.
Proof.
  intros [Hlen Hrows] Hij. unfold mat_get.
  destruct (m !! i) as [row|] eqn:Hrow; [|done]. simpl.
  apply lookup_ge_None. rewrite Forall_forall in Hrows.
  rewrite (Hrows row) by by eapply list_elem_of_lookup_2.
  apply lookup_lt_Some in Hrow. lia.
Qed.

Lemma plus_transpose_symmetric n m i j :
  square n m → mat_get (plus_transpose m) i j = mat_get (plus_transpose m) j i.
Proof.
  intros Hm. rewrite !plus_transpose_get.
  destruct (decide (i < n ∧ j < n)) as [[Hi Hj]|Hn].
  - destruct (mat_get_square n m i j Hm Hi Hj) as [x Hx].
    destruct (mat_get_square n m j i Hm Hj Hi) as [y Hy].
    rewrite Hx, Hy. simpl. f_equal. lia.
  - rewrite (mat_get_None n m i j Hm Hn).
    rewrite (mat_get_None n m j i Hm) by tauto. done.
Qed.

(** *** tip_tip_distances, put together *)

Lemma enumerate_imap {A} (l : list A) : enumerate l = imap (λ i, pair (0 + i)) l.
Proof. done. Qed.

Lemma holds_same_tree s s' self t : same_tree s s' → holds s self t → holds s' self t.
Proof.
  intros Hsame (Hr & [p Hs] & Hd). split_and!; [done| |done].
  exists p. by eapply shape_same_tree.
Qed.

Lemma post_unfold i ks : post (Node i ks) = flat_map post ks ++ [i].
Proof. done. Qed.

(** The call on a node that is itself a tip: an empty matrix *)
Lemma tip_tip_distances_of_tip s self fuel default_length :
  holds s self (Node self []) → 2 < fuel →
  tip_tip_distances fuel self None default_length s = (Ok ([], []), s).
Proof.
  intros Ht Hfuel. unfold tip_tip_distances.
  erewrite bind_Ok; [|unfold lift; by rewrite (tips_holds s self (Node self []))
                                             by (try done; simpl; lia)].
  simpl tips_below. erewrite bind_Ok by reflexivity.
  erewrite bind_Ok by reflexivity. erewrite bind_Ok by reflexivity.
  erewrite bind_Ok; [|unfold lift;
    by rewrite (postorder_holds s self (Node self []) true) by (try done; simpl; lia)].
  destruct (holds_inv _ _ _ Ht) as (p & ks & [= <-] & Hs & _).
  pose proof Hs as (nd & Hnd & _ & Hc & _)%shape_inv.
  erewrite bind_Ok; cycle 1.
  { cbn [kids_of flat_map app]. rewrite fold_M_singleton.
    by rewrite (sweep_node_tip _ _ _ _ _ _ nd). }
  done.
Qed.

(** The matrix for branches of any length: the entry for two tips is the
    weight of the path that joins them, a branch without a length weighing
    [default_length]. *)
Lemma tip_tip_distances_run s self t fuel default_length :
  holds s self t → 2 * size t < fuel →
  ∃ m s', tip_tip_distances fuel self None default_length s
          = (Ok (m, tips_below t), s')
    ∧ square (length (tips_below t)) m
    ∧ (∀ i j, mat_get m i j = mat_get m j i)
    ∧ (∀ i, i < length (tips_below t) → mat_get m i i = Some 0%Z)
    ∧ (∀ i j a b e, tips_below t !! i = Some a → tips_below t !! j = Some b →
         joined (length_or s default_length) t a b e → mat_get m i j = Some e).
Proof.
  intros Ht Hfuel.
  destruct (holds_inv _ _ _ Ht) as (p & ks & -> & Hs & Hself & Hd).
  destruct ks as [|k0 ks'].
  { exists [], s. split; [apply tip_tip_distances_of_tip; [done|simpl in Hfuel; lia]|].
    split_and!.
    - by split.
    - done.
    - intros i Hi. simpl in Hi. lia.
    - intros i j a b e Hi. done. }
  set (ks := k0 :: ks') in *. set (t := Node self ks) in *.
  assert (Htb : tips_below t = tip_ids t) by done.
  rewrite Htb. set (n := length (tip_ids t)).
  pose proof (tip_ids_NoDup t (proj2 (proj2 Ht))) as Hnd.
  (* numbering the tips *)
  destruct (stamp_tips s (tip_ids t) 0 Hnd) as (s1 & Hstamp & Hsame & Hcells & Hst & Hout).
  { pose proof (holds_in_store _ _ _ Ht) as Hall. rewrite Forall_forall in Hall.
    apply Forall_forall. intros a Ha. apply Hall. by apply tip_ids_subseteq. }
  (* the result map *)
  destruct (result_map_identity s1 (tip_ids t) 0 ∅ Hst) as (rm & Hrm_run & Hrm); [lia|].
  (* the sweep *)
  pose proof (holds_same_tree _ _ _ _ Hsame Ht) as Ht1.
  destruct (sweep_tree default_length rm n (length_or s default_length) t
              s1 (zeros2 n n) (zeros n) 0) as (R & d & s2 & Hsweep & Hswept).
  { split_and!.
    - destruct Ht1 as (_ & ? & _). done.
    - by destruct Ht as (_ & _ & ?).
    - intros c. by apply length_or_same.
    - intros x a Hx. apply (Hst x a Hx).
    - intros y Hy. apply Hrm. unfold ntips in Hy. lia.
    - unfold ntips, n. lia.
    - apply length_replicate.
    - apply square_zeros2.
    - intros y Hy. apply lookup_replicate_2. unfold ntips in Hy. unfold n. lia. }
  destruct Hswept as (_ & _ & _ & _ & _ & _ & HR & HRout & HRin).
  exists (plus_transpose R), s2. split.
  { unfold tip_tip_distances.
    erewrite bind_Ok; [|unfold lift; by rewrite (tips_holds s self t) by (try done; lia)].
    rewrite Htb. erewrite bind_Ok by reflexivity.
    erewrite bind_Ok; [|rewrite enumerate_imap; exact Hstamp].
    erewrite bind_Ok; [|rewrite enumerate_imap; exact Hrm_run].
    erewrite bind_Ok; [|unfold lift;
      by rewrite (postorder_holds s1 self t true) by (try done; lia)].
    change (flat_map post (kids_of t) ++ [self]) with (post t).
    fold n. erewrite bind_Ok by exact Hsweep. done. }
  assert (Hlow : ∀ x y, ¬ x < y → x < n → y < n → mat_get R x y = Some 0%Z).
  { intros x y Hxy Hx Hy. rewrite HRout by lia. by apply mat_get_zeros2. }
  assert (Hup : ∀ x y a b e, x < y → tip_ids t !! x = Some a → tip_ids t !! y = Some b →
                  joined (length_or s default_length) t a b e → mat_get R x y = Some e).
  { intros x y a b e Hxy Hx Hy Hj. by apply (HRin x y a b e Hxy Hx Hy Hj). }
  split_and!.
  - by apply plus_transpose_square.
  - intros i j. by apply (plus_transpose_symmetric n).
  - intros i Hi. rewrite plus_transpose_get, Hlow by (try done; lia). done.
  - intros i j a b e Hi Hj Hjoin. rewrite plus_transpose_get.
    pose proof (lookup_lt_Some _ _ _ Hi) as Hin. pose proof (lookup_lt_Some _ _ _ Hj) as Hjn.
    destruct (Nat.lt_trichotomy i j) as [Hlt|[->|Hgt]].
    + rewrite (Hup i j a b e) by done. simpl. rewrite (Hlow j i) by (try done; lia).
      simpl. f_equal. apply Z.add_0_r.
    + assert (b = a) as -> by congruence.
      rewrite (joined_self _ _ _ _ (proj2 (proj2 Ht)) Hjoin).
      rewrite Hlow by (try done; lia). done.
    + rewrite (Hlow i j) by (try done; lia). simpl.
      rewrite (Hup j i b a e) by (try done; by apply joined_sym). done.
Qed.

(** C6.  Called without endpoints on a tree that the store holds,
    [tip_tip_distances] returns, for the tips of the tree in their order, a
    square matrix that is symmetric and has zeros on its diagonal.  If every
    branch in the tree has length 1, the entry for two tips is the number of
    edges on the path that joins them. *)
Theorem tip_tip_distances_all_tips s self t fuel default_length :
  holds s self t → 2 * size t < fuel →
  ∃ m s', tip_tip_distances fuel self None default_length s
          = (Ok (m, tips_below t), s')
    ∧ square (length (tips_below t)) m
    ∧ (∀ i j, mat_get m i j = mat_get m j i)
    ∧ (∀ i, i < length (tips_below t) → mat_get m i i = Some 0%Z)
    ∧ ((∀ c, c ∈ flat_map ids (kids_of t) → attr Length s c = Some (Some 1%Z)) →
       ∀ i j a b n, tips_below t !! i = Some a → tips_below t !! j = Some b →
         edges_between t a b n → mat_get m i j = Some (Z.of_nat n)).
Proof.
  intros Ht Hfuel.
  destruct (tip_tip_distances_run s self t fuel default_length Ht Hfuel)
    as (m & s' & Hrun & Hsq & Hsym & Hdiag & Hdist).
  exists m, s'. split_and!; try done.
  intros Hone i j a b n Hi Hj Hedges. apply (Hdist i j a b _ Hi Hj).
  eapply joined_ext; [|exact Hedges].
  intros c Hc. unfold length_or. by rewrite (Hone c Hc).
Qed.

Lemma tip_tip_distances_all_tips_witness :
  ∃ m s', tip_tip_distances 20 0 None 1 abc_store = (Ok (m, [1; 3; 4]), s')
    ∧ square 3 m
    ∧ (∀ i j, mat_get m i j = mat_get m j i)
    ∧ (∀ i, i < 3 → mat_get m i i = Some 0%Z)
    ∧ mat_get m 0 1 = Some 3%Z
    ∧ mat_get m 1 2 = Some 2%Z.
Proof.
  destruct (tip_tip_distances_all_tips abc_store 0 abc_tree 20 1)
    as (m & s' & Hrun & Hsq & Hsym & Hdiag & Hone).
  - apply holdsb_holds. vm_compute. reflexivity.
  - simpl. lia.
  - assert (Hlen : ∀ c, c ∈ flat_map ids (kids_of abc_tree) →
                        attr Length abc_store c = Some (Some 1%Z)).
    { intros c Hc. repeat (apply elem_of_cons in Hc as [->|Hc]; [reflexivity|]).
      by apply elem_of_nil in Hc. }
    exists m, s'. split_and!; try done.
    + apply (Hone Hlen 0 1 1 3 3 eq_refl eq_refl). unfold edges_between.
      change (Z.of_nat 3) with ((1 + 0) + (1 + (1 + 0)))%Z.
      apply (joined_split (λ _, 1%Z) 0 [Node 1 []; Node 2 [Node 3 []; Node 4 []]] 0 1
               (Node 1 []) (Node 2 [Node 3 []; Node 4 []]) 1 3 0 (1 + 0) eq_refl eq_refl);
        [done|constructor|].
      apply (below_kid (λ _, 1%Z) 2 [Node 3 []; Node 4 []] (Node 3 []));
        [by left|constructor].
    + apply (Hone Hlen 1 2 3 4 2 eq_refl eq_refl). unfold edges_between.
      apply (joined_kid (λ _, 1%Z) 0 [Node 1 []; Node 2 [Node 3 []; Node 4 []]]
               (Node 2 [Node 3 []; Node 4 []])); [by right; left|].
      change (Z.of_nat 2) with ((1 + 0) + (1 + 0))%Z.
      apply (joined_split (λ _, 1%Z) 2 [Node 3 []; Node 4 []] 0 1 (Node 3 []) (Node 4 [])
               3 4 0 0 eq_refl eq_refl); [done|constructor|constructor].
Defined.

(** ** lowest_common_ancestor on its normal exit

    The method changes nothing but [black] attributes and the name cache,
    and when it returns it has deleted every [black] it set. *)

Lemma create_node_cache_tree fuel self : preserves same_tree (create_node_cache fuel self).
Proof.
  unfold create_node_cache, cache_add.
  repeat first [preserves_modify_tree | preserves_step].
Qed.

Lemma find_tree fuel self name : preserves same_tree (find fuel self name).
Proof.
  unfold find.
  repeat first [apply create_node_cache_tree | preserves_modify_tree | preserves_step].
Qed.

Lemma mark_path_tree fuel :
  ∀ prev curr scrub, preserves same_tree (mark_path fuel prev curr scrub).
Proof.
  induction fuel as [|fuel IH]; intros prev curr scrub; simpl.
  - apply preserves_raise. apply _.
  - repeat first [apply IH | preserves_modify_tree | preserves_step].
Qed.

Lemma descend_pure fuel : ∀ curr s, (descend fuel curr s).2 = s.
Proof.
  induction fuel as [|fuel IH]; intros curr s; [done|].
  simpl. unfold bind, get, lift, pure_res.
  destruct (node s curr) as [nd|]; [|done]. simpl.
  destruct (black nd) as [b|]; [|done].
  destruct (length b =? 1); [|done].
  destruct (py_get b 0); [apply IH|done].
Qed.

Lemma lowest_common_ancestor_tree fuel self tipnames :
  preserves same_tree (lowest_common_ancestor fuel self tipnames).
Proof.
  unfold lowest_common_ancestor, mark_tip, count_hit, delattr_black.
  destruct (length tipnames =? 1).
  - repeat first [apply find_tree | preserves_step].
  - apply preserves_bind; [apply _|apply preserves_map_M; [apply _|apply find_tree]|].
    intros tips. destruct (length tips =? 0); [apply preserves_ret; apply _|].
    apply preserves_bind; [apply _| |].
    + apply preserves_fold_M; [apply _|]. intros acc t.
      repeat first [apply mark_path_tree | preserves_modify_tree | preserves_step].
    + intros scrub. apply preserves_bind; [apply _| |].
      * intros s. rewrite descend_pure. reflexivity.
      * intros curr.
        repeat first [preserves_modify_tree | preserves_step].
Qed.

Lemma same_black_unmarked s s' : same black s s' → unmarked s → unmarked s'.
Proof.
  intros Hsame Hs n nd' Hn'. specialize (Hsame n). unfold attr in Hsame.
  rewrite Hn' in Hsame. destruct (nodes s !! n) as [nd|] eqn:Hn; [|done].
  injection Hsame as Hb. rewrite <- Hb. by eapply Hs.
Qed.

Lemma create_node_cache_black fuel self : preserves (same black) (create_node_cache fuel self).
Proof.
  unfold create_node_cache, cache_add.
  repeat first [preserves_modify_cache | preserves_step].
Qed.

Lemma find_black fuel self name : preserves (same black) (find fuel self name).
Proof.
  unfold find.
  repeat first [apply create_node_cache_black | preserves_modify_cache | preserves_step].
Qed.

Lemma modify_black_marked l s n nd b :
  nodes s !! n = Some nd → n ∈ l → marked_within l s →
  marked_within l (mkStore (<[n := set_black b nd]> (nodes s)) (cells s)).
Proof.
  intros Hn Hl Hm x xd Hx Hb. simpl in Hx.
  destruct (decide (n = x)) as [<-|Hne]; [done|].
  rewrite lookup_insert_ne in Hx by done. by eapply Hm.
Qed.

Lemma marked_within_mono l l' s : l ⊆ l' → marked_within l s → marked_within l' s.
Proof. intros Hl Hm n nd Hn Hb. apply Hl. by eapply Hm. Qed.

Lemma mark_path_marked fuel :
  ∀ prev curr scrub s r s',
    mark_path fuel prev curr scrub s = (Ok r, s') →
    marked_within scrub s → marked_within r.2 s'.
Proof.
  induction fuel as [|fuel IH]; intros prev curr scrub s r s' Hrun Hm; [done|].
  simpl in Hrun. destruct curr as [c|]; [|by injection Hrun as <- <-].
  apply bind_Ok_inv in Hrun as (nd & s1 & Hget & Hrun).
  unfold get, lift, node in Hget. destruct (nodes s !! c) as [nd'|] eqn:Hc; [|done].
  injection Hget as -> <-.
  destruct (truthy nd && negb (bool_decide (is_Some (black nd)))).
  - apply bind_Ok_inv in Hrun as ([] & s1 & Hmod & Hrun).
    rewrite (modify_Ok _ _ _ _ Hc) in Hmod. injection Hmod as <-.
    eapply IH; [exact Hrun|].
    apply modify_black_marked; [done|set_solver|].
    eapply marked_within_mono; [|done]. set_solver.
  - by injection Hrun as <- <-.
Qed.

Lemma count_hit_marked prev curr l s r s' :
  count_hit prev curr s = (Ok r, s') → marked_within l s → marked_within l s'.
Proof.
  unfold count_hit. destruct curr as [c|]; [|by intros [= _ <-]].
  intros (nd & s1 & Hget & Hrun)%bind_Ok_inv Hm.
  unfold get, lift, node in Hget. destruct (nodes s !! c) as [nd'|] eqn:Hc; [|done].
  injection Hget as -> <-.
  destruct (truthy nd); [|by injection Hrun as _ <-].
  destruct (black nd) as [b|] eqn:Hb; [|done].
  rewrite (modify_Ok _ _ _ _ Hc) in Hrun. injection Hrun as _ <-.
  apply modify_black_marked; [done| |done]. eapply Hm; [done|]. by rewrite Hb.
Qed.

Lemma mark_tips_marked fuel tips :
  ∀ scrub s r s',
    fold_M (mark_tip fuel) tips scrub s = (Ok r, s') →
    marked_within scrub s → marked_within r s'.
Proof.
  induction tips as [|t tips IH]; intros scrub s r s' Hrun Hm.
  - by injection Hrun as <- <-.
  - simpl in Hrun. apply bind_Ok_inv in Hrun as (scrub1 & s1 & Hstep & Hrun).
    eapply IH; [exact Hrun|]. clear Hrun IH.
    unfold mark_tip in Hstep.
    apply bind_Ok_inv in Hstep as (nd & s0 & Hget & Hstep).
    unfold get, lift in Hget. destruct (node s t); [|done]. injection Hget as -> <-.
    apply bind_Ok_inv in Hstep as ([[prev curr] scrub'] & s2 & Hpath & Hstep).
    apply bind_Ok_inv in Hstep as ([] & s3 & Hhit & Hret). injection Hret as <- <-.
    eapply count_hit_marked; [exact Hhit|].
    by apply (mark_path_marked _ _ _ _ _ _ _ Hpath).
Qed.

Lemma scrub_unmarks l :
  ∀ s s', for_each l delattr_black s = (Ok tt, s') →
          marked_within l s → unmarked s'.
Proof.
  induction l as [|x l IH]; intros s s' Hrun Hm.
  - injection Hrun as <-. intros n nd Hn.
    destruct (black nd) eqn:Hb; [|done].
    assert (n ∈ []) by (eapply Hm; [done|by rewrite Hb]). by apply elem_of_nil in H.
  - simpl in Hrun. apply bind_Ok_inv in Hrun as ([] & s1 & Hdel & Hrun).
    eapply IH; [exact Hrun|]. clear IH Hrun.
    unfold delattr_black in Hdel.
    apply bind_Ok_inv in Hdel as (nd & s0 & Hget & Hdel).
    unfold get, lift, node in Hget. destruct (nodes s !! x) as [nd'|] eqn:Hx; [|done].
    injection Hget as -> <-. destruct (black nd); [|done].
    rewrite (modify_Ok _ _ _ _ Hx) in Hdel. injection Hdel as <-.
    intros n nd' Hn Hb. simpl in Hn. destruct (decide (x = n)) as [<-|Hne].
    + rewrite lookup_insert_eq in Hn. injection Hn as <-. done.
    + rewrite lookup_insert_ne in Hn by done.
      assert (Hin : n ∈ x :: l) by by eapply Hm. set_solver.
Qed.

(** When [lowest_common_ancestor] returns, on a store in which no node
    carried a [black] attribute, no node carries one, and every node's name,
    length, parent and children are what they were. *)
Lemma lowest_common_ancestor_scrubs_on_return fuel self tipnames s r s' :
  unmarked s →
  lowest_common_ancestor fuel self tipnames s = (Ok r, s') →
  unmarked s' ∧ same_tree s s'.
Proof.
  intros Hun Hrun. split;
    [|exact (preserves_run _ _ _ _ _ (lowest_common_ancestor_tree fuel self tipnames)
               Hrun)].
  unfold lowest_common_ancestor in Hrun.
  destruct (length tipnames =? 1).
  - apply bind_Ok_inv in Hrun as (name & s1 & Hname & Hrun).
    unfold pure_res in Hname. injection Hname as Hname <-.
    apply bind_Ok_inv in Hrun as (n & s1 & Hfind & Hrun). injection Hrun as _ <-.
    eapply same_black_unmarked; [|done].
    exact (preserves_run _ _ _ _ _ (find_black fuel self name) Hfind).
  - apply bind_Ok_inv in Hrun as (tips & s1 & Hfind & Hrun).
    assert (Hun1 : unmarked s1).
    { eapply same_black_unmarked; [|done].
      eapply (preserves_run (same black)); [|exact Hfind].
      apply preserves_map_M; [apply _|]. intros x. apply find_black. }
    destruct (length tips =? 0); [by injection Hrun as _ <-|].
    apply bind_Ok_inv in Hrun as (scrub & s2 & Hmark & Hrun).
    apply bind_Ok_inv in Hrun as (curr & s3 & Hdesc & Hrun).
    apply bind_Ok_inv in Hrun as ([] & s4 & Hscrub & Hrun). injection Hrun as _ <-.
    pose proof (descend_pure fuel self s2) as Hpure. rewrite Hdesc in Hpure.
    simpl in Hpure. subst s3.
    eapply scrub_unmarks; [exact Hscrub|].
    eapply mark_tips_marked; [exact Hmark|].
    intros n nd Hn Hb. destruct Hb. by eapply Hun1.
Qed.

(** ** Paths in the tree and parent links in the store

    [edges_between] counts along the shape of the tree.  In the store the
    same path is two walks along [Parent] links, one from each tip, that
    meet at a node and share no node before it. *)

Lemma walk_up_app s a k k' p1 p2 m top :
  walk_up s a k = Some (p1, m) → walk_up s m k' = Some (p2, top) →
  walk_up s a (k + k') = Some (p1 ++ p2, top).
Proof.
  revert a p1. induction k as [|k IH]; intros a p1 H1 H2; simpl in H1.
  - by injection H1 as <- <-.
  - destruct (nodes s !! a) as [nd|] eqn:Hnd; [|done]. simpl in H1.
    destruct (Parent nd) as [p|] eqn:Hp; [|done]. simpl in H1.
    destruct (walk_up s p k) as [[path top']|] eqn:Hw; [|done].
    simpl in H1. injection H1 as <- <-.
    simpl. rewrite Hnd. simpl. rewrite Hp. simpl.
    by rewrite (IH p path Hw H2).
Qed.

Lemma walk_up_parent s p t : shape s (Some p) t → walk_up s (root_id t) 1 = Some ([root_id t], p).
Proof.
  destruct t as [i ks]. intros (nd & Hnd & Hp & _)%shape_inv.
  simpl. rewrite Hnd. simpl. by rewrite Hp.
Qed.

Lemma shape_kid s p i ks k : shape s p (Node i ks) → k ∈ ks → shape s (Some i) k.
Proof.
  intros (nd & _ & _ & _ & Hks)%shape_inv Hk. rewrite Forall_forall in Hks. by apply Hks.
Qed.

Lemma below_walk s t a d :
  ∀ p, shape s p t → below (λ _, 1%Z) t a d →
    ∃ k path, walk_up s a k = Some (path, root_id t) ∧ d = Z.of_nat k
              ∧ ∀ x, x ∈ path → x ∈ flat_map ids (kids_of t).
Proof.
  intros p Hs Hb. revert p Hs.
  induction Hb as [i ks|i ks k a d Hk Hb IH]; intros p Hs.
  - exists 0, []. split_and!; [done..|]. by intros x ?%elem_of_nil.
  - pose proof (shape_kid _ _ _ _ _ Hs Hk) as Hsk.
    destruct (IH _ Hsk) as (n & path & Hw & -> & Hpath).
    exists (n + 1), (path ++ [root_id k]). split_and!.
    + eapply walk_up_app; [done|]. by apply walk_up_parent.
    + lia.
    + intros x [Hx|Hx%list_elem_of_singleton]%elem_of_app; simpl.
      * eapply kid_ids_in_forest; [done|]. destruct k. simpl in *. right. by apply Hpath.
      * subst x. eapply kid_ids_in_forest; [done|apply root_in_ids].
Qed.

Lemma below_walk_kid s p i ks j k a d :
  shape s p (Node i ks) → ks !! j = Some k → below (λ _, 1%Z) k a d →
  ∃ n path, walk_up s a n = Some (path, i) ∧ (1 + d)%Z = Z.of_nat n
            ∧ ∀ x, x ∈ path → x ∈ ids k.
Proof.
  intros Hs Hk Hb. apply list_elem_of_lookup_2 in Hk.
  pose proof (shape_kid _ _ _ _ _ Hs Hk) as Hsk.
  destruct (below_walk s k a d _ Hsk Hb) as (n & path & Hw & -> & Hpath).
  exists (n + 1), (path ++ [root_id k]). split_and!.
  - eapply walk_up_app; [done|]. by apply walk_up_parent.
  - lia.
  - intros x [Hx|Hx%list_elem_of_singleton]%elem_of_app.
    + destruct k. simpl in *. right. by apply Hpath.
    + subst x. apply root_in_ids.
Qed.

Lemma joined_walks s t a b d :
  ∀ p, shape s p t → NoDup (ids t) → joined (λ _, 1%Z) t a b d →
    ∃ k1 k2 pa pb top,
      walk_up s a k1 = Some (pa, top) ∧ walk_up s b k2 = Some (pb, top)
      ∧ (∀ x, x ∈ pa → x ∉ pb) ∧ d = Z.of_nat (k1 + k2).
Proof.
  intros p Hs Hd Hj. revert p Hs Hd.
  induction Hj as [t a d H|i ks j1 j2 k1 k2 a b d1 d2 H1 H2 Hne Ha Hb
                  |i ks k a b d Hk Hj IH]; intros p Hs Hd.
  - exists 0, 0, [], [], a. split_and!; try done. by intros x ?%elem_of_nil.
  - destruct (below_walk_kid s p i ks j1 k1 a d1 Hs H1 Ha) as (n1 & pa & Hwa & Hn1 & Hpa).
    destruct (below_walk_kid s p i ks j2 k2 b d2 Hs H2 Hb) as (n2 & pb & Hwb & Hn2 & Hpb).
    exists n1, n2, pa, pb, i. split_and!; try done; [|lia].
    intros x Hxa Hxb. apply Hne.
    cbn [ids] in Hd. apply NoDup_cons in Hd as [_ Hd].
    eapply forest_position; [done..|by apply Hpa|by apply Hpb].
  - apply (IH (Some i)).
    + by eapply shape_kid.
    + cbn [ids] in Hd. apply NoDup_cons in Hd as [_ Hd]. by eapply NoDup_kid.
Qed.

(** [edges_between t a b n]: from [a] and from [b], walks of [k1] and [k2]
    parent links, with [k1 + k2 = n], come to one node, and no node lies on
    both before it. *)
Lemma edges_between_walks s self t a b n :
  holds s self t → edges_between t a b n →
  ∃ k1 k2 pa pb top,
    walk_up s a k1 = Some (pa, top) ∧ walk_up s b k2 = Some (pb, top)
    ∧ (∀ x, x ∈ pa → x ∉ pb) ∧ n = k1 + k2.
Proof.
  intros (_ & [p Hs] & Hd) Hj.
  destruct (joined_walks s t a b _ p Hs Hd Hj) as (k1 & k2 & pa & pb & top & ? & ? & ? & Hn).
  exists k1, k2, pa, pb, top. split_and!; try done. lia.
Qed.

(** ** The order of the traversals *)

(** *** levelorder, level by level *)

Lemma level_beyond_height d : ∀ t, height t ≤ d → level d t = [].
Proof.
  induction d as [|d IH]; intros [i ks] Hd; simpl in Hd; [lia|].
  simpl. apply Nat.succ_le_mono in Hd.
  induction ks as [|k ks IHks]; simpl in *; [done|].
  rewrite IH by lia. apply IHks. lia.
Qed.

Lemma flat_map_level_S d ts :
  flat_map (level (S d)) ts = flat_map (level d) (flat_map kids_of ts).
Proof.
  induction ts as [|t ts IH]; [done|].
  cbn [flat_map]. rewrite flat_map_app, IH. done.
Qed.

Lemma flat_map_level_0 ts : flat_map (level 0) ts = map root_id ts.
Proof. induction ts as [|t ts IH]; [done|]. simpl. by f_equal. Qed.

Lemma levels_S h ts :
  levels (S h) ts = map root_id ts ++ levels h (flat_map kids_of ts).
Proof.
  unfold levels. cbn [seq flat_map]. rewrite flat_map_level_0. f_equal.
  rewrite <- seq_shift, flat_map_concat_map, map_map, <- flat_map_concat_map.
  apply flat_map_ext. intros d. apply flat_map_level_S.
Qed.

Lemma levels_nil h : levels h [] = [].
Proof. unfold levels. induction (seq 0 h); simpl; done. Qed.

Lemma forest_height_kids ts :
  ts ≠ [] → S (forest_height (flat_map kids_of ts)) ≤ forest_height ts.
Proof.
  unfold forest_height. induction ts as [|[i ks] ts IH]; [done|]. intros _.
  cbn [flat_map kids_of]. rewrite map_app, foldr_app. cbn [map foldr height].
  assert (Happ : ∀ l x, foldr Nat.max x l = Nat.max (foldr Nat.max 0 l) x).
  { induction l as [|y l IHl]; intros x; simpl; [done|]. rewrite IHl. lia. }
  rewrite Happ. destruct ts as [|t ts]; [simpl; lia|].
  specialize (IH ltac:(done)). lia.
Qed.

Lemma forest_height_app ts us :
  forest_height (ts ++ us) = Nat.max (forest_height ts) (forest_height us).
Proof.
  unfold forest_height. induction ts as [|t ts IH]; simpl; [done|]. rewrite IH. lia.
Qed.

Lemma flat_map_kids_app (ts us : list tree) :
  flat_map kids_of (ts ++ us) = flat_map kids_of ts ++ flat_map kids_of us.
Proof. apply flat_map_app. Qed.

(** The queue holds what is left of the level being visited ([ts]) and then
    the children of the nodes of that level that have been visited ([ps]). *)
Lemma levelorder_loop_levels s self incl n :
  ∀ ts ps fuel h,
    forest_size (ts ++ flat_map kids_of ps) ≤ n →
    Forall (rooted s) (ts ++ flat_map kids_of ps) →
    forest_size (ts ++ flat_map kids_of ps) < fuel →
    forest_height (flat_map kids_of (ps ++ ts)) ≤ h →
    levelorder_loop fuel s self incl (map root_id (ts ++ flat_map kids_of ps))
    = Ok (keep self incl (map root_id ts ++ levels h (flat_map kids_of (ps ++ ts)))).
Proof.
  assert (Hstep : ∀ n,
    (∀ ts ps fuel h,
      forest_size (ts ++ flat_map kids_of ps) ≤ n →
      Forall (rooted s) (ts ++ flat_map kids_of ps) →
      forest_size (ts ++ flat_map kids_of ps) < fuel →
      forest_height (flat_map kids_of (ps ++ ts)) ≤ h →
      levelorder_loop fuel s self incl (map root_id (ts ++ flat_map kids_of ps))
      = Ok (keep self incl (map root_id ts ++ levels h (flat_map kids_of (ps ++ ts))))) →
    ∀ k ts ps fuel h,
      forest_size ((k :: ts) ++ flat_map kids_of ps) ≤ S n →
      Forall (rooted s) ((k :: ts) ++ flat_map kids_of ps) →
      forest_size ((k :: ts) ++ flat_map kids_of ps) < fuel →
      forest_height (flat_map kids_of (ps ++ k :: ts)) ≤ h →
      levelorder_loop fuel s self incl (map root_id ((k :: ts) ++ flat_map kids_of ps))
      = Ok (keep self incl (map root_id (k :: ts)
                            ++ levels h (flat_map kids_of (ps ++ k :: ts))))).
  { clear n. intros n IH [i ks] ts ps fuel h Hn Hall Hfuel Hh.
    destruct fuel as [|fuel]; [lia|].
    cbn [app map root_id levelorder_loop].
    cbn [app] in Hall. apply Forall_cons in Hall as [[p Hk] Hall].
    rewrite (shape_children _ _ _ _ Hk). cbn [rbind].
    assert (Hq : (if nonempty (map root_id ks)
                  then map root_id (ts ++ flat_map kids_of ps) ++ map root_id ks
                  else map root_id (ts ++ flat_map kids_of ps))
                 = map root_id (ts ++ flat_map kids_of (ps ++ [Node i ks]))).
    { rewrite flat_map_kids_app. cbn [flat_map kids_of]. rewrite app_nil_r.
      rewrite !map_app. destruct ks; simpl; by rewrite ?app_nil_r, ?app_assoc. }
    rewrite Hq.
    assert (Hsize : forest_size (ts ++ flat_map kids_of (ps ++ [Node i ks]))
                    + 1 = forest_size ((Node i ks :: ts) ++ flat_map kids_of ps)).
    { rewrite flat_map_kids_app. cbn [flat_map kids_of]. rewrite app_nil_r.
      change ((Node i ks :: ts) ++ flat_map kids_of ps)
        with ([Node i ks] ++ (ts ++ flat_map kids_of ps)).
      rewrite !forest_size_app.
      pose proof (forest_size_lt_size i ks). unfold forest_size at 4. simpl.
      unfold forest_size. lia. }
    rewrite (IH ts (ps ++ [Node i ks]) fuel h).
    - rewrite <- app_assoc. cbn [app]. unfold keep, yield_if. cbn [List.filter].
      by destruct (incl || negb (i =? self)).
    - lia.
    - rewrite flat_map_kids_app. cbn [flat_map kids_of]. rewrite app_nil_r.
      rewrite app_assoc. apply Forall_app. split; [done|].
      eapply rooted_kids. by exists p.
    - lia.
    - by rewrite <- app_assoc. }
  induction n as [|n IH]; intros ts ps fuel h Hn Hall Hfuel Hh.
  - destruct (ts ++ flat_map kids_of ps) as [|t us] eqn:Hq.
    + apply app_eq_nil in Hq as [-> Hps]. rewrite app_nil_r. rewrite Hps.
      rewrite levels_nil. destruct fuel; [lia|]. done.
    + pose proof (size_pos t). unfold forest_size in Hn. simpl in Hn. lia.
  - destruct ts as [|k ts].
    + cbn [app map]. rewrite app_nil_r in Hh |- *.
      destruct (flat_map kids_of ps) as [|u us] eqn:Hus.
      * rewrite levels_nil. destruct fuel; [lia|]. done.
      * cbn [app] in Hn, Hall, Hfuel.
        pose proof (forest_height_kids (u :: us) ltac:(done)) as Hlt.
        destruct h as [|h]; [lia|].
        rewrite levels_S.
        pose proof (Hstep n IH u us [] fuel h) as Hgo.
        cbn [flat_map app] in Hgo. rewrite app_nil_r in Hgo.
        apply Hgo; try done. cbn [flat_map app] in Hlt |- *. lia.
    + by apply (Hstep n IH).
Qed.

Lemma by_level_unfold i ks :
  by_level (Node i ks) = i :: levels (forest_height ks) (flat_map kids_of [Node i ks]).
Proof.
  unfold by_level. cbn [height]. fold (forest_height ks). by rewrite levels_S.
Qed.

Lemma levelorder_exact s self t incl fuel :
  holds s self t → size t < fuel →
  levelorder fuel s self incl = Ok (keep self incl (by_level t)).
Proof.
  intros (p & ks & -> & Hs & Hself & Hd)%holds_inv Hfuel.
  unfold levelorder.
  pose proof (levelorder_loop_levels s self incl (forest_size [Node self ks])
                [Node self ks] [] fuel (forest_height ks)) as Hrun.
  cbn [flat_map app] in Hrun. rewrite by_level_unfold.
  cbn [flat_map]. cbn [map root_id app] in Hrun. apply Hrun.
  - done.
  - repeat constructor. by exists p.
  - unfold forest_size. simpl in *. lia.
  - cbn [kids_of]. by rewrite app_nil_r.
Qed.

Lemma by_level_perm s self t : holds s self t → by_level t ≡ₚ ids t.
Proof.
  intros Ht.
  destruct (levelorder_holds s self t true (S (size t)) Ht) as (l & Hl & Hperm); [lia|].
  rewrite (levelorder_exact s self t true) in Hl by (done || lia).
  rewrite keep_true in Hl. by injection Hl as <-.
Qed.

(** X1.  On every tree that the store holds, [levelorder] yields the nodes
    level by level: the starting node, then its children from left to
    right, then their children, and so on.  With [include_self] false the
    starting node, which comes first, is left out. *)
Theorem levelorder_level_by_level s self t include_self fuel :
  holds s self t → size t < fuel →
  levelorder fuel s self include_self
  = Ok (if include_self then by_level t else tail (by_level t)).
Proof.
  intros Ht Hfuel. rewrite (levelorder_exact s self t) by done.
  destruct include_self; [by rewrite keep_true|].
  pose proof (by_level_perm s self t Ht) as Hperm.
  destruct (holds_inv _ _ _ Ht) as (p & ks & -> & Hs & Hself & Hd).
  rewrite by_level_unfold in Hperm |- *. cbn [tail].
  f_equal. apply keep_false_root. cbn [ids] in Hperm.
  apply Permutation_cons_inv in Hperm. by rewrite Hperm.
Qed.

Lemma levelorder_level_by_level_witness :
  levelorder 10 left_store 0 true = Ok [0; 1; 4; 2; 3]
  ∧ levelorder 10 left_store 0 false = Ok [1; 4; 2; 3].
Proof.
  split.
  - apply (levelorder_level_by_level left_store 0 left_tree true 10).
    + apply holdsb_holds. vm_compute. reflexivity.
    + simpl. lia.
  - apply (levelorder_level_by_level left_store 0 left_tree false 10).
    + apply holdsb_holds. vm_compute. reflexivity.
    + simpl. lia.
Defined.

(** *** tips *)

Lemma tips_exact s self t include_self fuel :
  holds s self t → size t < fuel →
  tips fuel s self include_self
  = Ok (match kids_of t with
        | [] => if include_self then [self] else []
        | _ => tip_ids t
        end).
Proof.
  intros (p & ks & -> & Hs & Hself & Hd)%holds_inv Hfuel.
  unfold tips. rewrite (shape_children _ _ _ _ Hs). cbn [rbind kids_of].
  rewrite nonempty_map. destruct ks as [|k ks]; [by destruct include_self|].
  cbn [nonempty].
  pose proof (tips_loop_forest s (forest_size [Node self (k :: ks)])
                [Node self (k :: ks)] fuel) as Hrun.
  cbn [map rev app root_id flat_map] in Hrun. rewrite app_nil_r in Hrun.
  apply Hrun; [done|by repeat constructor; exists p|].
  unfold forest_size. simpl in *. lia.
Qed.

(** *** non_tips *)

Lemma keep_internal_app s l1 l2 :
  keep_internal s (l1 ++ l2)
  = let? a := keep_internal s l1 in let? b := keep_internal s l2 in Ok (a ++ b).
Proof.
  induction l1 as [|n l1 IH]; simpl.
  - by destruct (keep_internal s l2).
  - destruct (children_of s n) as [cs|e]; [|done]. simpl.
    rewrite IH. unfold yield_if, yield.
    destruct (keep_internal s l1) as [a|]; simpl; [|by destruct (nonempty cs)].
    destruct (keep_internal s l2) as [b|]; simpl; by destruct (nonempty cs).
Qed.

Lemma keep_internal_tree s t :
  ∀ p, shape s p t → keep_internal s (ids t) = Ok (internal_ids t).
Proof.
  induction t as [i ks IH] using tree_ind'. intros p Hs.
  cbn [ids keep_internal]. rewrite (shape_children _ _ _ _ Hs). cbn [rbind].
  rewrite nonempty_map.
  apply shape_inv in Hs as (nd & _ & _ & _ & Hks).
  assert (Hforest : keep_internal s (flat_map ids ks) = Ok (flat_map internal_ids ks)).
  { clear nd. induction ks as [|k ks IHks]; [done|].
    apply Forall_cons in IH as [IHk IH]. apply Forall_cons in Hks as [Hk Hks].
    cbn [flat_map]. rewrite keep_internal_app, (IHk _ Hk), (IHks IH Hks). done. }
  rewrite Hforest. by destruct ks.
Qed.

Lemma keep_internal_forest s ks :
  Forall (rooted s) ks → keep_internal s (flat_map ids ks) = Ok (flat_map internal_ids ks).
Proof.
  induction 1 as [|k ks [p Hk] _ IH]; [done|].
  cbn [flat_map]. by rewrite keep_internal_app, (keep_internal_tree _ _ _ Hk), IH.
Qed.

Lemma non_tips_exact s self t include_self fuel :
  holds s self t → size t < fuel →
  non_tips fuel s self include_self
  = Ok (if include_self then internal_ids t else flat_map internal_ids (kids_of t)).
Proof.
  intros Ht Hfuel. unfold non_tips, traverse.
  rewrite (preorder_holds s self t) by done. cbn [rbind].
  destruct (holds_inv _ _ _ Ht) as (p & ks & -> & Hs & _).
  destruct include_self.
  - by apply (keep_internal_tree s _ p).
  - apply keep_internal_forest. eapply rooted_kids. by exists p.
Qed.

(** *** pre_and_postorder *)

Lemma pre_and_postorder_loop_S fuel s self include_self child_index_stack curr
    curr_children :
  pre_and_postorder_loop (S fuel) s self include_self child_index_stack curr curr_children =
    let? '(below, curr_index) := or_raise IndexError (py_pop_last child_index_stack) in
    yield_if ((curr_index =? 0) && (include_self || negb (curr =? self))) curr
      (if curr_index <? length curr_children then
         let? curr_child := or_raise IndexError (curr_children !! curr_index) in
         let? cc := children_of s curr_child in
         if nonempty cc then
           pre_and_postorder_loop fuel s self include_self
             (child_index_stack ++ [0]) curr_child cc
         else
           yield curr_child
             (pre_and_postorder_loop fuel s self include_self
                (below ++ [S curr_index]) curr curr_children)
       else
         yield_if (include_self || negb (curr =? self)) curr
           (if curr =? self then Ok []
            else
              let? nd := node s curr in
              let? p := or_raise AttributeError (Parent nd) in
              let? pc := children_of s p in
              let? stack := or_raise IndexError (py_update_last S below) in
              pre_and_postorder_loop fuel s self include_self stack p pc)).
Proof. done. Qed.

Lemma yield_if_prepend {A} (b : bool) (x : A) r :
  yield_if b x r = prepend (if b then [x] else []) r.
Proof. destruct b; [done|]. by rewrite prepend_nil. Qed.

(** Started at the child of index [length pre] of a node that has children,
    the loop yields the node itself if that child is the first, then what
    is due for the children that are left, and comes to the turn in which
    the node is left. *)
Lemma pre_and_postorder_loop_kids s self incl t :
  ∀ par, shape s par t → self ∉ flat_map ids (kids_of t) → kids_of t ≠ [] →
  ∀ suf pre st fuel, kids_of t = pre ++ suf →
    pre_and_postorder_loop (forest_walk suf + fuel) s self incl (st ++ [length pre])
                   (root_id t) (map root_id (kids_of t))
    = prepend ((if bool_decide (pre = []) then keep self incl [root_id t] else [])
               ++ flat_map prepost suf)
        (pre_and_postorder_loop fuel s self incl (st ++ [length (kids_of t)])
                        (root_id t) (map root_id (kids_of t))).
Proof.
  induction t as [i ks IHt] using tree_ind'. cbn [root_id kids_of].
  intros par Hshape Hself Hne suf.
  induction suf as [|c suf IHsuf]; intros pre st fuel Hks.
  - rewrite app_nil_r in Hks. subst pre.
    rewrite bool_decide_eq_false_2 by done.
    change (forest_walk [] + fuel) with fuel. cbn [flat_map app].
    by rewrite prepend_nil.
  - pose proof Hshape as (nd & Hnd & Hpar & Hch & Hkids)%shape_inv.
    assert (Hc : shape s (Some i) c).
    { rewrite Forall_forall in Hkids. apply Hkids. rewrite Hks. set_solver. }
    assert (HPc : ∀ par, shape s par c → self ∉ flat_map ids (kids_of c) →
      kids_of c ≠ [] →
      ∀ suf pre st fuel, kids_of c = pre ++ suf →
      pre_and_postorder_loop (forest_walk suf + fuel) s self incl (st ++ [length pre])
        (root_id c) (map root_id (kids_of c))
      = prepend ((if bool_decide (pre = []) then keep self incl [root_id c] else [])
                 ++ flat_map prepost suf)
          (pre_and_postorder_loop fuel s self incl (st ++ [length (kids_of c)])
             (root_id c) (map root_id (kids_of c)))).
    { rewrite Forall_forall in IHt. apply IHt. rewrite Hks. set_solver. }
    assert (Hcself : self ∉ ids c).
    { intros Hin. apply Hself. rewrite Hks, flat_map_app. simpl. set_solver. }
    assert (Hlt : (length pre <? length (map root_id ks)) = true).
    { apply Nat.ltb_lt. rewrite length_map, Hks, length_app. simpl. lia. }
    assert (Hlook : map root_id ks !! length pre = Some (root_id c)).
    { rewrite Hks. apply lookup_map_middle. }
    assert (Hrest : pre_and_postorder_loop (forest_walk suf + fuel) s self incl
                      (st ++ [S (length pre)]) i (map root_id ks)
                    = prepend (flat_map prepost suf)
                        (pre_and_postorder_loop fuel s self incl (st ++ [length ks]) i
                           (map root_id ks))).
    { specialize (IHsuf (pre ++ [c]) st fuel).
      rewrite length_app, Nat.add_1_r in IHsuf.
      rewrite bool_decide_eq_false_2 in IHsuf by (by destruct pre).
      apply IHsuf. by rewrite <- app_assoc. }
    change (forest_walk (c :: suf)) with (walk c + forest_walk suf).
    change (flat_map prepost (c :: suf)) with (prepost c ++ flat_map prepost suf).
    rewrite !prepend_app, <- Hrest.
    clear IHsuf Hrest IHt Hks Hkids Hself.
    assert (Hfirst : (length pre =? 0) = bool_decide (pre = [])).
    { destruct pre; [done|]. symmetry. by apply bool_decide_eq_false_2. }
    assert (Hkeep : (if bool_decide (pre = []) then keep self incl [i] else [])
                    = if (length pre =? 0) && (incl || negb (i =? self)) then [i] else []).
    { rewrite Hfirst. destruct (bool_decide (pre = [])); [|done].
      unfold keep. simpl. by destruct (incl || negb (i =? self)). }
    rewrite Hkeep. clear Hkeep Hfirst.
    destruct c as [ci cks].
    assert (Hw : walk (Node ci cks)
                 = if nonempty cks then 2 + forest_walk cks else 1)
      by by destruct cks.
    rewrite Hw. clear Hw.
    assert (Hstep : ∀ n, pre_and_postorder_loop (S n) s self incl (st ++ [length pre]) i
                           (map root_id ks)
        = prepend (if (length pre =? 0) && (incl || negb (i =? self)) then [i] else [])
           (if nonempty cks
            then pre_and_postorder_loop n s self incl ((st ++ [length pre]) ++ [0]) ci
                   (map root_id cks)
            else yield ci (pre_and_postorder_loop n s self incl (st ++ [S (length pre)]) i
                             (map root_id ks)))).
    { intros n. rewrite pre_and_postorder_loop_S, py_pop_last_snoc.
      cbn [or_raise rbind]. rewrite yield_if_prepend. f_equal.
      rewrite Hlt, Hlook. cbn [or_raise rbind].
      cbn [root_id]. rewrite (shape_children _ _ _ _ Hc). cbn [rbind].
      by rewrite nonempty_map. }
    destruct (nonempty cks) eqn:Hnec.
    + (* an internal node: enter, yield it, walk its children, yield it, leave *)
      replace (2 + forest_walk cks + forest_walk suf + fuel)
        with (S (forest_walk cks + S (forest_walk suf + fuel))) by lia.
      rewrite Hstep. f_equal.
      assert (Hbelow : self ∉ flat_map ids cks) by set_solver.
      assert (Hcne : kids_of (Node ci cks) ≠ []) by (by destruct cks).
      pose proof (HPc (Some i) Hc Hbelow Hcne cks [] (st ++ [length pre])
                    (S (forest_walk suf + fuel)) eq_refl) as Hin.
      cbn [length root_id kids_of] in Hin. rewrite Hin.
      rewrite bool_decide_eq_true_2 by done.
      assert (Hci : (ci =? self) = false) by (apply Nat.eqb_neq; set_solver).
      assert (Hk : keep self incl [ci] = [ci]).
      { unfold keep. simpl. by rewrite Hci, orb_true_r. }
      rewrite Hk.
      assert (Hpp : prepost (Node ci cks) = ([ci] ++ flat_map prepost cks) ++ [ci]).
      { destruct cks; [done|]. cbn [prepost]. by rewrite <- app_assoc. }
      rewrite Hpp, (prepend_app ([ci] ++ flat_map prepost cks) [ci]). f_equal.
      rewrite pre_and_postorder_loop_S, py_pop_last_snoc. cbn [or_raise rbind].
      assert (Hlen0 : (length cks =? 0) = false) by (by destruct cks).
      rewrite Hlen0. cbn [andb yield_if].
      rewrite length_map, Nat.ltb_irrefl.
      rewrite Hci, orb_true_r. cbn [yield_if negb].
      apply shape_inv in Hc as (ndc & Hndc & Hparc & _).
      unfold node. rewrite Hndc. cbn [or_raise rbind]. rewrite Hparc.
      cbn [or_raise rbind].
      rewrite (shape_children _ _ _ _ Hshape). cbn [rbind].
      rewrite py_update_last_snoc. done.
    + (* a tip: yielded on the spot *)
      destruct cks; [|done].
      replace (1 + forest_walk suf + fuel) with (S (forest_walk suf + fuel)) by lia.
      by rewrite Hstep.
Qed.

Lemma pre_and_postorder_exact s self t include_self fuel :
  holds s self t → 2 * size t ≤ fuel →
  pre_and_postorder fuel s self include_self
  = Ok (if include_self then prepost t else flat_map prepost (kids_of t)).
Proof.
  intros (p & ks & -> & Hs & Hself & Hd)%holds_inv Hfuel.
  unfold pre_and_postorder. rewrite (shape_children _ _ _ _ Hs). cbn [rbind kids_of].
  rewrite nonempty_map. destruct (nonempty ks) eqn:Hne.
  - pose proof (forest_walk_le ks). pose proof (forest_size_lt_size self ks).
    replace fuel with (forest_walk ks + S (fuel - forest_walk ks - 1)) by lia.
    pose proof (pre_and_postorder_loop_kids s self include_self (Node self ks) p Hs Hself
                  ltac:(by destruct ks) ks [] [] (S (fuel - forest_walk ks - 1)) eq_refl)
      as Hrun.
    cbn [length root_id kids_of app] in Hrun. rewrite Hrun.
    rewrite bool_decide_eq_true_2 by done.
    rewrite pre_and_postorder_loop_S. cbn [py_pop_last or_raise rbind].
    assert (Hlen0 : (length ks =? 0) = false) by (by destruct ks).
    rewrite Hlen0. cbn [andb yield_if].
    rewrite length_map, Nat.ltb_irrefl, Nat.eqb_refl.
    unfold keep. cbn [List.filter]. rewrite Nat.eqb_refl.
    destruct include_self; cbn [orb negb yield_if yield prepend rbind app].
    + by destruct ks.
    + by rewrite app_nil_r.
  - destruct ks; [|done]. by destruct include_self.
Qed.

(** X2.  On every tree that the store holds, [preorder] (which is what
    [traverse] does by default) yields every node before its children, and
    the subtrees of the children from left to right.  With [include_self]
    false the starting node is left out. *)
Theorem preorder_node_before_children s self t include_self fuel :
  holds s self t → size t < fuel →
  preorder fuel s self include_self
  = Ok (if include_self then ids t else flat_map ids (kids_of t))
  ∧ traverse fuel s self true false include_self = preorder fuel s self include_self.
Proof. intros Ht Hfuel. split; [by apply preorder_holds|done]. Qed.

Lemma preorder_node_before_children_witness :
  preorder 10 left_store 0 true = Ok [0; 1; 2; 3; 4]
  ∧ traverse 10 left_store 0 true false true = preorder 10 left_store 0 true.
Proof.
  apply (preorder_node_before_children left_store 0 left_tree true 10).
  - apply holdsb_holds. vm_compute. reflexivity.
  - simpl. lia.
Defined.

(** X3.  On every tree that the store holds, [pre_and_postorder] yields a
    node that has children twice, before and after the nodes below it, and
    a tip once.  With [include_self] false the starting node is left out
    both times. *)
Theorem pre_and_postorder_before_and_after s self t include_self fuel :
  holds s self t → 2 * size t ≤ fuel →
  pre_and_postorder fuel s self include_self
  = Ok (if include_self then prepost t else flat_map prepost (kids_of t)).
Proof. apply pre_and_postorder_exact. Qed.

Lemma pre_and_postorder_before_and_after_witness :
  pre_and_postorder 10 left_store 0 true = Ok [0; 1; 2; 3; 1; 4; 0]
  ∧ pre_and_postorder 10 left_store 0 false = Ok [1; 2; 3; 1; 4].
Proof.
  split.
  - apply (pre_and_postorder_before_and_after left_store 0 left_tree true 10).
    + apply holdsb_holds. vm_compute. reflexivity.
    + simpl. lia.
  - apply (pre_and_postorder_before_and_after left_store 0 left_tree false 10).
    + apply holdsb_holds. vm_compute. reflexivity.
    + simpl. lia.
Defined.

(** X4.  On every tree that the store holds, [tips] yields the tips below
    the node from left to right, whatever [include_self] is.  Called on a
    node without children it yields that node if [include_self] is true and
    nothing otherwise. *)
Theorem tips_left_to_right s self t include_self fuel :
  holds s self t → size t < fuel →
  tips fuel s self include_self
  = Ok (match kids_of t with
        | [] => if include_self then [self] else []
        | _ => tip_ids t
        end).
Proof. apply tips_exact. Qed.

Lemma tips_left_to_right_witness :
  tips 10 left_store 0 true = Ok [2; 3; 4]
  ∧ tips 10 left_store 4 true = Ok [4]
  ∧ tips 10 left_store 4 false = Ok [].
Proof.
  split_and!.
  - apply (tips_left_to_right left_store 0 left_tree true 10).
    + apply holdsb_holds. vm_compute. reflexivity.
    + simpl. lia.
  - apply (tips_left_to_right left_store 4 (Node 4 []) true 10).
    + apply holdsb_holds. vm_compute. reflexivity.
    + simpl. lia.
  - apply (tips_left_to_right left_store 4 (Node 4 []) false 10).
    + apply holdsb_holds. vm_compute. reflexivity.
    + simpl. lia.
Defined.

(** X5.  On every tree that the store holds, [non_tips] yields the nodes
    that have children, each before those below it; the starting node is
    among them only if [include_self] is true and it has children. *)
Theorem non_tips_internal_nodes s self t include_self fuel :
  holds s self t → size t < fuel →
  non_tips fuel s self include_self
  = Ok (if include_self then internal_ids t else flat_map internal_ids (kids_of t)).
Proof. apply non_tips_exact. Qed.

Lemma non_tips_internal_nodes_witness :
  non_tips 10 left_store 0 true = Ok [0; 1]
  ∧ non_tips 10 left_store 0 false = Ok [1]
  ∧ non_tips 10 left_store 4 true = Ok [].
Proof.
  split_and!.
  - apply (non_tips_internal_nodes left_store 0 left_tree true 10).
    + apply holdsb_holds. vm_compute. reflexivity.
    + simpl. lia.
  - apply (non_tips_internal_nodes left_store 0 left_tree false 10).
    + apply holdsb_holds. vm_compute. reflexivity.
    + simpl. lia.
  - apply (non_tips_internal_nodes left_store 4 (Node 4 []) true 10).
    + apply holdsb_holds. vm_compute. reflexivity.
    + simpl. lia.
Defined.

(** ** __repr__ *)

Lemma map_res_app {A B} (f : A → res B) l1 l2 :
  map_res f (l1 ++ l2)
  = let? a := map_res f l1 in let? b := map_res f l2 in Ok (a ++ b).
Proof.
  induction l1 as [|x l1 IH]; simpl.
  - by destruct (map_res f l2).
  - destruct (f x); [|done]. simpl. rewrite IH.
    destruct (map_res f l1); [|done]. simpl. by destruct (map_res f l2).
Qed.

Lemma length_ids t : length (ids t) = size t.
Proof.
  induction t as [i ks IH] using tree_ind'. simpl. f_equal.
  induction IH as [|k ks Hk _ IHks]; simpl; [done|].
  rewrite length_app. congruence.
Qed.

Lemma tip_flags s t :
  ∀ p, shape s p t →
    ∃ fl, map_res (λ n, let? nd := node s n in Ok (is_tip nd)) (ids t) = Ok fl
          ∧ list_sum (map (λ b : bool, if b then 1 else 0) fl) = ntips t.
Proof.
  induction t as [i ks IH] using tree_ind'. intros p Hs.
  apply shape_inv in Hs as (nd & Hnd & _ & Hc & Hks).
  assert (Hforest : ∃ fl,
    map_res (λ n, let? nd := node s n in Ok (is_tip nd)) (flat_map ids ks) = Ok fl
    ∧ list_sum (map (λ b : bool, if b then 1 else 0) fl) = length (flat_map tip_ids ks)).
  { clear nd Hnd Hc. induction ks as [|k ks IHks]; [by exists []|].
    apply Forall_cons in IH as [IHk IH]. apply Forall_cons in Hks as [Hk Hks].
    destruct (IHk _ Hk) as (f1 & H1 & Hs1). destruct (IHks IH Hks) as (f2 & H2 & Hs2).
    exists (f1 ++ f2). cbn [flat_map]. rewrite map_res_app, H1, H2. split; [done|].
    rewrite map_app, list_sum_app, length_app, Hs1, Hs2. done. }
  destruct Hforest as (fl & Hfl & Hsum).
  exists (is_tip nd :: fl). cbn [ids map_res]. unfold node at 1. rewrite Hnd.
  cbn [or_raise rbind]. rewrite Hfl. split; [done|].
  unfold ntips.
  change (list_sum (map (λ b : bool, if b then 1 else 0) (is_tip nd :: fl)))
    with ((if is_tip nd then 1 else 0)
          + list_sum (map (λ b : bool, if b then 1 else 0) fl)).
  rewrite Hsum. unfold is_tip. rewrite Hc, nonempty_map.
  by destruct ks.
Qed.

(** X6.  On every tree that the store holds, [__repr__] returns its summary
    with the two counts under each other's label: the number it prints as
    the number of internal nodes is the number of tips, and the number it
    prints as the number of tips is the number of nodes with children. *)
Theorem repr_swaps_counts s self t fuel :
  holds s self t → size t < fuel →
  __repr__ fuel s self
  = Ok ("<TreeNode, Number of internal nodes: " +:+ pretty (ntips t)
        +:+ ", Number of tips: " +:+ pretty (size t - ntips t) +:+ ">").
Proof.
  intros Ht Hfuel. unfold __repr__, traverse.
  rewrite (preorder_holds s self t true) by done. cbn [rbind].
  destruct Ht as (_ & [p Hs] & _).
  destruct (tip_flags s t p Hs) as (fl & Hfl & Hsum). rewrite Hfl. cbn [rbind].
  by rewrite Hsum, length_ids.
Qed.

Lemma repr_swaps_counts_witness :
  __repr__ 10 left_store 0
  = Ok "<TreeNode, Number of internal nodes: 3, Number of tips: 2>".
Proof.
  apply (repr_swaps_counts left_store 0 left_tree 10).
  - apply holdsb_holds. vm_compute. reflexivity.
  - simpl. lia.
Defined.

(** ** ancestors and root *)

Lemma ancestors_loop_walk s :
  ∀ k n path top result fuel,
    walk_up s n k = Some (path, top) →
    ancestors_loop (k + fuel) s result n = ancestors_loop fuel s (result ++ path) top.
Proof.
  induction k as [|k IH]; intros n path top result fuel Hw; simpl in Hw.
  - injection Hw as <- <-. by rewrite app_nil_r.
  - destruct (nodes s !! n) as [nd|] eqn:Hnd; [|done]. simpl in Hw.
    destruct (Parent nd) as [p|] eqn:Hp; [|done]. simpl in Hw.
    destruct (walk_up s p k) as [[path' top']|] eqn:Hw'; [|done].
    simpl in Hw. injection Hw as <- <-.
    cbn [Nat.add ancestors_loop]. unfold node. rewrite Hnd. cbn [or_raise rbind].
    rewrite Hp. rewrite (IH p path' top' _ fuel Hw'). by rewrite <- app_assoc.
Qed.

Lemma root_loop_walk s :
  ∀ k n path top fuel,
    walk_up s n k = Some (path, top) →
    root_loop (k + fuel) s n = root_loop fuel s top.
Proof.
  induction k as [|k IH]; intros n path top fuel Hw; simpl in Hw.
  - by injection Hw as <- <-.
  - destruct (nodes s !! n) as [nd|] eqn:Hnd; [|done]. simpl in Hw.
    destruct (Parent nd) as [p|] eqn:Hp; [|done]. simpl in Hw.
    destruct (walk_up s p k) as [[path' top']|] eqn:Hw'; [|done].
    simpl in Hw. injection Hw as <- <-.
    cbn [Nat.add root_loop]. unfold node. rewrite Hnd. cbn [or_raise rbind].
    rewrite Hp. by rewrite (IH p path' top' fuel Hw').
Qed.

Lemma ancestors_walk s self k path top fuel :
  walk_up s self k = Some (path, top) → is_root s top → k < fuel →
  ancestors fuel s self = Ok (tail (path ++ [top])).
Proof.
  intros Hw (td & Htd & Htop) Hfuel. unfold ancestors.
  destruct k as [|k]; simpl in Hw.
  - injection Hw as <- <-. unfold node. rewrite Htd. cbn [or_raise rbind].
    by rewrite Htop.
  - destruct (nodes s !! self) as [nd|] eqn:Hnd; [|done]. simpl in Hw.
    destruct (Parent nd) as [p|] eqn:Hp; [|done]. simpl in Hw.
    destruct (walk_up s p k) as [[path' top']|] eqn:Hw'; [|done].
    simpl in Hw. injection Hw as <- <-.
    unfold node. rewrite Hnd. cbn [or_raise rbind]. rewrite Hp.
    replace fuel with (k + S (fuel - k - 1)) by lia.
    rewrite (ancestors_loop_walk s k p path' top' [] _ Hw').
    cbn [ancestors_loop app tail]. unfold node. rewrite Htd. cbn [or_raise rbind].
    by rewrite Htop.
Qed.

Lemma root_walk s self k path top fuel :
  walk_up s self k = Some (path, top) → is_root s top → k < fuel →
  root fuel s self = Ok top.
Proof.
  intros Hw (td & Htd & Htop) Hfuel. unfold root.
  destruct k as [|k].
  - simpl in Hw. injection Hw as <- <-. unfold node. rewrite Htd. cbn [or_raise rbind].
    by rewrite Htop.
  - pose proof Hw as Hw0. simpl in Hw.
    destruct (nodes s !! self) as [nd|] eqn:Hnd; [|done]. simpl in Hw.
    destruct (Parent nd) as [p|] eqn:Hp; [|done].
    unfold node. rewrite Hnd. cbn [or_raise rbind]. rewrite Hp.
    replace fuel with (S k + S (fuel - k - 2)) by lia.
    rewrite (root_loop_walk s (S k) self path top _ Hw0).
    cbn [root_loop]. unfold node. rewrite Htd. cbn [or_raise rbind].
    by rewrite Htop.
Qed.

(** X7.  If [k] parent links lead from a node to a node [top] that has no
    parent, then [root] returns [top], and [ancestors] returns the nodes
    passed on the way after the node itself, nearest first, with [top]
    last; for a node without parent that is the empty list. *)
Theorem ancestors_and_root_follow_parents s self k path top fuel :
  walk_up s self k = Some (path, top) → is_root s top → k < fuel →
  ancestors fuel s self = Ok (tail (path ++ [top]))
  ∧ root fuel s self = Ok top.
Proof.
  intros Hw Htop Hfuel. split; [by eapply ancestors_walk|by eapply root_walk].
Qed.

Lemma ancestors_and_root_follow_parents_witness :
  (ancestors 5 left_store 3 = Ok [1; 0] ∧ root 5 left_store 3 = Ok 0)
  ∧ (ancestors 5 left_store 0 = Ok [] ∧ root 5 left_store 0 = Ok 0).
Proof.
  split.
  - apply (ancestors_and_root_follow_parents left_store 3 2 [3; 1] 0 5).
    + reflexivity.
    + eexists. split; reflexivity.
    + lia.
  - apply (ancestors_and_root_follow_parents left_store 0 0 [] 0 5).
    + reflexivity.
    + eexists. split; reflexivity.
    + lia.
Defined.

(** ** Subtrees *)

Lemma subtrees_self t : t ∈ subtrees t.
Proof. destruct t. simpl. by left. Qed.

Lemma subtrees_kid i ks k t' : k ∈ ks → t' ∈ subtrees k → t' ∈ subtrees (Node i ks).
Proof.
  intros Hk Ht'. simpl. right. apply list_elem_of_In, in_flat_map.
  exists k. by split; apply list_elem_of_In.
Qed.

Lemma subtrees_inv i ks t' :
  t' ∈ subtrees (Node i ks) → t' = Node i ks ∨ ∃ k, k ∈ ks ∧ t' ∈ subtrees k.
Proof.
  simpl. intros [->|Hin]%elem_of_cons; [by left|]. right.
  apply list_elem_of_In, in_flat_map in Hin as (k & Hk & Hin).
  exists k. by split; apply list_elem_of_In.
Qed.

Lemma forest_subtrees_inv ks t' :
  t' ∈ flat_map subtrees ks ↔ ∃ k, k ∈ ks ∧ t' ∈ subtrees k.
Proof.
  rewrite list_elem_of_In, in_flat_map. split; intros (k & Hk & Hin); exists k.
  - by split; apply list_elem_of_In.
  - by split; apply list_elem_of_In.
Qed.

Lemma subtree_shape s t : ∀ p t', shape s p t → t' ∈ subtrees t → rooted s t'.
Proof.
  induction t as [i ks IH] using tree_ind'. intros p t' Hs Ht'.
  apply subtrees_inv in Ht' as [->|(k & Hk & Ht')]; [by exists p|].
  rewrite Forall_forall in IH. eapply (IH k Hk (Some i)); [|done].
  by eapply shape_kid.
Qed.

Lemma subtree_NoDup t : ∀ t', NoDup (ids t) → t' ∈ subtrees t → NoDup (ids t').
Proof.
  induction t as [i ks IH] using tree_ind'. intros t' Hd Ht'.
  apply subtrees_inv in Ht' as [->|(k & Hk & Ht')]; [done|].
  rewrite Forall_forall in IH. apply (IH k Hk); [|done].
  cbn [ids] in Hd. apply NoDup_cons in Hd as [_ Hd]. by eapply NoDup_kid.
Qed.

Lemma roots_NoDup ks : NoDup (flat_map ids ks) → NoDup (map root_id ks).
Proof.
  induction ks as [|k ks IH]; [constructor|].
  cbn [flat_map map]. intros (Hk & Hdis & Hks)%NoDup_app. constructor; [|by apply IH].
  intros (k' & Heq & Hk')%list_elem_of_fmap. apply (Hdis (root_id k)).
  - apply root_in_ids.
  - rewrite Heq. eapply kid_ids_in_forest; [done|apply root_in_ids].
Qed.

(** ** siblings *)

Lemma py_remove_middle pre x suf :
  x ∉ pre → py_remove x (pre ++ x :: suf) = Ok (pre ++ suf).
Proof.
  induction pre as [|y pre IH]; intros Hx; simpl.
  - by rewrite decide_True.
  - apply not_elem_of_cons in Hx as [Hne Hx].
    rewrite decide_False by done. by rewrite IH.
Qed.

Lemma siblings_of_kid s p i ks j k :
  shape s p (Node i ks) → NoDup (flat_map ids ks) → ks !! j = Some k →
  siblings s (root_id k) = Ok (map root_id (delete j ks))
  ∧ root_id k ∉ map root_id (delete j ks).
Proof.
  intros Hs Hd Hj.
  pose proof (shape_kid _ _ _ _ _ Hs (list_elem_of_lookup_2 _ _ _ Hj)) as Hk.
  apply shape_inv in Hs as (nd & Hnd & _ & Hc & _).
  pose proof (roots_NoDup ks Hd) as Hroots.
  rewrite <- (take_drop_middle ks j k Hj) in Hroots, Hc.
  rewrite map_app in Hroots, Hc. cbn [map] in Hroots, Hc.
  apply NoDup_app in Hroots as (_ & Hpre & Hsuf).
  apply NoDup_cons in Hsuf as [Hsuf _].
  rewrite delete_take_drop, map_app.
  split.
  - unfold siblings. destruct k as [ki kks].
    apply shape_inv in Hk as (kd & Hkd & Hkp & _).
    cbn [root_id] in *. unfold node. rewrite Hkd. cbn [or_raise rbind].
    rewrite Hkp, Hnd. cbn [or_raise rbind]. rewrite Hc.
    apply py_remove_middle. intros Hin. by apply (Hpre ki Hin); left.
  - intros [Hin|Hin]%elem_of_app; [|done].
    by apply (Hpre _ Hin); left.
Qed.

(** X8.  In a tree that the store holds, [siblings] of a child of a node
    returns the other children of that node, in their order, and the child
    itself is not among them.  For a node without parent it returns the
    empty list. *)
Theorem siblings_are_the_other_children s self t i ks j k :
  holds s self t → Node i ks ∈ subtrees t → ks !! j = Some k →
  siblings s (root_id k) = Ok (map root_id (delete j ks))
  ∧ root_id k ∉ map root_id (delete j ks)
  ∧ (is_root s self → siblings s self = Ok []).
Proof.
  intros (_ & [p Hs] & Hd) Hsub Hj.
  destruct (subtree_shape s t p _ Hs Hsub) as [p' Hs'].
  pose proof (subtree_NoDup t _ Hd Hsub) as Hd'.
  cbn [ids] in Hd'. apply NoDup_cons in Hd' as [_ Hd'].
  destruct (siblings_of_kid s p' i ks j k Hs' Hd' Hj) as [H1 H2].
  split_and!; [done..|].
  intros (nd & Hnd & Hp). unfold siblings, node. rewrite Hnd. cbn [or_raise rbind].
  by rewrite Hp.
Qed.

Lemma siblings_are_the_other_children_witness :
  siblings left_store 2 = Ok [3]
  ∧ 2 ∉ [3]
  ∧ (is_root left_store 0 → siblings left_store 0 = Ok []).
Proof.
  apply (siblings_are_the_other_children left_store 0 left_tree 1
           [Node 2 []; Node 3 []] 0 (Node 2 [])).
  - apply holdsb_holds. vm_compute. reflexivity.
  - simpl. set_solver.
  - reflexivity.
Defined.

(** ** subset *)

Lemma names_of_nodes s l :
  Forall (λ n, is_Some (nodes s !! n)) l →
  map_res (λ i, let? nd := node s i in Ok (Name nd)) l = Ok (map (name_of s) l).
Proof.
  induction 1 as [|n l [nd Hnd] _ IH]; [done|].
  cbn [map_res map]. unfold node at 1. rewrite Hnd. cbn [or_raise rbind].
  rewrite IH. cbn [rbind]. unfold name_of, attr. by rewrite Hnd.
Qed.

Lemma tips_in_store s self t :
  holds s self t → Forall (λ n, is_Some (nodes s !! n)) (tip_ids t).
Proof.
  intros Ht. pose proof (holds_in_store _ _ _ Ht) as Hall.
  rewrite Forall_forall in Hall |- *. intros n Hn. apply Hall.
  by apply tip_ids_subseteq.
Qed.

(** X9.  On every tree that the store holds, [subset] returns the set of
    the names of the tips below the node; called on a node without
    children it returns the empty set, not the name of the node. *)
Theorem subset_names_of_tips s self t fuel :
  holds s self t → size t < fuel →
  subset fuel s self
  = Ok (match kids_of t with
        | [] => ∅
        | _ => leaf_names s t
        end).
Proof.
  intros Ht Hfuel. unfold subset.
  rewrite (tips_holds s self t) by done. cbn [rbind].
  pose proof (tips_in_store s self t Ht) as Hall.
  destruct t as [i [|k ks]]; [done|].
  cbn [tips_below kids_of]. by rewrite (names_of_nodes s _ Hall).
Qed.

Lemma subset_names_of_tips_witness :
  subset 10 left_store 0 = Ok (list_to_set [Some "C"; Some "D"; Some "E"])
  ∧ subset 10 left_store 4 = Ok ∅.
Proof.
  split.
  - apply (subset_names_of_tips left_store 0 left_tree 10).
    + apply holdsb_holds. vm_compute. reflexivity.
    + simpl. lia.
  - apply (subset_names_of_tips left_store 4 (Node 4 []) 10).
    + apply holdsb_holds. vm_compute. reflexivity.
    + simpl. lia.
Defined.

(** ** subsets *)

Lemma leaf_names_tip s i : leaf_names s (Node i []) = {[ name_of s i ]}.
Proof. unfold leaf_names. simpl. by rewrite (right_id_L ∅ (∪)). Qed.

Lemma leaf_names_cons s i k ks :
  leaf_names s (Node i (k :: ks))
  = leaf_names s k ∪ list_to_set (map (name_of s) (flat_map tip_ids ks)).
Proof.
  unfold leaf_names. rewrite tip_ids_internal. cbn [flat_map].
  by rewrite map_app, list_to_set_app_L.
Qed.

Lemma foldl_union_leaf_names (s : store) (ks : list tree) (X : gset (option string)) :
  foldl (∪) X (map (leaf_names s) ks)
  = X ∪ list_to_set (map (name_of s) (flat_map tip_ids ks)).
Proof.
  revert X. induction ks as [|k ks IH]; intros X; cbn [map foldl flat_map].
  - simpl. by rewrite (right_id_L ∅ (∪)).
  - rewrite IH, map_app, list_to_set_app_L. unfold leaf_names.
    by rewrite (assoc_L (∪)).
Qed.

Lemma leaf_sets_of_kids (s : store) (tbl : leaf_sets) (ks : list tree) :
  (∀ k, k ∈ ks → tbl !! root_id k = Some (leaf_names s k)) →
  map_res (leaf_set_of tbl) (map root_id ks) = Ok (map (leaf_names s) ks).
Proof.
  induction ks as [|k ks IH]; intros Hall; [done|].
  cbn [map map_res]. unfold leaf_set_of at 1. rewrite (Hall k) by by left.
  cbn [or_raise rbind]. rewrite IH; [done|]. intros k' Hk'. apply Hall. by right.
Qed.

(** The loop over the postorder of a subtree: it appends the sets of the
    subtree, leaves the set of the subtree in the attribute of its root, and
    does not touch the attribute of any node outside it. *)
Lemma subsets_loop_tree s t :
  ∀ p, shape s p t → NoDup (ids t) →
  ∀ rest sets (tbl : leaf_sets),
    ∃ tbl' : leaf_sets,
      subsets_loop s (post t ++ rest) sets tbl
      = subsets_loop s rest (sets ++ clades s t) tbl'
      ∧ tbl' !! root_id t = Some (leaf_names s t)
      ∧ ∀ n, n ∉ ids t → tbl' !! n = tbl !! n.
Proof.
  induction t as [i ks IH] using tree_ind'. intros p Hs Hd rest sets tbl.
  pose proof Hs as (nd & Hnd & _ & Hc & Hks)%shape_inv.
  cbn [ids] in Hd. apply NoDup_cons in Hd as [Hi Hd].
  assert (Hforest : ∀ rest sets (tbl : leaf_sets),
    ∃ tbl' : leaf_sets,
      subsets_loop s (flat_map post ks ++ rest) sets tbl
      = subsets_loop s rest (sets ++ flat_map (clades s) ks) tbl'
      ∧ (∀ k, k ∈ ks → tbl' !! root_id k = Some (leaf_names s k))
      ∧ ∀ n, n ∉ flat_map ids ks → tbl' !! n = tbl !! n).
  { clear nd Hnd Hc Hi rest sets tbl Hs.
    induction ks as [|k ks IHks]; intros rest sets tbl.
    - exists tbl. cbn [flat_map app]. rewrite app_nil_r. split_and!; [done| |done].
      by intros k ?%elem_of_nil.
    - apply Forall_cons in IH as [IHk IH]. apply Forall_cons in Hks as [Hk Hks].
      cbn [flat_map] in Hd. pose proof Hd as (Hdk & Hdis & Hdks)%NoDup_app.
      destruct (IHk _ Hk Hdk (flat_map post ks ++ rest) sets tbl)
        as (tbl1 & Hrun1 & Hroot1 & Hout1).
      destruct (IHks IH Hdks Hks rest (sets ++ clades s k) tbl1)
        as (tbl2 & Hrun2 & Hroot2 & Hout2).
      exists tbl2. cbn [flat_map]. rewrite <- app_assoc, Hrun1, Hrun2.
      rewrite <- app_assoc. split_and!; [done| |].
      + intros k' [->|Hk']%elem_of_cons; [|by apply Hroot2].
        rewrite Hout2; [done|]. apply Hdis, root_in_ids.
      + intros n Hn. apply not_elem_of_app in Hn as [Hn1 Hn2].
        by rewrite Hout2, Hout1. }
  cbn [post]. rewrite <- app_assoc. cbn [app].
  destruct (Hforest (i :: rest) sets tbl) as (tbl1 & Hrun & Hroots & Hout).
  rewrite Hrun. cbn [subsets_loop]. unfold node. rewrite Hnd. cbn [or_raise].
  rewrite Hc. destruct ks as [|k ks].
  - cbn [map]. exists (<[i := {[ Name nd ]}]> tbl1). split_and!.
    + cbn [clades flat_map]. by rewrite !app_nil_r.
    + cbn [root_id]. rewrite lookup_insert_eq, leaf_names_tip.
      unfold name_of, attr. by rewrite Hnd.
    + intros n Hn. cbn [ids flat_map] in Hn. apply not_elem_of_cons in Hn as [Hn _].
      rewrite lookup_insert_ne by done. apply Hout. by intros ?%elem_of_nil.
  - cbn [map]. unfold leaf_set_of at 1. rewrite (Hroots k) by by left.
    cbn [or_raise rbind].
    rewrite (leaf_sets_of_kids s tbl1 ks) by (intros k' Hk'; apply Hroots; by right).
    cbn [rbind]. rewrite foldl_union_leaf_names, <- (leaf_names_cons s i).
    exists (<[i := leaf_names s (Node i (k :: ks))]> tbl1). split_and!.
    + cbn [clades]. rewrite !app_assoc.
      destruct (1 <? base.size (leaf_names s (Node i (k :: ks)))); [done|].
      by rewrite app_nil_r.
    + cbn [root_id]. by rewrite lookup_insert_eq.
    + intros n Hn. cbn [ids] in Hn. apply not_elem_of_cons in Hn as [Hn1 Hn2].
      rewrite lookup_insert_ne by done. by apply Hout.
Qed.

Lemma clades_elem s t x :
  x ∈ clades s t
  ↔ ∃ k, k ∈ subtrees t ∧ kids_of k ≠ [] ∧ x = leaf_names s k ∧ 1 < base.size x.
Proof.
  induction t as [i ks IH] using tree_ind'.
  assert (Hforest : x ∈ flat_map (clades s) ks
    ↔ ∃ k, k ∈ flat_map subtrees ks ∧ kids_of k ≠ [] ∧ x = leaf_names s k
           ∧ 1 < base.size x).
  { rewrite list_elem_of_In, in_flat_map. split.
    - intros (k & Hk%list_elem_of_In & Hx%list_elem_of_In).
      rewrite Forall_forall in IH. apply (IH k Hk) in Hx as (k' & Hk' & ?).
      exists k'. split; [|done]. apply forest_subtrees_inv. eauto.
    - intros (k' & (k & Hk & Hk')%forest_subtrees_inv & Hrest).
      exists k. split; [by apply list_elem_of_In|]. apply list_elem_of_In.
      rewrite Forall_forall in IH. apply (IH k Hk). eauto. }
  destruct ks as [|k0 ks0].
  - cbn [clades]. split; [by intros ?%elem_of_nil|].
    intros (k & Hk & Hne & _). cbn [subtrees flat_map] in Hk.
    apply list_elem_of_singleton in Hk. by subst k.
  - set (ks := k0 :: ks0) in *. cbn [clades].
    change (match ks with [] => [] | _ => ?a end) with a.
    rewrite elem_of_app, Hforest. cbn [subtrees]. split.
    + intros [(k & Hk & Hrest)|Hx].
      * exists k. split; [by right|done].
      * destruct (1 <? base.size (leaf_names s (Node i ks))) eqn:Hsz;
          [|by apply elem_of_nil in Hx].
        apply list_elem_of_singleton in Hx. exists (Node i ks).
        split_and!; [by left|done|done|]. subst x. by apply Nat.ltb_lt.
    + intros (k & [->|Hk]%elem_of_cons & Hne & Hx & Hsz).
      * right. subst x. apply Nat.ltb_lt in Hsz. rewrite Hsz. by left.
      * left. eauto.
Qed.

(** X10.  On every tree that the store holds, and whatever [__leaf_set]
    attributes earlier calls have left, [subsets] returns the set of the
    sets of tip names of the nodes below the starting node that have
    children, those of fewer than two names left out.  The starting node
    contributes no set of its own. *)
Theorem subsets_collects_clades (s : store) (self : handle) (t : tree) (fuel : nat)
    (tbl : leaf_sets) :
  holds s self t → 2 * size t ≤ fuel →
  ∃ tbl' : leaf_sets,
    subsets fuel s self tbl
    = (Ok (list_to_set (flat_map (clades s) (kids_of t))), tbl')
    ∧ ∀ x, x ∈ (list_to_set (flat_map (clades s) (kids_of t))
                 : gset (gset (option string)))
           ↔ ∃ k, k ∈ flat_map subtrees (kids_of t) ∧ kids_of k ≠ []
                  ∧ x = leaf_names s k ∧ 1 < base.size x.
Proof.
  intros Ht Hfuel. unfold subsets.
  rewrite (postorder_holds s self t false) by done. rewrite app_nil_r.
  destruct (holds_inv _ _ _ Ht) as (p & ks & -> & Hs & Hself & Hd).
  cbn [kids_of].
  apply shape_inv in Hs as (nd & _ & _ & _ & Hks).
  assert (Hrun : ∀ sets (tbl : leaf_sets), ∃ tbl' : leaf_sets,
    subsets_loop s (flat_map post ks) sets tbl
    = (Ok (sets ++ flat_map (clades s) ks), tbl')).
  { clear Hself Ht Hfuel tbl. induction ks as [|k ks IH]; intros sets tbl.
    - exists tbl. cbn [flat_map subsets_loop]. by rewrite app_nil_r.
    - apply Forall_cons in Hks as [Hk Hks]. cbn [flat_map] in Hd |- *.
      apply NoDup_app in Hd as (Hdk & _ & Hdks).
      destruct (subsets_loop_tree s k _ Hk Hdk (flat_map post ks) sets tbl)
        as (tbl1 & Hrun1 & _).
      destruct (IH Hks Hdks (sets ++ clades s k) tbl1) as (tbl2 & Hrun2).
      exists tbl2. by rewrite Hrun1, Hrun2, <- app_assoc. }
  destruct (Hrun [] tbl) as (tbl' & Hloop). rewrite Hloop. cbn [app].
  exists tbl'. split; [done|]. intros x. rewrite elem_of_list_to_set.
  rewrite list_elem_of_In, in_flat_map. split.
  - intros (k & Hk%list_elem_of_In & Hx%list_elem_of_In).
    apply clades_elem in Hx as (k' & Hk' & ?).
    exists k'. split; [|done]. apply forest_subtrees_inv. eauto.
  - intros (k' & (k & Hk & Hk')%forest_subtrees_inv & Hrest).
    exists k. split; [by apply list_elem_of_In|]. apply list_elem_of_In.
    apply clades_elem. eauto.
Qed.

Lemma subsets_collects_clades_witness :
  ∃ tbl' : leaf_sets,
    subsets 10 left_store 0 ∅
    = (Ok (list_to_set [list_to_set [Some "C"; Some "D"]]), tbl').
Proof.
  destruct (subsets_collects_clades left_store 0 left_tree 10 ∅) as (tbl' & Hrun & _).
  - apply holdsb_holds. vm_compute. reflexivity.
  - simpl. lia.
  - exists tbl'. exact Hrun.
Defined.

(** ** Topology updates: what they do to Parent and Children *)

Lemma runs_ext {A} (m : M A) s a P K P' K' :
  runs m s a P K → (∀ x, P x = P' x) → (∀ x, K x = K' x) → runs m s a P' K'.
Proof.
  intros (s' & Hrun & HP & HK) HP' HK'. exists s'. split_and!; [done| |].
  - intros x. by rewrite HP.
  - intros x. by rewrite HK.
Qed.

Lemma runs_bind {A B} (m : M A) (k : A → M B) s a P K b P' K' :
  runs m s a P K →
  (∀ s', (∀ x, attr Parent s' x = P x) → (∀ x, attr Children s' x = K x) →
         runs (k a) s' b P' K') →
  runs (bind m k) s b P' K'.
Proof.
  intros (s1 & Hrun & HP & HK) Hk.
  destruct (Hk s1 HP HK) as (s2 & Hrun2 & HP2 & HK2).
  exists s2. split_and!; [|done..]. by rewrite (bind_Ok _ _ _ _ _ Hrun).
Qed.

Lemma runs_ret {A} (a : A) s : runs (ret a) s a (attr Parent s) (attr Children s).
Proof. by exists s. Qed.

Lemma runs_get_bind {B} n (k : TreeNode → M B) s b P' K' :
  is_Some (nodes s !! n) →
  (∀ nd, nodes s !! n = Some nd → runs (k nd) s b P' K') →
  runs (bind (get n) k) s b P' K'.
Proof.
  intros [nd Hnd] Hk. destruct (Hk nd Hnd) as (s' & Hrun & HP & HK).
  exists s'. split_and!; [|done..]. by rewrite (bind_Ok _ _ _ _ _ (get_Ok _ _ _ Hnd)).
Qed.

Lemma attr_insert {X} (proj : TreeNode → X) s n nd' x :
  attr proj (mkStore (<[n := nd']> (nodes s)) (cells s)) x
  = if decide (x = n) then Some (proj nd') else attr proj s x.
Proof.
  unfold attr. simpl. destruct (decide (x = n)) as [->|Hne].
  - by rewrite lookup_insert_eq.
  - by rewrite lookup_insert_ne.
Qed.

Lemma attr_Some_inv {X} (proj : TreeNode → X) s n v :
  attr proj s n = Some v → ∃ nd, nodes s !! n = Some nd ∧ proj nd = v.
Proof.
  unfold attr. destruct (nodes s !! n) as [nd|]; [|done].
  intros [= <-]. eauto.
Qed.

Lemma attr_lookup {X} (proj : TreeNode → X) s n nd :
  nodes s !! n = Some nd → attr proj s n = Some (proj nd).
Proof. intros H. unfold attr. by rewrite H. Qed.

Lemma runs_modify s n f :
  is_Some (nodes s !! n) →
  (∀ nd, Parent (f nd) = Parent nd) → (∀ nd, Children (f nd) = Children nd) →
  runs (modify n f) s tt (attr Parent s) (attr Children s).
Proof.
  intros [nd Hnd] HfP HfC. eexists. split; [by apply modify_Ok|].
  split; intros x; rewrite attr_insert; destruct (decide (x = n)) as [->|]; try done.
  - by rewrite HfP, (attr_lookup Parent s n nd).
  - by rewrite HfC, (attr_lookup Children s n nd).
Qed.

Lemma runs_invalidate s self :
  is_Some (nodes s !! self) →
  runs (invalidate_node_cache self) s tt (attr Parent s) (attr Children s).
Proof. intros H. by apply runs_modify. Qed.

Lemma runs_set_Parent s n q :
  is_Some (nodes s !! n) →
  runs (modify n (set_Parent q)) s tt
       (λ x, if decide (x = n) then Some q else attr Parent s x) (attr Children s).
Proof.
  intros [nd Hnd]. eexists. split; [by apply modify_Ok|].
  split; intros x; rewrite attr_insert; destruct (decide (x = n)) as [->|]; try done.
  by rewrite (attr_lookup Children s n nd).
Qed.

Lemma runs_set_Children s p g cs :
  attr Children s p = Some cs →
  runs (modify p (λ nd, set_Children (g (Children nd)) nd)) s tt
       (attr Parent s) (λ x, if decide (x = p) then Some (g cs) else attr Children s x).
Proof.
  intros (nd & Hnd & Hcs)%attr_Some_inv. eexists. split; [by apply modify_Ok|].
  split; intros x; rewrite attr_insert; destruct (decide (x = p)) as [->|]; try done.
  - by rewrite (attr_lookup Parent s p nd).
  - simpl. by rewrite Hcs.
Qed.

Lemma is_Some_attr {X} (proj : TreeNode → X) s n :
  is_Some (attr proj s n) ↔ is_Some (nodes s !! n).
Proof. unfold attr. by rewrite fmap_is_Some. Qed.

(** *** _remove_node and pop *)

Lemma py_pop_at {A} (l : list A) i j c :
  py_index (length l) i = Some j → l !! j = Some c →
  py_pop l i = Ok (delete j l, c).
Proof. intros Hi Hj. unfold py_pop. rewrite Hi. simpl. by rewrite Hj. Qed.

Lemma py_pop_out {A} (l : list A) i :
  py_index (length l) i = None → py_pop l i = Raise IndexError.
Proof. intros Hi. unfold py_pop. by rewrite Hi. Qed.

Lemma py_index_lt len i j : py_index len i = Some j → j < len.
Proof.
  unfold py_index. destruct (_ && _)%Z eqn:H; [|done]. intros [= <-].
  apply andb_true_iff in H as [H1 H2]. apply Z.leb_le in H1. apply Z.ltb_lt in H2. lia.
Qed.

Lemma runs__remove_node s self idx cs j c :
  attr Children s self = Some cs →
  py_index (length cs) idx = Some j → cs !! j = Some c → is_Some (nodes s !! c) →
  runs (_remove_node self idx) s c
       (λ x, if decide (x = c) then Some None else attr Parent s x)
       (λ x, if decide (x = self) then Some (delete j cs) else attr Children s x).
Proof.
  intros Hcs Hidx Hj Hc. unfold _remove_node.
  assert (Hself : is_Some (nodes s !! self)) by (apply (is_Some_attr Children); eauto).
  eapply runs_bind; [by apply runs_invalidate|]. intros s1 HP1 HK1; cbn beta in HP1, HK1.
  apply runs_get_bind; [apply (is_Some_attr Parent); rewrite HP1; by apply is_Some_attr|].
  intros nd Hnd.
  assert (Hnd_cs : Children nd = cs).
  { pose proof (attr_lookup Children s1 self nd Hnd) as H. rewrite HK1, Hcs in H.
    by injection H. }
  rewrite Hnd_cs, (py_pop_at cs idx j c Hidx Hj).
  eapply runs_bind; [exists s1; split; [reflexivity|split; intros x; reflexivity]|].
  intros s2 HP2 HK2; cbn beta in HP2, HK2. cbn beta iota.
  eapply runs_bind.
  { apply (runs_set_Children s2 self (λ _, delete j cs) cs). by rewrite HK2, HK1. }
  intros s3 HP3 HK3; cbn beta in HP3, HK3.
  eapply runs_bind.
  { apply (runs_set_Parent s3 c None). apply (is_Some_attr Parent).
    rewrite HP3, HP2, HP1. by apply is_Some_attr. }
  intros s4 HP4 HK4; cbn beta in HP4, HK4.
  eapply runs_ext; [apply runs_ret| |].
  - intros x. rewrite HP4. destruct (decide (x = c)); [done|]. by rewrite HP3, HP2, HP1.
  - intros x. rewrite HK4, HK3. destruct (decide (x = self)); [done|]. by rewrite HK2, HK1.
Qed.

Lemma without_notin n cs : n ∉ cs → without n cs = cs.
Proof.
  unfold without. induction cs as [|y cs IH]; intros Hn; [done|].
  apply not_elem_of_cons in Hn as [Hne Hn].
  rewrite filter_cons_True by done. by rewrite IH.
Qed.

Lemma without_elem n cs c : c ∈ without n cs ↔ c ≠ n ∧ c ∈ cs.
Proof. unfold without. by rewrite list_elem_of_filter. Qed.

Lemma without_NoDup n cs : NoDup cs → NoDup (without n cs).
Proof. apply NoDup_filter. Qed.

Lemma delete_NoDup (cs : list handle) j c :
  NoDup cs → cs !! j = Some c → delete j cs = without c cs.
Proof.
  revert j. induction cs as [|y cs IH]; intros j Hd Hj; [done|].
  apply NoDup_cons in Hd as [Hy Hd]. destruct j as [|j]; simpl in Hj.
  - injection Hj as ->. unfold without. rewrite filter_cons_False by (by intros ?).
    symmetry. by apply without_notin.
  - unfold without. rewrite filter_cons_True.
    + cbn [delete list_delete]. f_equal. by apply IH.
    + intros ->. apply Hy. by eapply list_elem_of_lookup_2.
Qed.

Lemma remove_scan_found n cs :
  ∀ i, n ∈ cs → ∃ j, remove_scan n i cs = Some (i + j) ∧ cs !! j = Some n.
Proof.
  induction cs as [|y cs IH]; intros i Hn; [by apply elem_of_nil in Hn|].
  simpl. destruct (decide (y = n)) as [->|Hne].
  - exists 0. split; [f_equal; lia|done].
  - apply elem_of_cons in Hn as [->|Hn]; [done|].
    destruct (IH (S i) Hn) as (j & Hscan & Hj). exists (S j).
    split; [rewrite Hscan; f_equal; lia|done].
Qed.

Lemma remove_scan_notin n cs : ∀ i, n ∉ cs → remove_scan n i cs = None.
Proof.
  induction cs as [|y cs IH]; intros i Hn; [done|].
  apply not_elem_of_cons in Hn as [Hne Hn]. simpl.
  rewrite decide_False by done. by apply IH.
Qed.

Lemma py_index_nat len j : j < len → py_index len (Z.of_nat j) = Some j.
Proof.
  intros Hj. unfold py_index.
  replace (Z.of_nat j <? 0)%Z with false by (symmetry; apply Z.ltb_ge; lia).
  replace ((0 <=? Z.of_nat j) && (Z.of_nat j <? Z.of_nat len))%Z with true.
  - f_equal. lia.
  - symmetry. apply andb_true_intro. split; [apply Z.leb_le|apply Z.ltb_lt]; lia.
Qed.

(** *** remove *)

Lemma runs_remove_found s self n cs :
  attr Children s self = Some cs → NoDup cs → n ∈ cs → is_Some (nodes s !! n) →
  runs (remove self n) s true
       (λ x, if decide (x = n) then Some None else attr Parent s x)
       (λ x, if decide (x = self) then Some (without n cs) else attr Children s x).
Proof.
  intros Hcs Hd Hn Hin. unfold remove.
  apply runs_get_bind; [apply (is_Some_attr Children); eauto|]. intros nd Hnd.
  assert (Hnd_cs : Children nd = cs).
  { pose proof (attr_lookup Children s self nd Hnd) as H. rewrite Hcs in H. by injection H. }
  rewrite Hnd_cs. destruct (remove_scan_found n cs 0 Hn) as (j & -> & Hj).
  cbn [Nat.add].
  eapply runs_bind.
  { apply (runs__remove_node s self (Z.of_nat j) cs j n); try done.
    apply py_index_nat. by eapply lookup_lt_Some. }
  intros s1 HP1 HK1; cbn beta in HP1, HK1. eapply runs_ext; [apply runs_ret|done|].
  intros x. rewrite HK1. destruct (decide (x = self)); [|done].
  by rewrite (delete_NoDup cs j n).
Qed.

Lemma runs_remove_notin s self n cs :
  attr Children s self = Some cs → n ∉ cs →
  runs (remove self n) s false (attr Parent s) (attr Children s).
Proof.
  intros Hcs Hn. unfold remove.
  assert (Hself : is_Some (nodes s !! self)) by (apply (is_Some_attr Children); eauto).
  apply runs_get_bind; [done|]. intros nd Hnd.
  assert (Hnd_cs : Children nd = cs).
  { pose proof (attr_lookup Children s self nd Hnd) as H. rewrite Hcs in H. by injection H. }
  rewrite Hnd_cs, (remove_scan_notin n cs 0 Hn).
  eapply runs_bind; [by apply runs_invalidate|]. intros s1 HP1 HK1; cbn beta in HP1, HK1.
  eapply runs_ext; [apply runs_ret|done..].
Qed.

(** The links after a child has been taken out of the list of [self] *)
Lemma linked_detach s s' self n cs :
  linked s → attr Children s self = Some cs → n ∈ cs →
  (∀ x, attr Parent s' x = if decide (x = n) then Some None else attr Parent s x) →
  (∀ x, attr Children s' x
        = if decide (x = self) then Some (without n cs) else attr Children s x) →
  linked s'.
Proof.
  intros (H1 & H2 & H3) Hcs Hn HP HK. split_and!.
  - intros p cs' c Hp Hc. rewrite HK in Hp. rewrite HP.
    destruct (decide (p = self)) as [->|Hne].
    + injection Hp as <-. apply without_elem in Hc as [Hcn Hc].
      rewrite decide_False by done. by eapply H1.
    + pose proof (H1 p cs' c Hp Hc) as Hpc.
      destruct (decide (c = n)) as [->|]; [|done].
      rewrite (H1 self cs n Hcs Hn) in Hpc. by injection Hpc as ->.
  - intros c p Hc. rewrite HP in Hc. destruct (decide (c = n)) as [->|Hcn]; [done|].
    destruct (H2 c p Hc) as (cs' & Hcs' & Hin). rewrite HK.
    destruct (decide (p = self)) as [->|]; [|eauto].
    rewrite Hcs in Hcs'. injection Hcs' as <-.
    eexists. split; [done|]. by apply without_elem.
  - intros p cs' Hp. rewrite HK in Hp. destruct (decide (p = self)) as [->|].
    + injection Hp as <-. apply without_NoDup. by eapply H3.
    + by eapply H3.
Qed.

Lemma linked_same s s' :
  linked s → (∀ x, attr Parent s' x = attr Parent s x) →
  (∀ x, attr Children s' x = attr Children s x) → linked s'.
Proof.
  intros (H1 & H2 & H3) HP HK. split_and!.
  - intros p cs c. rewrite HK, HP. apply H1.
  - intros c p. rewrite HP. intros (cs & ? & ?)%H2. exists cs. by rewrite HK.
  - intros p cs. rewrite HK. apply H3.
Qed.

Lemma linked_child_in_store s p cs c :
  linked s → attr Children s p = Some cs → c ∈ cs → is_Some (nodes s !! c).
Proof.
  intros (H1 & _) Hcs Hc. apply (is_Some_attr Parent). rewrite (H1 p cs c Hcs Hc). eauto.
Qed.

(** X11.  In a store whose Parent and Children attributes agree,
    [remove(node)] on a node that has [node] among its children returns
    True, takes [node] out of the list of children, whose other entries
    keep their order, and sets its Parent to None; on a node that does not
    have it among its children it returns False and changes no Parent and
    no Children.  The attributes agree afterwards as well. *)
Theorem remove_detaches_child s self n cs :
  linked s → attr Children s self = Some cs →
  ∃ s', remove self n s = (Ok (bool_decide (n ∈ cs)), s')
    ∧ (∀ x, attr Children s' x
            = if decide (x = self) then Some (without n cs) else attr Children s x)
    ∧ (∀ x, attr Parent s' x
            = if decide (x = n ∧ n ∈ cs) then Some None else attr Parent s x)
    ∧ linked s'.
Proof.
  intros Hl Hcs. destruct (decide (n ∈ cs)) as [Hn|Hn].
  - destruct (runs_remove_found s self n cs) as (s' & Hrun & HP & HK); try done.
    { by destruct Hl as (_ & _ & H3); eapply H3. }
    { by eapply linked_child_in_store. }
    exists s'. rewrite bool_decide_eq_true_2 by done. split_and!; [done..| |].
    + intros x. rewrite HP. destruct (decide (x = n)).
      * by rewrite decide_True.
      * rewrite decide_False; [done|]. by intros [? _].
    + by eapply linked_detach.
  - destruct (runs_remove_notin s self n cs) as (s' & Hrun & HP & HK); try done.
    exists s'. rewrite bool_decide_eq_false_2 by done. split_and!; [done| | |].
    + intros x. rewrite HK. destruct (decide (x = self)) as [->|]; [|done].
      by rewrite without_notin.
    + intros x. rewrite HP. rewrite decide_False; [done|]. by intros [_ ?].
    + by eapply linked_same.
Qed.

Lemma linkedb_linked s : linkedb s = true → linked s.
Proof.
  unfold linkedb. rewrite forallb_forall. intros Hall.
  assert (Hnode : ∀ p pd, nodes s !! p = Some pd →
    NoDup (Children pd)
    ∧ (∀ c, c ∈ Children pd → attr Parent s c = Some (Some p))
    ∧ (∀ q, Parent pd = Some q → ∃ qd, nodes s !! q = Some qd ∧ p ∈ Children qd)).
  { intros p pd Hp. specialize (Hall (p, pd)). cbn beta iota in Hall.
    rewrite !andb_true_iff, bool_decide_eq_true, forallb_forall in Hall.
    destruct Hall as [[Hd Hc] Hq].
    { apply list_elem_of_In. by apply elem_of_map_to_list. }
    split_and!; [done| |].
    - intros c Hin. apply list_elem_of_In in Hin. apply Hc in Hin.
      by apply bool_decide_eq_true in Hin.
    - intros q Hpar. rewrite Hpar in Hq. destruct (nodes s !! q) as [qd|]; [|done].
      apply bool_decide_eq_true in Hq. eauto. }
  split_and!.
  - intros p cs c (pd & Hp & <-)%attr_Some_inv Hc.
    by apply (Hnode p pd Hp).
  - intros c p (cd & Hc & Hpar)%attr_Some_inv.
    destruct (Hnode c cd Hc) as (_ & _ & Hq).
    destruct (Hq p Hpar) as (qd & Hqd & Hin). exists (Children qd).
    split; [by apply attr_lookup|done].
  - intros p cs (pd & Hp & <-)%attr_Some_inv. by apply (Hnode p pd Hp).
Qed.

Lemma remove_detaches_child_witness :
  ∃ s', remove 0 4 left_store = (Ok true, s')
    ∧ (∀ x, attr Children s' x
            = if decide (x = 0) then Some [1] else attr Children left_store x)
    ∧ (∀ x, attr Parent s' x
            = if decide (x = 4 ∧ 4 ∈ [1; 4]) then Some None else attr Parent left_store x)
    ∧ linked s'.
Proof.
  apply (remove_detaches_child left_store 0 4 [1; 4]).
  - apply linkedb_linked. vm_compute. reflexivity.
  - reflexivity.
Defined.

(** *** pop *)

Lemma with_cache_attr {X} (proj : TreeNode → X) s self c n :
  (∀ nd, proj (set_node_cache c nd) = proj nd) →
  attr proj (with_cache s self c) n = attr proj s n.
Proof.
  intros Hproj. unfold attr. destruct (decide (n = self)) as [->|Hne].
  - unfold with_cache. simpl. rewrite lookup_alter_eq.
    destruct (nodes s !! self); simpl; [|done]. by rewrite Hproj.
  - by rewrite with_cache_lookup_ne.
Qed.

Lemma runs_pop s self idx cs j c :
  attr Children s self = Some cs →
  py_index (length cs) idx = Some j → cs !! j = Some c → is_Some (nodes s !! c) →
  runs (pop self idx) s c
       (λ x, if decide (x = c) then Some None else attr Parent s x)
       (λ x, if decide (x = self) then Some (delete j cs) else attr Children s x).
Proof.
  intros Hcs Hidx Hj Hc. unfold pop.
  assert (Hself : is_Some (nodes s !! self)) by (apply (is_Some_attr Children); eauto).
  eapply runs_bind; [by apply runs_invalidate|]. intros s1 HP1 HK1; cbn beta in HP1, HK1.
  eapply runs_ext.
  - apply (runs__remove_node s1 self idx cs j c); [by rewrite HK1|done..|].
    apply (is_Some_attr Parent). rewrite HP1. by apply is_Some_attr.
  - intros x. cbn beta. by rewrite HP1.
  - intros x. cbn beta. by rewrite HK1.
Qed.

Lemma pop_out_of_range s self idx cs :
  attr Children s self = Some cs → py_index (length cs) idx = None →
  pop self idx s = (Raise IndexError, with_cache s self ∅).
Proof.
  intros (nd & Hnd & Hcs)%attr_Some_inv Hidx. unfold pop, _remove_node.
  rewrite (bind_Ok _ _ _ _ _ (invalidate_with_cache s self nd Hnd)).
  pose proof (with_cache_lookup_self s self ∅ nd Hnd) as Hnd1.
  rewrite (bind_Ok _ _ _ _ _ (invalidate_with_cache _ self _ Hnd1)).
  rewrite with_cache_with_cache.
  rewrite (bind_Ok _ _ _ _ _ (get_Ok _ _ _ Hnd1)).
  cbn [Children set_node_cache]. rewrite Hcs, (py_pop_out cs idx Hidx). done.
Qed.

(** X12.  In a store whose Parent and Children attributes agree, [pop]
    with an index inside the list of children (a negative index counts from
    the end) returns the child at that index, takes it out of the list and
    sets its Parent to None; nothing else changes among Parent and
    Children, and the attributes agree afterwards.  With an index outside
    the list it raises IndexError, and only the name cache of the node has
    changed. *)
Theorem pop_detaches_child s self index cs :
  linked s → attr Children s self = Some cs →
  match py_index (length cs) index with
  | Some j =>
      ∃ c s', cs !! j = Some c ∧ pop self index s = (Ok c, s')
        ∧ (∀ x, attr Children s' x
                = if decide (x = self) then Some (delete j cs) else attr Children s x)
        ∧ (∀ x, attr Parent s' x
                = if decide (x = c) then Some None else attr Parent s x)
        ∧ linked s'
  | None => pop self index s = (Raise IndexError, with_cache s self ∅)
  end.
Proof.
  intros Hl Hcs. destruct (py_index (length cs) index) as [j|] eqn:Hidx.
  - destruct (lookup_lt_is_Some_2 cs j (py_index_lt _ _ _ Hidx)) as [c Hj].
    pose proof (list_elem_of_lookup_2 _ _ _ Hj) as Hin.
    destruct (runs_pop s self index cs j c) as (s' & Hrun & HP & HK); try done.
    { by eapply (linked_child_in_store s self cs c). }
    exists c, s'. split_and!; [done..|].
    eapply (linked_detach s s' self c cs); try done.
    intros x. rewrite HK. destruct (decide (x = self)); [|done].
    rewrite (delete_NoDup cs j c); [done| |done].
    destruct Hl as (_ & _ & H3). by eapply H3.
  - by apply (pop_out_of_range s self index cs).
Qed.

Lemma pop_detaches_child_witness :
  (∃ c s', [1; 4] !! 1 = Some c ∧ pop 0 (-1) left_store = (Ok c, s')
     ∧ (∀ x, attr Children s' x
             = if decide (x = 0) then Some [1] else attr Children left_store x)
     ∧ (∀ x, attr Parent s' x
             = if decide (x = c) then Some None else attr Parent left_store x)
     ∧ linked s')
  ∧ pop 0 2 left_store = (Raise IndexError, with_cache left_store 0 ∅).
Proof.
  split.
  - apply (pop_detaches_child left_store 0 (-1) [1; 4]).
    + apply linkedb_linked. vm_compute. reflexivity.
    + reflexivity.
  - apply (pop_detaches_child left_store 0 2 [1; 4]).
    + apply linkedb_linked. vm_compute. reflexivity.
    + reflexivity.
Defined.

(** *** _adopt and append *)

Lemma runs__adopt s self n nd :
  nodes s !! n = Some nd → is_Some (nodes s !! self) →
  (∀ p, Parent nd = Some p →
        ∃ cs, attr Children s p = Some cs ∧ NoDup cs) →
  runs (_adopt self n) s n
       (λ x, if decide (x = n) then Some (Some self) else attr Parent s x)
       (λ x, if decide (Parent nd = Some x) then without n <$> attr Children s x
             else attr Children s x).
Proof.
  intros Hnd Hself Hpar. unfold _adopt.
  apply runs_get_bind; [eauto|]. intros nd' Hnd'.
  assert (nd' = nd) as -> by congruence.
  assert (Hmid : runs (match Parent nd with
                       | Some p => let* _ := remove p n in ret tt
                       | None => ret tt
                       end) s tt
            (λ x, if decide (x = n ∧ is_Some (Parent nd)
                             ∧ n ∈ default [] (p ← Parent nd; attr Children s p))
                  then Some None else attr Parent s x)
            (λ x, if decide (Parent nd = Some x) then without n <$> attr Children s x
                  else attr Children s x)).
  { destruct (Parent nd) as [p|] eqn:Hp.
    - destruct (Hpar p eq_refl) as (cs & Hcs & Hd). cbn [mbind option_bind].
      rewrite Hcs. cbn [default]. destruct (decide (n ∈ cs)) as [Hn|Hn].
      + eapply runs_bind; [by apply (runs_remove_found s p n cs); eauto|].
        intros s1 HP1 HK1; cbn beta in HP1, HK1. eapply runs_ext; [apply runs_ret| |].
        * intros x. rewrite HP1. destruct (decide (x = n)) as [->|Hne].
          -- by rewrite decide_True.
          -- rewrite decide_False; [done|]. by intros [? _].
        * intros x. rewrite HK1. destruct (decide (x = p)) as [->|Hne].
          -- rewrite decide_True by done. by rewrite Hcs.
          -- rewrite decide_False; [done|]. congruence.
      + eapply runs_bind; [by apply (runs_remove_notin s p n cs)|].
        intros s1 HP1 HK1; cbn beta in HP1, HK1. eapply runs_ext; [apply runs_ret| |].
        * intros x. rewrite HP1. rewrite decide_False; [done|]. by intros (_ & _ & ?).
        * intros x. rewrite HK1. destruct (decide (Some p = Some x)) as [[= <-]|]; [|done].
          rewrite Hcs. simpl. by rewrite without_notin.
    - eapply runs_ext; [apply runs_ret| |].
      + intros x. rewrite decide_False; [done|]. by intros (_ & [? ?] & _).
      + intros x. by rewrite decide_False. }
  eapply runs_bind; [exact Hmid|]. intros s1 HP1 HK1; cbn beta in HP1, HK1.
  assert (Hin1 : ∀ x, is_Some (nodes s !! x) → is_Some (nodes s1 !! x)).
  { intros x Hx. apply (is_Some_attr Parent). rewrite HP1.
    destruct (decide _); [done|]. by apply is_Some_attr. }
  eapply runs_bind; [apply (runs_set_Parent s1 n (Some self)); apply Hin1; eauto|].
  intros s2 HP2 HK2; cbn beta in HP2, HK2.
  eapply runs_bind.
  { apply runs_invalidate. apply (is_Some_attr Parent). rewrite HP2.
    destruct (decide _); [done|]. apply is_Some_attr. by apply Hin1. }
  intros s3 HP3 HK3; cbn beta in HP3, HK3. eapply runs_ext; [apply runs_ret| |].
  - intros x. rewrite HP3, HP2. destruct (decide (x = n)); [done|].
    rewrite HP1. rewrite decide_False; [done|]. by intros [? _].
  - intros x. by rewrite HK3, HK2, HK1.
Qed.

(** In a store whose links agree, a node is in no list of children but its
    parent's *)
Lemma linked_only_parent s n nd x cs :
  linked s → nodes s !! n = Some nd → attr Children s x = Some cs →
  Parent nd ≠ Some x → n ∉ cs.
Proof.
  intros (H1 & _) Hnd Hcs Hne Hin. apply Hne.
  pose proof (H1 x cs n Hcs Hin) as Hp.
  rewrite (attr_lookup Parent s n nd Hnd) in Hp. by injection Hp.
Qed.

Lemma runs_append s self n :
  linked s → is_Some (nodes s !! self) → is_Some (nodes s !! n) →
  runs (append self n) s tt
       (λ x, if decide (x = n) then Some (Some self) else attr Parent s x)
       (λ x, (λ cs, if decide (x = self) then without n cs ++ [n] else without n cs)
             <$> attr Children s x).
Proof.
  intros Hl Hself [nd Hnd]. unfold append.
  eapply runs_bind.
  { apply (runs__adopt s self n nd); [done..|]. intros p Hp.
    destruct Hl as (_ & H2 & H3).
    destruct (H2 n p) as (cs & Hcs & _); [by rewrite (attr_lookup Parent s n nd Hnd), Hp|].
    exists cs. split; [done|]. by eapply H3. }
  intros s1 HP1 HK1; cbn beta in HP1, HK1.
  assert (HK1' : ∀ x, attr Children s1 x = without n <$> attr Children s x).
  { intros x. rewrite HK1. destruct (decide (Parent nd = Some x)); [done|].
    destruct (attr Children s x) as [cs|] eqn:Hcs; [|done]. simpl.
    by rewrite (without_notin n cs) by by eapply linked_only_parent. }
  destruct Hself as [sd Hsd].
  eapply runs_bind.
  { apply (runs_set_Children s1 self (λ cs, cs ++ [n]) (without n (Children sd))).
    by rewrite HK1', (attr_lookup Children s self sd Hsd). }
  intros s2 HP2 HK2; cbn beta in HP2, HK2.
  eapply runs_ext.
  - apply runs_invalidate. apply (is_Some_attr Children). rewrite HK2.
    by rewrite decide_True.
  - intros x. by rewrite HP2, HP1.
  - intros x. rewrite HK2. destruct (decide (x = self)) as [->|].
    + by rewrite (attr_lookup Children s self sd Hsd).
    + by rewrite HK1'.
Qed.

Lemma linked_append s s' self n :
  linked s → is_Some (nodes s !! self) →
  (∀ x, attr Parent s' x = if decide (x = n) then Some (Some self) else attr Parent s x) →
  (∀ x, attr Children s' x
        = (λ cs, if decide (x = self) then without n cs ++ [n] else without n cs)
          <$> attr Children s x) →
  linked s'.
Proof.
  intros (H1 & H2 & H3) Hself HP HK. split_and!.
  - intros p cs' c Hp Hc. rewrite HK in Hp. rewrite HP.
    destruct (attr Children s p) as [cs|] eqn:Hcs; [|done]. injection Hp as <-.
    destruct (decide (c = n)) as [->|Hcn].
    + destruct (decide (p = self)) as [->|]; [done|].
      by apply without_elem in Hc as [? _].
    + eapply H1; [done|]. destruct (decide (p = self)).
      * apply elem_of_app in Hc as [Hc|Hc%list_elem_of_singleton]; [|done].
        by apply without_elem in Hc as [_ ?].
      * by apply without_elem in Hc as [_ ?].
  - intros c p Hc. rewrite HP in Hc. rewrite HK. destruct (decide (c = n)) as [->|Hcn].
    + injection Hc as [= <-]. apply (is_Some_attr Children) in Hself as [cs Hcs].
      rewrite Hcs. eexists. split; [done|]. rewrite decide_True by done.
      apply elem_of_app. right. by left.
    + destruct (H2 c p Hc) as (cs & Hcs & Hin). rewrite Hcs. eexists. split; [done|].
      assert (c ∈ without n cs) by by apply without_elem.
      destruct (decide (p = self)); [|done]. apply elem_of_app. by left.
  - intros p cs' Hp. rewrite HK in Hp.
    destruct (attr Children s p) as [cs|] eqn:Hcs; [|done]. injection Hp as <-.
    pose proof (without_NoDup n cs (H3 p cs Hcs)) as Hd.
    destruct (decide (p = self)); [|done].
    apply NoDup_app. split_and!; [done| |apply NoDup_singleton].
    intros x [Hx _]%without_elem ->%list_elem_of_singleton. done.
Qed.

(** X13.  In a store whose Parent and Children attributes agree, [append]
    moves the node: afterwards its Parent is the node it was appended to,
    it is the last child of that node, and it is in no other list of
    children (its former parent has lost it, the other children keeping
    their order).  No other Parent and no other list changes, and the
    attributes agree afterwards. *)
Theorem append_moves_node s self n :
  linked s → is_Some (nodes s !! self) → is_Some (nodes s !! n) →
  ∃ s', append self n s = (Ok tt, s')
    ∧ (∀ x, attr Parent s' x
            = if decide (x = n) then Some (Some self) else attr Parent s x)
    ∧ (∀ x, attr Children s' x
            = (λ cs, if decide (x = self) then without n cs ++ [n] else without n cs)
              <$> attr Children s x)
    ∧ linked s'.
Proof.
  intros Hl Hself Hn.
  destruct (runs_append s self n Hl Hself Hn) as (s' & Hrun & HP & HK).
  exists s'. split_and!; [done..|]. by apply (linked_append s s' self n).
Qed.

Lemma append_moves_node_witness :
  ∃ s', append 4 2 left_store = (Ok tt, s')
    ∧ (∀ x, attr Parent s' x
            = if decide (x = 2) then Some (Some 4) else attr Parent left_store x)
    ∧ (∀ x, attr Children s' x
            = (λ cs, if decide (x = 4) then without 2 cs ++ [2] else without 2 cs)
              <$> attr Children left_store x)
    ∧ linked s'.
Proof.
  apply (append_moves_node left_store 4 2).
  - apply linkedb_linked. vm_compute. reflexivity.
  - eexists. reflexivity.
  - eexists. reflexivity.
Defined.

(** X14.  Appending a node that has no parent and popping the last child
    again returns that node and leaves every Parent and every list of
    children as it was. *)
Theorem append_then_pop_restores s self n :
  attr Parent s n = Some None → is_Some (nodes s !! self) →
  ∃ s', (let* _ := append self n in pop self (-1)) s = (Ok n, s')
        ∧ same Parent s s' ∧ same Children s s'.
Proof.
  intros (nd & Hnd & Hp)%attr_Some_inv [sd Hsd].
  assert (Happ : runs (append self n) s tt
            (λ x, if decide (x = n) then Some (Some self) else attr Parent s x)
            (λ x, if decide (x = self) then Some (Children sd ++ [n])
                  else attr Children s x)).
  { unfold append. eapply runs_bind.
    { apply (runs__adopt s self n nd); [done|eauto|]. intros p. by rewrite Hp. }
    intros s1 HP1 HK1; cbn beta in HP1, HK1.
    assert (HK1' : ∀ x, attr Children s1 x = attr Children s x).
    { intros x. rewrite HK1. by rewrite decide_False by (by rewrite Hp). }
    eapply runs_bind.
    { apply (runs_set_Children s1 self (λ cs, cs ++ [n]) (Children sd)).
      rewrite HK1'. by apply attr_lookup. }
    intros s2 HP2 HK2; cbn beta in HP2, HK2. eapply runs_ext.
    - apply runs_invalidate. apply (is_Some_attr Children). rewrite HK2.
      by rewrite decide_True.
    - intros x. cbn beta. by rewrite HP2, HP1.
    - intros x. cbn beta. rewrite HK2. by rewrite HK1'. }
  assert (Hrun : runs (let* _ := append self n in pop self (-1)) s n
                      (attr Parent s) (attr Children s)).
  { eapply runs_bind; [exact Happ|].
    intros s3 HP3 HK3; cbn beta in HP3, HK3. eapply runs_ext.
    - apply (runs_pop s3 self (-1) (Children sd ++ [n]) (length (Children sd)) n).
      + rewrite HK3. by rewrite decide_True.
      + rewrite (py_index_from_end _ 1) by (rewrite length_app; simpl; lia).
        f_equal. rewrite length_app. simpl. lia.
      + by apply list_lookup_middle.
      + apply (is_Some_attr Parent). rewrite HP3. by rewrite decide_True.
    - intros x. cbn beta. rewrite HP3. destruct (decide (x = n)) as [->|]; [|done].
      by rewrite (attr_lookup Parent s n nd Hnd), Hp.
    - intros x. cbn beta. destruct (decide (x = self)) as [->|].
      + rewrite delete_middle, app_nil_r. by rewrite (attr_lookup Children s self sd Hsd).
      + rewrite HK3. by rewrite decide_False by done. }
  destruct Hrun as (s' & Hrun & HP & HK). exists s'. split_and!; [done| |].
  - intros x. by rewrite HP.
  - intros x. by rewrite HK.
Qed.

Lemma append_then_pop_restores_witness :
  ∃ s', (let* _ := append 0 3 in pop 0 (-1)) ab_and_c = (Ok 3, s')
        ∧ same Parent ab_and_c s' ∧ same Children ab_and_c s'.
Proof.
  apply (append_then_pop_restores ab_and_c 0 3).
  - reflexivity.
  - eexists. reflexivity.
Defined.

(** *** extend *)

Lemma without_all_elem ns cs c : c ∈ without_all ns cs ↔ c ∉ ns ∧ c ∈ cs.
Proof. unfold without_all. by rewrite list_elem_of_filter. Qed.

Lemma without_all_NoDup ns cs : NoDup cs → NoDup (without_all ns cs).
Proof. apply NoDup_filter. Qed.

Lemma without_all_nil cs : without_all [] cs = cs.
Proof.
  unfold without_all. induction cs as [|c cs IH]; [done|].
  rewrite filter_cons_True by (by intros ?%elem_of_nil). by rewrite IH.
Qed.

Lemma without_all_snoc ns n cs :
  without n (without_all ns cs) = without_all (ns ++ [n]) cs.
Proof.
  unfold without, without_all. induction cs as [|c cs IH]; [done|].
  destruct (decide (c ∈ ns)) as [Hin|Hin].
  - rewrite (filter_cons_False _ c cs) by (by intros ?).
    rewrite (filter_cons_False _ c cs) by (intros H; apply H; set_solver). done.
  - rewrite (filter_cons_True _ c cs) by done.
    destruct (decide (c = n)) as [->|Hne].
    + rewrite filter_cons_False by (by intros ?).
      rewrite (filter_cons_False _ n cs) by (intros H; apply H; set_solver). done.
    + rewrite filter_cons_True by done.
      rewrite (filter_cons_True _ c cs) by set_solver. by rewrite IH.
Qed.

Lemma without_all_snoc_notin ns n cs :
  n ∉ cs → without_all (ns ++ [n]) cs = without_all ns cs.
Proof.
  intros Hn. rewrite <- without_all_snoc. apply without_notin.
  intros [_ ?]%without_all_elem. done.
Qed.

(** The nodes of [done] have been adopted, those of [rest] are to be *)
Lemma runs_adopt_all s self :
  linked s → is_Some (nodes s !! self) →
  ∀ rest done si,
    NoDup (done ++ rest) → Forall (λ n, is_Some (nodes s !! n)) rest →
    (∀ x, attr Parent si x
          = if decide (x ∈ done) then Some (Some self) else attr Parent s x) →
    (∀ x, attr Children si x = without_all done <$> attr Children s x) →
    runs (map_M (_adopt self) rest) si rest
         (λ x, if decide (x ∈ done ++ rest) then Some (Some self) else attr Parent s x)
         (λ x, without_all (done ++ rest) <$> attr Children s x).
Proof.
  intros Hl Hself rest.
  induction rest as [|n rest IH]; intros done si Hd Hall HP HK.
  - rewrite app_nil_r. by exists si.
  - apply Forall_cons in Hall as [[nd Hnd] Hall].
    assert (Hn : n ∉ done).
    { apply NoDup_app in Hd as (_ & Hdis & _). intros Hin. apply (Hdis n Hin). by left. }
    assert (Hndi : ∃ ndi, nodes si !! n = Some ndi ∧ Parent ndi = Parent nd).
    { apply (attr_Some_inv Parent). rewrite HP, decide_False by done.
      by apply attr_lookup. }
    destruct Hndi as (ndi & Hndi & Hpar).
    cbn [map_M]. eapply runs_bind.
    { apply (runs__adopt si self n ndi Hndi).
      - apply (is_Some_attr Children). rewrite HK.
        apply (is_Some_attr Children) in Hself as [cs ->]. simpl. eauto.
      - intros p Hp. rewrite Hpar in Hp. destruct Hl as (_ & H2 & H3).
        destruct (H2 n p) as (cs & Hcs & _);
          [by rewrite (attr_lookup Parent s n nd Hnd), Hp|].
        exists (without_all done cs). rewrite HK, Hcs. split; [done|].
        apply without_all_NoDup. by eapply H3. }
    intros s1 HP1 HK1; cbn beta in HP1, HK1.
    eapply runs_bind.
    { apply (IH (done ++ [n]) s1).
      - by rewrite <- app_assoc.
      - done.
      - intros x. rewrite HP1, HP. destruct (decide (x = n)) as [->|Hne].
        + rewrite decide_True; [done|]. set_solver.
        + destruct (decide (x ∈ done)).
          * rewrite decide_True; [done|]. set_solver.
          * rewrite decide_False; [done|]. set_solver.
      - intros x. rewrite HK1, HK, Hpar.
        destruct (attr Children s x) as [cs|] eqn:Hcs; [|by destruct (decide _)].
        simpl. destruct (decide (Parent nd = Some x)) as [Hp|Hp]; simpl.
        + by rewrite without_all_snoc.
        + rewrite without_all_snoc_notin; [done|].
          by eapply linked_only_parent. }
    intros s2 HP2 HK2; cbn beta in HP2, HK2.
    eapply runs_ext; [apply runs_ret| |].
    + intros x. rewrite HP2. by rewrite <- app_assoc.
    + intros x. rewrite HK2. by rewrite <- app_assoc.
Qed.

Lemma runs_extend s self ns :
  linked s → is_Some (nodes s !! self) → NoDup ns →
  Forall (λ n, is_Some (nodes s !! n)) ns →
  runs (extend self (Listed ns)) s tt
       (λ x, if decide (x ∈ ns) then Some (Some self) else attr Parent s x)
       (λ x, (λ cs, if decide (x = self) then without_all ns cs ++ ns
                    else without_all ns cs) <$> attr Children s x).
Proof.
  intros Hl Hself Hd Hall. unfold extend, adopt_nodes.
  eapply runs_bind.
  { apply (runs_adopt_all s self Hl Hself ns [] s); [done..| |].
    - intros x. by rewrite decide_False by (by intros ?%elem_of_nil).
    - intros x. destruct (attr Children s x); [|done]. simpl. by rewrite without_all_nil. }
  intros s1 HP1 HK1; cbn beta in HP1, HK1. cbn [app] in HP1, HK1.
  destruct Hself as [sd Hsd].
  eapply runs_bind.
  { apply (runs_set_Children s1 self (λ cs, cs ++ ns) (without_all ns (Children sd))).
    by rewrite HK1, (attr_lookup Children s self sd Hsd). }
  intros s2 HP2 HK2; cbn beta in HP2, HK2.
  eapply runs_ext.
  - apply runs_invalidate. apply (is_Some_attr Children). rewrite HK2.
    by rewrite decide_True.
  - intros x. cbn beta. by rewrite HP2, HP1.
  - intros x. cbn beta. rewrite HK2. destruct (decide (x = self)) as [->|].
    + by rewrite (attr_lookup Children s self sd Hsd).
    + by rewrite HK1.
Qed.

Lemma linked_extend s s' self ns :
  linked s → is_Some (nodes s !! self) → NoDup ns →
  (∀ x, attr Parent s' x = if decide (x ∈ ns) then Some (Some self) else attr Parent s x) →
  (∀ x, attr Children s' x
        = (λ cs, if decide (x = self) then without_all ns cs ++ ns
                 else without_all ns cs) <$> attr Children s x) →
  linked s'.
Proof.
  intros (H1 & H2 & H3) Hself Hns HP HK. split_and!.
  - intros p cs' c Hp Hc. rewrite HK in Hp. rewrite HP.
    destruct (attr Children s p) as [cs|] eqn:Hcs; [|done]. injection Hp as <-.
    destruct (decide (c ∈ ns)) as [Hcn|Hcn].
    + destruct (decide (p = self)) as [->|]; [done|].
      by apply without_all_elem in Hc as [? _].
    + eapply H1; [done|]. destruct (decide (p = self)).
      * apply elem_of_app in Hc as [Hc|Hc]; [|done].
        by apply without_all_elem in Hc as [_ ?].
      * by apply without_all_elem in Hc as [_ ?].
  - intros c p Hc. rewrite HP in Hc. rewrite HK. destruct (decide (c ∈ ns)) as [Hcn|Hcn].
    + injection Hc as [= <-]. apply (is_Some_attr Children) in Hself as [cs Hcs].
      rewrite Hcs. eexists. split; [done|]. rewrite decide_True by done.
      apply elem_of_app. by right.
    + destruct (H2 c p Hc) as (cs & Hcs & Hin). rewrite Hcs. eexists. split; [done|].
      assert (c ∈ without_all ns cs) by by apply without_all_elem.
      destruct (decide (p = self)); [|done]. apply elem_of_app. by left.
  - intros p cs' Hp. rewrite HK in Hp.
    destruct (attr Children s p) as [cs|] eqn:Hcs; [|done]. injection Hp as <-.
    pose proof (without_all_NoDup ns cs (H3 p cs Hcs)) as Hd.
    destruct (decide (p = self)); [|done].
    apply NoDup_app. split_and!; [done| |done].
    by intros x [Hx _]%without_all_elem.
Qed.

(** X15.  In a store whose Parent and Children attributes agree, [extend]
    with a list of different nodes that is a list of its own, not the
    Children list of a node, moves them all: each has the node as its
    Parent afterwards, they are its last children, in the order of the
    list, and they are in no other list of children.  No other Parent and
    no other list changes, and the attributes agree afterwards. *)
Theorem extend_moves_nodes s self ns :
  linked s → is_Some (nodes s !! self) → NoDup ns →
  Forall (λ n, is_Some (nodes s !! n)) ns →
  ∃ s', extend self (Listed ns) s = (Ok tt, s')
    ∧ (∀ x, attr Parent s' x
            = if decide (x ∈ ns) then Some (Some self) else attr Parent s x)
    ∧ (∀ x, attr Children s' x
            = (λ cs, if decide (x = self) then without_all ns cs ++ ns
                     else without_all ns cs) <$> attr Children s x)
    ∧ linked s'.
Proof.
  intros Hl Hself Hd Hall.
  destruct (runs_extend s self ns Hl Hself Hd Hall) as (s' & Hrun & HP & HK).
  exists s'. split_and!; [done..|]. by apply (linked_extend s s' self ns).
Qed.

Lemma extend_moves_nodes_witness :
  ∃ s', extend 4 (Listed [3; 2]) left_store = (Ok tt, s')
    ∧ (∀ x, attr Parent s' x
            = if decide (x ∈ [3; 2]) then Some (Some 4) else attr Parent left_store x)
    ∧ (∀ x, attr Children s' x
            = (λ cs, if decide (x = 4) then without_all [3; 2] cs ++ [3; 2]
                     else without_all [3; 2] cs) <$> attr Children left_store x)
    ∧ linked s'.
Proof.
  apply (extend_moves_nodes left_store 4 [3; 2]).
  - apply linkedb_linked. vm_compute. reflexivity.
  - eexists. reflexivity.
  - repeat constructor; set_solver.
  - repeat constructor; eexists; reflexivity.
Defined.

(** X16.  [extend] does not guard against a node that is listed twice: a
    node without parent that occurs twice in the list ends up twice among
    the children, so that Parent and Children no longer agree in the sense
    of [linked] (which [append], called twice, would have kept). *)
Theorem extend_repeated_node_twice s self n cs :
  linked s → attr Parent s n = Some None → attr Children s self = Some cs →
  ∃ s', extend self (Listed [n; n]) s = (Ok tt, s')
        ∧ attr Children s' self = Some (cs ++ [n; n])
        ∧ ¬ linked s'.
Proof.
  intros Hl (nd & Hnd & Hp)%attr_Some_inv Hcs.
  assert (Hself : is_Some (nodes s !! self)) by (apply (is_Some_attr Children); eauto).
  assert (Hn : n ∉ cs).
  { eapply linked_only_parent; [done..|]. by rewrite Hp. }
  assert (Hrun : runs (extend self (Listed [n; n])) s tt
            (λ x, if decide (x = n) then Some (Some self) else attr Parent s x)
            (λ x, if decide (x = self) then Some (cs ++ [n; n]) else attr Children s x)).
  { unfold extend, adopt_nodes. cbn [map_M].
    assert (Hadopt : runs (let* y := _adopt self n in
                           let* ys := (let* y := _adopt self n in
                                       let* ys := ret [] in ret (y :: ys)) in
                           ret (y :: ys)) s [n; n]
              (λ x, if decide (x = n) then Some (Some self) else attr Parent s x)
              (attr Children s)).
    { eapply runs_bind.
      { apply (runs__adopt s self n nd Hnd Hself). intros p. by rewrite Hp. }
      intros s1 HP1 HK1; cbn beta in HP1, HK1.
      assert (HK1' : ∀ x, attr Children s1 x = attr Children s x).
      { intros x. rewrite HK1. by rewrite decide_False by (by rewrite Hp). }
      assert (Hnd1 : ∃ nd1, nodes s1 !! n = Some nd1 ∧ Parent nd1 = Some self).
      { apply (attr_Some_inv Parent). rewrite HP1. by rewrite decide_True. }
      destruct Hnd1 as (nd1 & Hnd1 & Hp1).
      eapply runs_bind.
      { eapply runs_bind.
        { apply (runs__adopt s1 self n nd1 Hnd1).
          - apply (is_Some_attr Children). rewrite HK1'. by apply is_Some_attr.
          - intros p Hpp. rewrite Hp1 in Hpp. injection Hpp as <-.
            exists cs. rewrite HK1'. split; [done|].
            destruct Hl as (_ & _ & H3). by eapply H3. }
        intros s2 HP2 HK2; cbn beta in HP2, HK2.
        eapply runs_bind; [apply runs_ret|].
        intros s3 HP3 HK3; cbn beta in HP3, HK3.
        eapply runs_ext; [apply runs_ret| |].
        - intros x. rewrite HP3, HP2, HP1.
          instantiate (1 := λ x, if decide (x = n) then Some (Some self)
                                 else attr Parent s x).
          cbn beta. by destruct (decide (x = n)).
        - intros x. rewrite HK3, HK2, Hp1, HK1'.
          instantiate (1 := attr Children s).
          destruct (decide (Some self = Some x)) as [[= <-]|]; [|done].
          rewrite Hcs. simpl. by rewrite without_notin. }
      intros s4 HP4 HK4; cbn beta in HP4, HK4.
      eapply runs_ext; [apply runs_ret|done..]. }
    eapply runs_bind; [exact Hadopt|].
    intros s5 HP5 HK5; cbn beta in HP5, HK5.
    eapply runs_bind.
    { apply (runs_set_Children s5 self (λ cs, cs ++ [n; n]) cs). by rewrite HK5. }
    intros s6 HP6 HK6; cbn beta in HP6, HK6.
    eapply runs_ext.
    - apply runs_invalidate. apply (is_Some_attr Children). rewrite HK6.
      by rewrite decide_True.
    - intros x. cbn beta. by rewrite HP6, HP5.
    - intros x. cbn beta. rewrite HK6. destruct (decide (x = self)); [done|].
      by rewrite HK5. }
  destruct Hrun as (s' & Hrun & HP & HK). exists s'. split_and!; [done| |].
  - rewrite HK. by rewrite decide_True.
  - intros (_ & _ & H3). specialize (H3 self (cs ++ [n; n])).
    rewrite HK, decide_True in H3 by done. specialize (H3 eq_refl).
    apply NoDup_app in H3 as (_ & _ & H3). apply NoDup_cons in H3 as [H3 _].
    apply H3. by left.
Qed.

Lemma extend_repeated_node_twice_witness :
  ∃ s', extend 0 (Listed [3; 3]) ab_and_c = (Ok tt, s')
        ∧ attr Children s' 0 = Some ([1; 2] ++ [3; 3])
        ∧ ¬ linked s'.
Proof.
  apply (extend_repeated_node_twice ab_and_c 0 3 [1; 2]).
  - apply linkedb_linked. vm_compute. reflexivity.
  - reflexivity.
  - reflexivity.
Defined.

(** ** remove_deleted *)

(** [remove] touches two objects at most: the node it is called on and the
    child it takes out *)
Lemma modify_frame n f s r s' y :
  modify n f s = (r, s') → y ≠ n → nodes s' !! y = nodes s !! y.
Proof.
  unfold modify. destruct (nodes s !! n); intros [= <- <-] Hy; [|done].
  simpl. by rewrite lookup_insert_ne.
Qed.

Lemma _remove_node_frame self idx s r s' y :
  _remove_node self idx s = (r, s') → y ≠ self →
  (∀ c, r = Ok c → y ≠ c) →
  nodes s' !! y = nodes s !! y.
Proof.
  unfold _remove_node, invalidate_node_cache. intros Hrun Hy Hc.
  unfold bind in Hrun.
  destruct (modify self (set_node_cache ∅) s) as [[[]|e] s1] eqn:E1;
    [|injection Hrun as <- <-; by eapply modify_frame].
  pose proof (modify_frame _ _ _ _ _ y E1 Hy) as H1.
  unfold get, lift in Hrun. destruct (node s1 self) as [nd|e]; [|by injection Hrun as <- <-].
  unfold pure_res in Hrun. destruct (py_pop (Children nd) idx) as [[cs c]|e];
    [|by injection Hrun as <- <-].
  destruct (modify self (set_Children cs) s1) as [[[]|e] s2] eqn:E2;
    [|injection Hrun as <- <-; rewrite <- H1; by eapply modify_frame].
  pose proof (modify_frame _ _ _ _ _ y E2 Hy) as H2.
  destruct (modify c (set_Parent None) s2) as [[[]|e] s3] eqn:E3.
  - unfold ret in Hrun. injection Hrun as <- <-.
    rewrite <- H1, <- H2. eapply modify_frame; [done|]. by apply Hc.
  - injection Hrun as <- <-. unfold modify in E3.
    destruct (nodes s2 !! c); [done|]. injection E3 as <- <-. congruence.
Qed.

Lemma _remove_node_returns self idx s c s' :
  _remove_node self idx s = (Ok c, s') →
  ∃ cs j, attr Children s self = Some cs ∧ py_index (length cs) idx = Some j
          ∧ cs !! j = Some c.
Proof.
  unfold _remove_node, invalidate_node_cache. intros Hrun.
  unfold bind in Hrun.
  destruct (modify self (set_node_cache ∅) s) as [[[]|e] s1] eqn:E1; [|done].
  unfold modify in E1. destruct (nodes s !! self) as [sd|] eqn:Hsd; [|done].
  injection E1 as <-. unfold get, lift, node in Hrun. simpl in Hrun.
  rewrite lookup_insert_eq in Hrun. simpl in Hrun.
  unfold pure_res, py_pop in Hrun.
  destruct (py_index (length (Children sd)) idx) as [j|] eqn:Hidx; [|done].
  simpl in Hrun. destruct (Children sd !! j) as [c'|] eqn:Hj; [|done].
  simpl in Hrun. exists (Children sd), j.
  rewrite (attr_lookup Children s self sd Hsd). split_and!; [done..|].
  destruct (modify self _ _) as [[[]|e] s2]; [|done].
  destruct (modify c' _ _) as [[[]|e] s3]; [|done].
  unfold ret in Hrun. by injection Hrun as <- <-.
Qed.

Lemma remove_scan_Some n cs :
  ∀ i k, remove_scan n i cs = Some k → ∃ j, k = i + j ∧ cs !! j = Some n.
Proof.
  induction cs as [|y cs IH]; intros i k Hscan; [done|]. simpl in Hscan.
  destruct (decide (y = n)) as [->|Hne].
  - injection Hscan as <-. exists 0. split; [lia|done].
  - destruct (IH (S i) k Hscan) as (j & -> & Hj). exists (S j). split; [lia|done].
Qed.

Lemma py_index_nat_inv len j k : py_index len (Z.of_nat j) = Some k → k = j.
Proof.
  unfold py_index.
  replace (Z.of_nat j <? 0)%Z with false by (symmetry; apply Z.ltb_ge; lia).
  destruct (_ && _)%Z; [|done]. intros [= <-]. lia.
Qed.

Lemma remove_frame s p n r s' y :
  remove p n s = (r, s') → y ≠ p → y ≠ n → nodes s' !! y = nodes s !! y.
Proof.
  unfold remove. intros Hrun Hp Hn. unfold bind, get, lift, node in Hrun.
  destruct (nodes s !! p) as [pd|] eqn:Hpd; [|by injection Hrun as <- <-].
  cbn [or_raise] in Hrun.
  destruct (remove_scan n 0 (Children pd)) as [j|] eqn:Hscan.
  - destruct (_remove_node p (Z.of_nat j) s) as [[c|e] s1] eqn:E.
    + unfold ret in Hrun. injection Hrun as <- <-.
      eapply _remove_node_frame; [done..|]. intros c' [= <-].
      destruct (_remove_node_returns _ _ _ _ _ E) as (cs & j' & Hcs & Hidx & Hj).
      rewrite (attr_lookup Children s p pd Hpd) in Hcs. injection Hcs as <-.
      apply py_index_nat_inv in Hidx as ->.
      destruct (remove_scan_Some _ _ _ _ Hscan) as (j0 & -> & Hj0).
      cbn [Nat.add] in Hj. congruence.
    + injection Hrun as <- <-. eapply _remove_node_frame; [done..|]. by intros.
  - unfold invalidate_node_cache in Hrun.
    destruct (modify p (set_node_cache ∅) s) as [[[]|e] s1] eqn:E1.
    + unfold ret in Hrun. injection Hrun as <- <-. by eapply modify_frame.
    + injection Hrun as <- <-. by eapply modify_frame.
Qed.

Lemma without_all_disjoint D cs : (∀ c, c ∈ cs → c ∉ D) → without_all D cs = cs.
Proof.
  unfold without_all. induction cs as [|c cs IH]; intros Hdis; [done|].
  rewrite filter_cons_True by (apply Hdis; by left).
  rewrite IH; [done|]. intros c' Hc'. apply Hdis. by right.
Qed.

Lemma deleted_snoc f s self V i :
  deleted f s self (V ++ [i])
  = deleted f s self V ++ (if decide (i ≠ self ∧ f s i = true) then [i] else []).
Proof.
  unfold deleted. by rewrite filter_app.
Qed.

Lemma deleted_subseteq f s self V x : x ∈ deleted f s self V → x ∈ V.
Proof. unfold deleted. rewrite list_elem_of_filter. by intros [_ ?]. Qed.

Section RemoveDeleted.

Variable f : store → handle → bool.
Variable s : store.
Variable self : handle.
Hypothesis f_reads_its_node : ∀ s1 s2 x, nodes s1 !! x = nodes s2 !! x → f s1 x = f s2 x.
Hypothesis s_linked : linked s.

(** One turn of the loop, up to the point where the generator goes on *)
Lemma remove_deleted_visit V si i :
  visited f s self V si → i ∉ V → is_Some (nodes s !! i) →
  (i ≠ self → ∃ p, attr Parent s i = Some (Some p) ∧ p ∈ V) →
  ∃ s1,
    (if negb (i =? self) then
       let* del := lift (λ s, Ok (f s i)) in
       if del : bool then
         let* nd := get i in
         let* p := pure_res (or_raise AttributeError (Parent nd)) in
         let* _ := remove p i in
         ret tt
       else ret tt
     else ret tt) si = (Ok tt, s1)
    ∧ visited f s self (V ++ [i]) s1.
Proof.
  intros (HP & HK & HF) Hi [nd Hnd] Hpar.
  destruct (Nat.eqb_spec i self) as [->|Hne]; cbn [negb].
  { exists si. split; [done|]. unfold visited. rewrite deleted_snoc.
    rewrite decide_False by (by intros [? _]). rewrite app_nil_r.
    split_and!; [done..|]. intros x Hx. apply HF. set_solver. }
  unfold bind at 1, lift at 1.
  rewrite (f_reads_its_node si s i (HF i Hi)).
  destruct (f s i) eqn:Hdel.
  - destruct (Hpar Hne) as (p & Hp & HpV).
    assert (Hndi : nodes si !! i = Some nd) by by rewrite HF.
    rewrite (bind_Ok _ _ _ _ _ (get_Ok _ _ _ Hndi)).
    pose proof Hp as Hp'. rewrite (attr_lookup Parent s i nd Hnd) in Hp'.
    injection Hp' as Hp'. rewrite Hp'. cbn [or_raise].
    unfold pure_res at 1. unfold bind at 1.
    destruct s_linked as (H1 & H2 & H3).
    destruct (H2 i p Hp) as (cs & Hcs & Hin).
    destruct (runs_remove_found si p i (without_all (deleted f s self V) cs))
      as (s1 & Hrun & HP1 & HK1).
    { by rewrite HK, Hcs. }
    { apply without_all_NoDup. by eapply H3. }
    { apply without_all_elem. split; [|done]. by intros ?%deleted_subseteq. }
    { by rewrite Hndi. }
    rewrite (bind_Ok _ _ _ _ _ Hrun). exists s1. split; [done|].
    unfold visited. rewrite deleted_snoc, decide_True by done. split_and!.
    + intros x. rewrite HP1, HP. destruct (decide (x = i)) as [->|Hxi].
      * rewrite decide_True; [done|]. set_solver.
      * destruct (decide (x ∈ deleted f s self V)).
        -- rewrite decide_True; [done|]. set_solver.
        -- rewrite decide_False; [done|]. set_solver.
    + intros x. rewrite HK1, HK. destruct (decide (x = p)) as [->|Hxp].
      * rewrite Hcs. simpl. by rewrite without_all_snoc.
      * destruct (attr Children s x) as [cs'|] eqn:Hcs'; [|done]. simpl.
        rewrite without_all_snoc_notin; [done|].
        eapply linked_only_parent; [done..|]. rewrite Hp'. congruence.
    + intros x Hx. apply not_elem_of_app in Hx as [HxV Hxi].
      rewrite (remove_frame _ _ _ _ _ x Hrun).
      * by apply HF.
      * by intros ->.
      * intros ->. apply Hxi. by left.
  - exists si. split; [done|]. unfold visited. rewrite deleted_snoc.
    rewrite decide_False by (intros [_ ?]; congruence). rewrite app_nil_r.
    split_and!; [done..|]. intros x Hx. apply HF. set_solver.
Qed.

Lemma remove_deleted_loop_S fuel stack :
  remove_deleted_loop (S fuel) self f stack =
    match py_pop_last stack with
    | None => ret tt
    | Some (stack, curr) =>
        let* _ :=
          if negb (curr =? self) then
            let* del := lift (λ s, Ok (f s curr)) in
            if del : bool then
              let* nd := get curr in
              let* p := pure_res (or_raise AttributeError (Parent nd)) in
              let* _ := remove p curr in
              ret tt
            else ret tt
          else ret tt in
        let* cs := lift (λ s, children_of s curr) in
        remove_deleted_loop fuel self f (if nonempty cs then stack ++ rev cs else stack)
    end.
Proof. done. Qed.

(** With the roots of a list of subtrees on the stack, the first on top,
    the loop visits their nodes in preorder *)
Lemma remove_deleted_forest n :
  ∀ ts V si fuel,
    forest_size ts ≤ n → forest_size ts < fuel →
    Forall (rooted s) ts → NoDup (flat_map ids ts) →
    (∀ x, x ∈ flat_map ids ts → x ∉ V) →
    (∀ t, t ∈ ts → root_id t ≠ self →
          ∃ p, attr Parent s (root_id t) = Some (Some p) ∧ p ∈ V) →
    visited f s self V si →
    ∃ s', remove_deleted_loop fuel self f (rev (map root_id ts)) si = (Ok tt, s')
          ∧ visited f s self (V ++ flat_map ids ts) s'.
Proof.
  induction n as [|n IH]; intros ts V si fuel Hn Hfuel Hts Hd Hdis Hpar Hvis.
  - destruct ts as [|t ts];
      [|pose proof (size_pos t); unfold forest_size in Hn; simpl in Hn; lia].
    destruct fuel; [lia|]. exists si. cbn [flat_map]. by rewrite app_nil_r.
  - destruct ts as [|[i ks] ts].
    { destruct fuel; [lia|]. exists si. cbn [flat_map]. by rewrite app_nil_r. }
    destruct fuel as [|fuel]; [lia|].
    rewrite remove_deleted_loop_S. cbn [map rev root_id]. rewrite py_pop_last_snoc.
    apply Forall_cons in Hts as [[p Ht] Hts].
    pose proof Ht as (nd & Hnd & Hp & Hc & Hks)%shape_inv.
    cbn [flat_map ids] in Hd, Hdis.
    apply NoDup_cons in Hd as [Hi Hd].
    destruct (remove_deleted_visit V si i Hvis) as (s1 & Hstep & Hvis1).
    { apply Hdis. by left. }
    { eauto. }
    { intros Hne. apply (Hpar (Node i ks)); [by left|done]. }
    rewrite (bind_Ok _ _ _ _ _ Hstep).
    assert (Hcs1 : children_of s1 i = Ok (map root_id ks)).
    { destruct Hvis1 as (_ & HK1 & _). specialize (HK1 i).
      rewrite (attr_lookup Children s i nd Hnd), Hc in HK1. simpl in HK1.
      rewrite without_all_disjoint in HK1.
      - apply attr_Some_inv in HK1 as (nd1 & Hnd1 & Hc1).
        unfold children_of, node. rewrite Hnd1. simpl. by rewrite Hc1.
      - intros c (k & -> & Hk)%list_elem_of_fmap Hin.
        apply deleted_subseteq in Hin.
        apply elem_of_app in Hin as [Hin|Hin%list_elem_of_singleton].
        + apply (Hdis (root_id k)); [|done]. right. apply elem_of_app. left.
          eapply kid_ids_in_forest; [done|apply root_in_ids].
        + apply Hi. rewrite <- Hin. apply elem_of_app. left.
          eapply kid_ids_in_forest; [done|apply root_in_ids]. }
    unfold bind at 1, lift at 1. rewrite Hcs1.
    assert (Hstack : (if nonempty (map root_id ks)
                      then rev (map root_id ts) ++ rev (map root_id ks)
                      else rev (map root_id ts)) = rev (map root_id (ks ++ ts))).
    { rewrite map_app, rev_app_distr. destruct ks; simpl; [by rewrite app_nil_r|done]. }
    rewrite Hstack.
    unfold forest_size in Hn, Hfuel. simpl in Hn, Hfuel.
    destruct (IH (ks ++ ts) (V ++ [i]) s1 fuel) as (s' & Hrun & Hvis').
    + unfold forest_size. rewrite map_app, list_sum_app. lia.
    + unfold forest_size. rewrite map_app, list_sum_app. lia.
    + apply Forall_app. split; [|done]. eapply rooted_kids. by exists p.
    + by rewrite flat_map_app.
    + intros x Hx. rewrite flat_map_app in Hx.
      intros [HxV|Hxi%list_elem_of_singleton]%elem_of_app.
      * apply (Hdis x); [by right|done].
      * by subst x.
    + intros t [Hk|Ht']%elem_of_app Hne.
      * exists i. split; [|set_solver].
        rewrite Forall_forall in Hks. specialize (Hks t Hk). destruct t as [ti tks].
        apply shape_inv in Hks as (td & Htd & Htp & _).
        cbn [root_id]. by rewrite (attr_lookup Parent s ti td Htd), Htp.
      * destruct (Hpar t) as (q & Hq & HqV); [by right|done|].
        exists q. split; [done|set_solver].
    + done.
    + exists s'. split; [done|]. cbn [flat_map ids].
      rewrite flat_map_app in Hvis'.
      by rewrite <- app_assoc in Hvis'.
Qed.

End RemoveDeleted.

Lemma linked_without_all s s' D :
  linked s →
  (∀ x, attr Parent s' x = if decide (x ∈ D) then Some None else attr Parent s x) →
  (∀ x, attr Children s' x = without_all D <$> attr Children s x) →
  linked s'.
Proof.
  intros (H1 & H2 & H3) HP HK. split_and!.
  - intros p cs' c Hp Hc. rewrite HK in Hp. rewrite HP.
    destruct (attr Children s p) as [cs|] eqn:Hcs; [|done]. injection Hp as <-.
    apply without_all_elem in Hc as [HcD Hc]. rewrite decide_False by done.
    by eapply H1.
  - intros c p Hc. rewrite HP in Hc. destruct (decide (c ∈ D)); [done|].
    destruct (H2 c p Hc) as (cs & Hcs & Hin). rewrite HK, Hcs. eexists. split; [done|].
    by apply without_all_elem.
  - intros p cs' Hp. rewrite HK in Hp.
    destruct (attr Children s p) as [cs|] eqn:Hcs; [|done]. injection Hp as <-.
    apply without_all_NoDup. by eapply H3.
Qed.

(** X17.  Let the store hold a tree at the node, with Parent and Children
    in agreement, and let the test [f] read nothing but the object of the
    node it is given.  Then [remove_deleted] returns, and what it has done
    is this: every node of the tree other than the starting node for which
    [f] holds has lost its Parent and is gone from the list of children it
    was in; nothing else has changed among Parent and Children (so a node
    below a removed node stays where it is unless [f] holds for it too); and
    Parent and Children agree afterwards. *)
Theorem remove_deleted_detaches f s self t fuel :
  holds s self t → linked s → size t < fuel →
  (∀ s1 s2 x, nodes s1 !! x = nodes s2 !! x → f s1 x = f s2 x) →
  ∃ s', remove_deleted fuel self f s = (Ok tt, s')
    ∧ (∀ x, attr Parent s' x
            = if decide (x ∈ deleted f s self (ids t)) then Some None
              else attr Parent s x)
    ∧ (∀ x, attr Children s' x
            = without_all (deleted f s self (ids t)) <$> attr Children s x)
    ∧ linked s'.
Proof.
  intros (Hr & [p Hs] & Hd) Hl Hfuel Hf. unfold remove_deleted.
  destruct (remove_deleted_forest f s self Hf Hl (forest_size [t]) [t] [] s fuel)
    as (s' & Hrun & HP & HK & _).
  - done.
  - unfold forest_size. simpl. lia.
  - repeat constructor. by exists p.
  - cbn [flat_map]. by rewrite app_nil_r.
  - intros x _ ?%elem_of_nil. done.
  - intros t' ->%list_elem_of_singleton Hne. done.
  - split_and!; [done| |done]. intros x.
    destruct (attr Children s x); [|done]. simpl. by rewrite without_all_nil.
  - cbn [map rev app] in Hrun. rewrite Hr in Hrun.
    cbn [flat_map app] in HP, HK. rewrite app_nil_r in HP, HK.
    exists s'. split_and!; [done..|]. by eapply linked_without_all.
Qed.

Lemma remove_deleted_detaches_witness :
  ∃ s', remove_deleted 10 0 (λ s x, bool_decide (attr Name s x = Some (Some "B")))
          left_store = (Ok tt, s')
    ∧ attr Parent s' 1 = Some None
    ∧ attr Children s' 0 = Some [4]
    ∧ attr Children s' 1 = Some [2; 3]
    ∧ linked s'.
Proof.
  destruct (remove_deleted_detaches
              (λ s x, bool_decide (attr Name s x = Some (Some "B")))
              left_store 0 left_tree 10) as (s' & Hrun & HP & HK & Hl).
  - apply holdsb_holds. vm_compute. reflexivity.
  - apply linkedb_linked. vm_compute. reflexivity.
  - simpl. lia.
  - intros s1 s2 x Hx. unfold attr. by rewrite Hx.
  - assert (Hdel : deleted (λ s x, bool_decide (attr Name s x = Some (Some "B")))
                     left_store 0 (ids left_tree) = [1]) by (vm_compute; reflexivity).
    rewrite Hdel in HP, HK. exists s'. split_and!; [done| | | |done].
    + rewrite HP. reflexivity.
    + rewrite HK. reflexivity.
    + rewrite HK. reflexivity.
Defined.

(** ** find: the cache is built once and answers from then on *)

Lemma named_elem s l name n :
  (name, n) ∈ named s l ↔ n ∈ l ∧ attr Name s n = Some (Some name).
Proof.
  unfold named. rewrite list_elem_of_omap. split.
  - intros (x & Hx & Heq). destruct (attr Name s x) as [[nm|]|] eqn:E; try done.
    by injection Heq as <- <-.
  - intros [Hn Hname]. exists n. split; [done|]. by rewrite Hname.
Qed.

Lemma find_fills_cache s self t fuel name :
  holds s self t → size t < fuel →
  attr _node_cache s self = Some ∅ →
  NoDup (named s (ids t)).*1 →
  find fuel self (ByName name) s
  = (or_raise MissingNodeError
       ((list_to_map (named s (ids t)) : gmap string handle) !! name),
     with_cache s self (list_to_map (named s (ids t)))).
Proof.
  intros Ht Hfuel Hc Hd. unfold find.
  rewrite (bind_Ok _ _ _ _ _ (create_node_cache_unique s self t fuel Ht Hfuel Hc Hd)).
  destruct (holds_self _ _ _ Ht) as [me Hme].
  rewrite (bind_Ok _ _ _ _ _ (get_Ok _ _ _ (with_cache_lookup_self _ _ _ _ Hme))).
  cbn [_node_cache set_node_cache]. by destruct (_ !! name).
Qed.

Lemma find_answers_from_cache s self me fuel name :
  nodes s !! self = Some me → _node_cache me ≠ ∅ →
  find fuel self (ByName name) s
  = (or_raise MissingNodeError (_node_cache me !! name), s).
Proof.
  intros Hme Hne.
  assert (Hc : create_node_cache fuel self s = (Ok tt, s)).
  { unfold create_node_cache.
    rewrite (bind_Ok _ _ _ _ _ (get_Ok _ _ _ Hme)).
    by rewrite bool_decide_eq_false_2 by done. }
  unfold find. rewrite (bind_Ok _ _ _ _ _ Hc).
  rewrite (bind_Ok _ _ _ _ _ (get_Ok _ _ _ Hme)).
  by destruct (_ !! name).
Qed.

Lemma with_cache_same_tree s self c : same_tree s (with_cache s self c).
Proof. repeat split; intros n; by rewrite with_cache_attr. Qed.

(** X18.  On a tree without repeated names whose cache is empty, [find]
    by name returns the node of the tree that carries the name, for every
    named node of the tree, and raises MissingNodeError for a name that no
    node of the tree carries.  The first call builds the cache and changes
    nothing else; a later call with a name that was found gives the same
    answer without changing the store.  A node given in place of a name is
    handed back as it is. *)
Theorem find_round_trip s self t fuel :
  holds s self t → size t < fuel →
  attr _node_cache s self = Some ∅ →
  NoDup (named s (ids t)).*1 →
  ∃ s',
    (∀ n name, n ∈ ids t → attr Name s n = Some (Some name) →
       find fuel self (ByName name) s = (Ok n, s')
       ∧ find fuel self (ByName name) s' = (Ok n, s'))
    ∧ (∀ name, (∀ n, n ∈ ids t → attr Name s n ≠ Some (Some name)) →
         find fuel self (ByName name) s = (Raise MissingNodeError, s'))
    ∧ same_tree s s'
    ∧ ∀ n, find fuel self (ByNode n) s = (Ok n, s).
Proof.
  intros Ht Hfuel Hc Hd.
  set (M := list_to_map (named s (ids t)) : gmap string handle).
  exists (with_cache s self M). split_and!.
  - intros n name Hn Hname.
    assert (HM : M !! name = Some n).
    { apply elem_of_list_to_map_1; [done|]. by apply named_elem. }
    split.
    + rewrite (find_fills_cache s self t) by done. fold M. by rewrite HM.
    + destruct (holds_self _ _ _ Ht) as [me Hme].
      rewrite (find_answers_from_cache _ self (set_node_cache M me)).
      * cbn [_node_cache set_node_cache]. by rewrite HM.
      * by apply with_cache_lookup_self.
      * cbn [_node_cache set_node_cache]. intros Heq. by rewrite Heq in HM.
  - intros name Hnone. rewrite (find_fills_cache s self t) by done. fold M.
    assert (HM : M !! name = None).
    { apply not_elem_of_list_to_map_1. intros ([nm n] & Heq & Hin)%list_elem_of_fmap.
      simpl in Heq. subst nm. apply named_elem in Hin as [Hn Hname].
      by apply (Hnone n). }
    by rewrite HM.
  - apply with_cache_same_tree.
  - done.
Qed.

Lemma find_round_trip_witness :
  ∃ s',
    (∀ n name, n ∈ ids left_tree → attr Name left_store n = Some (Some name) →
       find 10 0 (ByName name) left_store = (Ok n, s')
       ∧ find 10 0 (ByName name) s' = (Ok n, s'))
    ∧ (∀ name, (∀ n, n ∈ ids left_tree → attr Name left_store n ≠ Some (Some name)) →
         find 10 0 (ByName name) left_store = (Raise MissingNodeError, s'))
    ∧ same_tree left_store s'
    ∧ ∀ n, find 10 0 (ByNode n) left_store = (Ok n, left_store).
Proof.
  apply (find_round_trip left_store 0 left_tree 10).
  - apply holdsb_holds. vm_compute. reflexivity.
  - simpl. lia.
  - reflexivity.
  - vm_compute. repeat constructor; set_solver.
Defined.

(** ** prune on a tree that needs no pruning *)

Lemma child_counts_tree s t p :
  shape s p t →
  map_res (λ n, let? nd := node s n in Ok (n, length (Children nd))) (ids t)
  = Ok (map (λ k, (root_id k, length (kids_of k))) (subtrees t)).
Proof.
  revert p. induction t as [i ks IH] using tree_ind'. intros p Hs.
  apply shape_inv in Hs as (nd & Hnd & _ & Hc & Hks).
  cbn [ids subtrees map_res map root_id kids_of]. unfold node at 1. rewrite Hnd.
  cbn [or_raise rbind]. rewrite Hc, length_map.
  assert (Hforest :
    map_res (λ n, let? nd := node s n in Ok (n, length (Children nd))) (flat_map ids ks)
    = Ok (map (λ k, (root_id k, length (kids_of k))) (flat_map subtrees ks))).
  { clear nd Hnd Hc. induction ks as [|k ks IHks]; [done|].
    apply Forall_cons in IH as [IHk IH]. apply Forall_cons in Hks as [Hk Hks].
    cbn [flat_map]. rewrite map_res_app, (IHk _ Hk), (IHks IH Hks).
    cbn [rbind]. by rewrite map_app. }
  by rewrite Hforest.
Qed.

Lemma child_counts s ks :
  Forall (rooted s) ks →
  map_res (λ n, let? nd := node s n in Ok (n, length (Children nd))) (flat_map ids ks)
  = Ok (map (λ k, (root_id k, length (kids_of k))) (flat_map subtrees ks)).
Proof.
  induction 1 as [|k ks [p Hk] _ IH]; [done|].
  cbn [flat_map]. rewrite map_res_app, (child_counts_tree _ _ _ Hk), IH. cbn [rbind].
  by rewrite map_app.
Qed.

Lemma filter_unary_nil (l : list tree) :
  (∀ k, k ∈ l → length (kids_of k) ≠ 1) →
  filter (λ x : handle * nat, x.2 = 1) (map (λ k, (root_id k, length (kids_of k))) l) = [].
Proof.
  induction l as [|k l IH]; intros Hall; [done|]. cbn [map].
  rewrite filter_cons_False by (simpl; apply Hall; by left).
  apply IH. intros k' Hk'. apply Hall. by right.
Qed.

(** X19.  On a tree in which no node below the starting node has exactly
    one child, [prune] removes nothing: it returns, and all it has done is
    to empty the name cache of the starting node. *)
Theorem prune_without_single_children s self t fuel :
  holds s self t → size t < fuel →
  (∀ k, k ∈ flat_map subtrees (kids_of t) → length (kids_of k) ≠ 1) →
  prune fuel self s = (Ok tt, with_cache s self ∅).
Proof.
  intros Ht Hfuel Hall. unfold prune.
  unfold bind at 1, lift at 1. unfold traverse.
  rewrite (preorder_holds s self t false) by done.
  destruct (holds_inv _ _ _ Ht) as (p & ks & -> & Hs & _).
  cbn [kids_of] in *.
  unfold bind at 1, lift at 1.
  rewrite (child_counts s ks) by (eapply rooted_kids; by exists p).
  rewrite filter_unary_nil by done. cbn [fmap list_fmap for_each].
  unfold bind at 1, ret at 1.
  apply shape_inv in Hs as (nd & Hnd & _).
  by apply (invalidate_with_cache s self nd).
Qed.

Lemma prune_without_single_children_witness :
  prune 10 0 left_store = (Ok tt, with_cache left_store 0 ∅).
Proof.
  apply (prune_without_single_children left_store 0 left_tree 10).
  - apply holdsb_holds. vm_compute. reflexivity.
  - simpl. lia.
  - intros k Hk. simpl in Hk.
    repeat (apply elem_of_cons in Hk as [->|Hk]; [simpl; lia|]).
    by apply elem_of_nil in Hk.
Defined.

(** ** tip_tip_distances with branch lengths *)

Lemma tip_tip_distances_tree fuel self endpoints default_length :
  preserves same_tree (tip_tip_distances fuel self endpoints default_length).
Proof.
  unfold tip_tip_distances, sweep_node, update_result, start_stop, start_of.
  repeat first
    [ apply find_tree | preserves_modify_tree | preserves_step
    | match goal with
      | acc : (_ * _ * _)%type |- _ => destruct acc as [[? ?] ?]
      | acc : (_ * _)%type |- _ => destruct acc as [? ?]
      end ].
Qed.

(** X20.  Called without endpoints on a tree that the store holds,
    [tip_tip_distances] gives, for two tips of the tree, the sum of the
    branch lengths along the path that joins them, where a branch whose
    length is None counts [default_length]; this for branch lengths that
    are not negative and together at most 2^53, so that every sum the
    method forms in its float arrays is exact.  The names, lengths,
    parents and children of all nodes are the same after the call as
    before it, whatever the endpoints and whether the call returns or
    raises. *)
Theorem tip_tip_distances_sums_branch_lengths s self t fuel default_length :
  holds s self t → 2 * size t < fuel →
  (∀ c, c ∈ flat_map ids (kids_of t) → (0 <= length_or s default_length c)%Z) →
  (sumZ (map (length_or s default_length) (flat_map ids (kids_of t))) <= 2 ^ 53)%Z →
  (∃ m s', tip_tip_distances fuel self None default_length s
           = (Ok (m, tips_below t), s')
     ∧ ∀ i j a b e, tips_below t !! i = Some a → tips_below t !! j = Some b →
         joined (length_or s default_length) t a b e → mat_get m i j = Some e)
  ∧ ∀ endpoints, same_tree s (tip_tip_distances fuel self endpoints default_length s).2.
Proof.
  intros Ht Hfuel _ _. split.
  - destruct (tip_tip_distances_run s self t fuel default_length Ht Hfuel)
      as (m & s' & Hrun & _ & _ & _ & Hdist).
    by exists m, s'.
  - intros endpoints. apply tip_tip_distances_tree.
Qed.

Lemma tip_tip_distances_sums_branch_lengths_witness :
  (∃ m s', tip_tip_distances 20 0 None 1 left_store = (Ok (m, tips_below left_tree), s')
     ∧ ∀ i j a b e, tips_below left_tree !! i = Some a → tips_below left_tree !! j = Some b →
         joined (length_or left_store 1) left_tree a b e → mat_get m i j = Some e)
  ∧ ∀ endpoints, same_tree left_store (tip_tip_distances 20 0 endpoints 1 left_store).2.
Proof.
  apply (tip_tip_distances_sums_branch_lengths left_store 0 left_tree 20 1).
  - apply holdsb_holds. vm_compute. reflexivity.
  - simpl. lia.
  - intros c Hc. simpl in Hc.
    repeat (apply elem_of_cons in Hc as [->|Hc]; [by vm_compute|]).
    by apply elem_of_nil in Hc.
  - by vm_compute.
Defined.

(** ** extend with the Children list of a node *)

Lemma evens_cons {A} (x : A) l : evens (x :: l) = x :: odds l.
Proof. by destruct l. Qed.

Lemma odds_cons {A} (x : A) l : odds (x :: l) = evens l.
Proof. done. Qed.

Lemma evens_odds_subseteq {A} (l : list A) : evens l ⊆ l ∧ odds l ⊆ l.
Proof.
  induction l as [|x l [IHe IHo]]; [done|].
  rewrite evens_cons, odds_cons. split; set_solver.
Qed.

Lemma filter_ext_elem {A} (P Q : A → Prop) `{!∀ x, Decision (P x)} `{!∀ x, Decision (Q x)}
    (l : list A) :
  (∀ x, x ∈ l → P x ↔ Q x) → filter P l = filter Q l.
Proof.
  induction l as [|x l IH]; intros Hext; [done|].
  assert (Hx : P x ↔ Q x) by (apply Hext; by left).
  assert (Hl : filter P l = filter Q l).
  { apply IH. intros y Hy. apply Hext. by right. }
  destruct (decide (P x)) as [HP|HP].
  - rewrite !filter_cons_True by tauto. by f_equal.
  - by rewrite !filter_cons_False by tauto.
Qed.

Lemma without_all_evens_odds (cs : list handle) :
  NoDup cs →
  without_all (evens cs) cs = odds cs ∧ without_all (odds cs) cs = evens cs.
Proof.
  induction cs as [|x l IH]; intros Hd; [done|].
  apply NoDup_cons in Hd as [Hx Hl]. destruct (IH Hl) as [IH1 IH2].
  destruct (evens_odds_subseteq l) as [He Ho].
  rewrite evens_cons, odds_cons. unfold without_all in *. split.
  - rewrite filter_cons_False by (intros H; apply H; by left).
    rewrite <- IH2. apply filter_ext_elem. intros c Hc.
    rewrite not_elem_of_cons. split; [by intros [_ ?]|].
    intros H. split; [|done]. by intros ->.
  - rewrite filter_cons_True by (intros H; apply Hx; by apply He).
    by rewrite IH1.
Qed.

Lemma without_middle (kept rest : list handle) n :
  NoDup (kept ++ n :: rest) → without n (kept ++ n :: rest) = kept ++ rest.
Proof.
  intros Hd. rewrite <- (delete_NoDup _ (length kept)); [apply delete_middle|done|].
  by apply list_lookup_middle.
Qed.

(** [map] over the live list adopts the node at position 0, which leaves
    the list; the node that was next is at position 0 then and is passed
    over, and so on: the nodes adopted are every other node of the list. *)
Lemma adopt_live_every_other self owner :
  ∀ fuel kept rest i si,
    attr Children si owner = Some (kept ++ rest) → NoDup (kept ++ rest) →
    (∀ n, n ∈ rest → attr Parent si n = Some (Some owner)) →
    is_Some (nodes si !! self) →
    length kept ≤ i → (rest ≠ [] → i = length kept) → length rest < fuel →
    adopt_live fuel self owner i si = map_M (_adopt self) (evens rest) si.
Proof.
  induction fuel as [|fuel IH]; intros kept rest i si HK Hd HP Hself Hi Hi' Hfuel; [lia|].
  cbn [adopt_live].
  destruct (attr_Some_inv _ _ _ _ HK) as (od & Hod & HC).
  rewrite (bind_Ok _ _ _ _ _ (get_Ok _ _ _ Hod)), HC.
  destruct rest as [|n rest'].
  { rewrite app_nil_r. rewrite lookup_ge_None_2 by lia. done. }
  rewrite (Hi' ltac:(done)), list_lookup_middle by done.
  rewrite evens_cons. cbn [map_M].
  destruct (attr_Some_inv _ _ _ _ (HP n ltac:(by left))) as (nd & Hnd & Hp).
  destruct (runs__adopt si self n nd Hnd Hself) as (si' & Hrun & HP' & HK').
  { intros p Hp'. rewrite Hp in Hp'. injection Hp' as <-. eauto. }
  rewrite !(bind_Ok _ _ _ _ _ Hrun).
  assert (HK1 : attr Children si' owner = Some (kept ++ rest')).
  { rewrite HK', decide_True by done. rewrite HK. cbn [fmap option_fmap option_map].
    by rewrite without_middle. }
  assert (Hd1 : NoDup (kept ++ rest')).
  { rewrite <- (without_middle kept rest' n Hd). by apply without_NoDup. }
  assert (Hn : n ∉ rest').
  { apply NoDup_app in Hd as (_ & _ & Hd). by apply NoDup_cons in Hd as [? _]. }
  assert (HP1 : ∀ m, m ∈ rest' → attr Parent si' m = Some (Some owner)).
  { intros m Hm. rewrite HP', decide_False by (by intros ->). apply HP. by right. }
  assert (Hself1 : is_Some (nodes si' !! self)).
  { apply (is_Some_attr Parent). rewrite HP'. destruct (decide (self = n)); [done|].
    by apply is_Some_attr. }
  simpl in Hfuel.
  assert (Hgo : adopt_live fuel self owner (S (length kept)) si'
                = map_M (_adopt self) (odds rest') si').
  { destruct rest' as [|m r].
    - apply (IH kept [] (S (length kept)) si'); try done; simpl; lia.
    - rewrite odds_cons.
      apply (IH (kept ++ [m]) r (S (length kept)) si').
      + by rewrite <- app_assoc.
      + by rewrite <- app_assoc.
      + intros x Hx. apply HP1. by right.
      + done.
      + rewrite length_app. simpl. lia.
      + intros _. rewrite length_app. simpl. lia.
      + simpl in Hfuel. lia. }
  unfold bind. by rewrite Hgo.
Qed.

(** X21.  Given the Children list of a node itself, as in
    [new.extend(old.Children)], [extend] does what it does when given every
    other node of that list, beginning with the first: each adoption takes
    its node out of the list that [map] is walking, and the node that moves
    up into its place is passed over.  In a store whose Parent and Children
    attributes agree the call returns; the nodes at the positions 1, 3, 5,
    ... of the list stay with their parent, the others have the node
    [extend] was called on as their Parent, and the attributes agree
    afterwards. *)
Theorem extend_with_live_children s self owner cs :
  linked s → is_Some (nodes s !! self) → attr Children s owner = Some cs →
  extend self (ChildrenOf owner) s = extend self (Listed (evens cs)) s
  ∧ ∃ s', extend self (ChildrenOf owner) s = (Ok tt, s')
      ∧ attr Children s' owner
        = Some (odds cs ++ if decide (owner = self) then evens cs else [])
      ∧ (∀ n, n ∈ evens cs → attr Parent s' n = Some (Some self))
      ∧ (∀ n, n ∈ odds cs → attr Parent s' n = Some (Some owner))
      ∧ linked s'.
Proof.
  intros Hl Hself HK.
  pose proof Hl as (Hpar & _ & Hnd).
  pose proof (Hnd _ _ HK) as Hd.
  destruct (without_all_evens_odds cs Hd) as [Hodds Hevens].
  destruct (evens_odds_subseteq cs) as [He Ho].
  assert (Heq : extend self (ChildrenOf owner) s = extend self (Listed (evens cs)) s).
  { assert (Had : adopt_nodes self (ChildrenOf owner) s
                  = adopt_nodes self (Listed (evens cs)) s).
    { unfold adopt_nodes.
      destruct (attr_Some_inv _ _ _ _ HK) as (od & Hod & HC).
      rewrite (bind_Ok _ _ _ _ _ (get_Ok _ _ _ Hod)), HC.
      apply (adopt_live_every_other self owner (S (length cs)) [] cs 0 s);
        try done; try (simpl; lia).
      intros n Hn. by eapply Hpar. }
    unfold extend, bind. by rewrite Had. }
  split; [done|]. rewrite Heq.
  assert (Hde : NoDup (evens cs)).
  { rewrite <- Hevens. by apply without_all_NoDup. }
  assert (Hin : Forall (λ n, is_Some (nodes s !! n)) (evens cs)).
  { apply Forall_forall. intros n Hn. eapply linked_child_in_store; [done..|]. by apply He. }
  destruct (runs_extend s self (evens cs) Hl Hself Hde Hin) as (s' & Hrun & HP' & HK').
  exists s'. split_and!.
  - done.
  - rewrite HK', HK. cbn [fmap option_fmap option_map]. rewrite Hodds.
    destruct (decide (owner = self)); [done|by rewrite app_nil_r].
  - intros n Hn. by rewrite HP', decide_True.
  - intros n Hn. rewrite HP'. rewrite <- Hodds in Hn.
    apply without_all_elem in Hn as [Hne Hn]. rewrite decide_False by done.
    by eapply Hpar.
  - by apply (linked_extend s s' self (evens cs)).
Qed.

Lemma extend_with_live_children_witness :
  extend 4 (ChildrenOf 1) left_store = extend 4 (Listed (evens [2; 3])) left_store
  ∧ ∃ s', extend 4 (ChildrenOf 1) left_store = (Ok tt, s')
      ∧ attr Children s' 1
        = Some (odds [2; 3] ++ if decide (1 = 4) then evens [2; 3] else [])
      ∧ (∀ n, n ∈ evens [2; 3] → attr Parent s' n = Some (Some 4))
      ∧ (∀ n, n ∈ odds [2; 3] → attr Parent s' n = Some (Some 1))
      ∧ linked s'.
Proof.
  apply (extend_with_live_children left_store 4 1 [2; 3]).
  - apply linkedb_linked. vm_compute. reflexivity.
  - vm_compute. eauto.
  - reflexivity.
Defined.

(** ** lowest_common_ancestor on tips *)

(** *** A tree and the way up from one of its subtrees *)

Lemma plug_app f c1 c2 : plug f (c1 ++ c2) = plug (plug f c1) c2.
Proof.
  revert f. induction c1 as [|[i l r] c1 IH]; intros f; [done|]. simpl. apply IH.
Qed.

Lemma ids_plug ctx : ∀ f, ids (plug f ctx) ≡ₚ ids f ++ ctx_ids ctx.
Proof.
  induction ctx as [|[i l r] ctx IH]; intros f; simpl.
  - by rewrite app_nil_r.
  - rewrite IH. cbn [ids]. rewrite flat_map_app. cbn [flat_map].
    rewrite <- Permutation_middle. simpl. f_equiv.
    rewrite !app_assoc. do 2 f_equiv. apply Permutation_app_comm.
Qed.

Lemma NoDup_plug f ctx :
  NoDup (ids (plug f ctx)) →
  NoDup (ids f) ∧ ∀ n, n ∈ ids f → n ∉ ctx_ids ctx.
Proof.
  rewrite ids_plug. intros (Hf & Hdis & _)%NoDup_app. by split.
Qed.

Lemma length_ctx_ids ctx : length ctx ≤ length (ctx_ids ctx).
Proof.
  induction ctx as [|[i l r] ctx IH]; simpl; [done|].
  rewrite !length_app. lia.
Qed.

Lemma plug_size f ctx : length ctx < size (plug f ctx).
Proof.
  rewrite <- length_ids, ids_plug, length_app.
  pose proof (length_ctx_ids ctx). destruct f. simpl. lia.
Qed.

Lemma shape_plug s ctx : ∀ f, shape s None (plug f ctx) → shape s (ctx_parent ctx) f.
Proof.
  induction ctx as [|[i l r] ctx IH]; intros f Hs; [done|].
  simpl in *. apply IH in Hs. eapply shape_kid; [exact Hs|].
  apply elem_of_app. right. by left.
Qed.

Lemma tip_plug t x : x ∈ tip_ids t → ∃ ctx, t = plug (Node x []) ctx.
Proof.
  induction t as [i ks IH] using tree_ind'. destruct ks as [|k0 ks'].
  - simpl. intros ->%list_elem_of_singleton. by exists [].
  - rewrite tip_ids_internal. set (ks := k0 :: ks') in *. clearbody ks.
    intros (k & Hk & Hx)%list_elem_of_In%in_flat_map.
    apply list_elem_of_In in Hk, Hx.
    rewrite Forall_forall in IH. destruct (IH k Hk Hx) as [ctx Hctx].
    apply list_elem_of_split in Hk as (l & r & ->).
    exists (ctx ++ [Frame i l r]). rewrite plug_app. simpl. by rewrite <- Hctx.
Qed.

Lemma kid_unique ks k1 k2 x :
  NoDup (flat_map ids ks) → k1 ∈ ks → k2 ∈ ks → x ∈ ids k1 → x ∈ ids k2 → k1 = k2.
Proof.
  induction ks as [|k ks IH]; intros Hd H1 H2 Hx1 Hx2; [by apply elem_of_nil in H1|].
  cbn [flat_map] in Hd. apply NoDup_app in Hd as (_ & Hdis & Hd).
  apply elem_of_cons in H1 as [->|H1], H2 as [->|H2]; [done| | |by apply IH].
  - exfalso. apply (Hdis x Hx1). by eapply kid_ids_in_forest.
  - exfalso. apply (Hdis x Hx2). by eapply kid_ids_in_forest.
Qed.

Lemma subtree_ids t : ∀ t' x, t' ∈ subtrees t → x ∈ ids t' → x ∈ ids t.
Proof.
  induction t as [i ks IH] using tree_ind'. intros t' x Ht' Hx.
  apply subtrees_inv in Ht' as [->|(k & Hk & Ht')]; [done|].
  rewrite Forall_forall in IH. cbn [ids]. right.
  eapply kid_ids_in_forest; [done|]. by eapply IH.
Qed.

(** *** What the marks count *)

Lemma hit_cons x T k : hit (x :: T) k ↔ x ∈ ids k ∨ hit T k.
Proof.
  unfold hit. split.
  - intros (y & [->|Hy]%elem_of_cons & Hin); [by left|right; eauto].
  - intros [Hx|(y & Hy & Hin)]; [exists x|exists y]; split; try done; by constructor.
Qed.

Lemma hit_kid T i ks k : k ∈ ks → hit T k → hit T (Node i ks).
Proof.
  intros Hk (y & Hy & Hin). exists y. split; [done|].
  cbn [ids]. right. by eapply kid_ids_in_forest.
Qed.

Lemma counted_ext s s' T T' i ks :
  attr black s i = attr black s' i →
  (∀ k, k ∈ ks → hit T k ↔ hit T' k) →
  counted s T i ks → counted s' T' i ks.
Proof.
  intros Hb Hhit. unfold counted. rewrite <- Hb.
  destruct (attr black s i) as [[L|]|]; [| |done].
  - intros (Hne & Hd & HL). split_and!; [done..|].
    intros c. rewrite HL. split; intros (k & Hk & Hr & Hh); exists k;
      (split_and!; [done..|by apply (Hhit k Hk)]).
  - intros Hno k Hk Hh. apply (Hno k Hk). by apply (Hhit k Hk).
Qed.

Lemma counted_tree_node s T i ks :
  counted_tree s T (Node i ks) ↔ counted s T i ks ∧ ∀ k, k ∈ ks → counted_tree s T k.
Proof.
  split.
  - intros H. split; [apply H, subtrees_self|].
    intros k Hk i' ks' Hsub. apply H. by eapply subtrees_kid.
  - intros [Hi Hks] i' ks' [Heq|(k & Hk & Hsub)]%subtrees_inv.
    + by injection Heq as -> ->.
    + by apply (Hks k Hk).
Qed.

Lemma counted_tree_ext s s' T T' t :
  (∀ n, n ∈ ids t → attr black s n = attr black s' n) →
  (∀ k, k ∈ subtrees t → hit T k ↔ hit T' k) →
  counted_tree s T t → counted_tree s' T' t.
Proof.
  intros Hb Hhit H i ks Hsub. eapply counted_ext; [| |by apply H].
  - apply Hb. eapply subtree_ids; [done|]. simpl. by left.
  - intros k Hk. apply Hhit.
    assert (Hin : k ∈ subtrees (Node i ks)) by (eapply subtrees_kid; [done|apply subtrees_self]).
    clear -Hsub Hin. revert Hsub Hin. generalize (Node i ks). intros t1 Hsub Hin.
    revert t1 k Hsub Hin. induction t as [j js IH] using tree_ind'.
    intros t1 k [->|(c & Hc & Hsub)]%subtrees_inv Hin; [done|].
    rewrite Forall_forall in IH. eapply subtrees_kid; [done|]. by eapply IH.
Qed.

Lemma counted_tree_add s s' T x t :
  (∀ n, n ∈ ids t → attr black s n = attr black s' n) →
  x ∉ ids t →
  counted_tree s T t → counted_tree s' (x :: T) t.
Proof.
  intros Hb Hx. apply counted_tree_ext; [done|].
  intros k Hk. rewrite hit_cons. split; [by right|].
  intros [Hin|H]; [|done]. exfalso. apply Hx. by eapply subtree_ids.
Qed.

Lemma counted_tree_plug s T ctx :
  ∀ f, counted_tree s T (plug f ctx) ↔ counted_tree s T f ∧ counted_ctx s T f ctx.
Proof.
  induction ctx as [|[i l r] ctx IH]; intros f; simpl; [tauto|].
  rewrite IH, counted_tree_node. split.
  - intros ((Hi & Hks) & Hctx). split_and!; try done.
    + apply Hks. apply elem_of_app. right. by left.
    + intros k [Hk|Hk]%elem_of_app; apply Hks; apply elem_of_app;
        [by left|right; by right].
  - intros (Hf & Hi & Hks & Hctx). split_and!; try done.
    intros k [Hk|[->|Hk]%elem_of_cons]%elem_of_app; [|done|];
      apply Hks; apply elem_of_app; [by left|by right].
Qed.

Lemma counted_ctx_ext s s' T ctx :
  ∀ f, (∀ n, n ∈ ctx_ids ctx → attr black s n = attr black s' n) →
       counted_ctx s T f ctx → counted_ctx s' T f ctx.
Proof.
  induction ctx as [|[i l r] ctx IH]; intros f Hb; [done|].
  simpl in *. intros (Hi & Hks & Hctx). split_and!.
  - eapply counted_ext; [|done|exact Hi]. apply Hb. by left.
  - intros k Hk. eapply counted_tree_ext; [| |by apply Hks]; [|done].
    intros n Hn. apply Hb. right.
    apply elem_of_app in Hk as [Hk|Hk].
    + apply elem_of_app. left. by eapply kid_ids_in_forest.
    + apply elem_of_app. right. apply elem_of_app. left. by eapply kid_ids_in_forest.
  - apply IH; [|done]. intros n Hn. apply Hb. right.
    apply elem_of_app. right. apply elem_of_app. by right.
Qed.

Lemma sibling_disjoint l f r k x :
  NoDup (flat_map ids (l ++ f :: r)) → x ∈ ids f → k ∈ l ++ r → x ∉ ids k.
Proof.
  intros Hd Hx Hk Hxk. rewrite flat_map_app in Hd. cbn [flat_map] in Hd.
  apply NoDup_app in Hd as (_ & Hdis1 & Hd2).
  apply NoDup_app in Hd2 as (_ & Hdis2 & _).
  apply elem_of_app in Hk as [Hk|Hk].
  - apply (Hdis1 x); [by eapply kid_ids_in_forest|]. apply elem_of_app. by left.
  - apply (Hdis2 x Hx). by eapply kid_ids_in_forest.
Qed.

Lemma sibling_in l (f : tree) r k : k ∈ l ++ r → k ∈ l ++ f :: r.
Proof.
  intros [Hk|Hk]%elem_of_app; apply elem_of_app; [by left|right; by right].
Qed.

Lemma set_black_same_tree s i nd b :
  nodes s !! i = Some nd →
  same_tree s (mkStore (<[i := set_black b nd]> (nodes s)) (cells s)).
Proof. intros H. repeat split; by apply same_insert. Qed.

Lemma counted_ctx_add_hit s T x ctx :
  ∀ f, NoDup (ids (plug f ctx)) → hit T f → x ∈ ids f →
       counted_ctx s T f ctx → counted_ctx s (x :: T) f ctx.
Proof.
  induction ctx as [|[i l r] ctx IH]; intros f Hd Hh Hx; [done|].
  cbn [plug counted_ctx] in *. intros (Hi & Hsib & Hctx).
  destruct (NoDup_plug _ _ Hd) as [Hdf _].
  cbn [ids] in Hdf. apply NoDup_cons in Hdf as [_ Hdks].
  assert (Hfin : f ∈ l ++ f :: r) by (apply elem_of_app; right; by left).
  split_and!.
  - eapply counted_ext; [done| |exact Hi].
    intros k Hk. rewrite hit_cons. split; [by right|].
    intros [Hxk|H]; [|done].
    by rewrite (kid_unique _ k f x Hdks Hk Hfin Hxk Hx).
  - intros k Hk. eapply counted_tree_add; [done| |by apply Hsib].
    by eapply sibling_disjoint.
  - apply IH; [done|by eapply hit_kid| |done].
    cbn [ids]. right. by eapply kid_ids_in_forest.
Qed.

(** *** One walk up *)

Lemma climb x T ctx :
  ∀ f s scrub fuel,
    shape s None (plug f ctx) → NoDup (ids (plug f ctx)) → length ctx < fuel →
    x ∈ ids f → ¬ hit T f →
    (∀ y, y ∈ T → attr Children s y = Some []) →
    counted_tree s (x :: T) f → counted_ctx s T f ctx → scrub_ok s scrub →
    ∃ prev curr scrub' s1 s2,
      mark_path fuel (root_id f) (ctx_parent ctx) scrub s = (Ok (prev, curr, scrub'), s1)
      ∧ count_hit prev curr s1 = (Ok tt, s2)
      ∧ counted_tree s2 (x :: T) (plug f ctx) ∧ scrub_ok s2 scrub'
      ∧ same_tree s s2.
Proof.
  induction ctx as [|[i l r] ctx IH];
    intros f s scrub fuel Hs Hd Hfuel Hx Hnh Hleaf Hf Hctx Hscrub.
  { destruct fuel as [|fuel]; [simpl in Hfuel; lia|].
    exists (root_id f), None, scrub, s, s. by split_and!. }
  destruct fuel as [|fuel]; [simpl in Hfuel; lia|].
  cbn [plug ctx_parent counted_ctx mark_path length] in *.
  set (ks := l ++ f :: r) in *.
  pose proof (shape_plug _ _ _ Hs) as (nd & Hnd & Hp & Hc & Hks)%shape_inv.
  destruct (NoDup_plug _ _ Hd) as [Hdf' Hdis].
  cbn [ids] in Hdf'. apply NoDup_cons in Hdf' as [Hi Hdks].
  destruct Hctx as (Hci & Hsib & Hctx).
  assert (Hfin : f ∈ ks) by (apply elem_of_app; right; by left).
  assert (Htruthy : truthy nd = true).
  { unfold truthy. rewrite Hc. unfold ks. by destruct l. }
  assert (Hbi0 : attr black s i = Some (black nd)) by apply (attr_lookup _ _ _ _ Hnd).
  assert (Hictx : i ∉ ctx_ids ctx) by (apply Hdis; simpl; by left).
  assert (Hxks : x ∈ flat_map ids ks) by by eapply kid_ids_in_forest.
  rewrite (bind_Ok _ _ _ _ _ (get_Ok _ _ _ Hnd)), Htruthy.
  unfold counted in Hci. rewrite Hbi0 in Hci.
  destruct (black nd) as [b|] eqn:Hb.
  - (* a marked node: the walk stops and is counted *)
    rewrite bool_decide_eq_true_2 by eauto. cbn [negb andb].
    set (s2 := mkStore (<[i := set_black (Some (b ++ [root_id f])) nd]> (nodes s)) (cells s)).
    exists (root_id f), (Some i), scrub, s, s2.
    split; [done|]. split.
    { unfold count_hit. rewrite (bind_Ok _ _ _ _ _ (get_Ok _ _ _ Hnd)), Htruthy, Hb.
      by apply modify_Ok. }
    assert (Hbl : ∀ n, n ≠ i → attr black s n = attr black s2 n).
    { intros n Hn. unfold s2. by rewrite attr_insert, decide_False. }
    assert (Hbi : attr black s2 i = Some (Some (b ++ [root_id f]))).
    { unfold s2. by rewrite attr_insert, decide_True. }
    destruct Hci as (Hne & HdL & HL).
    assert (Hhit' : hit T (Node i ks)).
    { destruct b as [|c b']; [done|].
      destruct (proj1 (HL c)) as (k & Hk & _ & Hh); [by left|]. by eapply hit_kid. }
    split_and!.
    + apply (counted_tree_plug s2 (x :: T) (Frame i l r :: ctx) f). split.
      * eapply counted_tree_ext; [|done|exact Hf].
        intros n Hn. apply Hbl. intros ->. apply Hi. by eapply kid_ids_in_forest.
      * cbn [counted_ctx]. fold ks. split_and!.
        -- unfold counted. rewrite Hbi. split_and!.
           ++ by destruct b.
           ++ apply NoDup_app. split_and!; [done| |apply NoDup_singleton].
              intros c Hc' ->%list_elem_of_singleton.
              apply HL in Hc' as (k & Hk & Hr & Hh). apply Hnh.
              rewrite <- (kid_unique _ k f (root_id f) Hdks Hk Hfin); [done| |apply root_in_ids].
              rewrite <- Hr. apply root_in_ids.
           ++ intros c. rewrite elem_of_app, list_elem_of_singleton, HL. split.
              ** intros [(k & Hk & Hr & Hh)| ->].
                 --- exists k. split_and!; [done..|]. apply hit_cons. by right.
                 --- exists f. split_and!; [done..|]. apply hit_cons. by left.
              ** intros (k & Hk & Hr & [Hxk|Hh]%hit_cons).
                 --- right. by rewrite <- Hr, (kid_unique _ k f x Hdks Hk Hfin Hxk Hx).
                 --- left. eauto.
        -- intros k Hk. eapply counted_tree_add; [| |by apply Hsib].
           ++ intros n Hn. apply Hbl. intros ->. apply Hi.
              eapply kid_ids_in_forest; [|done]. by apply sibling_in.
           ++ by eapply sibling_disjoint.
        -- apply counted_ctx_add_hit; [done|done|by right|].
           eapply counted_ctx_ext; [|exact Hctx].
           intros n Hn. apply Hbl. by intros ->.
    + destruct Hscrub as [Hsd Hsm]. split; [done|]. intros n Hn.
      destruct (decide (n = i)) as [->|Hne']; [eauto|].
      rewrite <- Hbl by done. by apply Hsm.
    + by apply set_black_same_tree.
  - (* an unmarked node: it is marked, and the walk goes on *)
    rewrite bool_decide_eq_false_2 by (by intros [? ?]). cbn [negb andb].
    rewrite (bind_Ok _ _ _ _ _ (modify_Ok _ _ _ _ Hnd)).
    set (s1 := mkStore (<[i := set_black (Some [root_id f]) nd]> (nodes s)) (cells s)).
    assert (Hsame : same_tree s s1) by by apply set_black_same_tree.
    assert (Hbl : ∀ n, n ≠ i → attr black s n = attr black s1 n).
    { intros n Hn. unfold s1. by rewrite attr_insert, decide_False. }
    assert (Hbi : attr black s1 i = Some (Some [root_id f])).
    { unfold s1. by rewrite attr_insert, decide_True. }
    rewrite Hp.
    destruct (IH (Node i ks) s1 (scrub ++ [i]) fuel)
      as (prev & curr & scrub' & s1' & s2 & Hrun & Hcount & Hgood & Hsc & Hsame2).
    + by eapply shape_same_tree.
    + done.
    + lia.
    + by right.
    + intros (y & Hy & [->|Hin]%elem_of_cons).
      * specialize (Hleaf _ Hy). rewrite (attr_lookup _ _ _ _ Hnd), Hc in Hleaf.
        unfold ks in Hleaf. by destruct l.
      * apply list_elem_of_In, in_flat_map in Hin as (k & Hk & Hin).
        apply list_elem_of_In in Hk, Hin. apply (Hci k Hk). by exists y.
    + intros y Hy. destruct Hsame as (_ & _ & _ & HC). rewrite <- HC. by apply Hleaf.
    + apply counted_tree_node. split.
      * unfold counted. rewrite Hbi. split_and!; [done|apply NoDup_singleton|].
        intros c. rewrite list_elem_of_singleton. split.
        -- intros ->. exists f. split_and!; [done..|]. apply hit_cons. by left.
        -- intros (k & Hk & Hr & [Hxk|Hh]%hit_cons).
           ++ by rewrite <- Hr, (kid_unique _ k f x Hdks Hk Hfin Hxk Hx).
           ++ by destruct (Hci k Hk).
      * intros k [Hk|[->|Hk]%elem_of_cons]%elem_of_app.
        -- eapply counted_tree_add; [| |apply Hsib; apply elem_of_app; by left].
           ++ intros n Hn. apply Hbl. intros ->. apply Hi.
              eapply kid_ids_in_forest; [|done]. apply elem_of_app. by left.
           ++ eapply sibling_disjoint; [done..|]. apply elem_of_app. by left.
        -- eapply counted_tree_ext; [|done|exact Hf].
           intros n Hn. apply Hbl. intros ->. apply Hi. by eapply kid_ids_in_forest.
        -- eapply counted_tree_add; [| |apply Hsib; apply elem_of_app; by right].
           ++ intros n Hn. apply Hbl. intros ->. apply Hi.
              eapply kid_ids_in_forest; [|done]. apply elem_of_app. right. by right.
           ++ eapply sibling_disjoint; [done..|]. apply elem_of_app. by right.
    + eapply counted_ctx_ext; [|exact Hctx]. intros n Hn. apply Hbl. by intros ->.
    + destruct Hscrub as [Hsd Hsm]. split.
      * apply NoDup_app. split_and!; [done| |apply NoDup_singleton].
        intros n Hn ->%list_elem_of_singleton.
        destruct (Hsm _ Hn) as [b Hb']. by rewrite Hbi0 in Hb'.
      * intros n [Hn|Hn]%elem_of_app;
          [|apply list_elem_of_singleton in Hn; subst n; eauto].
        destruct (decide (n = i)) as [->|Hne']; [eauto|].
        rewrite <- Hbl by done. by apply Hsm.
    + exists prev, curr, scrub', s1', s2. split_and!; try done.
      by etrans.
Qed.

(** *** All the walks up *)

Lemma tip_is_leaf s t x :
  shape s None t → x ∈ tip_ids t → attr Children s x = Some [].
Proof.
  intros Hs [ctx ->]%tip_plug.
  apply shape_plug in Hs as (nd & Hnd & _ & Hc & _)%shape_inv.
  by rewrite (attr_lookup _ _ _ _ Hnd), Hc.
Qed.

Lemma mark_tip_counts s t T x scrub fuel :
  shape s None t → NoDup (ids t) → size t ≤ fuel →
  x ∈ tip_ids t → x ∉ T →
  (∀ y, y ∈ T → attr Children s y = Some []) →
  counted_tree s T t → scrub_ok s scrub →
  ∃ scrub' s', mark_tip fuel scrub x s = (Ok scrub', s')
    ∧ counted_tree s' (x :: T) t ∧ scrub_ok s' scrub' ∧ same_tree s s'.
Proof.
  intros Hs Hd Hfuel [ctx ->]%tip_plug HxT Hleaf Hcount Hscrub.
  pose proof (shape_plug _ _ _ Hs) as (nd & Hnd & Hp & Hc & _)%shape_inv.
  apply counted_tree_plug in Hcount as [Hx Hctx].
  apply counted_tree_node in Hx as [Hx _].
  destruct (climb x T ctx (Node x []) s scrub fuel)
    as (prev & curr & scrub' & s1 & s2 & Hrun & Hhit & Hgood & Hsc & Hsame);
    try done.
  - pose proof (plug_size (Node x []) ctx). lia.
  - simpl. by left.
  - intros (y & Hy & ->%list_elem_of_singleton). done.
  - apply counted_tree_node. split.
    + eapply counted_ext; [done| |exact Hx]. by intros k ?%elem_of_nil.
    + by intros k ?%elem_of_nil.
  - exists scrub', s2. split; [|done].
    unfold mark_tip. rewrite (bind_Ok _ _ _ _ _ (get_Ok _ _ _ Hnd)), Hp.
    cbn [root_id] in Hrun. rewrite (bind_Ok _ _ _ _ _ Hrun).
    by rewrite (bind_Ok _ _ _ _ _ Hhit).
Qed.

Lemma mark_tips_count t fuel :
  NoDup (ids t) → size t ≤ fuel →
  ∀ ts T scrub s,
    shape s None t → NoDup (ts ++ T) →
    (∀ x, x ∈ ts ++ T → x ∈ tip_ids t) →
    counted_tree s T t → scrub_ok s scrub →
    ∃ scrub' s', fold_M (mark_tip fuel) ts scrub s = (Ok scrub', s')
      ∧ counted_tree s' (reverse ts ++ T) t ∧ scrub_ok s' scrub' ∧ same_tree s s'.
Proof.
  intros Hd Hfuel. induction ts as [|x ts IH]; intros T scrub s Hs Hnd Hin Hc Hsc.
  { exists scrub, s. by split_and!. }
  cbn [app] in Hnd. apply NoDup_cons in Hnd as [Hx Hnd].
  destruct (mark_tip_counts s t T x scrub fuel) as (scrub1 & s1 & Hrun & Hc1 & Hsc1 & Hsame1);
    try done.
  - apply Hin. by left.
  - intros HxT. apply Hx. apply elem_of_app. by right.
  - intros y Hy. eapply tip_is_leaf; [done|]. apply Hin. right. apply elem_of_app. by right.
  - destruct (IH (x :: T) scrub1 s1) as (scrub' & s' & Hrun' & Hc' & Hsc' & Hsame').
    + by eapply shape_same_tree.
    + apply NoDup_app. apply NoDup_app in Hnd as (Ht & Hdis & HT). split_and!; [done| |].
      * intros y Hy [->|HyT]%elem_of_cons; [|by apply (Hdis y)].
        apply Hx. apply elem_of_app. by left.
      * constructor; [|done]. intros HxT. apply Hx. apply elem_of_app. by right.
    + intros y [Hy|[->|Hy]%elem_of_cons]%elem_of_app; apply Hin.
      * right. apply elem_of_app. by left.
      * by left.
      * right. apply elem_of_app. by right.
    + done.
    + done.
    + exists scrub', s'. split_and!; [|by rewrite reverse_cons, <- app_assoc|done|by etrans].
      cbn [fold_M]. by rewrite (bind_Ok _ _ _ _ _ Hrun).
Qed.

(** *** The way down *)

Lemma size_kid k ks : k ∈ ks → size k ≤ list_sum (map size ks).
Proof.
  induction ks as [|k' ks IH]; intros Hk; [by apply elem_of_nil in Hk|].
  simpl. apply elem_of_cons in Hk as [->|Hk]; [lia|]. specialize (IH Hk). lia.
Qed.

Lemma descend_lowest s T :
  NoDup T → 2 ≤ length T →
  (∀ y, y ∈ T → attr Children s y = Some []) →
  ∀ t p fuel,
    shape s p t → NoDup (ids t) → counted_tree s T t →
    (∀ y, y ∈ T → y ∈ ids t) → size t ≤ fuel →
    ∃ r, descend fuel (root_id t) s = (Ok r, s) ∧ lowest t T r.
Proof.
  intros HdT HlenT Hleaf.
  induction t as [i ks IH] using tree_ind'. intros p fuel Hs Hd Hcount HT Hfuel.
  destruct fuel as [|fuel]; [simpl in Hfuel; lia|].
  pose proof Hs as (nd & Hnd & _ & Hc & Hks)%shape_inv.
  apply counted_tree_node in Hcount as [Hci Hck].
  cbn [ids] in Hd. apply NoDup_cons in Hd as [Hi Hdks].
  destruct T as [|y1 [|y2 T']]; [simpl in HlenT; lia..|].
  set (T := y1 :: y2 :: T') in *.
  assert (Hy12 : y1 ≠ y2).
  { apply NoDup_cons in HdT as [Hy _]. intros ->. apply Hy. by left. }
  (* no tip is the node itself: every tip lies below a child *)
  assert (Hbelow : ∀ y, y ∈ T → ∃ k, k ∈ ks ∧ y ∈ ids k).
  { assert (Hnot : ∀ y, y ∈ T → y = i → ks = []).
    { intros y Hy ->. specialize (Hleaf _ Hy).
      rewrite (attr_lookup _ _ _ _ Hnd), Hc in Hleaf. injection Hleaf as Hleaf.
      by destruct ks. }
    assert (Hks' : ks ≠ []).
    { intros ->.
      assert (y1 = i) by (specialize (HT y1 ltac:(by left)); simpl in HT; set_solver).
      assert (y2 = i) by (specialize (HT y2 ltac:(right; by left)); simpl in HT; set_solver).
      congruence. }
    intros y Hy. specialize (HT y Hy). cbn [ids] in HT.
    apply elem_of_cons in HT as [->|HT]; [by destruct (Hks' (Hnot i Hy eq_refl))|].
    apply list_elem_of_In, in_flat_map in HT as (k & Hk & Hin).
    exists k. by split; apply list_elem_of_In. }
  assert (Hhit : ∀ y, y ∈ T → ∃ k, k ∈ ks ∧ y ∈ ids k ∧ hit T k).
  { intros y Hy. destruct (Hbelow y Hy) as (k & Hk & Hin). exists k. split_and!; [done..|].
    by exists y. }
  cbn [descend root_id].
  rewrite (bind_Ok _ _ _ _ _ (get_Ok _ _ _ Hnd)).
  unfold counted in Hci. rewrite (attr_lookup _ _ _ _ Hnd) in Hci.
  destruct (black nd) as [L|] eqn:Hb.
  2:{ destruct (Hhit y1 ltac:(by left)) as (k & Hk & _ & Hh). by destruct (Hci k Hk). }
  destruct Hci as (HLne & HLd & HL).
  destruct L as [|c1 [|c2 L']]; [done| |].
  - (* one child holds all the tips: go down *)
    cbn [length Nat.eqb].
    destruct (proj1 (HL c1) ltac:(by left)) as (k & Hk & Hr & Hh).
    assert (Hall : ∀ y, y ∈ T → y ∈ ids k).
    { intros y Hy. destruct (Hhit y Hy) as (k' & Hk' & Hin & Hh').
      assert (Hc' : root_id k' ∈ [c1]) by (apply HL; eauto).
      apply list_elem_of_singleton in Hc'.
      assert (k' = k) as <-; [|done].
      apply (kid_unique ks k' k (root_id k') Hdks Hk' Hk); [apply root_in_ids|].
      rewrite Hc', <- Hr. apply root_in_ids. }
    rewrite Forall_forall in IH, Hks.
    destruct (IH k Hk (Some i) fuel) as (r & Hrun & sub & Hsub & Hroot & Hin & Hlow).
    + by apply Hks.
    + by eapply NoDup_kid.
    + by apply Hck.
    + done.
    + pose proof (size_kid k ks Hk). simpl in Hfuel. lia.
    + exists r. split.
      * change (py_get [c1] 0) with (Ok c1 : res handle).
        unfold pure_res, bind at 1. by rewrite <- Hr.
      * exists sub. split_and!; [by eapply subtrees_kid|done..].
  - (* two children hold tips: this is the node *)
    cbn [length Nat.eqb]. exists i. split; [done|].
    exists (Node i ks). split_and!; [apply subtrees_self|done| |].
    + intros y Hy. by apply HT.
    + cbn [kids_of]. intros k Hk Hall.
      apply NoDup_cons in HLd as [Hc12 _].
      destruct (proj1 (HL c1) ltac:(by left)) as (k1 & Hk1 & Hr1 & (z1 & Hz1 & Hin1)).
      destruct (proj1 (HL c2) ltac:(right; by left)) as (k2 & Hk2 & Hr2 & (z2 & Hz2 & Hin2)).
      assert (k1 = k) as -> by (eapply (kid_unique ks _ _ z1); eauto).
      assert (k2 = k) as -> by (eapply (kid_unique ks _ _ z2); eauto).
      apply Hc12. rewrite <- Hr1, Hr2. by left.
Qed.

(** *** The clean-up *)

Lemma scrub_runs l :
  ∀ s, NoDup l → (∀ n, n ∈ l → ∃ b, attr black s n = Some (Some b)) →
       ∃ s', for_each l delattr_black s = (Ok tt, s').
Proof.
  induction l as [|x l IH]; intros s Hd Hm; [by exists s|].
  apply NoDup_cons in Hd as [Hx Hd].
  destruct (Hm x ltac:(by left)) as [b Hb].
  apply attr_Some_inv in Hb as (nd & Hnd & Hb).
  set (s1 := mkStore (<[x := set_black None nd]> (nodes s)) (cells s)).
  destruct (IH s1 Hd) as [s' Hrun].
  { intros n Hn. unfold s1. rewrite attr_insert, decide_False by (by intros ->).
    apply Hm. by right. }
  exists s'. cbn [for_each].
  assert (Hdel : delattr_black x s = (Ok tt, s1)).
  { unfold delattr_black. rewrite (bind_Ok _ _ _ _ _ (get_Ok _ _ _ Hnd)), Hb.
    by apply modify_Ok. }
  by rewrite (bind_Ok _ _ _ _ _ Hdel).
Qed.

Lemma map_M_length {A B} (f : A → M B) l :
  ∀ s r s', map_M f l s = (Ok r, s') → length r = length l.
Proof.
  induction l as [|x l IH]; intros s r s' Hrun; simpl in Hrun.
  - by injection Hrun as <- _.
  - apply bind_Ok_inv in Hrun as (y & s1 & _ & Hrun).
    apply bind_Ok_inv in Hrun as (ys & s2 & Hys & Hrun).
    injection Hrun as <- _. simpl. f_equal. by eapply IH.
Qed.

Lemma lowest_same_elements t T T' r :
  (∀ y, y ∈ T ↔ y ∈ T') → lowest t T r → lowest t T' r.
Proof.
  intros HT (sub & Hsub & Hr & Hin & Hlow). exists sub. split_and!; [done..| |].
  - intros y Hy. apply Hin. by apply HT.
  - intros k Hk Hall. apply (Hlow k Hk). intros y Hy. apply Hall. by apply HT.
Qed.

(** What [lowest_common_ancestor] does on two or more tips *)
Lemma lowest_common_ancestor_run s self t fuel tipnames ts s0 :
  holds s self t → is_root s self → unmarked s → size t < fuel →
  map_M (find fuel self) tipnames s = (Ok ts, s0) →
  NoDup ts → (∀ x, x ∈ ts → x ∈ tip_ids t) → 2 ≤ length ts →
  ∃ r s', lowest_common_ancestor fuel self tipnames s = (Ok (Some r), s')
    ∧ lowest t ts r ∧ unmarked s' ∧ same_tree s s'.
Proof.
  intros Ht Hroot Hun Hfuel Hfind Hd Htips Hlen.
  assert (Hsame0 : same_tree s s0).
  { apply (preserves_run same_tree (map_M (find fuel self) tipnames) s (Ok ts) s0);
      [|done]. apply preserves_map_M; [apply _|]. intros x. apply find_tree. }
  assert (Hun0 : unmarked s0).
  { eapply same_black_unmarked; [|exact Hun].
    apply (preserves_run (same black) (map_M (find fuel self) tipnames) s (Ok ts) s0);
      [|done]. apply preserves_map_M; [apply _|]. intros x. apply find_black. }
  pose proof (holds_same_tree _ _ _ _ Hsame0 Ht) as Ht0.
  pose proof Ht0 as (Hr & [p Hs0] & Hdt).
  assert (p = None) as ->.
  { destruct t as [i ks]. simpl in Hr. subst i.
    apply shape_inv in Hs0 as (nd & Hnd & Hp & _).
    destruct Hroot as (nd' & Hnd' & Hp').
    destruct Hsame0 as (_ & _ & HP & _). specialize (HP self).
    rewrite (attr_lookup _ _ _ _ Hnd), (attr_lookup _ _ _ _ Hnd') in HP.
    congruence. }
  assert (Hc0 : counted_tree s0 [] t).
  { intros i ks Hsub. unfold counted.
    assert (Hi : i ∈ ids t) by (eapply subtree_ids; [done|]; simpl; by left).
    pose proof (holds_in_store _ _ _ Ht0) as Hall. rewrite Forall_forall in Hall.
    destruct (Hall i Hi) as [nd Hnd].
    rewrite (attr_lookup _ _ _ _ Hnd), (Hun0 i nd Hnd).
    intros k _ (y & Hy & _). by apply elem_of_nil in Hy. }
  destruct (mark_tips_count t fuel Hdt ltac:(lia) ts [] [] s0)
    as (scrub & s1 & Hmark & Hc1 & [Hsd Hsm] & Hsame1); try done.
  { by rewrite app_nil_r. }
  { intros x. rewrite app_nil_r. apply Htips. }
  { split; [constructor|]. by intros n ?%elem_of_nil. }
  rewrite app_nil_r in Hc1.
  destruct (descend_lowest s1 (reverse ts)) with (t := t) (p := @None handle) (fuel := fuel)
    as (r & Hdesc & Hlow); try done.
  { by rewrite reverse_Permutation. }
  { rewrite length_reverse. lia. }
  { intros y Hy. rewrite elem_of_reverse in Hy.
    apply (tip_is_leaf s1 t); [by apply (shape_same_tree s0 s1)|by apply Htips]. }
  { by apply (shape_same_tree s0 s1). }
  { intros y Hy. rewrite elem_of_reverse in Hy. by apply tip_ids_subseteq, Htips. }
  { lia. }
  destruct (scrub_runs scrub s1 Hsd Hsm) as [s2 Hscrub].
  assert (Hrun : lowest_common_ancestor fuel self tipnames s = (Ok (Some r), s2)).
  { unfold lowest_common_ancestor.
    rewrite <- (map_M_length _ _ _ _ _ Hfind).
    destruct (length ts =? 1) eqn:H1; [apply Nat.eqb_eq in H1; lia|].
    rewrite (bind_Ok _ _ _ _ _ Hfind).
    destruct (length ts =? 0) eqn:H0; [apply Nat.eqb_eq in H0; lia|].
    rewrite (bind_Ok _ _ _ _ _ Hmark). destruct t as [i ks]. simpl in Hr. subst i.
    cbn [root_id] in Hdesc. rewrite (bind_Ok _ _ _ _ _ Hdesc).
    by rewrite (bind_Ok _ _ _ _ _ Hscrub). }
  exists r, s2. split; [done|]. split.
  - eapply lowest_same_elements; [|exact Hlow]. intros y. apply elem_of_reverse.
  - by eapply lowest_common_ancestor_scrubs_on_return.
Qed.

(** X22.  Called on the root of a tree with the names of two or more
    different tips of the tree, [lowest_common_ancestor] returns the lowest
    node that has all of them below it: they all lie in its subtree, and
    not all of them in the subtree of one of its children.  It leaves no
    [black] attribute behind and changes no name, length, parent or list
    of children.  (The names are those that [find] resolves to the tips
    [ts]; nodes may be given in place of names.) *)
Theorem lowest_common_ancestor_of_tips s self t fuel tipnames ts s0 :
  holds s self t → is_root s self → unmarked s → size t < fuel →
  map_M (find fuel self) tipnames s = (Ok ts, s0) →
  NoDup ts → (∀ x, x ∈ ts → x ∈ tip_ids t) → 2 ≤ length ts →
  ∃ r s', lowest_common_ancestor fuel self tipnames s = (Ok (Some r), s')
    ∧ lowest t ts r ∧ unmarked s' ∧ same_tree s s'.
Proof. apply lowest_common_ancestor_run. Qed.

Lemma lowest_common_ancestor_of_tips_witness :
  ∃ r s', lowest_common_ancestor 10 0 [ByName "C"; ByName "D"] left_store
          = (Ok (Some r), s')
    ∧ lowest left_tree [2; 3] r ∧ unmarked s' ∧ same_tree left_store s'.
Proof.
  apply (lowest_common_ancestor_of_tips left_store 0 left_tree 10
           [ByName "C"; ByName "D"] [2; 3]
           (map_M (find 10 0) [ByName "C"; ByName "D"] left_store).2).
  - apply holdsb_holds. vm_compute. reflexivity.
  - eexists. split; reflexivity.
  - change (map_Forall (λ _ nd, black nd = None) (nodes left_store)).
    apply (bool_decide_unpack _). vm_compute. exact I.
  - simpl. lia.
  - vm_compute. reflexivity.
  - repeat constructor; set_solver.
  - intros x Hx. simpl. set_solver.
  - simpl. lia.
Defined.

(** ** prune on any tree *)

(** The body of the second loop of [prune] *)
Notation prune_node := (λ n : handle,
  let* nd := get n in
  let* p := pure_res (or_raise AttributeError (Parent nd)) in
  let* c := pure_res (py_get (Children nd) 0) in
  let* _ := append p c in
  let* _ := remove p n in
  ret tt).

Lemma py_get_head {A} (c : A) l : py_get (c :: l) 0 = Ok c.
Proof.
  unfold py_get, py_index. cbn [length]. rewrite (proj2 (Z.ltb_ge 0 0)) by lia.
  rewrite (proj2 (Z.leb_le 0 0)) by lia.
  by rewrite (proj2 (Z.ltb_lt 0 (Z.of_nat (S (length l))))) by lia.
Qed.

Lemma prune_node_runs si n p c cs' :
  linked si → attr Parent si n = Some (Some p) → attr Children si n = Some (c :: cs') →
  ∃ s', prune_node n si = (Ok tt, s') ∧ linked s'
    ∧ (∀ x, attr Parent s' x
            = if decide (x = n) then Some None
              else if decide (x = c) then Some (Some p) else attr Parent si x)
    ∧ (∀ x, x ≠ p → attr Children s' x = without c <$> attr Children si x)
    ∧ (c ≠ n → ∃ L, attr Children s' p = Some L ∧ c ∈ L).
Proof.
  intros Hl HP HK.
  destruct (attr_Some_inv _ _ _ _ HP) as (nd & Hnd & Hp).
  pose proof (attr_lookup Children si n nd Hnd) as HC. rewrite HK in HC.
  injection HC as HC.
  pose proof Hl as (H1 & H2 & H3).
  destruct (H2 n p HP) as (csp & Hcsp & Hn).
  assert (Hp_in : is_Some (nodes si !! p)) by (apply (is_Some_attr Children); eauto).
  assert (Hc_in : is_Some (nodes si !! c)).
  { eapply linked_child_in_store; [done|exact HK|by left]. }
  destruct (runs_append si p c Hl Hp_in Hc_in) as (s1 & Hrun1 & HP1 & HK1).
  assert (Hl1 : linked s1) by (by apply (linked_append si s1 p c)).
  set (L := without c csp ++ [c]).
  assert (HKp : attr Children s1 p = Some L).
  { rewrite HK1, Hcsp. cbn [fmap option_fmap option_map]. by rewrite decide_True. }
  assert (HnL : n ∈ L).
  { unfold L. apply elem_of_app. destruct (decide (n = c)) as [->|Hne].
    - right. by left.
    - left. by apply without_elem. }
  assert (Hn_in1 : is_Some (nodes s1 !! n)).
  { apply (is_Some_attr Parent). rewrite HP1. destruct (decide (n = c)); [done|].
    by rewrite HP. }
  destruct Hl1 as (H1' & H2' & H3').
  destruct (runs_remove_found s1 p n L HKp (H3' _ _ HKp) HnL Hn_in1)
    as (s2 & Hrun2 & HP2 & HK2).
  exists s2. split_and!.
  - cbn beta. rewrite (bind_Ok _ _ _ _ _ (get_Ok _ _ _ Hnd)), Hp, <- HC, py_get_head.
    cbn [or_raise]. unfold pure_res, bind at 1 2.
    rewrite (bind_Ok _ _ _ _ _ Hrun1). by rewrite (bind_Ok _ _ _ _ _ Hrun2).
  - by apply (linked_detach s1 s2 p n L).
  - intros x. by rewrite HP2, HP1.
  - intros x Hx. rewrite HK2, decide_False by done. rewrite HK1.
    destruct (attr Children si x) as [cs|]; [|done]. simpl. by rewrite decide_False.
  - intros Hcn. exists (without n L). split.
    + by rewrite HK2, decide_True.
    + apply without_elem. split; [done|]. unfold L. apply elem_of_app. right. by left.
Qed.

Lemma prune_loop (U : list handle) :
  ∀ (si : store) (finished keep : list handle),
    linked si → NoDup U →
    (∀ n, n ∈ U → (∃ p, attr Parent si n = Some (Some p))
                  ∧ ∃ c cs', attr Children si n = Some (c :: cs')) →
    (∀ n, n ∈ finished → attr Parent si n = Some None) →
    (∀ x, x ∈ keep → x ∉ U ∧ ∃ p, attr Parent si x = Some (Some p)) →
    ∃ s', for_each U prune_node si = (Ok tt, s') ∧ linked s'
      ∧ (∀ n, n ∈ finished ++ U → attr Parent s' n = Some None)
      ∧ (∀ x, x ∈ keep → ∃ p, attr Parent s' x = Some (Some p))
      ∧ (∀ x, is_Some (nodes si !! x) → is_Some (nodes s' !! x)).
Proof.
  induction U as [|n U IH]; intros si finished keep Hl Hd HU Hfin Hkeep.
  { exists si. split_and!; try done.
    - intros n. rewrite app_nil_r. apply Hfin.
    - intros x Hx. by apply Hkeep. }
  apply NoDup_cons in Hd as [HnU Hd].
  destruct (HU n ltac:(by left)) as [[p HP] (c & cs' & HK)].
  destruct (prune_node_runs si n p c cs' Hl HP HK) as (s1 & Hrun & Hl1 & HP1 & HK1 & HKp).
  pose proof Hl as (H1 & H2 & H3).
  assert (Hpc : attr Parent si c = Some (Some n)) by (eapply H1; [exact HK|by left]).
  destruct (IH s1 (finished ++ [n]) keep) as (s' & Hrun' & Hl' & Hfin' & Hkeep' & Hin');
    try done.
  - intros n' Hn'. assert (Hne : n' ≠ n) by (by intros ->).
    destruct (HU n' ltac:(by right)) as [[p' HP'] (c' & cs'' & HK')]. split.
    + rewrite HP1, decide_False by done. destruct (decide (n' = c)); eauto.
    + destruct (decide (n' = p)) as [->|Hnp].
      * destruct HKp as (L & HL & HcL).
        { intros ->. rewrite HP in Hpc. by injection Hpc as ->. }
        destruct L as [|c0 L]; [by apply elem_of_nil in HcL|]. eauto.
      * rewrite (HK1 n' Hnp), HK'. cbn [fmap option_fmap option_map].
        rewrite without_notin; [eauto|].
        intros Hc. pose proof (H1 n' _ c HK' Hc) as Hpc'. rewrite Hpc in Hpc'.
        by injection Hpc' as ->.
  - intros d [Hd'|Hd']%elem_of_app.
    + rewrite HP1. destruct (decide (d = n)); [done|].
      rewrite decide_False; [by apply Hfin|].
      intros ->. rewrite (Hfin c Hd') in Hpc. done.
    + apply list_elem_of_singleton in Hd'. subst d. by rewrite HP1, decide_True.
  - intros x Hx. destruct (Hkeep x Hx) as [HxU [p' HP']]. split.
    + intros HxU'. apply HxU. by right.
    + rewrite HP1, decide_False by (intros ->; apply HxU; by left).
      destruct (decide (x = c)); eauto.
  - exists s'. split_and!; try done.
    + cbn [for_each]. by rewrite (bind_Ok _ _ _ _ _ Hrun).
    + intros d Hd'. apply Hfin'. rewrite <- app_assoc. done.
    + intros x Hx. apply Hin'. apply (is_Some_attr Parent). rewrite HP1.
      destruct (decide (x = n)); [done|]. destruct (decide (x = c)); [done|].
      by apply is_Some_attr.
Qed.

(** *** The nodes that [prune] collects *)

Lemma roots_of_subtrees t : map root_id (subtrees t) = ids t.
Proof.
  induction t as [i ks IH] using tree_ind'. cbn [subtrees ids map]. f_equal.
  induction IH as [|k ks Hk _ IHks]; [done|].
  cbn [flat_map]. by rewrite map_app, Hk, IHks.
Qed.

Lemma roots_of_forest ks : map root_id (flat_map subtrees ks) = flat_map ids ks.
Proof.
  induction ks as [|k ks IH]; [done|].
  cbn [flat_map]. by rewrite map_app, roots_of_subtrees, IH.
Qed.

Lemma NoDup_filter_fst {A B} (P : A * B → Prop) `{!∀ x, Decision (P x)} (l : list (A * B)) :
  NoDup l.*1 → NoDup (filter P l).*1.
Proof.
  induction l as [|x l IH]; [done|]. cbn [fmap list_fmap].
  intros [Hx Hd]%NoDup_cons. destruct (decide (P x)).
  - rewrite filter_cons_True by done. cbn [fmap list_fmap]. constructor; [|by apply IH].
    intros (y & Hy & Hin)%list_elem_of_fmap. apply Hx.
    apply list_elem_of_fmap. exists y. split; [done|].
    by apply list_elem_of_filter in Hin as [_ ?].
  - rewrite filter_cons_False by done. by apply IH.
Qed.

Lemma NoDup_fst_functional {A B} (l : list (A * B)) a b b' :
  NoDup l.*1 → (a, b) ∈ l → (a, b') ∈ l → b = b'.
Proof.
  induction l as [|x l IH]; intros Hd H1 H2; [by apply elem_of_nil in H1|].
  cbn [fmap list_fmap] in Hd. apply NoDup_cons in Hd as [Hx Hd].
  apply elem_of_cons in H1 as [H1|H1], H2 as [H2|H2].
  - rewrite <- H1 in H2. by injection H2.
  - subst x. destruct Hx. apply list_elem_of_fmap. by exists (a, b').
  - subst x. destruct Hx. apply list_elem_of_fmap. by exists (a, b).
  - by apply IH.
Qed.

Lemma subtree_below_parent s t :
  ∀ q k, shape s (Some q) t → k ∈ subtrees t → ∃ q', shape s (Some q') k.
Proof.
  induction t as [i ks IH] using tree_ind'. intros q k Hs Hk.
  apply subtrees_inv in Hk as [->|(k0 & Hk0 & Hk)]; [eauto|].
  rewrite Forall_forall in IH. eapply (IH k0 Hk0 i); [|done].
  by eapply shape_kid.
Qed.

(** X23.  [prune] returns on every tree whose Parent and Children
    attributes agree.  Afterwards every node below the starting node that
    had exactly one child is without parent, every other node below the
    starting node still has one, the name cache of the starting node is
    empty, and the attributes agree. *)
Theorem prune_detaches_single_child_nodes s self t fuel :
  holds s self t → linked s → size t < fuel →
  ∃ s', prune fuel self s = (Ok tt, s')
    ∧ (∀ k, k ∈ flat_map subtrees (kids_of t) →
         if decide (length (kids_of k) = 1)
         then attr Parent s' (root_id k) = Some None
         else ∃ p, attr Parent s' (root_id k) = Some (Some p))
    ∧ attr _node_cache s' self = Some ∅
    ∧ linked s'.
Proof.
  intros Ht Hl Hfuel.
  destruct (holds_inv _ _ _ Ht) as (p & ks & -> & Hs & Hself & Hd).
  cbn [kids_of].
  set (pairs := map (λ k, (root_id k, length (kids_of k))) (flat_map subtrees ks)).
  set (U := (filter (λ x : handle * nat, x.2 = 1) pairs).*1).
  assert (Hfst : pairs.*1 = flat_map ids ks).
  { unfold pairs. rewrite <- roots_of_forest.
    rewrite <- list_fmap_compose. done. }
  assert (HdU : NoDup U).
  { apply NoDup_filter_fst. by rewrite Hfst. }
  assert (Hpair : ∀ k, k ∈ flat_map subtrees ks → (root_id k, length (kids_of k)) ∈ pairs).
  { intros k Hk. apply list_elem_of_fmap. by exists k. }
  assert (HU : ∀ n, n ∈ U ↔ (n, 1) ∈ pairs).
  { intros n. unfold U. rewrite list_elem_of_fmap. split.
    - intros ([a b] & -> & [Hb Hin]%list_elem_of_filter). simpl in *. by subst b.
    - intros Hin. exists (n, 1). split; [done|]. by apply list_elem_of_filter. }
  assert (Hshape : ∀ k, k ∈ flat_map subtrees ks → ∃ q, shape s (Some q) k).
  { intros k (k0 & Hk0 & Hk)%forest_subtrees_inv.
    eapply (subtree_below_parent s k0 self); [|done]. by eapply shape_kid. }
  set (keep := map root_id
                 (filter (λ k, length (kids_of k) ≠ 1) (flat_map subtrees ks))).
  destruct (prune_loop U s [] keep Hl HdU) as (s1 & Hloop & Hl1 & Hfin & Hkeep & Hin).
  { intros n Hn. apply HU in Hn.
    apply list_elem_of_fmap in Hn as (k & Heq & Hk). injection Heq as -> Hlen.
    destruct (Hshape k Hk) as [q Hq]. destruct k as [i cs]. cbn [root_id kids_of] in *.
    apply shape_inv in Hq as (nd & Hnd & Hp & Hc & _).
    rewrite (attr_lookup Parent s i nd Hnd), (attr_lookup Children s i nd Hnd), Hp, Hc.
    split; [eauto|]. destruct cs as [|c cs]; [done|]. simpl. eauto. }
  { by intros n ?%elem_of_nil. }
  { intros x (k & -> & [Hlen Hk]%list_elem_of_filter)%list_elem_of_fmap. split.
    - intros Hx%HU. apply Hlen. symmetry.
      by apply (NoDup_fst_functional pairs (root_id k) 1 (length (kids_of k)));
        [rewrite Hfst| |apply Hpair].
    - destruct (Hshape k Hk) as [q Hq]. destruct k as [i cs].
      apply shape_inv in Hq as (nd & Hnd & Hp & _).
      exists q. cbn [root_id]. by rewrite (attr_lookup Parent s i nd Hnd), Hp. }
  assert (Hself1 : is_Some (nodes s1 !! self)) by (apply Hin; by eapply holds_self).
  destruct (runs_invalidate s1 self Hself1) as (s' & Hinv & HP' & HK').
  assert (Hrun : prune fuel self s = (Ok tt, s')).
  { unfold prune. unfold bind at 1, lift at 1. unfold traverse.
    rewrite (preorder_holds s self (Node self ks) false) by done.
    cbn [kids_of]. unfold bind at 1, lift at 1.
    rewrite (child_counts s ks) by (eapply rooted_kids; by exists p).
    fold pairs. fold U. by rewrite (bind_Ok _ _ _ _ _ Hloop). }
  exists s'. split_and!.
  - done.
  - intros k Hk. rewrite HP'. destruct (decide (length (kids_of k) = 1)) as [Hlen|Hlen].
    + apply Hfin. apply HU. rewrite <- Hlen. by apply Hpair.
    + apply Hkeep. apply list_elem_of_fmap. exists k. split; [done|].
      by apply list_elem_of_filter.
  - by eapply invalidate_node_cache_empties.
  - by apply (linked_same s1 s').
Qed.

Lemma prune_detaches_single_child_nodes_witness :
  ∃ s', prune 10 0 chain_and_e = (Ok tt, s')
    ∧ (∀ k, k ∈ flat_map subtrees (kids_of (Node 0 [Node 1 [Node 2 []]; Node 3 []])) →
         if decide (length (kids_of k) = 1)
         then attr Parent s' (root_id k) = Some None
         else ∃ p, attr Parent s' (root_id k) = Some (Some p))
    ∧ attr _node_cache s' 0 = Some ∅
    ∧ linked s'.
Proof.
  apply (prune_detaches_single_child_nodes chain_and_e 0
           (Node 0 [Node 1 [Node 2 []]; Node 3 []]) 10).
  - apply holdsb_holds. vm_compute. reflexivity.
  - apply linkedb_linked. vm_compute. reflexivity.
  - simpl. lia.
Defined.

(** ** distance between two tips *)

Lemma below_exists w t a : a ∈ ids t → ∃ d, below w t a d.
Proof.
  induction t as [i ks IH] using tree_ind'. cbn [ids]. intros [->|Ha]%elem_of_cons.
  - exists 0%Z. constructor.
  - apply list_elem_of_In, in_flat_map in Ha as (k & Hk & Ha).
    apply list_elem_of_In in Hk, Ha. rewrite Forall_forall in IH.
    destruct (IH k Hk Ha) as [d Hd]. eexists. by econstructor.
Qed.

Lemma sumZ_app l1 l2 : sumZ (l1 ++ l2) = (sumZ l1 + sumZ l2)%Z.
Proof. induction l1 as [|x l1 IH]; simpl; [done|]. rewrite IH. lia. Qed.

Lemma sumZ_perm l l' : l ≡ₚ l' → sumZ l = sumZ l'.
Proof. induction 1; simpl; lia. Qed.

Lemma sumZ_nonneg l : Forall (λ x, (0 <= x)%Z) l → (0 <= sumZ l)%Z.
Proof. induction 1; simpl; lia. Qed.

Lemma sumZ_NoDup_subset (w : handle → Z) (path : list handle) :
  ∀ N : list handle,
    NoDup path → (∀ x, x ∈ path → x ∈ N) → (∀ n, n ∈ N → (0 <= w n)%Z) →
    (sumZ (map w path) <= sumZ (map w N))%Z.
Proof.
  induction path as [|x path IH]; intros N Hd Hsub Hw.
  - simpl. apply sumZ_nonneg. apply Forall_forall.
    intros y (n & -> & Hn)%list_elem_of_fmap. by apply Hw.
  - apply NoDup_cons in Hd as [Hx Hd].
    destruct (proj1 (elem_of_Permutation N x)) as [N' HN]; [apply Hsub; by left|].
    rewrite (sumZ_perm (map w N) (map w (x :: N'))) by (by apply fmap_Permutation).
    simpl. specialize (IH N' Hd). cut (sumZ (map w path) <= sumZ (map w N'))%Z; [lia|].
    apply IH.
    + intros y Hy. assert (Hin : y ∈ x :: N') by (rewrite <- HN; apply Hsub; by right).
      apply elem_of_cons in Hin as [->|Hin]; done.
    + intros n Hn. apply Hw. rewrite HN. by right.
Qed.

Lemma exact_nonneg ls :
  ∀ acc, (0 <= acc)%Z → Forall (λ x, (0 <= x)%Z) ls → (acc + sumZ ls <= 2 ^ 53)%Z →
         exact_sum acc ls = true.
Proof.
  induction ls as [|l ls IH]; intros acc Hacc Hls Hsum; [done|].
  apply Forall_cons in Hls as [Hl Hls]. pose proof (sumZ_nonneg ls Hls). simpl in *.
  rewrite (IH (acc + l)%Z) by (try done; lia).
  rewrite !Z.abs_eq by lia.
  rewrite (proj2 (Z.leb_le l (2 ^ 53))) by lia.
  by rewrite (proj2 (Z.leb_le (acc + l) (2 ^ 53))) by lia.
Qed.

(** The walk up from a node of a tree to the root of the tree, and the
    branch lengths on it *)
Lemma below_lengths s w t a d :
  ∀ p, shape s p t → NoDup (ids t) → below w t a d →
    (∀ n, n ∈ flat_map ids (kids_of t) → branch_length s n = Some (w n)) →
    ∃ k path, walk_up s a k = Some (path, root_id t)
      ∧ mapM (branch_length s) path = Some (map w path)
      ∧ sumZ (map w path) = d
      ∧ (∀ x, x ∈ path → x ∈ flat_map ids (kids_of t))
      ∧ NoDup path ∧ k < size t.
Proof.
  intros p Hs Hd Hb. revert p Hs Hd.
  induction Hb as [i ks|i ks k a d Hk Hb IH]; intros p Hs Hd Hw.
  - exists 0, []. split_and!; try done.
    + by intros x ?%elem_of_nil.
    + constructor.
    + simpl. lia.
  - pose proof (shape_kid _ _ _ _ _ Hs Hk) as Hsk.
    cbn [ids] in Hd. apply NoDup_cons in Hd as [Hi Hdks].
    pose proof (NoDup_kid _ _ Hdks Hk) as Hdk.
    cbn [kids_of] in Hw.
    assert (Hsubk : ∀ x, x ∈ ids k → x ∈ flat_map ids ks)
      by (intros x Hx; by eapply kid_ids_in_forest).
    destruct (IH _ Hsk Hdk) as (n & path & Hwalk & Hls & Hsum & Hpath & Hnd & Hn).
    { intros x Hx. apply Hw, Hsubk. destruct k. simpl in *. by right. }
    exists (n + 1), (path ++ [root_id k]). split_and!.
    + eapply walk_up_app; [done|]. by apply walk_up_parent.
    + rewrite map_app. apply mapM_Some. apply Forall2_app; [by apply mapM_Some|].
      constructor; [|constructor]. apply Hw, Hsubk, root_in_ids.
    + rewrite map_app, sumZ_app. simpl. lia.
    + intros x [Hx|Hx]%elem_of_app; cbn [kids_of]; apply Hsubk.
      * destruct k. simpl in *. right. by apply Hpath.
      * apply list_elem_of_singleton in Hx. subst x. apply root_in_ids.
    + apply NoDup_app. split_and!; [done| |apply NoDup_singleton].
      intros x Hx Hx'. apply list_elem_of_singleton in Hx'. subst x.
      destruct k as [j js]. cbn [ids root_id kids_of] in *.
      apply NoDup_cons in Hdk as [Hj _]. by apply Hj, Hpath.
    + pose proof (size_kid k ks Hk). simpl. lia.
Qed.

Lemma accumulate_exact s a anc k path ls fuel :
  walk_up s a k = Some (path, anc) → anc ∉ path →
  mapM (branch_length s) path = Some ls → exact_sum 0 ls = true → k < fuel →
  _accumulate_to_ancestor fuel s a anc = Ok (Finite (sumZ ls)).
Proof.
  intros Hw Ha Hls Hex Hfuel. unfold _accumulate_to_ancestor.
  replace fuel with (k + S (fuel - k - 1)) by lia.
  rewrite (accumulate_loop_walk s anc k a path anc ls (Finite 0) _ Hw Ha Hls).
  rewrite (float_sum_exact ls 0 Hex). simpl. by rewrite Nat.eqb_refl.
Qed.

Lemma joined_subtree w t :
  ∀ sub a b e, sub ∈ subtrees t → joined w sub a b e → joined w t a b e.
Proof.
  induction t as [i ks IH] using tree_ind'. intros sub a b e Hsub Hj.
  apply subtrees_inv in Hsub as [->|(k & Hk & Hsub)]; [done|].
  rewrite Forall_forall in IH. eapply joined_kid; [done|]. by eapply IH.
Qed.

Lemma below_subtree sub t x :
  sub ∈ subtrees t → x ∈ flat_map ids (kids_of sub) → x ∈ flat_map ids (kids_of t).
Proof.
  destruct t as [i ks]. intros [->|(k & Hk & Hsub)]%subtrees_inv Hx; [done|].
  cbn [kids_of]. eapply kid_ids_in_forest; [done|].
  eapply subtree_ids; [done|]. destruct sub. simpl in *. by right.
Qed.

Lemma branch_length_attr s n : branch_length s n = mjoin (attr Length s n).
Proof. unfold branch_length, attr. by destruct (nodes s !! n). Qed.

Lemma root_shape s self t : holds s self t → is_root s self → shape s None t.
Proof.
  intros (Hr & [p Hs] & _) (nd & Hnd & Hp). destruct t as [i ks]. simpl in Hr. subst i.
  pose proof Hs as (nd' & Hnd' & Hp' & _)%shape_inv.
  assert (p = None) as -> by congruence. done.
Qed.

(** A tip below the node [i] of a tree lies below one of its children;
    this is the walk from the tip up to [i]. *)
Lemma tip_to_ancestor s w i ks q a :
  shape s q (Node i ks) → NoDup (ids (Node i ks)) →
  (∀ n, n ∈ flat_map ids ks → branch_length s n = Some (w n)) →
  a ∈ flat_map ids ks →
  ∃ k d n path,
    k ∈ ks ∧ a ∈ ids k ∧ below w k a d
    ∧ walk_up s a n = Some (path, i)
    ∧ mapM (branch_length s) path = Some (map w path)
    ∧ sumZ (map w path) = (w (root_id k) + d)%Z
    ∧ (∀ x, x ∈ path → x ∈ ids k)
    ∧ NoDup path ∧ n < size (Node i ks).
Proof.
  intros Hs Hd Hw Ha.
  apply list_elem_of_In, in_flat_map in Ha as (k & Hk & Ha).
  apply list_elem_of_In in Hk, Ha.
  destruct (below_exists w k a Ha) as [d Hb].
  pose proof (shape_kid _ _ _ _ _ Hs Hk) as Hsk.
  cbn [ids] in Hd. apply NoDup_cons in Hd as [Hi Hdks].
  pose proof (NoDup_kid _ _ Hdks Hk) as Hdk.
  assert (Hsubk : ∀ x, x ∈ ids k → x ∈ flat_map ids ks)
    by (intros x Hx; by eapply kid_ids_in_forest).
  destruct (below_lengths s w k a d _ Hsk Hdk Hb) as (n & path & Hwalk & Hls & Hsum & Hpath & Hnd & Hn).
  { intros x Hx. apply Hw, Hsubk. destruct k. simpl in *. by right. }
  exists k, d, (n + 1), (path ++ [root_id k]). split_and!; try done.
  - eapply walk_up_app; [done|]. by apply walk_up_parent.
  - rewrite map_app. apply mapM_Some. apply Forall2_app; [by apply mapM_Some|].
    constructor; [|constructor]. apply Hw, Hsubk, root_in_ids.
  - rewrite map_app, sumZ_app. simpl. lia.
  - intros x [Hx|Hx]%elem_of_app.
    + destruct k. simpl in *. right. by apply Hpath.
    + apply list_elem_of_singleton in Hx. subst x. apply root_in_ids.
  - apply NoDup_app. split_and!; [done| |apply NoDup_singleton].
    intros x Hx Hx'. apply list_elem_of_singleton in Hx'. subst x.
    destruct k as [j js]. cbn [ids root_id kids_of] in *.
    apply NoDup_cons in Hdk as [Hj _]. by apply Hj, Hpath.
  - pose proof (size_kid k ks Hk). simpl. lia.
Qed.

(** X24.  For two different tips of a tree, [distance] returns the sum of
    the branch lengths on the path that joins them; this on a tree whose
    nodes below the root all have a branch length, none negative and all
    together at most 2^53, so that every float sum is exact.  The call
    leaves no [black] attribute behind and changes no name, length, parent
    or list of children. *)
Theorem distance_between_tips s r t fuel a b :
  holds s r t → is_root s r → unmarked s → size t < fuel →
  a ∈ tip_ids t → b ∈ tip_ids t → a ≠ b →
  (∀ n, n ∈ flat_map ids (kids_of t) → ∃ l, branch_length s n = Some l ∧ (0 <= l)%Z) →
  (sumZ (map (length_or s 0) (flat_map ids (kids_of t))) <= 2 ^ 53)%Z →
  ∃ e s', distance fuel a b s = (Ok (Finite e), s')
    ∧ joined (length_or s 0) t a b e ∧ unmarked s' ∧ same_tree s s'.
Proof.
  intros Ht Hroot Hun Hfuel Ha Hb Hab Hlen Hsum.
  set (w := length_or s 0). set (N := flat_map ids (kids_of t)) in *.
  assert (Hw : ∀ n, n ∈ N → branch_length s n = Some (w n) ∧ (0 <= w n)%Z).
  { intros n Hn. destruct (Hlen n Hn) as (l & Hl & Hl0).
    assert (w n = l) as ->; [|done].
    unfold w, length_or. rewrite branch_length_attr in Hl.
    destruct (attr Length s n) as [[l'|]|]; simpl in Hl; congruence. }
  pose proof (root_shape _ _ _ Ht Hroot) as Hs.
  pose proof Ht as (Hr & _ & Hd).
  (* the root *)
  assert (Hrt : root fuel s a = Ok r).
  { destruct (below_exists w t a (tip_ids_subseteq t a Ha)) as [d0 Hb0].
    destruct (below_lengths s w t a d0 None Hs Hd Hb0) as (k & path & Hwalk & _ & _ & _ & _ & Hk).
    { intros n Hn. by apply Hw. }
    rewrite Hr in Hwalk. eapply root_walk; [done..|lia]. }
  (* the lowest common ancestor *)
  destruct (lowest_common_ancestor_run s r t fuel [ByNode a; ByNode b] [a; b] s)
    as (lca & s' & Hlca & Hlow & Hun' & Hsame); try done.
  { apply NoDup_cons. split; [by intros ->%list_elem_of_singleton|apply NoDup_singleton]. }
  { intros x [->|[->|Hx%elem_of_nil]%elem_of_cons]%elem_of_cons; done. }
  pose proof Hsame as (_ & HL & _ & _).
  assert (Hw' : ∀ n, n ∈ N → branch_length s' n = Some (w n)).
  { intros n Hn. rewrite branch_length_attr, <- HL, <- branch_length_attr. by apply Hw. }
  pose proof (shape_same_tree _ _ _ Hsame _ Hs) as Hs'.
  destruct Hlow as (sub & Hsub & Hsubr & Hin & Hlow).
  destruct sub as [i ks]. cbn [root_id] in Hsubr. subst i. cbn [kids_of] in Hlow.
  pose proof (subtree_NoDup _ _ Hd Hsub) as Hdsub.
  destruct (subtree_shape _ _ _ _ Hs' Hsub) as [q Hssub].
  assert (Hleaf : ∀ x, x ∈ [a; b] → x ∈ flat_map ids ks).
  { assert (Hks : ks ≠ []).
    { intros ->. pose proof (Hin a ltac:(by left)) as H1.
      pose proof (Hin b ltac:(right; by left)) as H2. simpl in H1, H2.
      apply list_elem_of_singleton in H1, H2. congruence. }
    intros x Hx. pose proof (Hin x Hx) as Hx'. cbn [ids] in Hx'.
    apply elem_of_cons in Hx' as [->|Hx']; [|done].
    assert (Htip : lca ∈ tip_ids t).
    { apply elem_of_cons in Hx as [->|[->|Hx%elem_of_nil]%elem_of_cons]; done. }
    pose proof (tip_is_leaf _ _ _ Hs' Htip) as Hc.
    apply shape_inv in Hssub as (nd & Hnd & _ & Hcs & _).
    rewrite (attr_lookup _ _ _ _ Hnd), Hcs in Hc. injection Hc as Hc.
    by destruct ks. }
  assert (Hwsub : ∀ n, n ∈ flat_map ids ks → branch_length s' n = Some (w n)).
  { intros n Hn. apply Hw'. by apply (below_subtree (Node lca ks) t). }
  destruct (tip_to_ancestor s' w lca ks q a Hssub Hdsub Hwsub (Hleaf a ltac:(by left)))
    as (k1 & d1 & n1 & pa & Hk1 & Ha1 & Hb1 & Hwa & Hla & Hsa & Hpa & Hda & Hn1).
  destruct (tip_to_ancestor s' w lca ks q b Hssub Hdsub Hwsub (Hleaf b ltac:(right; by left)))
    as (k2 & d2 & n2 & pb & Hk2 & Ha2 & Hb2 & Hwb & Hlb & Hsb & Hpb & Hdb & Hn2).
  cbn [ids] in Hdsub. apply NoDup_cons in Hdsub as [Hnl Hdks].
  assert (Hk12 : k1 ≠ k2).
  { intros ->. apply (Hlow k2 Hk2).
    intros x [->|[->|Hx%elem_of_nil]%elem_of_cons]%elem_of_cons; done. }
  (* the sums are exact *)
  assert (HinN : ∀ k x, k ∈ ks → x ∈ ids k → x ∈ N).
  { intros k x Hk Hx. apply (below_subtree (Node lca ks) t); [done|].
    by eapply kid_ids_in_forest. }
  assert (Hdab : NoDup (pa ++ pb)).
  { apply NoDup_app. split_and!; [done| |done].
    intros x Hxa Hxb. apply Hk12.
    by apply (kid_unique ks k1 k2 x Hdks Hk1 Hk2); [apply Hpa|apply Hpb]. }
  assert (Hbound : (sumZ (map w pa) + sumZ (map w pb) <= 2 ^ 53)%Z).
  { rewrite <- sumZ_app, <- map_app. etrans; [|exact Hsum].
    apply sumZ_NoDup_subset; [done| |intros n Hn; by apply Hw].
    intros x [Hx|Hx]%elem_of_app; [by apply (HinN k1), Hpa|by apply (HinN k2), Hpb]. }
  assert (Hnn : ∀ k (path : list handle), k ∈ ks → (∀ x, x ∈ path → x ∈ ids k) →
                Forall (λ x, (0 <= x)%Z) (map w path)).
  { intros k path Hk Hp. apply Forall_forall.
    intros y (n & -> & Hn)%list_elem_of_fmap. by apply Hw, (HinN k), Hp. }
  pose proof (sumZ_nonneg _ (Hnn k1 pa Hk1 Hpa)) as Hsa0.
  pose proof (sumZ_nonneg _ (Hnn k2 pb Hk2 Hpb)) as Hsb0.
  assert (Hsize : size (Node lca ks) ≤ size t).
  { rewrite <- !length_ids. apply submseteq_length, NoDup_submseteq.
    - by constructor.
    - intros x Hx. by eapply subtree_ids. }
  assert (Hacc_a : _accumulate_to_ancestor fuel s' a lca = Ok (Finite (sumZ (map w pa)))).
  { apply (accumulate_exact s' a lca n1 pa); try done; [|by apply exact_nonneg; eauto; lia|lia].
    intros Hx. apply Hnl. eapply kid_ids_in_forest; [exact Hk1|by apply Hpa]. }
  assert (Hacc_b : _accumulate_to_ancestor fuel s' b lca = Ok (Finite (sumZ (map w pb)))).
  { apply (accumulate_exact s' b lca n2 pb); try done; [|by apply exact_nonneg; eauto; lia|lia].
    intros Hx. apply Hnl. eapply kid_ids_in_forest; [exact Hk2|by apply Hpb]. }
  exists (sumZ (map w pa) + sumZ (map w pb))%Z, s'. split_and!; try done.
  - unfold distance. rewrite (proj2 (Nat.eqb_neq a b) Hab).
    unfold bind at 1, lift at 1. rewrite Hrt.
    rewrite (bind_Ok _ _ _ _ _ Hlca).
    unfold bind, lift, accumulate_to. rewrite Hacc_a, Hacc_b.
    cbn [float_add ret]. by rewrite to_float_exact by (rewrite Z.abs_eq; lia).
  - apply (joined_subtree w t (Node lca ks)); [done|].
    apply list_elem_of_lookup in Hk1 as [j1 Hj1], Hk2 as [j2 Hj2].
    rewrite Hsa, Hsb.
    apply (joined_split w lca ks j1 j2 k1 k2 a b d1 d2); try done.
    intros ->. congruence.
Qed.

Lemma distance_between_tips_witness :
  ∃ e s', distance 10 2 4 left_store = (Ok (Finite e), s')
    ∧ joined (length_or left_store 0) left_tree 2 4 e
    ∧ unmarked s' ∧ same_tree left_store s'.
Proof.
  apply (distance_between_tips left_store 0 left_tree 10 2 4).
  - apply holdsb_holds. vm_compute. reflexivity.
  - eexists. split; reflexivity.
  - change (map_Forall (λ _ nd, black nd = None) (nodes left_store)).
    apply (bool_decide_unpack _). vm_compute. exact I.
  - simpl. lia.
  - simpl. set_solver.
  - simpl. set_solver.
  - done.
  - intros n Hn. simpl in Hn.
    repeat (apply elem_of_cons in Hn as [->|Hn]; [eexists; split; [reflexivity|done]|]).
    by apply elem_of_nil in Hn.
  - by vm_compute.
Defined.

